(** * DEAP [tools.py]: archives and multi-objective selection

    A shallow embedding of the hall of fame, the Pareto-front archive,
    the NSGA-II and SPEA-II selection operators and the randomized
    order-statistic selection of [deap/tools.py], followed by the
    properties established about them.

    Conventions.
    - Python lists are Rocq lists; [l !! i] reads a slot, [<[i:=x]> l]
      writes one and [alter f i l] updates one in place.
    - Python integers are [Z] where the source subtracts or indexes from the
      end, and [nat] where they only ever count positions.
    - Floating-point objective values are modelled by rationals [Q]; the
      value [float("inf")] is a separate constructor of [Float].
    - A computation that can raise returns [option]; [None] stands for the
      exception.  Loops of the form [while] carry a fuel argument, and the
      functions calling them pass a fuel that is proved sufficient. *)

From Stdlib Require Import QArith.
From stdpp Require Import base option list numbers sorting.
Close Scope Q_scope.

(** ** Python list primitives *)

(** [l[i]] with Python's index rule: [0 <= i < len] counts from the front,
    [-len <= i < 0] from the back, anything else raises [IndexError]. *)
Definition py_index {A} (l : list A) (i : Z) : option nat :=
  let n := Z.of_nat (length l) in
  if ((0 <=? i) && (i <? n))%Z then Some (Z.to_nat i)
  else if ((- n <=? i) && (i <? 0))%Z then Some (Z.to_nat (n + i))
  else None.

Definition py_get {A} (l : list A) (i : Z) : option A :=
  k ← py_index l i; l !! k.

(** [l[i] = x] *)
Definition py_set {A} (l : list A) (i : Z) (x : A) : option (list A) :=
  k ← py_index l i; Some (<[k:=x]> l).

(** [del l[i]] *)
Definition py_del {A} (l : list A) (i : Z) : option (list A) :=
  k ← py_index l i; Some (delete k l).

(** [l.insert(i, x)]: the position is clamped to [0 .. len], a negative one
    being first counted from the back. *)
Definition py_insert {A} (l : list A) (i : Z) (x : A) : list A :=
  let n := Z.of_nat (length l) in
  let p := Z.to_nat (if (i <? 0)%Z then Z.max 0 (n + i) else Z.min i n) in
  take p l ++ x :: drop p l.

(** [l[:n]] *)
Definition py_take {A} (l : list A) (n : Z) : list A :=
  if (n <? 0)%Z then take (Z.to_nat (Z.of_nat (length l) + n)) l
  else take (Z.to_nat n) l.

(** [enumerate(l)], counting from [i]. *)
Fixpoint enumerate_from {A} (i : nat) (l : list A) : list (nat * A) :=
  match l with
  | [] => []
  | x :: l' => (i, x) :: enumerate_from (S i) l'
  end.

Definition enumerate {A} (l : list A) : list (nat * A) := enumerate_from 0 l.

(** [for x in l: st = body(st, x)] where the body can raise. *)
Fixpoint for_each {A S} (l : list A) (body : S → A → option S) (st : S)
  : option S :=
  match l with
  | [] => Some st
  | x :: l' => st' ← body st x; for_each l' body st'
  end.

(** ** Numbers *)

Definition Qltb (x y : Q) : bool :=
  match (x ?= y)%Q with Lt => true | _ => false end.

(** A Python float that is either finite or [float("inf")]. *)
Inductive Float : Type :=
| Fin (q : Q)
| Inf.

Definition Float_ltb (x y : Float) : bool :=
  match x, y with
  | Fin a, Fin b => Qltb a b
  | Fin _, Inf => true
  | Inf, _ => false
  end.

Definition Float_add (x : Float) (d : Q) : Float :=
  match x with
  | Fin a => Fin (a + d)%Q
  | Inf => Inf
  end.

(** A stable sort: [insert_by lt x l] puts [x] in front of the first element
    that is not smaller than it, so that among equal elements the order of the
    input is kept, as [list.sort] and [sorted] do. *)
Fixpoint insert_by {A} (lt : A → A → bool) (x : A) (l : list A) : list A :=
  match l with
  | [] => [x]
  | y :: l' => if lt y x then y :: insert_by lt x l' else x :: l
  end.

Definition sort_by {A} (lt : A → A → bool) (l : list A) : list A :=
  foldr (insert_by lt) [] l.

(** ** Order-statistic selection *)

Section Select.

(** The random source: [randint g a b] is [random.randint(a, b)] drawn from
    the generator state [g], together with the next state. *)
Context {Rng : Type}.
Variable randint : Rng → Z → Z → Z * Rng.

(** [random.randint(a, b)] raises [ValueError] on an empty range. *)
Definition py_randint (g : Rng) (a b : Z) : option (Z * Rng) :=
  if (b <? a)%Z then None else Some (randint g a b).

(** [while array[j] > x: j -= 1] *)
Fixpoint scan_down (fuel : nat) (array : list Q) (x : Q) (j : Z)
  : option Z :=
  match fuel with
  | O => None
  | S fuel' =>
      a ← py_get array j;
      if Qltb x a then scan_down fuel' array x (j - 1) else Some j
  end.

(** [while array[i] < x: i += 1] *)
Fixpoint scan_up (fuel : nat) (array : list Q) (x : Q) (i : Z)
  : option Z :=
  match fuel with
  | O => None
  | S fuel' =>
      a ← py_get array i;
      if Qltb a x then scan_up fuel' array x (i + 1) else Some i
  end.

(** [array[i], array[j] = array[j], array[i]] *)
Definition py_swap (array : list Q) (i j : Z) : option (list Q) :=
  ai ← py_get array i;
  aj ← py_get array j;
  array1 ← py_set array i aj;
  py_set array1 j ai.

(** The [while True] loop of [_partition]. *)
Fixpoint partition_loop (fuel : nat) (array : list Q) (x : Q) (i j : Z)
  : option (list Q * Z) :=
  match fuel with
  | O => None
  | S fuel' =>
      let scan_fuel := S (2 * length array) in
      j1 ← scan_down scan_fuel array x (j - 1);
      i1 ← scan_up scan_fuel array x (i + 1);
      if (i1 <? j1)%Z then
        array1 ← py_swap array i1 j1;
        partition_loop fuel' array1 x i1 j1
      else Some (array, j1)
  end.

Definition _partition (array : list Q) (begin end_ : Z)
  : option (list Q * Z) :=
  x ← py_get array begin;
  partition_loop (S (length array)) array x (begin - 1) (end_ + 1).

Definition _randomizedPartition (g : Rng) (array : list Q) (begin end_ : Z)
  : option (list Q * Z * Rng) :=
  '(i, g1) ← py_randint g begin end_;
  array1 ← py_swap array begin i;
  '(array2, q) ← _partition array1 begin end_;
  Some (array2, q, g1).

(** [_randomizedSelect] with a bound on the depth of the recursion; the
    result carries the array as the call leaves it
    and the generator state.  The rank [i] is a number, not only an
    integer: [selSPEA2] passes [math.sqrt(N)]. *)
Fixpoint randomizedSelect_fuel (fuel : nat) (g : Rng) (array : list Q)
    (begin end_ : Z) (i : Q) : option (Q * list Q * Rng) :=
  match fuel with
  | O => None
  | S fuel' =>
      if (begin =? end_)%Z then
        a ← py_get array begin; Some (a, array, g)
      else
        '(array1, q, g1) ← _randomizedPartition g array begin end_;
        let k := (q - begin + 1)%Z in
        if Qltb i (inject_Z k) then
          randomizedSelect_fuel fuel' g1 array1 begin q i
        else
          randomizedSelect_fuel fuel' g1 array1 (q + 1) end_
            (i - inject_Z k)%Q
  end.

(** Each recursive call works on a strictly shorter range, so the length of
    the range bounds the depth of the recursion. *)
Definition _randomizedSelect (g : Rng) (array : list Q) (begin end_ : Z)
    (i : Q) : option (Q * list Q * Rng) :=
  randomizedSelect_fuel (S (Z.to_nat (end_ - begin))) g array begin end_ i.

(** Every value [_randomizedSelect] can return, over all the pivots
    [random.randint] can draw. *)
Fixpoint select_outcomes (fuel : nat) (array : list Q) (begin end_ : Z)
    (i : Q) : list (option Q) :=
  match fuel with
  | O => [None]
  | S fuel' =>
      if (begin =? end_)%Z then [py_get array begin]
      else if (end_ <? begin)%Z then [None]
      else
        r ← seqZ begin (end_ - begin + 1);
        match array1 ← py_swap array begin r; _partition array1 begin end_ with
        | None => [None]
        | Some (array2, q) =>
            let k := (q - begin + 1)%Z in
            if Qltb i (inject_Z k) then
              select_outcomes fuel' array2 begin q i
            else
              select_outcomes fuel' array2 (q + 1) end_ (i - inject_Z k)%Q
        end
  end.

End Select.

(** ** The hall of fame

    The class [Fitness] lives in [deap/base.py]; its comparison [<], its
    equality and its dominance test are parameters here.  [a > b] is read as
    [b < a].  Individuals are values, so [copy.deepcopy] is the identity. *)

(** [bisect.bisect_right(a, x)] of the Python library, for a list compared
    with [lt]: a binary search between [lo] and [hi].  Each round at least
    halves [hi - lo], so [length a] rounds are enough. *)
Fixpoint bisect_loop {A} (lt : A → A → bool) (fuel : nat) (a : list A)
    (x : A) (lo hi : nat) : nat :=
  match fuel with
  | O => lo
  | S fuel' =>
      if lo <? hi then
        let mid := (lo + hi) `div` 2 in
        match a !! mid with
        | Some y =>
            if lt x y then bisect_loop lt fuel' a x lo mid
            else bisect_loop lt fuel' a x (S mid) hi
        | None => lo
        end
      else lo
  end.

Definition bisect_right {A} (lt : A → A → bool) (a : list A) (x : A) : nat :=
  bisect_loop lt (length a) a x 0 (length a).

Module HallOfFame.
Section Defs.

Context {Fit Ind : Type}.
Variable fitness : Ind → Fit.
Variable fit_lt : Fit → Fit → bool.

(** [maxsize] is [None] for the Pareto front, which passes [None] to
    [HallOfFame.__init__]. *)
Record t : Type := Build {
  maxsize : option Z;
  keys : list Fit;
  items : list Ind
}.

(** [HallOfFame(maxsize)] *)
Definition init (maxsize : option Z) : t :=
  {| maxsize := maxsize; keys := []; items := [] |}.

(** [len(self)] *)
Definition len (h : t) : Z := Z.of_nat (length (items h)).

Definition insert (h : t) (item : Ind) : t :=
  let i := Z.of_nat (bisect_right fit_lt (keys h) (fitness item)) in
  {| maxsize := maxsize h;
     keys := py_insert (keys h) i (fitness item);
     items := py_insert (items h) (len h - i) item |}.

(** [index % len(self)] raises [ZeroDivisionError] on an empty hall. *)
Definition remove (h : t) (index : Z) : option t :=
  if (len h =? 0)%Z then None
  else
    keys1 ← py_del (keys h) (len h - (index `mod` len h + 1));
    items1 ← py_del (items h) index;
    Some {| maxsize := maxsize h; keys := keys1; items := items1 |}.

(** [sorted(l, key=attrgetter("fitness"), reverse=True)]: best first,
    individuals of equal fitness in the order of [l]. *)
Definition sorted_best_first (l : list Ind) : list Ind :=
  sort_by (λ a b, fit_lt (fitness b) (fitness a)) l.

(** [len(self) < self.maxsize]; in Python 2 no integer is below [None]. *)
Definition has_room (h : t) : bool :=
  match maxsize h with
  | Some m => (len h <? m)%Z
  | None => false
  end.

(** The body of the loop over the population, once the hall is full. *)
Definition update_one (h : t) (ind : Ind) : option t :=
  worst ← py_get (items h) (-1);
  if fit_lt (fitness worst) (fitness ind) then
    h1 ← remove h (-1);
    Some (insert h1 ind)
  else Some h.

Definition update (h : t) (population : list Ind) : option t :=
  if has_room h then
    let items1 :=
      py_take (sorted_best_first (items h ++ population))
              (default 0%Z (maxsize h)) in
    Some {| maxsize := maxsize h;
            keys := fitness <$> reverse items1;
            items := items1 |}
  else for_each population update_one h.

End Defs.
End HallOfFame.

(** ** The Pareto front *)

Module ParetoFront.
Section Defs.

Context {Fit Ind : Type}.
Variable fitness : Ind → Fit.
Variable fit_lt : Fit → Fit → bool.
(** [fit_eqb a b] is [a == b] on fitnesses. *)
Variable fit_eqb : Fit → Fit → bool.
(** [isDominated a b] is [a.isDominated(b)]: [a] is dominated by [b]. *)
Variable isDominated : Fit → Fit → bool.
(** The similarity function given to [ParetoFront(similar)]. *)
Variable similar : Ind → Ind → bool.

(** [ParetoFront(similar)] *)
Definition init : HallOfFame.t (Fit:=Fit) (Ind:=Ind) := HallOfFame.init None.

(** The loop over [enumerate(self)]: the result is [is_dominated],
    [has_twin] and [to_remove] as the loop leaves them, by [break] or at
    the end of the hall. *)
Fixpoint scan (ind : Ind) (hofers : list (nat * Ind)) (to_remove : list nat)
  : bool * bool * list nat :=
  match hofers with
  | [] => (false, false, to_remove)
  | (i, hofer) :: rest =>
      if isDominated (fitness ind) (fitness hofer) then
        (true, false, to_remove)
      else if isDominated (fitness hofer) (fitness ind) then
        scan ind rest (to_remove ++ [i])
      else if fit_eqb (fitness ind) (fitness hofer) && similar ind hofer then
        (false, true, to_remove)
      else scan ind rest to_remove
  end.

(** The body of the loop over the population. *)
Definition update_one (h : HallOfFame.t) (ind : Ind)
  : option HallOfFame.t :=
  let '(is_dominated, has_twin, to_remove) :=
    scan ind (enumerate (HallOfFame.items h)) [] in
  h1 ← for_each (reverse to_remove)
         (λ h i, HallOfFame.remove h (Z.of_nat i)) h;
  if negb is_dominated && negb has_twin then
    Some (HallOfFame.insert fitness fit_lt h1 ind)
  else Some h1.

Definition update (h : HallOfFame.t) (population : list Ind)
  : option HallOfFame.t :=
  for_each population update_one h.

End Defs.
End ParetoFront.

(** ** Non-dominated sorting (NSGA-II) *)

(** [l[k] = f(l[k])], as [l[k] += 1] or [l[k].append(x)] do. *)
Definition py_update {A} (l : list A) (k : nat) (f : A → A)
  : option (list A) :=
  x ← l !! k; Some (<[k := f x]> l).

Section NSGA2.

Context {Fit Ind : Type}.
Variable fitness : Ind → Fit.
(** [values f] is [f.values], the objective values of a fitness. *)
Variable values : Fit → list Q.
(** [isDominated a b] is [a.isDominated(b)]: [a] is dominated by [b]. *)
Variable isDominated : Fit → Fit → bool.

(** The body of the loop over [j] in the ranking of the first front. *)
Definition rank_pair (individuals : list Ind) (i : nat)
    (st : list Z * list (list nat)) (j : nat)
  : option (list Z * list (list nat)) :=
  let '(dominating_inds, dominated_inds) := st in
  ind_i ← individuals !! i;
  ind_j ← individuals !! j;
  if isDominated (fitness ind_j) (fitness ind_i) then
    dominating_inds1 ← py_update dominating_inds j Z.succ;
    dominated_inds1 ← py_update dominated_inds i (λ l, l ++ [j]);
    Some (dominating_inds1, dominated_inds1)
  else if isDominated (fitness ind_i) (fitness ind_j) then
    dominating_inds1 ← py_update dominating_inds i Z.succ;
    dominated_inds1 ← py_update dominated_inds j (λ l, l ++ [i]);
    Some (dominating_inds1, dominated_inds1)
  else Some st.

(** The body of the loop over [i]: the state also holds the first front,
    [pareto_fronts[-1]], and [pareto_sorted]. *)
Definition rank_first (individuals : list Ind)
    (st : list Z * list (list nat) * list nat * Z) (i : nat)
  : option (list Z * list (list nat) * list nat * Z) :=
  let '(dominating_inds, dominated_inds, front, pareto_sorted) := st in
  let N := length individuals in
  '(dominating_inds1, dominated_inds1) ←
    for_each (seq (i + 1) (N - (i + 1))) (rank_pair individuals i)
             (dominating_inds, dominated_inds);
  c ← dominating_inds1 !! i;
  if (c =? 0)%Z then
    Some (dominating_inds1, dominated_inds1, front ++ [i], (pareto_sorted + 1)%Z)
  else Some (dominating_inds1, dominated_inds1, front, pareto_sorted).

(** The body of the loop over [indice_d]; [front] is the front being built,
    [pareto_fronts[-1]]. *)
Definition release (st : list Z * list nat * Z) (indice_d : nat)
  : option (list Z * list nat * Z) :=
  let '(dominating_inds, front, pareto_sorted) := st in
  dominating_inds1 ← py_update dominating_inds indice_d Z.pred;
  c ← dominating_inds1 !! indice_d;
  if (c =? 0)%Z then
    Some (dominating_inds1, front ++ [indice_d], (pareto_sorted + 1)%Z)
  else Some (dominating_inds1, front, pareto_sorted).

(** The body of the loop over [indice_p]. *)
Definition release_all (dominated_inds : list (list nat))
    (st : list Z * list nat * Z) (indice_p : nat)
  : option (list Z * list nat * Z) :=
  ds ← dominated_inds !! indice_p;
  for_each ds release st.

(** The [while pareto_sorted < N] loop.  The front appended at the start of a
    round is built in [front] and joins [pareto_fronts] at the end of the
    round; [pareto_fronts[-2]] is the last front of the rounds before. *)
Fixpoint rank_next (fuel : nat) (dominated_inds : list (list nat)) (N : Z)
    (dominating_inds : list Z) (pareto_fronts : list (list nat))
    (pareto_sorted : Z) : option (list (list nat)) :=
  match fuel with
  | O => None
  | S fuel' =>
      if (pareto_sorted <? N)%Z then
        previous ← py_get pareto_fronts (-1);
        '(dominating_inds1, front, pareto_sorted1) ←
          for_each previous (release_all dominated_inds)
                   (dominating_inds, [], pareto_sorted);
        rank_next fuel' dominated_inds N dominating_inds1
                  (pareto_fronts ++ [front]) pareto_sorted1
      else Some pareto_fronts
  end.

(** The fronts as lists of positions in [individuals].  Every round of the
    [while] loop that does not end it ranks one more individual at least when
    dominance is a strict order, so [length individuals] rounds and the last
    test are enough. *)
Definition sortFastND_indices (individuals : list Ind) (n : Z)
    (first_front_only : bool) : option (list (list nat)) :=
  let N := length individuals in
  if (n =? 0)%Z then Some []
  else
    '(dominating_inds, dominated_inds, front, pareto_sorted) ←
      for_each (seq 0 N) (rank_first individuals)
               (replicate N 0%Z, replicate N [], [], 0%Z);
    if negb first_front_only then
      rank_next (S N) dominated_inds (Z.min (Z.of_nat N) n)
                dominating_inds [front] pareto_sorted
    else Some [front].

Definition sortFastND (individuals : list Ind) (n : Z)
    (first_front_only : bool) : option (list (list Ind)) :=
  pareto_fronts ← sortFastND_indices individuals n first_front_only;
  mapM (mapM (λ index, individuals !! index)) pareto_fronts.

(** [element[0].fitness.values[i]] *)
Definition objective (ind : Ind) (i : nat) : option Q :=
  values (fitness ind) !! i.

(** [crowding.sort(key=lambda element: element[0].fitness.values[i])]: the
    keys are computed first, then the list is sorted on them. *)
Definition sort_crowding (i : nat) (crowding : list (Ind * nat))
  : option (list (Ind * nat)) :=
  keyed ← mapM (λ element, key ← objective element.1 i; Some (key, element))
               crowding;
  Some ((sort_by (λ a b, Qltb a.1 b.1) keyed).*2).

(** The body of the loop over [j]. *)
Definition spread (i : nat) (crowding : list (Ind * nat))
    (distances : list Float) (j : nat) : option (list Float) :=
  element ← crowding !! j;
  d ← distances !! element.2;
  if Float_ltb d Inf then
    next ← crowding !! (j + 1);
    previous ← crowding !! (j - 1);
    v_next ← objective next.1 i;
    v_previous ← objective previous.1 i;
    py_update distances element.2 (λ d, Float_add d (v_next - v_previous)%Q)
  else Some distances.

(** The body of the loop over the objectives. *)
Definition crowding_step (st : list (Ind * nat) * list Float) (i : nat)
  : option (list (Ind * nat) * list Float) :=
  let '(crowding, distances) := st in
  crowding1 ← sort_crowding i crowding;
  first ← py_get crowding1 0;
  distances1 ← py_update distances first.2 (λ _, Inf);
  last ← py_get crowding1 (-1);
  distances2 ← py_update distances1 last.2 (λ _, Inf);
  distances3 ←
    for_each (seq 1 (length crowding1 - 2)) (spread i crowding1) distances2;
  Some (crowding1, distances3).

(** [distances] after the loop over the objectives of a non-empty front. *)
Definition crowding_distances (individuals : list Ind)
  : option (list Float) :=
  let distances := replicate (length individuals) (Fin 0) in
  let crowding := (λ p, (p.2, p.1)) <$> enumerate individuals in
  first ← individuals !! 0;
  let number_objectives := length (values (fitness first)) in
  st ← for_each (seq 0 number_objectives) crowding_step (crowding, distances);
  Some st.2.

(** The generator that [sortCrowdingDist] returns is modelled by the list of
    the individuals it yields. *)
Definition sortCrowdingDist (individuals : list Ind) (n : Z)
  : option (list Ind) :=
  if length individuals =? 0 then Some []
  else
    distances ← crowding_distances individuals;
    let sorted_dist :=
      sort_by (λ a b : Float * nat, Float_ltb b.1 a.1)
              ((λ p, (p.2, p.1)) <$> enumerate distances) in
    mapM (λ p : Float * nat, individuals !! p.2) (py_take sorted_dist n).

Definition selNSGA2 (individuals : list Ind) (n : Z) : option (list Ind) :=
  pareto_fronts ← sortFastND individuals n false;
  let chosen := concat (py_take pareto_fronts (-1)) in
  let n1 := (n - Z.of_nat (length chosen))%Z in
  if (0 <? n1)%Z then
    last_front ← py_get pareto_fronts (-1);
    crowded ← sortCrowdingDist last_front n1;
    Some (chosen ++ crowded)
  else Some chosen.

End NSGA2.

(** ** Strength Pareto selection (SPEA-II) *)

(** [m[i][j]] and [m[i][j] = v] on a list of rows. *)
Definition m_get {A} (m : list (list A)) (i j : nat) : option A :=
  row ← m !! i; row !! j.

Definition m_set {A} (m : list (list A)) (i j : nat) (v : A)
  : option (list (list A)) :=
  row ← m !! i;
  row1 ← py_update row j (λ _, v);
  Some (<[i := row1]> m).

(** The order of Python tuples [(fitness, index)]. *)
Definition pair_ltb (a b : Q * nat) : bool :=
  Qltb a.1 b.1 || (Qeq_bool a.1 b.1 && (a.2 <? b.2)).

Section SPEA2.

Context {Fit Ind Rng : Type}.
Variable fitness : Ind → Fit.
Variable values : Fit → list Q.
Variable isDominated : Fit → Fit → bool.
Variable randint : Rng → Z → Z → Z * Rng.
(** [math.sqrt], applied to the size of the population. *)
Variable sqrt : nat → Q.

(** The body of the loop over [j] in the computation of the strengths. *)
Definition strength_pair (individuals : list Ind) (i : nat)
    (st : list Z * list (list nat)) (j : nat)
  : option (list Z * list (list nat)) :=
  let '(strength_fits, dominating_inds) := st in
  ind_i ← individuals !! i;
  ind_j ← individuals !! j;
  if isDominated (fitness ind_i) (fitness ind_j) then
    strength_fits1 ← py_update strength_fits j Z.succ;
    dominating_inds1 ← py_update dominating_inds i (λ l, l ++ [j]);
    Some (strength_fits1, dominating_inds1)
  else if isDominated (fitness ind_j) (fitness ind_i) then
    strength_fits1 ← py_update strength_fits i Z.succ;
    dominating_inds1 ← py_update dominating_inds j (λ l, l ++ [i]);
    Some (strength_fits1, dominating_inds1)
  else Some st.

(** [strength_fits] and [dominating_inds] after the loop over the pairs. *)
Definition strengths (individuals : list Ind)
  : option (list Z * list (list nat)) :=
  let N := length individuals in
  for_each (seq 0 N)
    (λ st i, for_each (seq (i + 1) (N - (i + 1))) (strength_pair individuals i) st)
    (replicate N 0%Z, replicate N []).

(** [fits] after the loop that sums the strengths of the dominators. *)
Definition raw_fitness (N : nat) (strength_fits : list Z)
    (dominating_inds : list (list nat)) : option (list Z) :=
  for_each (seq 0 N)
    (λ fits i,
       js ← dominating_inds !! i;
       for_each js
         (λ fits j, s ← strength_fits !! j; py_update fits i (λ f, f + s)%Z)
         fits)
    (replicate N 0%Z).

(** [[i for i in xrange(N) if fits[i] < 1]] *)
Definition non_dominated (N : nat) (fits : list Z) : option (list nat) :=
  for_each (seq 0 N)
    (λ chosen i, f ← fits !! i; Some (if (f <? 1)%Z then chosen ++ [i] else chosen))
    [].

(** The first part of [selSPEA2]: [strength_fits], [fits] and
    [chosen_indices] as they stand before the size of the archive is
    looked at. *)
Definition strength_fitness (individuals : list Ind)
  : option (list Z * list Z * list nat) :=
  let N := length individuals in
  '(strength_fits, dominating_inds) ← strengths individuals;
  fits ← raw_fitness N strength_fits dominating_inds;
  chosen_indices ← non_dominated N fits;
  Some (strength_fits, fits, chosen_indices).

(** The squared distance of two individuals over [L] objectives. *)
Definition sq_dist (L : nat) (a b : Ind) : option Q :=
  for_each (seq 0 L)
    (λ dist k,
       va ← values (fitness a) !! k;
       vb ← values (fitness b) !! k;
       let val := (va - vb)%Q in
       Some (dist + val * val)%Q)
    0%Q.

(** The body of the loop over [i] when the archive is too small. *)
Definition add_density (individuals : list Ind) (L : nat) (K : Q)
    (st : list Q * Rng) (i : nat) : option (list Q * Rng) :=
  let '(fits, g) := st in
  let N := length individuals in
  distances ←
    for_each (seq (i + 1) (N - (i + 1)))
      (λ distances j,
         ind_i ← individuals !! i;
         ind_j ← individuals !! j;
         dist ← sq_dist L ind_i ind_j;
         py_update distances j (λ _, dist))
      (replicate N 0%Q);
  '(kth_dist, _, g1) ←
    _randomizedSelect randint g distances 0 (Z.of_nat N - 1) K;
  (* a float division by zero raises *)
  density ← (if Qeq_bool (kth_dist + 2) 0 then None
             else Some (1 / (kth_dist + 2))%Q);
  fits1 ← py_update fits i (λ f, f + density)%Q;
  Some (fits1, g1).

(** The branch [len(chosen_indices) < n]. *)
Definition fill_archive (g : Rng) (individuals : list Ind) (L : nat) (K : Q)
    (n : Z) (fits : list Z) (chosen_indices : list nat)
  : option (list nat * Rng) :=
  let N := length individuals in
  '(fits1, g1) ←
    for_each (seq 0 N) (add_density individuals L K) (inject_Z <$> fits, g);
  next_indices ←
    for_each (seq 0 N)
      (λ next i,
         if bool_decide (i ∈ chosen_indices) then Some next
         else f ← fits1 !! i; Some (next ++ [(f, i)]))
      [];
  let sorted_next := sort_by pair_ltb next_indices in
  Some (chosen_indices
          ++ (py_take sorted_next (n - Z.of_nat (length chosen_indices))).*2,
        g1).

(** The distances between the chosen individuals, [-1] on the diagonal. *)
Definition distance_matrix (individuals : list Ind) (L : nat)
    (chosen_indices : list nat) : option (list (list Float)) :=
  let N := length chosen_indices in
  for_each (seq 0 N)
    (λ distances i,
       distances1 ←
         for_each (seq (i + 1) (N - (i + 1)))
           (λ distances j,
              ci ← chosen_indices !! i;
              cj ← chosen_indices !! j;
              ind_i ← individuals !! ci;
              ind_j ← individuals !! cj;
              dist ← sq_dist L ind_i ind_j;
              distances1 ← m_set distances i j (Fin dist);
              m_set distances1 j i (Fin dist))
           distances;
       m_set distances1 i i (Fin (-1)))
    (replicate N (replicate N (Fin 0))).

(** The [while] loop of the insertion sort, for one row: [drow] is
    [distances[i]], [srow] is [sorted_indices[i]]. *)
Fixpoint shift_larger (drow : list Float) (j : nat) (srow : list nat) (k : nat)
  : option (list nat * nat) :=
  match k with
  | O => Some (srow, 0)
  | S k' =>
      dj ← drow !! j;
      s ← srow !! k';
      ds ← drow !! s;
      if Float_ltb dj ds then
        srow1 ← py_update srow k (λ _, s);
        shift_larger drow j srow1 k'
      else Some (srow, k)
  end.

(** [sorted_indices] after the insertion sort of every row. *)
Definition sort_rows (N : nat) (distances : list (list Float))
  : option (list (list nat)) :=
  for_each (seq 0 N)
    (λ sorted_indices i,
       drow ← distances !! i;
       srow ← sorted_indices !! i;
       srow1 ←
         for_each (seq 1 (N - 1))
           (λ srow j,
              '(srow1, k) ← shift_larger drow j srow j;
              py_update srow1 k (λ _, j))
           srow;
       Some (<[i := srow1]> sorted_indices))
    (replicate N (replicate N 0)).

(** The loop over [j] in the search for the minimal distance: the position
    that [min_pos] holds after it, by [break] or at the end of the range. *)
Fixpoint closer (distances : list (list Float))
    (sorted_indices : list (list nat)) (i min_pos : nat) (js : list nat)
  : option nat :=
  match js with
  | [] => Some min_pos
  | j :: js' =>
      si ← m_get sorted_indices i j;
      dist_i_sorted_j ← m_get distances i si;
      sm ← m_get sorted_indices min_pos j;
      dist_min_sorted_j ← m_get distances min_pos sm;
      if Float_ltb dist_i_sorted_j dist_min_sorted_j then Some i
      else if Float_ltb dist_min_sorted_j dist_i_sorted_j then Some min_pos
      else closer distances sorted_indices i min_pos js'
  end.

Definition find_min (N : nat) (size : Z) (distances : list (list Float))
    (sorted_indices : list (list nat)) : option nat :=
  for_each (seq 1 (N - 1))
    (λ min_pos i,
       closer distances sorted_indices i min_pos (seq 1 (Z.to_nat size - 1)))
    0.

(** The body of the loop over [j] that moves [min_pos] to the end of the
    part of the row still in use. *)
Definition bubble (min_pos : nat) (srow : list nat) (j : nat)
  : option (list nat) :=
  s ← srow !! j;
  if s =? min_pos then
    s1 ← srow !! (j + 1);
    srow1 ← py_update srow j (λ _, s1);
    py_update srow1 (j + 1) (λ _, min_pos)
  else Some srow.

(** The body of the loop over [i] that removes [min_pos]. *)
Definition forget (size : Z) (min_pos : nat)
    (st : list (list Float) * list (list nat)) (i : nat)
  : option (list (list Float) * list (list nat)) :=
  let '(distances, sorted_indices) := st in
  distances1 ← m_set distances i min_pos Inf;
  distances2 ← m_set distances1 min_pos i Inf;
  srow ← sorted_indices !! i;
  srow1 ← for_each (seq 1 (Z.to_nat size - 2)) (bubble min_pos) srow;
  Some (distances2, <[i := srow1]> sorted_indices).

(** The [while size > n] loop; every round lowers [size] by one. *)
Fixpoint truncate (fuel : nat) (N : nat) (n : Z)
    (distances : list (list Float)) (sorted_indices : list (list nat))
    (size : Z) (to_remove : list nat) : option (list nat) :=
  if (n <? size)%Z then
    match fuel with
    | O => None
    | S fuel' =>
        min_pos ← find_min N size distances sorted_indices;
        '(distances1, sorted_indices1) ←
          for_each (seq 0 N) (forget size min_pos) (distances, sorted_indices);
        truncate fuel' N n distances1 sorted_indices1 (size - 1)
                 (to_remove ++ [min_pos])
    end
  else Some to_remove.

(** The branch [len(chosen_indices) > n]. *)
Definition trim_archive (individuals : list Ind) (L : nat) (n : Z)
    (chosen_indices : list nat) : option (list nat) :=
  let N := length chosen_indices in
  distances ← distance_matrix individuals L chosen_indices;
  sorted_indices ← sort_rows N distances;
  to_remove ←
    truncate (Z.to_nat (Z.of_nat N - n)) N n distances sorted_indices
             (Z.of_nat N) [];
  for_each (reverse (sort_by Nat.ltb to_remove))
    (λ chosen index, py_del chosen (Z.of_nat index)) chosen_indices.

(** [selSPEA2], with the state of the random source before and after. *)
Definition selSPEA2 (g : Rng) (individuals : list Ind) (n : Z)
  : option (list Ind * Rng) :=
  let N := length individuals in
  first ← individuals !! 0;
  let L := length (values (fitness first)) in
  let K := sqrt N in
  '(strength_fits, fits, chosen_indices) ← strength_fitness individuals;
  '(chosen_indices1, g1) ←
    (if (Z.of_nat (length chosen_indices) <? n)%Z then
       fill_archive g individuals L K n fits chosen_indices
     else if (n <? Z.of_nat (length chosen_indices))%Z then
       chosen_indices1 ← trim_archive individuals L n chosen_indices;
       Some (chosen_indices1, g)
     else Some (chosen_indices, g));
  chosen ← mapM (λ i, individuals !! i) chosen_indices1;
  Some (chosen, g1).

End SPEA2.

(** ** A concrete fitness

    Modelled from the spec: the class [Fitness] of [deap/base.py] is not among
    the sources.  A fitness is a sequence of objective values, each with a
    weight; two fitnesses are compared through their weighted values. *)
Record Fitness : Type := {
  fvalues : list Q;
  fweights : list Q
}.

Definition wvalues (f : Fitness) : list Q :=
  zip_with Qmult (fvalues f) (fweights f).

(** Modelled from the spec: [a.isDominated(b)] holds iff every weighted
    objective of [b] is at least the corresponding one of [a], and at least
    one is strictly greater. *)
Definition Fitness_isDominated (a b : Fitness) : bool :=
  forallb (λ p : Q * Q, Qle_bool p.1 p.2) (zip (wvalues a) (wvalues b)) &&
  existsb (λ p : Q * Q, Qltb p.1 p.2) (zip (wvalues a) (wvalues b)).

(** Every fitness of the population has [L] objectives and [L] weights. *)
Definition same_arity (L : nat) (population : list Fitness) : Prop :=
  Forall (λ f, length (fvalues f) = L ∧ length (fweights f) = L) population.

(** A fitness that maximizes every objective. *)
Definition maximize (vs : list Q) : Fitness :=
  {| fvalues := vs; fweights := replicate (length vs) 1%Q |}.

(** The population of the two-objective scenario. *)
Definition sample_population : list Fitness :=
  [maximize [1; 4]%Q; maximize [2; 3]%Q; maximize [3; 2]%Q; maximize [4; 1]%Q].

(** Two individuals, the second dominating the first. *)
Definition dominated_pair : list Fitness :=
  [maximize [1; 1]%Q; maximize [2; 2]%Q].

(** Five non-dominated points on a line, and one point they all dominate. *)
Definition crowded_population : list Fitness :=
  [maximize [1; 9]%Q; maximize [2; 8]%Q; maximize [5; 5]%Q;
   maximize [8; 2]%Q; maximize [9; 1]%Q; maximize [0; 0]%Q].

(** [math.sqrt] rounded down to an integer. *)
Definition floor_sqrt (n : nat) : Q := inject_Z (Z.sqrt (Z.of_nat n)).

(** A population with three fronts. *)
Definition layered_population : list Fitness :=
  [maximize [1; 1]%Q; maximize [3; 3]%Q; maximize [2; 2]%Q;
   maximize [1; 4]%Q; maximize [2; 2]%Q].

(** The array of the order-statistic scenario. *)
Definition sample_array : list Q := [9; 1; 5; 3; 7]%Q.

(** A full hall of capacity two whose individuals are their own fitness. *)
Definition sample_hall : @HallOfFame.t Z Z :=
  {| HallOfFame.maxsize := Some 2%Z;
     HallOfFame.keys := [5; 6]%Z;
     HallOfFame.items := [6; 5]%Z |}.

(** A generator that always draws the lower bound of the range. *)
Definition lowest_pivot (g : unit) (a b : Z) : Z * unit := (a, g).

From Stdlib Require Import QArith.
From stdpp Require Import base option list numbers sorting gmap.
Close Scope Q_scope.

(** * More of [deap/tools.py]: selection, crossover, mutation, genealogy,
    migration *)

(** [l[n:]] *)
Definition py_drop {A} (l : list A) (n : Z) : list A :=
  if (n <? 0)%Z then drop (Z.to_nat (Z.of_nat (length l) + n)) l
  else drop (Z.to_nat n) l.

(** [l[a:b]] *)
Definition py_slice {A} (l : list A) (a b : Z) : list A :=
  py_drop (py_take l b) (if (a <? 0)%Z
                         then Z.max 0 (Z.of_nat (length l) + a) else a).

(** [l[a:b] = t]: the slice is replaced by [t], in place, whatever the length
    of [t]; an empty or reversed slice makes it an insertion at [a]. *)
Definition py_slice_set {A} (l : list A) (a b : Z) (t : list A) : list A :=
  let n := Z.of_nat (length l) in
  let clamp i := (if i <? 0 then Z.max 0 (n + i) else Z.min i n)%Z in
  let a' := clamp a in
  let b' := Z.max a' (clamp b) in
  take (Z.to_nat a') l ++ t ++ drop (Z.to_nat b') l.

Section Random.

(** The random source: [randbelow g n] is the position that
    [random.choice] draws in a sequence of [n] elements, [random g] is
    [random.random()], [randint g a b] is [random.randint(a, b)]; each comes
    with the next state of the generator. *)
Context {Rng : Type}.
Variable randbelow : Rng → nat → nat * Rng.
Variable random : Rng → Q * Rng.
Variable randint : Rng → Z → Z → Z * Rng.

(** [random.choice(seq)] raises [IndexError] on an empty sequence. *)
Definition py_choice {A} (g : Rng) (l : list A) : option (A * Rng) :=
  match l with
  | [] => None
  | _ :: _ =>
      let '(k, g1) := randbelow g (length l) in
      x ← l !! k; Some (x, g1)
  end.

Section Selection.

Context {Fit Ind : Type}.
Variable fitness : Ind → Fit.
(** [fit_lt a b] is [a < b] on fitnesses; [a > b] is [fit_lt b a]. *)
Variable fit_lt : Fit → Fit → bool.

(** [[random.choice(individuals) for i in xrange(n)]] *)
Definition selRandom (g : Rng) (individuals : list Ind) (n : Z)
  : option (list Ind * Rng) :=
  for_each (seq 0 (Z.to_nat n))
    (λ '(chosen, g) _,
       '(x, g1) ← py_choice g individuals; Some (chosen ++ [x], g1))
    ([], g).

(** [sorted(individuals, key=attrgetter("fitness"), reverse=True)[:n]] *)
Definition selBest (individuals : list Ind) (n : Z) : list Ind :=
  py_take (sort_by (λ a b, fit_lt (fitness b) (fitness a)) individuals) n.

(** [sorted(individuals, key=attrgetter("fitness"))[:n]] *)
Definition selWorst (individuals : list Ind) (n : Z) : list Ind :=
  py_take (sort_by (λ a b, fit_lt (fitness a) (fitness b)) individuals) n.

(** One tournament: [chosen[i]] is the best aspirant so far. *)
Definition tournament (individuals : list Ind) (tournsize : Z) (g : Rng)
  : option (Ind * Rng) :=
  '(first, g1) ← py_choice g individuals;
  for_each (seq 0 (Z.to_nat (tournsize - 1)))
    (λ '(best, g) _,
       '(aspirant, g1) ← py_choice g individuals;
       Some (if fit_lt (fitness best) (fitness aspirant) then aspirant
             else best, g1))
    (first, g1).

Definition selTournament (g : Rng) (individuals : list Ind) (n : Z)
    (tournsize : Z) : option (list Ind * Rng) :=
  for_each (seq 0 (Z.to_nat n))
    (λ '(chosen, g) _,
       '(winner, g1) ← tournament individuals tournsize g;
       Some (chosen ++ [winner], g1))
    ([], g).

End Selection.

Section Crossover.

(** The two individuals are taken to be two distinct list objects: each
    function returns the new contents of both. *)
Context {A : Type}.

Definition cxTwoPoints (g : Rng) (ind1 ind2 : list A)
  : option (list A * list A * Rng) :=
  let size := Z.min (Z.of_nat (length ind1)) (Z.of_nat (length ind2)) in
  '(cxpoint1, g1) ← py_randint randint g 1 size;
  '(cxpoint2, g2) ← py_randint randint g1 1 (size - 1);
  let '(cxpoint1, cxpoint2) :=
    if (cxpoint1 <=? cxpoint2)%Z then (cxpoint1, cxpoint2 + 1)%Z
    else (cxpoint2, cxpoint1) in
  let part2 := py_slice ind2 cxpoint1 cxpoint2 in
  let part1 := py_slice ind1 cxpoint1 cxpoint2 in
  Some (py_slice_set ind1 cxpoint1 cxpoint2 part2,
        py_slice_set ind2 cxpoint1 cxpoint2 part1, g2).

Definition cxOnePoint (g : Rng) (ind1 ind2 : list A)
  : option (list A * list A * Rng) :=
  let size := Z.min (Z.of_nat (length ind1)) (Z.of_nat (length ind2)) in
  '(cxpoint, g1) ← py_randint randint g 1 (size - 1);
  let tail2 := py_drop ind2 cxpoint in
  let tail1 := py_drop ind1 cxpoint in
  Some (py_slice_set ind1 cxpoint (Z.of_nat (length ind1)) tail2,
        py_slice_set ind2 cxpoint (Z.of_nat (length ind2)) tail1, g1).

Definition cxUniform (g : Rng) (ind1 ind2 : list A) (indpb : Q)
  : option (list A * list A * Rng) :=
  let size := length ind1 `min` length ind2 in
  for_each (seq 0 size)
    (λ '(ind1, ind2, g) i,
       let '(u, g1) := random g in
       if Qltb u indpb then
         x2 ← py_get ind2 (Z.of_nat i);
         x1 ← py_get ind1 (Z.of_nat i);
         ind1' ← py_set ind1 (Z.of_nat i) x2;
         ind2' ← py_set ind2 (Z.of_nat i) x1;
         Some (ind1', ind2', g1)
       else Some (ind1, ind2, g1))
    (ind1, ind2, g).

Definition cxMessyOnePoint (g : Rng) (ind1 ind2 : list A)
  : option (list A * list A * Rng) :=
  '(cxpoint1, g1) ← py_randint randint g 0 (Z.of_nat (length ind1));
  '(cxpoint2, g2) ← py_randint randint g1 0 (Z.of_nat (length ind2));
  let tail2 := py_drop ind2 cxpoint2 in
  let tail1 := py_drop ind1 cxpoint1 in
  Some (py_slice_set ind1 cxpoint1 (Z.of_nat (length ind1)) tail2,
        py_slice_set ind2 cxpoint2 (Z.of_nat (length ind2)) tail1, g2).

End Crossover.

Section PartiallyMatched.

(** The individuals are lists of indices. *)

(** [p1[ind1[i]] = i; p2[ind2[i]] = i] for every [i]. *)
Definition pmx_positions (size : nat) (ind1 ind2 : list Z)
  : option (list Z * list Z) :=
  for_each (seq 0 size)
    (λ '(p1, p2) i,
       v1 ← py_get ind1 (Z.of_nat i);
       p1' ← py_set p1 v1 (Z.of_nat i);
       v2 ← py_get ind2 (Z.of_nat i);
       p2' ← py_set p2 v2 (Z.of_nat i);
       Some (p1', p2'))
    (replicate size 0%Z, replicate size 0%Z).

(** The body of the matching loop at position [i]. *)
Definition pmx_match (st : list Z * list Z * list Z * list Z) (i : Z)
  : option (list Z * list Z * list Z * list Z) :=
  let '(ind1, ind2, p1, p2) := st in
  temp1 ← py_get ind1 i;
  temp2 ← py_get ind2 i;
  ind1 ← py_set ind1 i temp2;
  j1 ← py_get p1 temp2;
  ind1 ← py_set ind1 j1 temp1;
  ind2 ← py_set ind2 i temp1;
  j2 ← py_get p2 temp1;
  ind2 ← py_set ind2 j2 temp2;
  a1 ← py_get p1 temp2;
  b1 ← py_get p1 temp1;
  p1 ← py_set p1 temp1 a1;
  p1 ← py_set p1 temp2 b1;
  a2 ← py_get p2 temp2;
  b2 ← py_get p2 temp1;
  p2 ← py_set p2 temp1 a2;
  p2 ← py_set p2 temp2 b2;
  Some (ind1, ind2, p1, p2).

Definition cxPartialyMatched (g : Rng) (ind1 ind2 : list Z)
  : option (list Z * list Z * Rng) :=
  let size := length ind1 `min` length ind2 in
  '(p1, p2) ← pmx_positions size ind1 ind2;
  '(cxpoint1, g1) ← py_randint randint g 0 (Z.of_nat size);
  '(cxpoint2, g2) ← py_randint randint g1 0 (Z.of_nat size - 1);
  let '(cxpoint1, cxpoint2) :=
    if (cxpoint1 <=? cxpoint2)%Z then (cxpoint1, cxpoint2 + 1)%Z
    else (cxpoint2, cxpoint1) in
  '(ind1, ind2, _, _) ←
    for_each (seqZ cxpoint1 (cxpoint2 - cxpoint1)) pmx_match
      (ind1, ind2, p1, p2);
  Some (ind1, ind2, g2).

End PartiallyMatched.

Section Mutation.

Definition mutShuffleIndexes {A} (g : Rng) (individual : list A) (indpb : Q)
  : option (list A * Rng) :=
  let size := length individual in
  for_each (seq 0 size)
    (λ '(individual, g) i,
       let '(u, g1) := random g in
       if Qltb u indpb then
         '(swap_indx, g2) ← py_randint randint g1 0 (Z.of_nat size - 2);
         let swap_indx :=
           if (Z.of_nat i <=? swap_indx)%Z then (swap_indx + 1)%Z
           else swap_indx in
         y ← py_get individual swap_indx;
         x ← py_get individual (Z.of_nat i);
         individual ← py_set individual (Z.of_nat i) y;
         individual ← py_set individual swap_indx x;
         Some (individual, g2)
       else Some (individual, g1))
    (individual, g).


End Mutation.

End Random.

(** ** The genealogy of the individuals *)

Module History.

Section History.

Context {A : Type}.

(** An individual: what it is made of, and its [history_index] attribute,
    which is missing until a history sets it. *)
Record individual : Type := Individual {
  genome : A;
  history_index : option Z
}.

Record t : Type := Make {
  genealogy_index : Z;
  genealogy_history : gmap Z individual;
  genealogy_tree : gmap Z (list Z)
}.

(** [History()] *)
Definition init : t := Make 0 ∅ ∅.

(** [populate] and [update] set the attribute of the individuals they are
    given, which are taken to be distinct objects: both return, beside the
    history, the individuals as they are after the call. *)
Definition populate (h : t) (individuals : list individual)
  : t * list individual :=
  foldl
    (λ '(h, marked) ind,
       let index := (genealogy_index h + 1)%Z in
       let ind := Individual (genome ind) (Some index) in
       (Make index
          (<[index := ind]> (genealogy_history h))
          (<[index := []]> (genealogy_tree h)),
        marked ++ [ind]))
    (h, []) individuals.

(** Reading [ind.history_index] raises [AttributeError] when the attribute
    is missing. *)
Definition update (h : t) (individuals : list individual)
  : option (t * list individual) :=
  parent_indices ← mapM history_index individuals;
  Some (foldl
          (λ '(h, marked) ind,
             let index := (genealogy_index h + 1)%Z in
             let ind := Individual (genome ind) (Some index) in
             (Make index
                (<[index := ind]> (genealogy_history h))
                (<[index := parent_indices]> (genealogy_tree h)),
              marked ++ [ind]))
          (h, []) individuals).

End History.

Arguments individual : clear implicits.
Arguments t : clear implicits.

End History.

(** ** Migration *)

Section Migration.

Context {Ind : Type}.

(** [a == b] on individuals. *)
Variable eqb : Ind → Ind → bool.

(** [l.index(x)]: the first position that holds a value equal to [x];
    [ValueError] when there is none. *)
Fixpoint py_list_index (l : list Ind) (x : Ind) : option nat :=
  match l with
  | [] => None
  | y :: l' =>
      if eqb y x then Some 0 else S <$> py_list_index l' x
  end.

(** The selection operators get a population and [n], and may raise. *)
Variable selection : list Ind → Z → option (list Ind).

(** [range(1, len(populations)) + [0]] unless a migration array is given. *)
Definition migration_array (populations : list (list Ind))
    (migarray : option (list Z)) : list Z :=
  match migarray with
  | None => seqZ 1 (Z.of_nat (length populations) - 1) ++ [0%Z]
  | Some migarray => migarray
  end.

(** [for i, immigrant in enumerate(immigrants[to_deme])]: the individual of
    the deme that equals the immigrant gives its place to the [i]-th of the
    arriving emigrants. The demes are taken to be distinct list objects. *)
Definition replace_immigrants (populations : list (list Ind)) (to_deme : Z)
    (immigrants arriving : list Ind) : option (list (list Ind)) :=
  for_each (enumerate immigrants)
    (λ populations '(i, immigrant),
       deme ← py_get populations to_deme;
       indx ← py_list_index deme immigrant;
       emigrant ← arriving !! i;
       py_set populations to_deme (<[indx := emigrant]> deme))
    populations.

Definition migRing (populations : list (list Ind)) (n : Z)
    (replacement : option (list Ind → Z → option (list Ind)))
    (migarray : option (list Z)) : option (list (list Ind)) :=
  let migarray := migration_array populations migarray in
  '(immigrants, emigrants) ←
    for_each (seq 0 (length migarray))
      (λ '(immigrants, emigrants) from_deme,
         deme ← populations !! from_deme;
         chosen ← selection deme n;
         let emigrants := <[from_deme := chosen]> emigrants in
         match replacement with
         | None => Some (<[from_deme := chosen]> immigrants, emigrants)
         | Some replacement =>
             deme ← populations !! from_deme;
             replaced ← replacement deme n;
             Some (<[from_deme := replaced]> immigrants, emigrants)
         end)
      (replicate (length migarray) ([] : list Ind),
       replicate (length migarray) ([] : list Ind));
  mig_buf ← emigrants !! 0;
  populations ←
    for_each (enumerate (drop 1 migarray))
      (λ populations '(from_deme, to_deme),
         let from_deme := S from_deme in
         newcomers ← py_get immigrants to_deme;
         arriving ← emigrants !! from_deme;
         replace_immigrants populations to_deme newcomers arriving)
      populations;
  to_deme ← migarray !! 0;
  newcomers ← py_get immigrants to_deme;
  replace_immigrants populations to_deme newcomers mig_buf.

End Migration.

(** ** Sample data *)

(** A generator that walks round the sequence it chooses from. *)
Definition cycling (g : nat) (n : nat) : nat * nat := (g mod n, S g).

Definition sample_scores : list Z := [3; 1; 4; 1; 5]%Z.

(** A generator of which [random.random()] always gives one half. *)
Definition steady (g : unit) : Q * unit := ((1 # 2)%Q, g).

Definition sample_genes : list Z := [10; 20; 30; 40]%Z.

(** Two individuals that no history has seen. *)
Definition sample_founders : list (History.individual Z) :=
  [History.Individual 7%Z None; History.Individual 8%Z None].

(** Three demes of three individuals. *)
Definition sample_demes : list (list Z) :=
  [[1; 2; 3]; [4; 5; 6]; [7; 8; 9]]%Z.

(** A selection operator: the first [n] individuals of the population. *)
Definition first_n (population : list Z) (n : Z) : option (list Z) :=
  Some (py_take population n).

From Stdlib Require Import QArith.
From stdpp Require Import base option list numbers sorting.
Close Scope Q_scope.

(** * Properties of the list primitives *)

(** [inv_bind H as E] splits [H : x ← o; k = Some _] on the outcome of [o],
    which [E] records. *)
Ltac inv_bind_as H E :=
  match type of H with
  | mbind _ ?o = Some _ =>
      destruct o eqn:E;
      [cbn [mbind option_bind] in H | discriminate H]
  end.

Tactic Notation "inv_bind" hyp(H) "as" ident(E) := inv_bind_as H E.
Tactic Notation "inv_bind" hyp(H) := let E := fresh "E" in inv_bind_as H E.

Section PyLists.

Context {A : Type}.
Implicit Types (l : list A) (i : Z) (k : nat) (x : A).

Lemma py_index_lt l i k : py_index l i = Some k → k < length l.
Proof.
  unfold py_index. intros H.
  repeat case_match; simplify_eq; lia.
Qed.

Lemma py_index_front l i :
  (0 ≤ i < Z.of_nat (length l))%Z → py_index l i = Some (Z.to_nat i).
Proof.
  intros H. unfold py_index.
  assert ((0 <=? i)%Z && (i <? Z.of_nat (length l))%Z = true) as ->; [|done].
  apply andb_true_iff. split; [apply Z.leb_le | apply Z.ltb_lt]; lia.
Qed.

Lemma py_index_nat l k :
  k < length l → py_index l (Z.of_nat k) = Some k.
Proof.
  intros H. rewrite py_index_front by lia. by rewrite Nat2Z.id.
Qed.

Lemma py_index_last l :
  l ≠ [] → py_index l (-1) = Some (pred (length l)).
Proof.
  intros H. destruct l as [|a l]; [done|]. unfold py_index.
  cbn [length]. simpl.
  destruct (Z.of_nat (S (length l))) eqn:E; try lia.
  assert ((- Z.pos p <=? -1)%Z = true) as -> by (apply Z.leb_le; lia).
  simpl. f_equal. lia.
Qed.

Lemma py_get_front l i :
  (0 ≤ i < Z.of_nat (length l))%Z → py_get l i = l !! Z.to_nat i.
Proof. intros H. unfold py_get. by rewrite py_index_front. Qed.

Lemma py_get_nat l k : k < length l → py_get l (Z.of_nat k) = l !! k.
Proof. intros H. unfold py_get. by rewrite py_index_nat. Qed.

Lemma py_get_is_Some l i k : py_index l i = Some k → is_Some (py_get l i).
Proof.
  intros H. unfold py_get. rewrite H. simpl.
  apply lookup_lt_is_Some, (py_index_lt _ _ _ H).
Qed.

Lemma py_set_length l i x l' : py_set l i x = Some l' → length l' = length l.
Proof.
  unfold py_set. destruct (py_index l i); simpl; [|done].
  intros [= <-]. apply length_insert.
Qed.

Lemma py_set_front l i x :
  (0 ≤ i < Z.of_nat (length l))%Z →
  py_set l i x = Some (<[Z.to_nat i := x]> l).
Proof. intros H. unfold py_set. by rewrite py_index_front. Qed.

Lemma py_del_nat l k :
  k < length l → py_del l (Z.of_nat k) = Some (delete k l).
Proof. intros H. unfold py_del. by rewrite py_index_nat. Qed.

Lemma py_insert_split l i x :
  ∃ p, p ≤ length l ∧ py_insert l i x = take p l ++ x :: drop p l.
Proof.
  unfold py_insert.
  set (p := Z.to_nat _). exists p. split; [|done].
  subst p. destruct (i <? 0)%Z eqn:E; [apply Z.ltb_lt in E|]; lia.
Qed.

Lemma py_insert_front l i x :
  (0 ≤ i ≤ Z.of_nat (length l))%Z →
  py_insert l i x = take (Z.to_nat i) l ++ x :: drop (Z.to_nat i) l.
Proof.
  intros H. unfold py_insert.
  destruct (i <? 0)%Z eqn:E; [apply Z.ltb_lt in E; lia|].
  by rewrite Z.min_l by lia.
Qed.

Lemma py_insert_length l i x : length (py_insert l i x) = S (length l).
Proof.
  destruct (py_insert_split l i x) as (p & Hp & ->).
  rewrite length_app. cbn [length]. rewrite length_take, length_drop. lia.
Qed.

Lemma py_take_front l n :
  (0 ≤ n)%Z → py_take l n = take (Z.to_nat n) l.
Proof.
  intros H. unfold py_take.
  destruct (n <? 0)%Z eqn:E; [apply Z.ltb_lt in E; lia|done].
Qed.

Lemma enumerate_from_lookup l k j :
  enumerate_from k l !! j = (λ x, (k + j, x)) <$> l !! j.
Proof.
  revert k j. induction l as [|a l IH]; intros k j; [done|].
  destruct j as [|j]; simpl.
  - by rewrite Nat.add_0_r.
  - rewrite IH. destruct (l !! j); simpl; [|done]. do 2 f_equal. lia.
Qed.

Lemma enumerate_from_length l k : length (enumerate_from k l) = length l.
Proof. revert k. induction l; intros; simpl; [done|]. by rewrite IHl. Qed.

Lemma enumerate_from_fst l k : (enumerate_from k l).*1 = seq k (length l).
Proof. revert k. induction l; intros; simpl; [done|]. by rewrite IHl. Qed.

Lemma enumerate_from_snd l k : (enumerate_from k l).*2 = l.
Proof. revert k. induction l; intros; simpl; [done|]. by rewrite IHl. Qed.

Lemma enumerate_from_app l1 l2 k :
  enumerate_from k (l1 ++ l2)
  = enumerate_from k l1 ++ enumerate_from (k + length l1) l2.
Proof.
  revert k. induction l1 as [|a l1 IH]; intros k; simpl.
  - by rewrite Nat.add_0_r.
  - rewrite IH. do 3 f_equal. lia.
Qed.

Lemma elem_of_take_1 l k x : x ∈ take k l → x ∈ l.
Proof. intros H. rewrite <- (take_drop k l). apply elem_of_app. by left. Qed.

Lemma elem_of_drop_1 l k x : x ∈ drop k l → x ∈ l.
Proof. intros H. rewrite <- (take_drop k l). apply elem_of_app. by right. Qed.

End PyLists.

(** Loops keep what their body keeps. *)
Lemma for_each_invariant {A S} (P : S → Prop) (body : S → A → option S)
    (l : list A) (st : S) :
  (∀ st x, x ∈ l → P st → ∃ st', body st x = Some st' ∧ P st') →
  P st → ∃ st', for_each l body st = Some st' ∧ P st'.
Proof.
  revert st. induction l as [|x l IH]; intros st Hbody Hst; simpl.
  - eauto.
  - destruct (Hbody st x) as (st1 & -> & Hst1); [left|done|]. simpl.
    apply IH; [|done]. intros st2 y Hy. apply Hbody. by right.
Qed.

Lemma for_each_ext {A S} (body1 body2 : S → A → option S) (l : list A) (st : S) :
  (∀ st x, body1 st x = body2 st x) →
  for_each l body1 st = for_each l body2 st.
Proof.
  intros Hext. revert st. induction l as [|x l IH]; intros st; simpl; [done|].
  rewrite Hext. destruct (body2 st x); simpl; [apply IH|done].
Qed.

Lemma for_each_app {A S} (body : S → A → option S) (l1 l2 : list A) (st : S) :
  for_each (l1 ++ l2) body st = for_each l1 body st ≫= for_each l2 body.
Proof.
  revert st. induction l1 as [|x l1 IH]; intros st; simpl; [done|].
  destruct (body st x); simpl; [apply IH|done].
Qed.

(** A loop over [xrange(a, a + n)] with an invariant that depends on the
    counter. *)
Lemma for_each_seq_invariant {St} (P : nat → St → Prop)
    (body : St → nat → option St) (a n : nat) (st : St) :
  (∀ i st, a ≤ i < a + n → P i st → ∃ st', body st i = Some st' ∧ P (S i) st') →
  P a st → ∃ st', for_each (seq a n) body st = Some st' ∧ P (a + n) st'.
Proof.
  revert a st. induction n as [|n IH]; intros a st Hbody Hst; simpl.
  - rewrite Nat.add_0_r. eauto.
  - destruct (Hbody a st) as (st1 & -> & Hst1); [lia|done|]. simpl.
    destruct (IH (S a) st1) as (st2 & Hst2 & HP); [|done|].
    + intros i st2 Hi. apply Hbody. lia.
    + exists st2. split; [done|]. by replace (a + S n) with (S a + n) by lia.
Qed.

(** A loop with an invariant that depends on the items already visited. *)
Lemma for_each_prefix_invariant {A St} (P : list A → St → Prop)
    (body : St → A → option St) (l : list A) (st : St) :
  (∀ pre x st, x ∈ l → P pre st →
     ∃ st', body st x = Some st' ∧ P (pre ++ [x]) st') →
  P [] st → ∃ st', for_each l body st = Some st' ∧ P l st'.
Proof.
  intros Hbody Hst.
  assert (Hgen : ∀ l' pre st, (∀ x, x ∈ l' → x ∈ l) → P pre st →
            ∃ st', for_each l' body st = Some st' ∧ P (pre ++ l') st').
  { induction l' as [|x l' IH]; intros pre st0 Hsub Hpre; simpl.
    - rewrite app_nil_r. eauto.
    - destruct (Hbody pre x st0) as (st1 & -> & Hst1); [apply Hsub; left|done|].
      simpl. destruct (IH (pre ++ [x]) st1) as (st2 & Hst2 & HP); [|done|].
      + intros y Hy. apply Hsub. by right.
      + exists st2. split; [done|]. by rewrite <- app_assoc in HP. }
  apply (Hgen l [] st); [done|done].
Qed.

Lemma py_update_Some {A} (l : list A) (k : nat) (f : A → A) :
  k < length l → ∃ x, l !! k = Some x ∧ py_update l k f = Some (<[k := f x]> l).
Proof.
  intros Hk. destruct (lookup_lt_is_Some_2 l k Hk) as [x Hx].
  exists x. split; [done|]. unfold py_update. by rewrite Hx.
Qed.

Lemma py_update_inv {A} (l l' : list A) (k : nat) (f : A → A) :
  py_update l k f = Some l' →
  ∃ x, l !! k = Some x ∧ l' = <[k := f x]> l.
Proof.
  unfold py_update. destruct (l !! k) as [x|]; simpl; [|done].
  intros [= <-]. eauto.
Qed.

Lemma mapM_total {A B} (f : A → option B) (g : A → B) (l : list A) :
  (∀ x, x ∈ l → f x = Some (g x)) → mapM f l = Some (g <$> l).
Proof.
  induction l as [|x l IH]; intros H; [done|].
  simpl. rewrite (H x) by left. simpl.
  rewrite IH; [done|]. intros y Hy. apply H. by right.
Qed.

Lemma mapM_fmap {A B C} (f : B → option C) (g : A → B) (l : list A) :
  mapM f (g <$> l) = mapM (λ x, f (g x)) l.
Proof.
  induction l as [|x l IH]; [done|].
  rewrite fmap_cons. cbn [mapM]. by rewrite IH.
Qed.

Lemma StronglySorted_fmap_inv {A B} (f : A → B) (R : relation B) (l : list A) :
  StronglySorted R (f <$> l) → StronglySorted (λ x y, R (f x) (f y)) l.
Proof.
  induction l as [|x l IH]; intros H; [constructor|].
  rewrite fmap_cons in H. apply StronglySorted_cons in H as [Hx Hl].
  constructor; [by apply IH|]. by rewrite Forall_fmap in Hx.
Qed.

Lemma StronglySorted_lookup {A} (R : relation A) (l : list A) i j x y :
  StronglySorted R l → i < j → l !! i = Some x → l !! j = Some y → R x y.
Proof.
  intros Hl. revert i j. induction Hl as [|a l Hl IH Ha]; intros i j Hij Hi Hj.
  - done.
  - destruct j as [|j]; [lia|]. simpl in Hj. destruct i as [|i]; simpl in Hi.
    + simplify_eq. rewrite Forall_forall in Ha.
      apply Ha. eapply list_elem_of_lookup_2, Hj.
    + apply (IH i j); [lia|done..].
Qed.

Lemma StronglySorted_reverse {A} (R : relation A) (l : list A) :
  StronglySorted R l → StronglySorted (flip R) (reverse l).
Proof.
  induction 1 as [|a l Hl IH Ha]; [constructor|].
  rewrite reverse_cons. apply StronglySorted_app_2.
  - intros x1 x2 Hx1 Hx2. apply list_elem_of_singleton in Hx2 as ->.
    rewrite elem_of_reverse in Hx1. rewrite Forall_forall in Ha. by apply Ha.
  - done.
  - repeat constructor.
Qed.

Lemma StronglySorted_take {A} (R : relation A) (l : list A) n :
  StronglySorted R l → StronglySorted R (take n l).
Proof.
  intros H. rewrite <- (take_drop n l) in H.
  by apply StronglySorted_app_1_l in H.
Qed.

Lemma StronglySorted_delete {A} (R : relation A) (l : list A) n :
  StronglySorted R l → StronglySorted R (delete n l).
Proof.
  intros H. revert n. induction H as [|a l Hl IH Ha]; intros n;
    [destruct n; constructor|].
  destruct n as [|n]; simpl; [done|].
  constructor; [apply IH|].
  eapply Forall_forall. intros x Hx. rewrite Forall_forall in Ha.
  apply Ha. eapply elem_of_sublist; [exact Hx|apply sublist_delete].
Qed.

Lemma StronglySorted_weaken {A} (R1 R2 : relation A) (l : list A) :
  (∀ x y, R1 x y → R2 x y) → StronglySorted R1 l → StronglySorted R2 l.
Proof.
  intros HR. induction 1 as [|x l Hl IH Hx]; constructor; [done|].
  eapply Forall_impl; [exact Hx|]. apply HR.
Qed.

Lemma elem_of_enumerate {A} (l : list A) (k : nat) (x : A) :
  (k, x) ∈ enumerate l ↔ l !! k = Some x.
Proof.
  unfold enumerate. rewrite list_elem_of_lookup. split.
  - intros [j Hj]. rewrite enumerate_from_lookup in Hj.
    destruct (l !! j) eqn:E; simpl in Hj; [|done]. by simplify_eq.
  - intros Hk. exists k. by rewrite enumerate_from_lookup, Hk.
Qed.

(** ** Reading a list at given positions *)

Section Positions.

Context {A : Type} (l : list A).

(** [xs] holds the items of [l] at the positions [idxs]. *)
Definition items_at (idxs : list nat) (xs : list A) : Prop :=
  Forall2 (λ i x, l !! i = Some x) idxs xs.

Lemma mapM_lookup_below (idxs : list nat) :
  Forall (λ i, i < length l) idxs →
  ∃ xs, mapM (λ i, l !! i) idxs = Some xs ∧ items_at idxs xs.
Proof.
  intros H. destruct (mapM_is_Some_2 (λ i, l !! i) idxs) as [xs Hxs].
  { eapply Forall_impl; [exact H|]. intros i Hi. by apply lookup_lt_is_Some_2. }
  exists xs. split; [done|]. by apply mapM_Some_1.
Qed.

Lemma mapM_mapM_lookup_below (idxss : list (list nat)) :
  Forall (λ i, i < length l) (concat idxss) →
  ∃ xss, mapM (mapM (λ i, l !! i)) idxss = Some xss ∧
    Forall2 items_at idxss xss.
Proof.
  induction idxss as [|idxs idxss IH]; intros H; simpl in H.
  { exists []. split; [done|constructor]. }
  apply Forall_app in H as [H1 H2].
  destruct (mapM_lookup_below idxs H1) as (xs & Hxs & Hat).
  destruct (IH H2) as (xss & Hxss & Hats).
  exists (xs :: xss). split; [|by constructor].
  simpl. rewrite Hxs. simpl. by rewrite Hxss.
Qed.

Lemma items_at_concat (idxss : list (list nat)) (xss : list (list A)) :
  Forall2 items_at idxss xss → items_at (concat idxss) (concat xss).
Proof.
  induction 1 as [|idxs xs idxss xss H1 H2 IH]; simpl; [constructor|].
  by apply Forall2_app.
Qed.

Lemma items_at_elem_of (idxs : list nat) (xs : list A) (x : A) :
  items_at idxs xs → x ∈ xs ↔ ∃ i, i ∈ idxs ∧ l !! i = Some x.
Proof.
  induction 1 as [|i y idxs xs Hi H IH].
  { split; [by intros ?%elem_of_nil|]. by intros (i & ?%elem_of_nil & _). }
  rewrite elem_of_cons, IH. split.
  - intros [->|(j & Hj & Hx)]; [exists i; split; [left|done]|].
    exists j. split; [by right|done].
  - intros (j & [->|Hj]%elem_of_cons & Hx); [left; congruence|].
    right. eauto.
Qed.

Lemma items_at_length (idxs : list nat) (xs : list A) :
  items_at idxs xs → length xs = length idxs.
Proof. intros H. symmetry. by eapply Forall2_length. Qed.

Lemma items_at_fmap (x0 : A) (idxs : list nat) (xs : list A) :
  items_at idxs xs → xs = (λ i, default x0 (l !! i)) <$> idxs.
Proof.
  induction 1 as [|i y idxs xs Hi H IH]; [done|].
  simpl. rewrite Hi. simpl. by f_equal.
Qed.

Lemma fmap_lookup_seq (x0 : A) :
  (λ i, default x0 (l !! i)) <$> seq 0 (length l) = l.
Proof.
  apply list_eq. intros k. rewrite list_lookup_fmap.
  destruct (decide (k < length l)) as [Hk|Hk].
  - rewrite lookup_seq_lt by done. simpl.
    destruct (lookup_lt_is_Some_2 l k Hk) as [x Hx]. by rewrite Hx.
  - rewrite lookup_seq_ge by lia. simpl. symmetry.
    apply lookup_ge_None. lia.
Qed.

(** The items at the positions of a sub-multiset of [0 .. len - 1] form a
    sub-multiset of the list. *)
Lemma items_at_submseteq (idxs : list nat) (xs : list A) :
  items_at idxs xs → idxs ⊆+ seq 0 (length l) → xs ⊆+ l.
Proof.
  intros Hat Hsub. destruct xs as [|x0 xs'] eqn:Hxs.
  { apply submseteq_nil_l. }
  rewrite <- Hxs in *. rewrite (items_at_fmap x0 idxs xs Hat).
  etrans; [apply fmap_submseteq, Hsub|]. by rewrite fmap_lookup_seq.
Qed.

Lemma items_at_Permutation (idxs : list nat) (xs : list A) :
  items_at idxs xs → idxs ≡ₚ seq 0 (length l) → xs ≡ₚ l.
Proof.
  intros Hat Hperm. destruct xs as [|x0 xs'] eqn:Hxs.
  { apply Forall2_nil_inv_r in Hat as ->.
    apply Permutation_nil_l in Hperm.
    destruct l; [done|discriminate]. }
  rewrite <- Hxs in *. rewrite (items_at_fmap x0 idxs xs Hat).
  etrans; [apply fmap_Permutation, Hperm|]. by rewrite fmap_lookup_seq.
Qed.

End Positions.

(** ** Comparisons of rationals *)

Lemma Qltb_lt (x y : Q) : Qltb x y = true ↔ (x < y)%Q.
Proof.
  unfold Qltb. rewrite Qlt_alt. destruct (x ?= y)%Q; split; congruence.
Qed.

Lemma Qltb_ge (x y : Q) : Qltb x y = false ↔ (y <= x)%Q.
Proof.
  rewrite <- not_true_iff_false, Qltb_lt. split.
  - apply Qnot_lt_le.
  - apply Qle_not_lt.
Qed.

Lemma Qltb_asym (x y : Q) : Qltb x y = true → Qltb y x = false.
Proof. rewrite Qltb_lt, Qltb_ge. apply Qlt_le_weak. Qed.

Lemma Qltb_negtrans (x y z : Q) :
  Qltb x y = false → Qltb y z = false → Qltb x z = false.
Proof. rewrite !Qltb_ge. intros H1 H2. by apply Qle_trans with y. Qed.

(** ** The stable sort *)

Section SortBy.

Context {A : Type} (lt : A → A → bool).

Lemma insert_by_perm x l : insert_by lt x l ≡ₚ x :: l.
Proof.
  induction l as [|y l IH]; simpl; [done|].
  destruct (lt y x); [|done].
  rewrite IH. apply Permutation_swap.
Qed.

Lemma sort_by_perm l : sort_by lt l ≡ₚ l.
Proof.
  induction l as [|x l IH]; simpl; [done|].
  unfold sort_by in *. simpl. rewrite insert_by_perm. by f_equiv.
Qed.

Lemma sort_by_length l : length (sort_by lt l) = length l.
Proof. by rewrite sort_by_perm. Qed.

(** [x] may stand before [y] in a sorted list when [y] is not smaller. *)
Definition not_after (x y : A) : Prop := lt y x = false.

Hypothesis lt_asym : ∀ x y, lt x y = true → lt y x = false.
Hypothesis lt_negtrans :
  ∀ x y z, lt x y = false → lt y z = false → lt x z = false.

Lemma insert_by_sorted x l :
  StronglySorted not_after l → StronglySorted not_after (insert_by lt x l).
Proof.
  induction l as [|y l IH]; intros Hl; simpl.
  - repeat constructor.
  - apply StronglySorted_cons in Hl as [Hy Hl].
    destruct (lt y x) eqn:E.
    + apply StronglySorted_cons. split; [|by apply IH].
      rewrite insert_by_perm. constructor; [|done].
      unfold not_after. by apply lt_asym.
    + apply StronglySorted_cons. split; [|by apply StronglySorted_cons].
      constructor; [done|].
      eapply Forall_impl; [exact Hy|]. unfold not_after.
      intros z Hz. by apply lt_negtrans with y.
Qed.

Lemma sort_by_sorted l : StronglySorted not_after (sort_by lt l).
Proof.
  induction l as [|x l IH]; [constructor|].
  by apply insert_by_sorted.
Qed.

End SortBy.

From Stdlib Require Import QArith.
From stdpp Require Import base option list numbers sorting.
Close Scope Q_scope.

(** * The concrete fitness: dominance is a strict partial order *)

(** [b] is at least [a] on every objective and greater on one. *)
Definition vector_dominated (a b : list Q) : bool :=
  forallb (λ p : Q * Q, Qle_bool p.1 p.2) (zip a b) &&
  existsb (λ p : Q * Q, Qltb p.1 p.2) (zip a b).

Lemma Fitness_isDominated_vector (a b : Fitness) :
  Fitness_isDominated a b = vector_dominated (wvalues a) (wvalues b).
Proof. done. Qed.

Lemma vector_dominated_irrefl (a : list Q) : vector_dominated a a = false.
Proof.
  unfold vector_dominated. apply andb_false_iff. right.
  induction a as [|x a IH]; [done|]. simpl. rewrite IH, orb_false_r.
  apply Qltb_ge, Qle_refl.
Qed.

Lemma vector_dominated_trans (a b c : list Q) :
  length a = length b → length b = length c →
  vector_dominated a b = true → vector_dominated b c = true →
  vector_dominated a c = true.
Proof.
  unfold vector_dominated. revert b c.
  induction a as [|x a IH]; intros [|y b] [|z c] Hab Hbc; try done.
  simpl in Hab, Hbc. simpl.
  rewrite !andb_true_iff, !orb_true_iff.
  intros [[Hxy Hall1] Hex1] [[Hyz Hall2] Hex2].
  apply Qle_bool_iff in Hxy, Hyz.
  assert (Hle : forallb (λ p : Q * Q, Qle_bool p.1 p.2) (zip a c) = true).
  { clear Hex1 Hex2 IH. revert b c Hab Hbc Hall1 Hall2.
    induction a as [|x' a IH']; intros [|y' b] [|z' c] Hab Hbc; try done.
    simpl. rewrite !andb_true_iff. intros [H1 H1'] [H2 H2']. split.
    - apply Qle_bool_iff. apply Qle_bool_iff in H1, H2.
      by apply Qle_trans with y'.
    - apply (IH' b c); auto. }
  split; [split; [|done]|].
  { apply Qle_bool_iff. by apply Qle_trans with y. }
  destruct Hex1 as [Hlt1|Hex1].
  { left. apply Qltb_lt. apply Qltb_lt in Hlt1. by apply Qlt_le_trans with y. }
  destruct Hex2 as [Hlt2|Hex2].
  { left. apply Qltb_lt. apply Qltb_lt in Hlt2. by apply Qle_lt_trans with y. }
  right. specialize (IH b c). rewrite !andb_true_iff in IH.
  apply IH; auto.
Qed.

Lemma wvalues_length (L : nat) (f : Fitness) :
  length (fvalues f) = L ∧ length (fweights f) = L → length (wvalues f) = L.
Proof.
  intros [H1 H2]. unfold wvalues. rewrite length_zip_with. lia.
Qed.

(** On a population of one arity, dominance is irreflexive and transitive. *)
Lemma Fitness_isDominated_irrefl (a : Fitness) : Fitness_isDominated a a = false.
Proof. rewrite Fitness_isDominated_vector. apply vector_dominated_irrefl. Qed.

Lemma Fitness_isDominated_trans (L : nat) (population : list Fitness)
    (a b c : Fitness) :
  same_arity L population →
  a ∈ population → b ∈ population → c ∈ population →
  Fitness_isDominated a b = true → Fitness_isDominated b c = true →
  Fitness_isDominated a c = true.
Proof.
  intros Hpop Ha Hb Hc. unfold same_arity in Hpop.
  rewrite Forall_forall in Hpop.
  rewrite !Fitness_isDominated_vector. apply vector_dominated_trans.
  - by rewrite (wvalues_length L a), (wvalues_length L b) by auto.
  - by rewrite (wvalues_length L b), (wvalues_length L c) by auto.
Qed.

Lemma sample_population_arity : same_arity 2 sample_population.
Proof. repeat constructor. Qed.

Lemma layered_population_arity : same_arity 2 layered_population.
Proof. repeat constructor. Qed.

From Stdlib Require Import QArith.
From stdpp Require Import base option list numbers sorting.
Close Scope Q_scope.

(** * Order-statistic selection: properties *)

Section SelectFacts.

Context {Rng : Type}.
Variable randint : Rng → Z → Z → Z * Rng.

(** [random.randint(a, b)] returns an integer of the closed range. *)
Hypothesis randint_range :
  ∀ g a b, (a ≤ b)%Z → (a ≤ (randint g a b).1 ≤ b)%Z.

Lemma select_in_outcomes fuel g array begin end_ i :
  (fst ∘ fst) <$> randomizedSelect_fuel randint fuel g array begin end_ i
    ∈ select_outcomes fuel array begin end_ i.
Proof.
  revert g array begin end_ i.
  induction fuel as [|fuel IH]; intros g array begin end_ i; simpl.
  { apply list_elem_of_singleton. reflexivity. }
  destruct (begin =? end_)%Z eqn:Hbe.
  { apply list_elem_of_singleton. destruct (py_get array begin); reflexivity. }
  unfold _randomizedPartition, py_randint.
  destruct (end_ <? begin)%Z eqn:Hlt.
  { apply list_elem_of_singleton. reflexivity. }
  apply Z.ltb_ge in Hlt.
  pose proof (randint_range g begin end_ Hlt) as Hr.
  destruct (randint g begin end_) as [r g1]; simpl in Hr |- *.
  apply list_elem_of_bind. exists r. split.
  2:{ apply elem_of_seqZ. lia. }
  destruct (py_swap array begin r) as [array1|]; simpl.
  2:{ apply list_elem_of_singleton. reflexivity. }
  destruct (_partition array1 begin end_) as [[array2 q]|]; simpl.
  2:{ apply list_elem_of_singleton. reflexivity. }
  destruct (Qltb i (inject_Z (q - begin + 1))); apply IH.
Qed.

End SelectFacts.

(** C6, as stated, fails: with the generator that always draws the lower
    bound, rank 3 on [9,1,5,3,7] yields 7, which is not 5. *)
Lemma C6_rank3_is_not_5 :
  (fst ∘ fst) <$> _randomizedSelect lowest_pivot tt sample_array 0 4 3
    = Some 7%Q ∧ ¬ (7 == 5)%Q.
Proof. split; [vm_compute; reflexivity | discriminate]. Qed.

(** C6, amended: ranks count from zero.  On [9,1,5,3,7], whatever pivots the
    random source draws, [_randomizedSelect] returns 7 for rank 3 and the
    third smallest value, 5, for rank 2. *)
Theorem C6_select_sample {Rng : Type} (randint : Rng → Z → Z → Z * Rng)
    (g : Rng) :
  (∀ g a b, (a ≤ b)%Z → (a ≤ (randint g a b).1 ≤ b)%Z) →
  (fst ∘ fst) <$> _randomizedSelect randint g sample_array 0 4 3 = Some 7%Q ∧
  (fst ∘ fst) <$> _randomizedSelect randint g sample_array 0 4 2 = Some 5%Q.
Proof.
  intros Hrange. unfold _randomizedSelect. split.
  - pose proof (select_in_outcomes randint Hrange
                  (S (Z.to_nat (4 - 0))) g sample_array 0 4 3) as H.
    revert H. generalize ((fst ∘ fst) <$>
      randomizedSelect_fuel randint (S (Z.to_nat (4 - 0))) g sample_array 0 4 3).
    intros o Ho.
    assert (Hall : Forall (λ o, o = Some 7%Q)
                     (select_outcomes (S (Z.to_nat (4 - 0))) sample_array 0 4 3)).
    { vm_compute. repeat constructor. }
    rewrite Forall_forall in Hall. apply Hall, Ho.
  - pose proof (select_in_outcomes randint Hrange
                  (S (Z.to_nat (4 - 0))) g sample_array 0 4 2) as H.
    revert H. generalize ((fst ∘ fst) <$>
      randomizedSelect_fuel randint (S (Z.to_nat (4 - 0))) g sample_array 0 4 2).
    intros o Ho.
    assert (Hall : Forall (λ o, o = Some 5%Q)
                     (select_outcomes (S (Z.to_nat (4 - 0))) sample_array 0 4 2)).
    { vm_compute. repeat constructor. }
    rewrite Forall_forall in Hall. apply Hall, Ho.
Qed.

Lemma C6_select_sample_witness :
  (fst ∘ fst) <$> _randomizedSelect lowest_pivot tt sample_array 0 4 3 = Some 7%Q ∧
  (fst ∘ fst) <$> _randomizedSelect lowest_pivot tt sample_array 0 4 2 = Some 5%Q.
Proof.
  apply (C6_select_sample lowest_pivot tt).
  intros g a b Hab. simpl. lia.
Defined.

From Stdlib Require Import QArith.
From stdpp Require Import base option list numbers sorting.
Close Scope Q_scope.

(** * The hall of fame: properties *)

Section Bisect.

Context {A : Type} (lt : A → A → bool).
Hypothesis lt_irrefl : ∀ x, lt x x = false.
Hypothesis lt_negtrans :
  ∀ x y z, lt x y = false → lt y z = false → lt x z = false.

Lemma bisect_loop_spec (a : list A) (x : A) fuel lo hi :
  StronglySorted (not_after lt) a →
  lo ≤ hi ≤ length a → hi - lo ≤ fuel →
  (∀ k y, k < lo → a !! k = Some y → lt x y = false) →
  (∀ k y, hi ≤ k → a !! k = Some y → lt x y = true) →
  let r := bisect_loop lt fuel a x lo hi in
  lo ≤ r ≤ hi ∧
  (∀ k y, k < r → a !! k = Some y → lt x y = false) ∧
  (∀ k y, r ≤ k → a !! k = Some y → lt x y = true).
Proof.
  intros Ha. revert lo hi.
  induction fuel as [|fuel IH]; intros lo hi Hb Hf Hlo Hhi.
  { assert (lo = hi) as -> by lia. split_and!; [simpl; lia..|done|done]. }
  cbn [bisect_loop]. cbv zeta.
  destruct (Nat.ltb_spec lo hi) as [Hlt|Hge].
  2:{ assert (lo = hi) as -> by lia. split_and!; [lia..|done|done]. }
  set (mid := (lo + hi) `div` 2).
  assert (lo ≤ mid < hi) as Hmid.
  { subst mid. split.
    - apply Nat.div_le_lower_bound; lia.
    - apply Nat.Div0.div_lt_upper_bound; lia. }
  destruct (lookup_lt_is_Some_2 a mid) as [y Hy]; [lia|].
  rewrite Hy.
  assert (Hsorted : ∀ i j u v, i ≤ j → a !! i = Some u → a !! j = Some v →
                               lt v u = false).
  { intros i j u v Hij Hu Hv.
    destruct (decide (i = j)) as [->|Hne].
    - simplify_eq. apply lt_irrefl.
    - apply (StronglySorted_lookup _ _ i j u v Ha); [lia|done..]. }
  destruct (lt x y) eqn:Hxy.
  - destruct (IH lo mid) as (Hr & Hr1 & Hr2); [lia|lia|done| |].
    + intros k z Hk Hz.
      destruct (lt x z) eqn:Hxz; [done|].
      pose proof (Hsorted mid k y z Hk Hy Hz) as Hzy.
      rewrite (lt_negtrans x z y Hxz Hzy) in Hxy. done.
    + split_and!; [lia..|done|done].
  - destruct (IH (S mid) hi) as (Hr & Hr1 & Hr2); [lia|lia| |done|].
    + intros k z Hk Hz.
      assert (k ≤ mid) as Hk' by lia.
      pose proof (Hsorted k mid z y Hk' Hz Hy) as Hyz.
      by apply lt_negtrans with y.
    + split_and!; [lia..|done|done].
Qed.

Lemma bisect_right_spec (a : list A) (x : A) :
  StronglySorted (not_after lt) a →
  let r := bisect_right lt a x in
  r ≤ length a ∧
  Forall (λ y, lt x y = false) (take r a) ∧
  Forall (λ y, lt x y = true) (drop r a).
Proof.
  intros Ha. unfold bisect_right.
  destruct (bisect_loop_spec a x (length a) 0 (length a))
    as (Hr & Hr1 & Hr2); [done|lia|lia| | |].
  - intros k y Hk. lia.
  - intros k y Hk Hy. apply lookup_lt_Some in Hy. lia.
  - split_and!; [lia| |].
    + apply Forall_lookup. intros k y Hy.
      apply lookup_take_Some in Hy as [Hy Hk]. by eapply Hr1.
    + apply Forall_lookup. intros k y Hy.
      rewrite lookup_drop in Hy. eapply Hr2; [|exact Hy]. lia.
Qed.

End Bisect.

Section HallOfFameFacts.

Context {Fit Ind : Type} (fitness : Ind → Fit) (fit_lt : Fit → Fit → bool).

Local Abbreviation hof := (@HallOfFame.t Fit Ind).
Local Abbreviation insert := (HallOfFame.insert fitness fit_lt).
Local Abbreviation update_one := (HallOfFame.update_one fitness fit_lt).
Local Abbreviation update := (HallOfFame.update fitness fit_lt).

(** Inserting never evicts: the new item is put between a prefix and the
    matching suffix of the old items. *)
Lemma insert_items_split (h : hof) (item : Ind) :
  ∃ p, p ≤ length (HallOfFame.items h) ∧
    HallOfFame.items (insert h item)
    = take p (HallOfFame.items h) ++ item :: drop p (HallOfFame.items h).
Proof. apply py_insert_split. Qed.

Lemma insert_length (h : hof) (item : Ind) :
  HallOfFame.len (insert h item) = (HallOfFame.len h + 1)%Z.
Proof.
  unfold HallOfFame.len. simpl. rewrite py_insert_length. lia.
Qed.

Lemma insert_keys_length (h : hof) (item : Ind) :
  length (HallOfFame.keys (insert h item)) = S (length (HallOfFame.keys h)).
Proof. simpl. apply py_insert_length. Qed.

Lemma insert_maxsize (h : hof) (item : Ind) :
  HallOfFame.maxsize (insert h item) = HallOfFame.maxsize h.
Proof. done. Qed.

(** The hall is in order: best first, and the keys mirror the items. *)
Definition ge_fit (a b : Ind) : Prop :=
  fit_lt (fitness a) (fitness b) = false.

Definition in_order (h : hof) : Prop :=
  StronglySorted ge_fit (HallOfFame.items h) ∧
  HallOfFame.keys h = fitness <$> reverse (HallOfFame.items h).

(** The fitness comparison is a strict total (weak) order. *)
Hypothesis fit_lt_irrefl : ∀ x, fit_lt x x = false.
Hypothesis fit_lt_trans :
  ∀ x y z, fit_lt x y = true → fit_lt y z = true → fit_lt x z = true.
Hypothesis fit_lt_negtrans :
  ∀ x y z, fit_lt x y = false → fit_lt y z = false → fit_lt x z = false.

Lemma fit_lt_asym x y : fit_lt x y = true → fit_lt y x = false.
Proof.
  intros Hxy. destruct (fit_lt y x) eqn:Hyx; [|done].
  by rewrite <- (fit_lt_irrefl x), (fit_lt_trans x y x).
Qed.

Lemma in_order_keys_sorted (h : hof) :
  in_order h → StronglySorted (not_after fit_lt) (HallOfFame.keys h).
Proof.
  intros [Hs ->].
  apply (StronglySorted_fmap _ (flip ge_fit)); [done|].
  by apply StronglySorted_reverse.
Qed.

Lemma insert_in_order (h : hof) (item : Ind) :
  in_order h → in_order (insert h item).
Proof.
  intros Hh. pose proof (in_order_keys_sorted h Hh) as Hks.
  destruct Hh as [Hs Hk].
  destruct (bisect_right_spec fit_lt fit_lt_irrefl fit_lt_negtrans
              (HallOfFame.keys h) (fitness item) Hks) as (Hr & Hle & Hgt).
  set (r := bisect_right fit_lt (HallOfFame.keys h) (fitness item)) in *.
  assert (Hlen : length (HallOfFame.keys h) = length (HallOfFame.items h)).
  { by rewrite Hk, length_fmap, length_reverse. }
  set (n := length (HallOfFame.items h)) in *.
  assert (Hitems : HallOfFame.items (insert h item)
            = take (n - r) (HallOfFame.items h)
              ++ item :: drop (n - r) (HallOfFame.items h)).
  { unfold HallOfFame.insert. cbn [HallOfFame.items]. fold r.
    rewrite py_insert_front by (unfold HallOfFame.len; lia).
    unfold HallOfFame.len. fold n.
    by replace (Z.to_nat (Z.of_nat n - Z.of_nat r)) with (n - r) by lia. }
  assert (Hkeys : HallOfFame.keys (insert h item)
            = take r (HallOfFame.keys h)
              ++ fitness item :: drop r (HallOfFame.keys h)).
  { unfold HallOfFame.insert. cbn [HallOfFame.keys]. fold r.
    rewrite py_insert_front by lia. by rewrite Nat2Z.id. }
  (* the items before the slot carry the keys after [r], and conversely *)
  assert (Hhigh : fitness <$> take (n - r) (HallOfFame.items h)
                  = reverse (drop r (HallOfFame.keys h))).
  { rewrite Hk, fmap_reverse, drop_reverse, reverse_involutive.
    rewrite length_fmap. fold n. by rewrite fmap_take. }
  assert (Hlow : fitness <$> drop (n - r) (HallOfFame.items h)
                 = reverse (take r (HallOfFame.keys h))).
  { rewrite Hk, fmap_reverse, take_reverse, reverse_involutive.
    rewrite length_fmap. fold n. by rewrite fmap_drop. }
  split.
  - rewrite Hitems.
    rewrite <- (take_drop (n - r) (HallOfFame.items h)) in Hs.
    apply StronglySorted_app in Hs as (Hcross & Hs1 & Hs2).
    apply StronglySorted_app_2; [|done|].
    + intros a b Ha Hb. apply elem_of_cons in Hb as [->|Hb]; [|by apply Hcross].
      apply fit_lt_asym.
      assert (fitness a ∈ drop r (HallOfFame.keys h)) as Hfa.
      { rewrite <- elem_of_reverse, <- Hhigh. by apply list_elem_of_fmap_2. }
      rewrite Forall_forall in Hgt. by apply Hgt.
    + apply StronglySorted_cons. split; [|done].
      apply Forall_forall. intros b Hb.
      assert (fitness b ∈ take r (HallOfFame.keys h)) as Hfb.
      { rewrite <- elem_of_reverse, <- Hlow. by apply list_elem_of_fmap_2. }
      rewrite Forall_forall in Hle. by apply Hle.
  - rewrite Hkeys, Hitems.
    rewrite reverse_app, reverse_cons, fmap_app, fmap_app.
    rewrite !fmap_reverse, Hlow, Hhigh, !reverse_involutive.
    by rewrite <- app_assoc.
Qed.

(** [remove(-1)] on a non-empty hall drops the worst item and its key. *)
Lemma remove_last (h : hof) :
  HallOfFame.items h ≠ [] →
  length (HallOfFame.keys h) = length (HallOfFame.items h) →
  HallOfFame.remove h (-1)
  = Some {| HallOfFame.maxsize := HallOfFame.maxsize h;
            HallOfFame.keys := drop 1 (HallOfFame.keys h);
            HallOfFame.items :=
              take (pred (length (HallOfFame.items h))) (HallOfFame.items h) |}.
Proof.
  intros Hne Hlen. unfold HallOfFame.remove, HallOfFame.len.
  set (n := length (HallOfFame.items h)) in *.
  assert (0 < n) as Hn.
  { subst n. destruct (HallOfFame.items h); [done|simpl; lia]. }
  destruct (Z.eqb_spec (Z.of_nat n) 0) as [|_]; [lia|].
  assert ((-1) `mod` Z.of_nat n = Z.of_nat n - 1)%Z as ->.
  { symmetry. apply (Z.mod_unique_pos _ _ (-1)); lia. }
  replace (Z.of_nat n - (Z.of_nat n - 1 + 1))%Z with (Z.of_nat 0) by lia.
  rewrite py_del_nat by lia. simpl.
  unfold py_del. rewrite py_index_last by done. simpl. fold n.
  do 2 f_equal.
  - by destruct (HallOfFame.keys h).
  - rewrite delete_take_drop.
    rewrite drop_ge by (fold n; lia). by rewrite app_nil_r.
Qed.

Lemma remove_last_in_order (h h1 : hof) :
  HallOfFame.items h ≠ [] → in_order h →
  HallOfFame.remove h (-1) = Some h1 →
  in_order h1 ∧
  S (length (HallOfFame.items h1)) = length (HallOfFame.items h) ∧
  HallOfFame.maxsize h1 = HallOfFame.maxsize h.
Proof.
  intros Hne [Hs Hk] Hrem.
  rewrite remove_last in Hrem by (by rewrite ?Hk, ?length_fmap, ?length_reverse).
  injection Hrem as <-. cbn [HallOfFame.items HallOfFame.keys HallOfFame.maxsize].
  set (n := length (HallOfFame.items h)) in *.
  assert (0 < n) as Hn.
  { subst n. destruct (HallOfFame.items h); [done|simpl; lia]. }
  split_and!; [split| |done].
  - cbn [HallOfFame.items]. by apply StronglySorted_take.
  - cbn [HallOfFame.items HallOfFame.keys].
    rewrite Hk, reverse_take, fmap_drop. fold n.
    by replace (n - pred n) with 1 by lia.
  - cbn [HallOfFame.items]. rewrite length_take. fold n. lia.
Qed.

Lemma update_one_in_order (h : hof) (ind : Ind) :
  HallOfFame.items h ≠ [] → in_order h →
  ∃ h1, update_one h ind = Some h1 ∧ in_order h1 ∧
    length (HallOfFame.items h1) = length (HallOfFame.items h) ∧
    HallOfFame.maxsize h1 = HallOfFame.maxsize h.
Proof.
  intros Hne Hh. unfold HallOfFame.update_one, py_get.
  rewrite py_index_last by done. simpl.
  destruct (lookup_lt_is_Some_2 (HallOfFame.items h)
              (pred (length (HallOfFame.items h)))) as [worst ->].
  { destruct (HallOfFame.items h); [done|simpl; lia]. }
  simpl. destruct (fit_lt (fitness worst) (fitness ind)); [|by eauto].
  pose proof Hh as [_ Hk].
  assert (Hlen : length (HallOfFame.keys h) = length (HallOfFame.items h))
    by (by rewrite Hk, length_fmap, length_reverse).
  pose proof (remove_last h Hne Hlen) as Hrem.
  destruct (remove_last_in_order h _ Hne Hh Hrem) as (Ho & Hl & Hm).
  rewrite Hrem. simpl. eexists. split; [done|].
  split_and!; [by apply insert_in_order| |done].
  match goal with |- context [insert ?h1 ind] =>
    pose proof (insert_length h1 ind) as Hi end.
  unfold HallOfFame.len in Hi. lia.
Qed.

(** What every [update] keeps: the capacity, the order and the bound. *)
Definition hall_ok (M : Z) (h : hof) : Prop :=
  HallOfFame.maxsize h = Some M ∧ in_order h ∧ (HallOfFame.len h ≤ M)%Z.

Lemma update_hall_ok (M : Z) (h : hof) (population : list Ind) :
  (1 ≤ M)%Z → hall_ok M h →
  ∃ h1, update h population = Some h1 ∧ hall_ok M h1.
Proof.
  intros HM (Hm & Ho & Hl). unfold HallOfFame.update, HallOfFame.has_room.
  rewrite Hm. change (default 0%Z (Some M)) with M.
  destruct (Z.ltb_spec (HallOfFame.len h) M) as [Hlt|Hge].
  - eexists. split; [done|]. rewrite py_take_front by lia.
    split_and!; [done|split|].
    + cbn [HallOfFame.items]. apply StronglySorted_take.
      apply (sort_by_sorted (λ a b, fit_lt (fitness b) (fitness a))).
      * intros x y. apply fit_lt_asym.
      * intros x y z Hxy Hyz. by apply fit_lt_negtrans with (fitness y).
    + done.
    + unfold HallOfFame.len. cbn [HallOfFame.items].
      rewrite length_take. lia.
  - assert (Hfull : length (HallOfFame.items h) = Z.to_nat M)
      by (unfold HallOfFame.len in *; lia).
    destruct (for_each_invariant
                (λ h1 : hof, HallOfFame.maxsize h1 = Some M ∧ in_order h1 ∧
                             length (HallOfFame.items h1) = Z.to_nat M)
                update_one population h) as (h1 & Hh1 & Hm1 & Ho1 & Hl1).
    + intros h0 ind _ (Hm0 & Ho0 & Hl0).
      destruct (update_one_in_order h0 ind) as (h1 & Hh1 & Ho1 & Hl1 & Hm1);
        [|done|].
      { intros E. rewrite E in Hl0. simpl in Hl0. lia. }
      exists h1. split_and!; [done|congruence|done|congruence].
    + done.
    + exists h1. split; [done|]. split_and!; [done..|].
      unfold HallOfFame.len. lia.
Qed.

(** C5: starting from an empty hall of capacity [M >= 1], every sequence of
    [update] calls succeeds and leaves the items best first, each fitness
    not below the next one ([>=] being the negation of [<]), and at most
    [M] of them. *)
Theorem C5_update_keeps_order_and_bound (M : Z)
    (populations : list (list Ind)) :
  (1 ≤ M)%Z →
  ∃ h, for_each populations update (HallOfFame.init (Some M)) = Some h ∧
    (∀ i a b, HallOfFame.items h !! i = Some a →
              HallOfFame.items h !! S i = Some b →
              fit_lt (fitness a) (fitness b) = false) ∧
    (HallOfFame.len h ≤ M)%Z.
Proof.
  intros HM.
  destruct (for_each_invariant (hall_ok M) update populations
              (HallOfFame.init (Some M))) as (h & Hh & Hm & [Hs Hk] & Hl).
  - intros h population _ Hok. by apply update_hall_ok.
  - split_and!; [done|split; [constructor|done]|].
    unfold HallOfFame.len. simpl. lia.
  - exists h. split_and!; [done| |done].
    intros i a b Ha Hb.
    apply (StronglySorted_lookup ge_fit _ i (S i) a b Hs); [lia|done..].
Qed.

(** C10: [insert] on a hall already holding [maxsize] items makes it
    [maxsize + 1] long.  Every old item survives, the new one is put between
    a prefix and the matching suffix of the old items, and a hall that was in
    order stays in order. *)
Theorem C10_insert_ignores_capacity (M : Z) (h : hof) (item : Ind) :
  HallOfFame.maxsize h = Some M → HallOfFame.len h = M →
  HallOfFame.len (insert h item) = (M + 1)%Z ∧
  (∃ p, p ≤ length (HallOfFame.items h) ∧
     HallOfFame.items (insert h item)
     = take p (HallOfFame.items h) ++ item :: drop p (HallOfFame.items h)) ∧
  (in_order h → in_order (insert h item)).
Proof.
  intros Hm Hl. split_and!.
  - rewrite insert_length. lia.
  - apply insert_items_split.
  - apply insert_in_order.
Qed.

End HallOfFameFacts.

Lemma Z_ltb_irrefl (x : Z) : (x <? x)%Z = false.
Proof. apply Z.ltb_irrefl. Qed.

Lemma Z_ltb_trans (x y z : Z) :
  (x <? y)%Z = true → (y <? z)%Z = true → (x <? z)%Z = true.
Proof. rewrite !Z.ltb_lt. lia. Qed.

Lemma Z_ltb_negtrans (x y z : Z) :
  (x <? y)%Z = false → (y <? z)%Z = false → (x <? z)%Z = false.
Proof. rewrite !Z.ltb_ge. lia. Qed.

Lemma C5_update_keeps_order_and_bound_witness :
  ∃ h, for_each [[5; 3]; [4; 6]]%Z (HallOfFame.update id Z.ltb)
         (HallOfFame.init (Some 2%Z)) = Some h ∧
    (∀ i a b, HallOfFame.items h !! i = Some a →
              HallOfFame.items h !! S i = Some b → (a <? b)%Z = false) ∧
    (HallOfFame.len h ≤ 2)%Z.
Proof.
  apply (C5_update_keeps_order_and_bound id Z.ltb
           Z_ltb_irrefl Z_ltb_trans Z_ltb_negtrans 2 [[5; 3]; [4; 6]]%Z).
  lia.
Defined.

Lemma C10_insert_ignores_capacity_witness :
  HallOfFame.len (HallOfFame.insert id Z.ltb sample_hall 4%Z) = (2 + 1)%Z ∧
  (∃ p, p ≤ length (HallOfFame.items sample_hall) ∧
     HallOfFame.items (HallOfFame.insert id Z.ltb sample_hall 4%Z)
     = take p (HallOfFame.items sample_hall)
       ++ 4%Z :: drop p (HallOfFame.items sample_hall)) ∧
  (in_order id Z.ltb sample_hall →
   in_order id Z.ltb (HallOfFame.insert id Z.ltb sample_hall 4%Z)).
Proof.
  apply (C10_insert_ignores_capacity id Z.ltb
           Z_ltb_irrefl Z_ltb_trans Z_ltb_negtrans 2 sample_hall 4%Z);
    reflexivity.
Defined.

From Stdlib Require Import QArith.
From stdpp Require Import base option list numbers sorting.
Close Scope Q_scope.

(** * The Pareto front: properties *)

Section ParetoFrontFacts.

Context {Fit Ind : Type} (fitness : Ind → Fit) (fit_lt : Fit → Fit → bool).
Context (fit_eqb : Fit → Fit → bool) (isDominated : Fit → Fit → bool).
Context (similar : Ind → Ind → bool).

Local Abbreviation hof := (@HallOfFame.t Fit Ind).
Local Abbreviation scan := (ParetoFront.scan fitness fit_eqb isDominated similar).
Local Abbreviation update_one :=
  (ParetoFront.update_one fitness fit_lt fit_eqb isDominated similar).
Local Abbreviation update :=
  (ParetoFront.update fitness fit_lt fit_eqb isDominated similar).

(** Neither of two individuals dominates the other. *)
Definition incomparable (a b : Ind) : Prop :=
  isDominated (fitness a) (fitness b) = false ∧
  isDominated (fitness b) (fitness a) = false.

(** What [to_remove] holds after the scan of the hall: increasing positions
    of the hall, and, when the scan ran to the end, every member that the
    candidate dominates, no member dominating the candidate. *)
Lemma scan_spec (ind : Ind) (l : list Ind) (k : nat) (acc : list nat) d t r :
  scan ind (enumerate_from k l) acc = (d, t, r) →
  ∃ r', r = acc ++ r' ∧
    StronglySorted lt r' ∧
    Forall (λ i, k ≤ i < k + length l) r' ∧
    (d = false → t = false → ∀ j x, l !! j = Some x →
       isDominated (fitness ind) (fitness x) = false ∧
       (isDominated (fitness x) (fitness ind) = true → k + j ∈ r')).
Proof.
  revert k acc. induction l as [|x l IH]; intros k acc Hscan; simpl in Hscan.
  { injection Hscan as <- <- <-. exists []. rewrite app_nil_r.
    split_and!; [done|constructor|constructor|done]. }
  destruct (isDominated (fitness ind) (fitness x)) eqn:Hix.
  { injection Hscan as <- <- <-. exists []. rewrite app_nil_r.
    split_and!; [done|constructor|constructor|done]. }
  destruct (isDominated (fitness x) (fitness ind)) eqn:Hxi.
  { apply IH in Hscan as (r' & -> & Hs & Hb & Hall).
    exists (k :: r'). split_and!.
    - by rewrite <- app_assoc.
    - constructor; [done|]. eapply Forall_impl; [exact Hb|]. simpl. lia.
    - constructor; [simpl; lia|].
      eapply Forall_impl; [exact Hb|]. simpl. lia.
    - intros Hd Ht [|j] y Hy; simpl in Hy.
      + simplify_eq. split; [done|]. intros _. rewrite Nat.add_0_r. left.
      + destruct (Hall Hd Ht j y Hy) as [H1 H2]. split; [done|].
        intros H. right. replace (k + S j) with (S k + j) by lia. by apply H2. }
  destruct (fit_eqb (fitness ind) (fitness x) && similar ind x).
  { injection Hscan as <- <- <-. exists []. rewrite app_nil_r.
    split_and!; [done|constructor|constructor|done]. }
  apply IH in Hscan as (r' & -> & Hs & Hb & Hall).
  exists r'. split_and!; [done|done| |].
  - eapply Forall_impl; [exact Hb|]. simpl. lia.
  - intros Hd Ht [|j] y Hy; simpl in Hy.
    + simplify_eq. split; [done|]. congruence.
    + destruct (Hall Hd Ht j y Hy) as [H1 H2]. split; [done|].
      intros H. replace (k + S j) with (S k + j) by lia. by apply H2.
Qed.

(** [remove(i)] at a position of the hall deletes that item and its key. *)
Lemma remove_at (h : hof) (i : nat) :
  i < length (HallOfFame.items h) →
  length (HallOfFame.keys h) = length (HallOfFame.items h) →
  HallOfFame.remove h (Z.of_nat i)
  = Some {| HallOfFame.maxsize := HallOfFame.maxsize h;
            HallOfFame.keys :=
              delete (length (HallOfFame.items h) - S i) (HallOfFame.keys h);
            HallOfFame.items := delete i (HallOfFame.items h) |}.
Proof.
  intros Hi Hlen. unfold HallOfFame.remove, HallOfFame.len.
  set (n := length (HallOfFame.items h)) in *.
  destruct (Z.eqb_spec (Z.of_nat n) 0) as [|_]; [lia|].
  rewrite Z.mod_small by lia.
  replace (Z.of_nat n - (Z.of_nat i + 1))%Z with (Z.of_nat (n - S i)) by lia.
  rewrite !py_del_nat by lia. done.
Qed.

(** Removing increasing positions from the last to the first succeeds and
    leaves the items at the other positions. *)
Lemma remove_all (R : relation Ind) (r : list nat) (h : hof) :
  StronglySorted lt r →
  Forall (λ i, i < length (HallOfFame.items h)) r →
  length (HallOfFame.keys h) = length (HallOfFame.items h) →
  StronglySorted R (HallOfFame.items h) →
  ∃ h1, for_each (reverse r) (λ h i, HallOfFame.remove h (Z.of_nat i)) h
        = Some h1 ∧
    length (HallOfFame.keys h1) = length (HallOfFame.items h1) ∧
    StronglySorted R (HallOfFame.items h1) ∧
    (∀ x, x ∈ HallOfFame.items h1 →
       ∃ q, HallOfFame.items h !! q = Some x ∧ q ∉ r).
Proof.
  revert h. induction r as [|m r IH] using rev_ind; intros h Hs Hb Hlen HR.
  { exists h. split_and!; [reflexivity|done|done|].
    intros x Hx. apply list_elem_of_lookup in Hx as [q Hq].
    exists q. split; [done|]. apply not_elem_of_nil. }
  rewrite reverse_app. simpl.
  apply StronglySorted_app in Hs as (Hlt & Hs & _).
  apply Forall_app in Hb as [Hb Hm].
  rewrite Forall_singleton in Hm.
  rewrite (remove_at h m Hm Hlen). simpl.
  destruct (IH {| HallOfFame.maxsize := HallOfFame.maxsize h;
                  HallOfFame.keys :=
                    delete (length (HallOfFame.items h) - S m)
                           (HallOfFame.keys h);
                  HallOfFame.items := delete m (HallOfFame.items h) |})
    as (h1 & Hh1 & Hlen1 & HR1 & Hin); cbn [HallOfFame.items HallOfFame.keys].
  - done.
  - apply Forall_forall. intros i Hi.
    rewrite length_delete by (by apply lookup_lt_is_Some_2).
    assert (i < m) by (apply Hlt; [done|left]). lia.
  - rewrite !length_delete; [lia|apply lookup_lt_is_Some_2; lia..].
  - by apply StronglySorted_delete.
  - exists h1. split_and!; [done..|].
    intros x Hx. destruct (Hin x Hx) as (q & Hq & Hnq).
    cbn [HallOfFame.items] in Hq.
    destruct (decide (q < m)) as [Hqm|Hqm].
    + rewrite list_lookup_delete_lt in Hq by done.
      exists q. split; [done|]. rewrite elem_of_app, list_elem_of_singleton.
      intros [?|?]; [done|lia].
    + rewrite list_lookup_delete_ge in Hq by lia.
      exists (S q). split; [done|].
      rewrite elem_of_app, list_elem_of_singleton.
      intros [Hq'|?]; [|lia].
      assert (S q < m) by (apply Hlt; [done|left]). lia.
Qed.

(** What [update] keeps. *)
Definition front_ok (h : hof) : Prop :=
  length (HallOfFame.keys h) = length (HallOfFame.items h) ∧
  StronglySorted incomparable (HallOfFame.items h).

Lemma update_one_front_ok (h : hof) (ind : Ind) :
  front_ok h → ∃ h1, update_one h ind = Some h1 ∧ front_ok h1.
Proof.
  intros [Hlen Hnd]. unfold ParetoFront.update_one, enumerate.
  destruct (scan ind (enumerate_from 0 (HallOfFame.items h)) [])
    as [[d t] r] eqn:Hscan.
  apply scan_spec in Hscan as (r' & -> & Hs & Hb & Hall). simpl.
  destruct (remove_all incomparable r' h) as (h1 & -> & Hlen1 & Hnd1 & Hin);
    [done| |done|done|].
  { eapply Forall_impl; [exact Hb|]. simpl. lia. }
  simpl. destruct d; simpl; [by exists h1|]. destruct t; simpl; [by exists h1|].
  eexists. split; [done|]. split.
  - rewrite insert_keys_length.
    destruct (insert_items_split fitness fit_lt h1 ind) as (p & Hp & ->).
    rewrite length_app. cbn [length]. rewrite length_take, length_drop. lia.
  - destruct (insert_items_split fitness fit_lt h1 ind) as (p & Hp & ->).
    assert (Hind : ∀ x, x ∈ HallOfFame.items h1 → incomparable x ind).
    { intros x Hx. destruct (Hin x Hx) as (q & Hq & Hnq).
      destruct (Hall eq_refl eq_refl q x Hq) as [H1 H2].
      split; [|done].
      destruct (isDominated (fitness x) (fitness ind)); [|done].
      destruct Hnq. by apply H2. }
    rewrite <- (take_drop p (HallOfFame.items h1)) in Hnd1.
    apply StronglySorted_app in Hnd1 as (Hcross & Hs1 & Hs2).
    apply StronglySorted_app_2; [|done|].
    + intros a b Ha Hb'. apply elem_of_cons in Hb' as [->|Hb']; [|by apply Hcross].
      apply Hind. eapply elem_of_take_1, Ha.
    + apply StronglySorted_cons. split; [|done].
      apply Forall_forall. intros b Hb'.
      destruct (Hind b) as [H1 H2]; [eapply elem_of_drop_1, Hb'|]. by split.
Qed.

(** C4: starting from an empty Pareto front, every sequence of [update]
    calls succeeds and leaves a hall in which no item's fitness is dominated by
    the fitness of an item at another position. *)
Theorem C4_pareto_front_nondominated (populations : list (list Ind)) :
  ∃ h, for_each populations update ParetoFront.init = Some h ∧
    ∀ i j a b, i ≠ j →
      HallOfFame.items h !! i = Some a → HallOfFame.items h !! j = Some b →
      isDominated (fitness a) (fitness b) = false.
Proof.
  destruct (for_each_invariant front_ok update populations ParetoFront.init)
    as (h & Hh & Hlen & Hnd).
  - intros h population _ Hok.
    apply (for_each_invariant front_ok); [|done].
    intros h0 ind _ Hok0. by apply update_one_front_ok.
  - split; [done|constructor].
  - exists h. split; [done|]. intros i j a b Hij Ha Hb.
    destruct (decide (i < j)) as [Hlt|Hge].
    + by destruct (StronglySorted_lookup incomparable _ i j a b Hnd Hlt Ha Hb).
    + assert (j < i) as Hlt by lia.
      by destruct (StronglySorted_lookup incomparable _ j i b a Hnd Hlt Hb Ha).
Qed.

End ParetoFrontFacts.

From Stdlib Require Import QArith.
From stdpp Require Import base option list numbers sorting.
Close Scope Q_scope.

(** * Crowding distance: properties *)

Section CrowdingFacts.

Context {Fit Ind : Type} (fitness : Ind → Fit) (values : Fit → list Q).

Local Abbreviation objective := (objective fitness values).

(** C9: on an empty front [sortCrowdingDist] returns the empty list,
    whatever the target count. *)
Theorem C9_crowding_of_empty_front (n : Z) : (sortCrowdingDist fitness values) [] n = Some [].
Proof. reflexivity. Qed.

(** [x] holds the least, respectively the greatest, value of objective [i]
    in the front. *)
Definition holds_min (individuals : list Ind) (i : nat) (x : Ind) : Prop :=
  ∃ v, objective x i = Some v ∧
    ∀ y, y ∈ individuals → ∃ w, objective y i = Some w ∧ (v <= w)%Q.

Definition holds_max (individuals : list Ind) (i : nat) (x : Ind) : Prop :=
  ∃ v, objective x i = Some v ∧
    ∀ y, y ∈ individuals → ∃ w, objective y i = Some w ∧ (w <= v)%Q.

(** An infinite distance is never changed back. *)
Definition keeps_infinite (distances distances' : list Float) : Prop :=
  length distances' = length distances ∧
  ∀ k, distances !! k = Some Inf → distances' !! k = Some Inf.

Lemma keeps_infinite_refl distances : keeps_infinite distances distances.
Proof. by split. Qed.

Lemma keeps_infinite_trans d1 d2 d3 :
  keeps_infinite d1 d2 → keeps_infinite d2 d3 → keeps_infinite d1 d3.
Proof. intros [Hl1 H1] [Hl2 H2]. split; [congruence|auto]. Qed.

Lemma set_infinite_keeps distances distances' k :
  py_update distances k (λ _, Inf) = Some distances' →
  keeps_infinite distances distances' ∧ distances' !! k = Some Inf.
Proof.
  intros H. apply py_update_inv in H as (x & Hx & ->).
  split; [split|].
  - apply length_insert.
  - intros j Hj. destruct (decide (k = j)) as [->|Hne].
    + apply list_lookup_insert_eq. by eapply lookup_lt_Some.
    + by rewrite list_lookup_insert_ne.
  - apply list_lookup_insert_eq. by eapply lookup_lt_Some.
Qed.

Lemma spread_keeps i crowding distances distances' j :
  (spread fitness values) i crowding distances j = Some distances' →
  keeps_infinite distances distances'.
Proof.
  unfold spread. intros H.
  inv_bind H as Hel. inv_bind H as Hd.
  destruct (Float_ltb f Inf) eqn:Hlt.
  2:{ injection H as <-. apply keeps_infinite_refl. }
  do 4 inv_bind H.
  apply py_update_inv in H as (x & Hx & ->).
  split; [apply length_insert|].
  intros k Hk. destruct (decide (p.2 = k)) as [<-|Hne].
  - rewrite Hd in Hk. injection Hk as ->. done.
  - by rewrite list_lookup_insert_ne.
Qed.

Lemma for_each_keeps {A} (body : list Float → A → option (list Float))
    (l : list A) distances distances' :
  (∀ d d' x, body d x = Some d' → keeps_infinite d d') →
  for_each l body distances = Some distances' →
  keeps_infinite distances distances'.
Proof.
  intros Hbody. revert distances.
  induction l as [|x l IH]; intros distances H; simpl in H.
  - injection H as <-. apply keeps_infinite_refl.
  - destruct (body distances x) as [d1|] eqn:Hd1; simpl in H; [|done].
    eapply keeps_infinite_trans; [by eapply Hbody|by apply IH].
Qed.

(** Every round over an objective leaves the infinite distances infinite. *)
Lemma crowding_step_keeps crowding distances crowding' distances' i :
  (crowding_step fitness values) (crowding, distances) i = Some (crowding', distances') →
  keeps_infinite distances distances'.
Proof.
  unfold crowding_step. intros H.
  inv_bind H. inv_bind H. inv_bind H as H1.
  inv_bind H. inv_bind H as H2. inv_bind H as H3.
  injection H as <- <-.
  apply set_infinite_keeps in H1 as [H1 _].
  apply set_infinite_keeps in H2 as [H2 _].
  eapply keeps_infinite_trans; [exact H1|].
  eapply keeps_infinite_trans; [exact H2|].
  eapply for_each_keeps; [|exact H3].
  intros d d' x. apply spread_keeps.
Qed.

(** The front, its size and the common arity of its fitnesses. *)
Variable individuals : list Ind.
Variable L : nat.
Hypothesis nonempty : individuals ≠ [].
Hypothesis arity :
  ∀ ind, ind ∈ individuals → length (values (fitness ind)) = L.

(** [crowding] as the function builds it: every individual with its
    position. *)
Definition crowding0 : list (Ind * nat) :=
  (λ p, (p.2, p.1)) <$> enumerate individuals.

Lemma elem_of_crowding0 (x : Ind) (k : nat) :
  (x, k) ∈ crowding0 ↔ individuals !! k = Some x.
Proof.
  unfold crowding0. rewrite list_elem_of_fmap. split.
  - intros ([j y] & [= -> ->] & H). by apply elem_of_enumerate.
  - intros H. exists (k, x). split; [done|]. by apply elem_of_enumerate.
Qed.

Lemma crowding0_length : length crowding0 = length individuals.
Proof. unfold crowding0, enumerate. by rewrite length_fmap, enumerate_from_length. Qed.

(** What the rounds keep of [crowding] and [distances]. *)
Definition crowding_ok (st : list (Ind * nat) * list Float) : Prop :=
  st.1 ≡ₚ crowding0 ∧ length st.2 = length individuals.

Lemma objective_Some (x : Ind) (i : nat) :
  x ∈ individuals → i < L → ∃ v, objective x i = Some v.
Proof.
  intros Hx Hi. apply lookup_lt_is_Some_2. by rewrite (arity x Hx).
Qed.

(** The key of an element of [crowding] for objective [i]. *)
Definition key_of (i : nat) (element : Ind * nat) : Q :=
  default 0%Q (objective element.1 i).

Lemma key_of_objective i (x : Ind) (k : nat) :
  x ∈ individuals → i < L → objective x i = Some (key_of i (x, k)).
Proof.
  intros Hx Hi. destruct (objective_Some x i Hx Hi) as [v Hv].
  unfold key_of. simpl. by rewrite Hv.
Qed.

Lemma crowding_elem crowding (element : Ind * nat) :
  crowding ≡ₚ crowding0 → element ∈ crowding →
  individuals !! element.2 = Some element.1 ∧ element.1 ∈ individuals.
Proof.
  intros Hp He. rewrite Hp in He. destruct element as [x k].
  apply elem_of_crowding0 in He. split; [done|].
  by eapply list_elem_of_lookup_2.
Qed.

Lemma sort_crowding_spec i crowding :
  crowding ≡ₚ crowding0 → i < L →
  ∃ crowding1, (sort_crowding fitness values) i crowding = Some crowding1 ∧
    crowding1 ≡ₚ crowding0 ∧
    StronglySorted (λ a b, (key_of i a <= key_of i b)%Q) crowding1.
Proof.
  intros Hp Hi. unfold sort_crowding.
  rewrite (mapM_total _ (λ element, (key_of i element, element))).
  2:{ intros [x k] Hx. apply (crowding_elem _ _ Hp) in Hx as [_ Hx].
      simpl in Hx. simpl. by rewrite (key_of_objective i x k). }
  simpl. eexists. split; [done|].
  set (g := λ element : Ind * nat, (key_of i element, element)).
  set (lt := λ a b : Q * (Ind * nat), Qltb a.1 b.1).
  assert (Hg : sort_by lt (g <$> crowding) = g <$> (sort_by lt (g <$> crowding)).*2).
  { rewrite <- list_fmap_compose. symmetry.
    etrans; [|apply list_fmap_id]. apply Forall_fmap_ext_1.
    apply Forall_forall. intros p Hp'. rewrite sort_by_perm in Hp'.
    apply list_elem_of_fmap in Hp' as (element & -> & _). done. }
  assert (Hid : ∀ l : list (Ind * nat), (g <$> l).*2 = l).
  { intros l. rewrite <- list_fmap_compose. apply list_fmap_id. }
  split.
  - by rewrite sort_by_perm, Hid.
  - assert (Hs : StronglySorted (not_after lt) (sort_by lt (g <$> crowding))).
    { apply sort_by_sorted.
      - intros x y. apply Qltb_asym.
      - intros x y z. apply Qltb_negtrans. }
    rewrite Hg in Hs. apply StronglySorted_fmap_inv in Hs.
    eapply StronglySorted_weaken; [|exact Hs].
    intros a b Hab. unfold not_after, lt, g in Hab. simpl in Hab.
    by apply Qltb_ge.
Qed.

Lemma spread_ok i crowding distances j :
  crowding ≡ₚ crowding0 → i < L → length distances = length individuals →
  1 ≤ j → j + 1 < length crowding →
  ∃ distances', (spread fitness values) i crowding distances j = Some distances' ∧
    length distances' = length individuals.
Proof.
  intros Hp Hi Hlen Hj1 Hj2. unfold spread.
  destruct (lookup_lt_is_Some_2 crowding j) as [element Hel]; [lia|].
  rewrite Hel. simpl.
  pose proof (crowding_elem crowding element Hp
                (list_elem_of_lookup_2 _ _ _ Hel)) as [Hpos _].
  apply lookup_lt_Some in Hpos. rewrite <- Hlen in Hpos.
  destruct (lookup_lt_is_Some_2 distances _ Hpos) as [d Hd].
  rewrite Hd. simpl.
  destruct (Float_ltb d Inf); [|by eauto].
  destruct (lookup_lt_is_Some_2 crowding (j + 1)) as [[x1 k1] H1]; [lia|].
  destruct (lookup_lt_is_Some_2 crowding (j - 1)) as [[x2 k2] H2]; [lia|].
  rewrite H1, H2. simpl.
  pose proof (crowding_elem crowding _ Hp
                (list_elem_of_lookup_2 _ _ _ H1)) as [_ Hx1].
  pose proof (crowding_elem crowding _ Hp
                (list_elem_of_lookup_2 _ _ _ H2)) as [_ Hx2].
  simpl in Hx1, Hx2.
  rewrite (key_of_objective i x1 k1 Hx1 Hi), (key_of_objective i x2 k2 Hx2 Hi).
  simpl.
  destruct (py_update_Some distances element.2
              (λ d, Float_add d (key_of i (x1, k1) - key_of i (x2, k2))%Q) Hpos)
    as (d0 & _ & ->).
  eexists. split; [done|]. by rewrite length_insert.
Qed.

Lemma key_of_fst i (x : Ind) (k k' : nat) : key_of i (x, k) = key_of i (x, k').
Proof. done. Qed.

(** One round over objective [i]: it succeeds, keeps [crowding] a
    rearrangement of the front, and leaves an infinite distance at an
    individual with the least value and at one with the greatest. *)
Lemma crowding_step_ok i st :
  crowding_ok st → i < L →
  ∃ st', (crowding_step fitness values) st i = Some st' ∧ crowding_ok st' ∧
    (∃ a x, individuals !! a = Some x ∧ holds_min individuals i x ∧
            st'.2 !! a = Some Inf) ∧
    (∃ b y, individuals !! b = Some y ∧ holds_max individuals i y ∧
            st'.2 !! b = Some Inf).
Proof.
  destruct st as [crowding distances]. intros [Hp Hlen] Hi. simpl in Hp, Hlen.
  destruct (sort_crowding_spec i crowding Hp Hi) as (crowding1 & Hc1 & Hp1 & Hs1).
  assert (Hn : length crowding1 = length individuals)
    by (by rewrite Hp1, crowding0_length).
  assert (0 < length individuals) as Hpos
    by (destruct individuals; [done|simpl; lia]).
  destruct (lookup_lt_is_Some_2 crowding1 0) as [first Hfirst]; [lia|].
  destruct (lookup_lt_is_Some_2 crowding1 (pred (length crowding1)))
    as [last Hlast]; [lia|].
  pose proof (crowding_elem crowding1 first Hp1
                (list_elem_of_lookup_2 _ _ _ Hfirst)) as [Hfpos Hfin].
  pose proof (crowding_elem crowding1 last Hp1
                (list_elem_of_lookup_2 _ _ _ Hlast)) as [Hlpos Hlin].
  destruct (py_update_Some distances first.2 (λ _, Inf)) as (d0 & _ & Hd1).
  { rewrite Hlen. by eapply lookup_lt_Some. }
  destruct (py_update_Some (<[first.2 := Inf]> distances) last.2 (λ _, Inf))
    as (d1 & _ & Hd2).
  { rewrite length_insert, Hlen. by eapply lookup_lt_Some. }
  destruct (for_each_seq_invariant
              (λ _ d, length d = length individuals)
              (spread fitness values i crowding1) 1 (length crowding1 - 2)
              (<[last.2 := Inf]> (<[first.2 := Inf]> distances)))
    as (distances3 & Hd3 & Hlen3).
  { intros j d Hj Hd. apply spread_ok; [done..|lia|lia]. }
  { by rewrite !length_insert. }
  exists (crowding1, distances3). split.
  { unfold crowding_step. rewrite Hc1. cbn [mbind option_bind].
    rewrite (py_get_front crowding1 0) by lia. change (Z.to_nat 0) with 0.
    rewrite Hfirst. cbn [mbind option_bind].
    rewrite Hd1. cbn [mbind option_bind]. unfold py_get.
    rewrite py_index_last by (intros ->; simpl in Hn; lia).
    cbn [mbind option_bind].
    rewrite Hlast. cbn [mbind option_bind]. rewrite Hd2.
    cbn [mbind option_bind]. by rewrite Hd3. }
  assert (Hinf : ∀ k, <[last.2 := Inf]> (<[first.2 := Inf]> distances) !! k
                      = Some Inf → distances3 !! k = Some Inf).
  { apply (for_each_keeps (spread fitness values i crowding1) _ _ _
             (λ d d' x, spread_keeps i crowding1 d d' x) Hd3). }
  assert (Hall : ∀ y, y ∈ individuals → ∃ q k, crowding1 !! q = Some (y, k)).
  { intros y Hy. apply list_elem_of_lookup in Hy as [k Hk].
    apply elem_of_crowding0 in Hk. rewrite <- Hp1 in Hk.
    apply list_elem_of_lookup in Hk as [q Hq]. eauto. }
  split; [by split|]. split.
  - exists first.2, first.1. split_and!; [done| |].
    + exists (key_of i first). split.
      { destruct first as [x k]. by apply key_of_objective. }
      intros y Hy. destruct (Hall y Hy) as (q & k & Hq).
      exists (key_of i (y, k)). split; [by apply key_of_objective|].
      destruct q as [|q].
      * rewrite Hfirst in Hq. injection Hq as ->. apply Qle_refl.
      * apply (StronglySorted_lookup _ _ 0 (S q) first (y, k) Hs1);
          [lia|done..].
    + apply Hinf. simpl.
      destruct (decide (last.2 = first.2)) as [->|Hne].
      * apply list_lookup_insert_eq. rewrite length_insert, Hlen.
        by eapply lookup_lt_Some.
      * rewrite list_lookup_insert_ne by done.
        apply list_lookup_insert_eq. rewrite Hlen. by eapply lookup_lt_Some.
  - exists last.2, last.1. split_and!; [done| |].
    + exists (key_of i last). split.
      { destruct last as [x k]. by apply key_of_objective. }
      intros y Hy. destruct (Hall y Hy) as (q & k & Hq).
      exists (key_of i (y, k)). split; [by apply key_of_objective|].
      pose proof (lookup_lt_Some _ _ _ Hq) as Hqlt.
      destruct (decide (q = pred (length crowding1))) as [->|Hne].
      * rewrite Hlast in Hq. injection Hq as ->. apply Qle_refl.
      * apply (StronglySorted_lookup _ _ q (pred (length crowding1))
                 (y, k) last Hs1); [lia|done..].
    + apply Hinf. simpl.
      apply list_lookup_insert_eq. rewrite length_insert, Hlen.
      by eapply lookup_lt_Some.
Qed.

(** The distances of a non-empty front of one arity are computed without
    error, and the extremes of every objective end with an infinite one. *)
Lemma crowding_distances_spec :
  ∃ distances, (crowding_distances fitness values) individuals = Some distances ∧
    length distances = length individuals ∧
    ∀ i, i < L →
      (∃ a x, individuals !! a = Some x ∧ holds_min individuals i x ∧
              distances !! a = Some Inf) ∧
      (∃ b y, individuals !! b = Some y ∧ holds_max individuals i y ∧
              distances !! b = Some Inf).
Proof.
  unfold crowding_distances.
  destruct (lookup_lt_is_Some_2 individuals 0) as [first Hfirst].
  { destruct individuals; [done|simpl; lia]. }
  rewrite Hfirst. cbn [mbind option_bind].
  rewrite (arity first) by (by eapply list_elem_of_lookup_2).
  destruct (for_each_seq_invariant
     (λ n st, crowding_ok st ∧
        ∀ i, i < n →
          (∃ a x, individuals !! a = Some x ∧ holds_min individuals i x ∧
                  st.2 !! a = Some Inf) ∧
          (∃ b y, individuals !! b = Some y ∧ holds_max individuals i y ∧
                  st.2 !! b = Some Inf))
     (crowding_step fitness values) 0 L
     ((λ p, (p.2, p.1)) <$> enumerate individuals,
      replicate (length individuals) (Fin 0)))
    as (st & Hst & [_ Hlen] & Hall).
  - intros i [crowding distances] Hi [Hok Hprev].
    destruct (crowding_step_ok i _ Hok) as ([c' d'] & Hstep & Hok' & Hmin & Hmax);
      [lia|].
    eexists. split; [exact Hstep|]. split; [done|].
    intros i' Hi'. destruct (decide (i' = i)) as [->|Hne]; [by split|].
    destruct (Hprev i') as [(a & x & Ha & Hx & Hinf) (b & y & Hb & Hy & Hinf')];
      [lia|].
    pose proof (crowding_step_keeps _ _ _ _ _ Hstep) as [_ Hk].
    split; [exists a, x|exists b, y]; split_and!; auto.
  - split; [|intros i Hi; lia]. split; simpl; [done|].
    by rewrite length_replicate.
  - rewrite Hst. simpl. exists st.2. split_and!; [done..|].
    intros i Hi. apply Hall. lia.
Qed.

(** C8: on a non-empty front whose fitnesses all have [L] objectives, the
    distances are computed without error; for every objective, an individual
    holding the least value and an individual holding the greatest value end
    with an infinite distance; and no round over an objective makes an
    infinite distance finite again. *)
Theorem C8_crowding_extremes_infinite :
  (∃ distances, (crowding_distances fitness values) individuals = Some distances ∧
     length distances = length individuals ∧
     ∀ i, i < L →
       (∃ a x, individuals !! a = Some x ∧ holds_min individuals i x ∧
               distances !! a = Some Inf) ∧
       (∃ b y, individuals !! b = Some y ∧ holds_max individuals i y ∧
               distances !! b = Some Inf)) ∧
  (∀ crowding distances i crowding' distances' k,
     (crowding_step fitness values) (crowding, distances) i = Some (crowding', distances') →
     distances !! k = Some Inf → distances' !! k = Some Inf).
Proof.
  split; [apply crowding_distances_spec|].
  intros crowding distances i crowding' distances' k Hstep.
  destruct (crowding_step_keeps _ _ _ _ _ Hstep) as [_ Hk]. apply Hk.
Qed.

(** [sortCrowdingDist] yields as many individuals of the front as asked
    for, or the whole front when it is shorter, none more often than the
    front holds it. *)
Lemma sortCrowdingDist_spec (n : Z) :
  (0 ≤ n)%Z →
  ∃ chosen, (sortCrowdingDist fitness values) individuals n = Some chosen ∧
    chosen ⊆+ individuals ∧
    length chosen = Z.to_nat n `min` length individuals.
Proof.
  intros Hn. unfold sortCrowdingDist.
  destruct (Nat.eqb_spec (length individuals) 0) as [Hz|_].
  { apply nil_length_inv in Hz. by destruct nonempty. }
  destruct crowding_distances_spec as (distances & -> & Hlen & _).
  cbn [mbind option_bind]. rewrite py_take_front by done.
  set (sorted_dist := sort_by _ _).
  assert (Hperm : sorted_dist.*2 ≡ₚ seq 0 (length individuals)).
  { subst sorted_dist. rewrite sort_by_perm, <- list_fmap_compose.
    unfold enumerate. rewrite <- Hlen, <- (enumerate_from_fst distances 0).
    done. }
  assert (Htake : take (Z.to_nat n) sorted_dist.*2 ⊆+ seq 0 (length individuals)).
  { rewrite <- Hperm. apply sublist_submseteq, sublist_take. }
  destruct (mapM_lookup_below individuals (take (Z.to_nat n) sorted_dist.*2))
    as (chosen & Hchosen & Hat).
  { apply Forall_forall. intros i Hi.
    eapply elem_of_submseteq in Hi; [|exact Htake].
    apply elem_of_seq in Hi. lia. }
  exists chosen. split_and!.
  - by rewrite <- Hchosen, <- fmap_take, mapM_fmap.
  - by eapply items_at_submseteq.
  - rewrite (items_at_length _ _ _ Hat), length_take, length_fmap.
    assert (length sorted_dist = length individuals) as ->; [|done].
    by rewrite <- (length_fmap snd), Hperm, length_seq.
Qed.

End CrowdingFacts.

Lemma C8_crowding_extremes_infinite_witness :
  (∃ distances,
     crowding_distances id fvalues sample_population = Some distances ∧
     length distances = length sample_population ∧
     ∀ i, i < 2 →
       (∃ a x, sample_population !! a = Some x ∧
               holds_min id fvalues sample_population i x ∧
               distances !! a = Some Inf) ∧
       (∃ b y, sample_population !! b = Some y ∧
               holds_max id fvalues sample_population i y ∧
               distances !! b = Some Inf)) ∧
  (∀ crowding distances i crowding' distances' k,
     crowding_step id fvalues (crowding, distances) i
     = Some (crowding', distances') →
     distances !! k = Some Inf → distances' !! k = Some Inf).
Proof.
  apply (C8_crowding_extremes_infinite id fvalues sample_population 2).
  - discriminate.
  - apply Forall_forall. repeat constructor.
Defined.

From Stdlib Require Import QArith.
From stdpp Require Import base option list numbers sorting.
Close Scope Q_scope.

(** * Non-dominated sorting: properties *)

(** ** Counting occurrences *)

(** The number of occurrences of [d] in [ds]. *)
Definition count (d : nat) (ds : list nat) : nat :=
  length (filter (λ x, x = d) ds).

(** The number of occurrences of [d] in the lists of [G]. *)
Definition occurrences (d : nat) (G : list (list nat)) : nat :=
  sum_list_with (count d) G.

Lemma count_snoc d ds x :
  count d (ds ++ [x]) = count d ds + (if decide (x = d) then 1 else 0).
Proof.
  unfold count. rewrite filter_app, length_app. f_equal.
  rewrite filter_cons, filter_nil. by destruct (decide (x = d)).
Qed.

Lemma count_NoDup d ds :
  NoDup ds → count d ds = if decide (d ∈ ds) then 1 else 0.
Proof.
  unfold count. induction 1 as [|x ds Hx Hds IH]; [done|].
  rewrite filter_cons. destruct (decide (x = d)) as [->|Hne].
  - simpl. rewrite decide_True by left.
    rewrite IH, decide_False by done. done.
  - rewrite IH. destruct (decide (d ∈ ds)) as [Hd|Hd].
    + rewrite decide_True by (by right). done.
    + rewrite decide_False; [done|].
      intros [->|?]%elem_of_cons; done.
Qed.

Lemma occurrences_insert d G i ds x :
  G !! i = Some ds →
  occurrences d (<[i := ds ++ [x]]> G)
  = occurrences d G + (if decide (x = d) then 1 else 0).
Proof.
  unfold occurrences. revert i. induction G as [|ds0 G IH]; intros i Hi; [done|].
  destruct i as [|i]; simpl in Hi |- *.
  - injection Hi as ->. rewrite count_snoc. lia.
  - rewrite (IH i Hi). lia.
Qed.

Lemma occurrences_char_from (φ : nat → Prop) `{!∀ p, Decision (φ p)} d G k :
  (∀ p ds, G !! p = Some ds → NoDup ds ∧ (d ∈ ds ↔ φ (k + p))) →
  occurrences d G = length (filter φ (seq k (length G))).
Proof.
  unfold occurrences. revert k. induction G as [|ds G IH]; intros k HG; [done|].
  cbn [sum_list_with length seq]. rewrite filter_cons.
  destruct (HG 0 ds eq_refl) as [Hnd Hin]. rewrite Nat.add_0_r in Hin.
  rewrite (IH (S k)).
  2:{ intros p ds' Hp. replace (S k + p) with (k + S p) by lia. by apply HG. }
  rewrite (count_NoDup d ds Hnd).
  destruct (decide (d ∈ ds)) as [Hd|Hd], (decide (φ k)) as [Hk|Hk]; simpl;
    tauto || lia.
Qed.

Lemma occurrences_char (φ : nat → Prop) `{!∀ p, Decision (φ p)} d G :
  (∀ p ds, G !! p = Some ds → NoDup ds ∧ (d ∈ ds ↔ φ p)) →
  occurrences d G = length (filter φ (seq 0 (length G))).
Proof. intros HG. by apply occurrences_char_from. Qed.

(** Filtering on a stronger predicate that misses an element yields a
    shorter list. *)
Lemma length_filter_strict {A} (P Q : A → Prop)
    `{!∀ x, Decision (P x), !∀ x, Decision (Q x)} (l : list A) (a : A) :
  (∀ x, x ∈ l → P x → Q x) → a ∈ l → Q a → ¬ P a →
  length (filter P l) < length (filter Q l).
Proof.
  intros HPQ Ha HQa HPa.
  assert (Hle : ∀ l', (∀ x, x ∈ l' → P x → Q x) →
                      length (filter P l') ≤ length (filter Q l')).
  { induction l' as [|x l' IH]; intros Himp; [done|].
    rewrite !filter_cons.
    assert (length (filter P l') ≤ length (filter Q l')) as Hl
      by (apply IH; intros y Hy; apply Himp; by right).
    destruct (decide (P x)) as [HP|HP], (decide (Q x)) as [HQ|HQ]; simpl;
      try lia.
    destruct HQ. apply Himp; [left|done]. }
  induction l as [|x l IH]; [by apply elem_of_nil in Ha|].
  rewrite !filter_cons. apply elem_of_cons in Ha as [<-|Ha].
  - rewrite decide_False, decide_True by done. simpl.
    assert (length (filter P l) ≤ length (filter Q l)).
    { apply Hle. intros y Hy. apply HPQ. by right. }
    lia.
  - assert (length (filter P l) < length (filter Q l)) as IH'.
    { apply IH; [|done]. intros y Hy. apply HPQ. by right. }
    destruct (decide (P x)) as [HP|HP], (decide (Q x)) as [HQ|HQ]; simpl;
      try lia.
    destruct HQ. apply HPQ; [left|done].
Qed.

Lemma filter_none {A} (P : A → Prop) `{!∀ x, Decision (P x)} (l : list A) :
  length (filter P l) = 0 ↔ ∀ x, x ∈ l → ¬ P x.
Proof.
  induction l as [|x l IH]; [by split; [intros _ ? ?%elem_of_nil|]|].
  rewrite filter_cons. destruct (decide (P x)) as [HP|HP]; simpl.
  - split; [lia|]. intros Hall. destruct (Hall x); [left|done].
  - rewrite IH. split.
    + intros Hall y [->|Hy]%elem_of_cons; auto.
    + intros Hall y Hy. apply Hall. by right.
Qed.

(** A non-empty list has an element of least measure. *)
Lemma exists_least {A} (f : A → nat) (l : list A) :
  l ≠ [] → ∃ x, x ∈ l ∧ ∀ y, y ∈ l → f x ≤ f y.
Proof.
  induction l as [|x l IH]; [done|]. intros _.
  destruct l as [|x' l].
  { exists x. split; [left|]. intros y ->%list_elem_of_singleton. done. }
  destruct IH as (m & Hm & Hmin); [done|].
  destruct (decide (f x ≤ f m)) as [Hle|Hgt].
  - exists x. split; [left|]. intros y [->|Hy]%elem_of_cons; [done|].
    specialize (Hmin y Hy). lia.
  - exists m. split; [by right|]. intros y [->|Hy]%elem_of_cons; [lia|].
    by apply Hmin.
Qed.

(** A duplicate-free list of numbers below [N] that is [N] long holds them
    all. *)
Lemma NoDup_below_full (Q : list nat) (N : nat) :
  NoDup Q → Forall (λ x, x < N) Q → N ≤ length Q → Q ≡ₚ seq 0 N.
Proof.
  intros Hnd Hlt Hlen.
  apply submseteq_length_Permutation; [|by rewrite length_seq].
  apply NoDup_submseteq; [done|].
  intros x Hx. apply elem_of_seq. rewrite Forall_forall in Hlt.
  specialize (Hlt x Hx). lia.
Qed.

Lemma NoDup_below_length (Q : list nat) (N : nat) :
  NoDup Q → Forall (λ x, x < N) Q → length Q ≤ N.
Proof.
  intros Hnd Hlt.
  pose proof (submseteq_length Q (seq 0 N)) as Hlen.
  rewrite length_seq in Hlen. apply Hlen.
  apply NoDup_submseteq; [done|].
  intros x Hx. apply elem_of_seq. rewrite Forall_forall in Hlt.
  specialize (Hlt x Hx). lia.
Qed.

(** ** The ranking of the first front *)

Section FastNDFacts.

Context {Fit Ind : Type} (fitness : Ind → Fit).
Context (isDominated : Fit → Fit → bool).
Variable individuals : list Ind.

Local Abbreviation N := (length individuals).

(** The individual at position [p] dominates the one at position [d]. *)
Definition dominates (p d : nat) : bool :=
  match individuals !! p, individuals !! d with
  | Some a, Some b => isDominated (fitness b) (fitness a)
  | _, _ => false
  end.

(** The number of individuals that dominate the one at position [d]. *)
Definition dominators (d : nat) : nat :=
  length (filter (λ p, dominates p d = true) (seq 0 N)).

(** Dominance is a strict partial order on the fitnesses of the
    population. *)
Hypothesis dom_irrefl :
  ∀ a, a ∈ individuals → isDominated (fitness a) (fitness a) = false.
Hypothesis dom_trans :
  ∀ a b c, a ∈ individuals → b ∈ individuals → c ∈ individuals →
    isDominated (fitness a) (fitness b) = true →
    isDominated (fitness b) (fitness c) = true →
    isDominated (fitness a) (fitness c) = true.

Lemma dominates_lt p d : dominates p d = true → p < N ∧ d < N.
Proof.
  unfold dominates. intros H.
  destruct (individuals !! p) eqn:Hp; [|done].
  destruct (individuals !! d) eqn:Hd; [|done].
  split; by eapply lookup_lt_Some.
Qed.

Lemma dominates_irrefl p : dominates p p = false.
Proof.
  unfold dominates. destruct (individuals !! p) as [a|] eqn:Hp; [|done].
  apply dom_irrefl. by eapply list_elem_of_lookup_2.
Qed.

Lemma dominates_trans p q r :
  dominates p q = true → dominates q r = true → dominates p r = true.
Proof.
  unfold dominates.
  destruct (individuals !! p) as [a|] eqn:Hp; [|done].
  destruct (individuals !! q) as [b|] eqn:Hq; [|done].
  destruct (individuals !! r) as [c|] eqn:Hr; [|done].
  intros H1 H2. apply (dom_trans c b a); try done;
    by eapply list_elem_of_lookup_2.
Qed.

Lemma dominates_asym p q : dominates p q = true → dominates q p = false.
Proof.
  intros H. destruct (dominates q p) eqn:E; [|done].
  by rewrite <- (dominates_irrefl p), (dominates_trans p q p).
Qed.

(** A dominator has fewer dominators. *)
Lemma dominators_lt p d : dominates p d = true → dominators p < dominators d.
Proof.
  intros H. unfold dominators.
  apply (length_filter_strict _ _ _ p).
  - intros q _ Hq. by apply dominates_trans with p.
  - apply elem_of_seq. apply dominates_lt in H. lia.
  - done.
  - by rewrite dominates_irrefl.
Qed.

(** The pair of positions [p], [d] has been compared when the outer loop is
    at [i] and the inner loop at [j]. *)
Definition compared (i j p d : nat) : Prop :=
  (p < i ∧ p < d) ∨ (d < i ∧ d < p) ∨ (p = i ∧ i < d < j) ∨ (d = i ∧ i < p < j).

(** The counters and the lists of dominated positions during the ranking of
    the first front. *)
Definition rank_ok (i j : nat) (C : list Z) (G : list (list nat)) : Prop :=
  length C = N ∧ length G = N ∧
  (∀ p ds, G !! p = Some ds →
     NoDup ds ∧ ∀ d, d ∈ ds ↔ compared i j p d ∧ dominates p d = true) ∧
  (∀ d c, C !! d = Some c → c = Z.of_nat (occurrences d G)).

Lemma rank_ok_add_edge i j p d C G c ds :
  rank_ok i j C G → i < j →
  (p = i ∧ d = j) ∨ (p = j ∧ d = i) →
  dominates p d = true →
  C !! d = Some c → G !! p = Some ds →
  rank_ok i (S j) (<[d := Z.succ c]> C) (<[p := ds ++ [d]]> G).
Proof.
  intros (HlC & HlG & HG & HC) Hij Hpd Hdom Hc Hds.
  pose proof (dominates_asym _ _ Hdom) as Hrev.
  split_and!.
  - by rewrite length_insert.
  - by rewrite length_insert.
  - intros p' ds' Hp'. destruct (decide (p = p')) as [<-|Hne].
    + rewrite list_lookup_insert_eq in Hp' by (by eapply lookup_lt_Some).
      injection Hp' as <-. destruct (HG p ds Hds) as [Hnd Hin]. split.
      * apply NoDup_app. split_and!; [done| |apply NoDup_singleton].
        intros x Hx ->%list_elem_of_singleton.
        apply Hin in Hx as [Hx _]. unfold compared in Hx. lia.
      * intros d'. rewrite elem_of_app, list_elem_of_singleton, Hin.
        split.
        -- intros [[Hcmp Hd']| ->]; (split; [unfold compared in *; lia|done]).
        -- intros [Hcmp Hd'].
           destruct (decide (d' = d)) as [->|Hne]; [by right|].
           left. split; [unfold compared in *; lia|done].
    + rewrite list_lookup_insert_ne in Hp' by done.
      destruct (HG p' ds' Hp') as [Hnd Hin]. split; [done|].
      intros d'. rewrite Hin. split.
      * intros [Hcmp Hd']. split; [unfold compared in *; lia|done].
      * intros [Hcmp Hd']. split; [|done].
        destruct (decide (p' = d ∧ d' = p)) as [[-> ->]|Hnot]; [congruence|].
        unfold compared in *. lia.
  - intros d' c' Hd'. rewrite (occurrences_insert d' G p ds d Hds).
    destruct (decide (d = d')) as [<-|Hne].
    + rewrite list_lookup_insert_eq in Hd' by (by eapply lookup_lt_Some).
      injection Hd' as <-. rewrite (HC d c Hc). lia.
    + rewrite list_lookup_insert_ne in Hd' by done.
      rewrite (HC d' c' Hd'). lia.
Qed.

Lemma rank_ok_no_edge i j C G :
  rank_ok i j C G → i < j →
  dominates i j = false → dominates j i = false →
  rank_ok i (S j) C G.
Proof.
  intros (HlC & HlG & HG & HC) Hij Hdom1 Hdom2.
  split_and!; [done..| |done].
  intros p ds Hp. destruct (HG p ds Hp) as [Hnd Hin]. split; [done|].
  intros d. rewrite Hin. split.
  - intros [Hcmp Hd]. split; [unfold compared in *; lia|done].
  - intros [Hcmp Hd]. split; [|done].
    destruct (decide (p = i ∧ d = j)) as [[-> ->]|Hn1]; [congruence|].
    destruct (decide (p = j ∧ d = i)) as [[-> ->]|Hn2]; [congruence|].
    unfold compared in *. lia.
Qed.

Lemma rank_pair_ok i j C G :
  i < j < N → rank_ok i j C G →
  ∃ C' G', (rank_pair fitness isDominated individuals) i (C, G) j = Some (C', G') ∧ rank_ok i (S j) C' G'.
Proof.
  intros Hij Hok. pose proof Hok as (HlC & HlG & _ & _).
  destruct (lookup_lt_is_Some_2 individuals i) as [a Ha]; [lia|].
  destruct (lookup_lt_is_Some_2 individuals j) as [b Hb]; [lia|].
  unfold rank_pair. rewrite Ha, Hb. cbn [mbind option_bind].
  assert (Hdij : dominates i j = isDominated (fitness b) (fitness a))
    by (unfold dominates; by rewrite Ha, Hb).
  assert (Hdji : dominates j i = isDominated (fitness a) (fitness b))
    by (unfold dominates; by rewrite Ha, Hb).
  rewrite <- Hdij, <- Hdji.
  destruct (dominates i j) eqn:E1.
  { destruct (py_update_Some C j Z.succ) as (c & Hc & ->); [lia|].
    destruct (py_update_Some G i (λ l, l ++ [j])) as (ds & Hds & ->); [lia|].
    cbn [mbind option_bind]. do 2 eexists. split; [done|].
    eapply rank_ok_add_edge; eauto. lia. }
  destruct (dominates j i) eqn:E2.
  { destruct (py_update_Some C i Z.succ) as (c & Hc & ->); [lia|].
    destruct (py_update_Some G j (λ l, l ++ [i])) as (ds & Hds & ->); [lia|].
    cbn [mbind option_bind]. do 2 eexists. split; [done|].
    eapply rank_ok_add_edge; eauto. lia. }
  do 2 eexists. split; [done|]. apply rank_ok_no_edge; [done|lia|done..].
Qed.

(** The state of the loop over [i]: the comparisons of the positions
    before [i] are done, and the front holds the positions before [i] that
    nobody dominates. *)
Definition first_ok (i : nat)
    (st : list Z * list (list nat) * list nat * Z) : Prop :=
  let '(C, G, front, pareto_sorted) := st in
  rank_ok i (S i) C G ∧
  front = filter (λ d, dominators d = 0) (seq 0 i) ∧
  pareto_sorted = Z.of_nat (length front).

Lemma rank_ok_counter i C G c :
  i < N → rank_ok i N C G → C !! i = Some c → c = Z.of_nat (dominators i).
Proof.
  intros Hi (HlC & HlG & HG & HC) Hc. rewrite (HC i c Hc). f_equal.
  unfold dominators. rewrite <- HlG.
  apply (occurrences_char (λ p, dominates p i = true)).
  intros p ds Hp. destruct (HG p ds Hp) as [Hnd Hin]. split; [done|].
  rewrite Hin. split; [tauto|]. intros Hd. split; [|done].
  pose proof (dominates_lt _ _ Hd) as [Hp' _].
  assert (p ≠ i) by (intros ->; by rewrite dominates_irrefl in Hd).
  unfold compared. lia.
Qed.

Lemma rank_ok_next i C G : i < N → rank_ok i N C G → rank_ok (S i) (S (S i)) C G.
Proof.
  intros Hi (HlC & HlG & HG & HC). split_and!; [done..| |done].
  intros p ds Hp. destruct (HG p ds Hp) as [Hnd Hin]. split; [done|].
  intros d. rewrite Hin. split.
  - intros [Hcmp Hd]. split; [unfold compared in *; lia|done].
  - intros [Hcmp Hd]. split; [|done].
    pose proof (dominates_lt _ _ Hd). unfold compared in *. lia.
Qed.

Lemma rank_first_ok i st :
  i < N → first_ok i st →
  ∃ st', (rank_first fitness isDominated individuals) st i = Some st' ∧ first_ok (S i) st'.
Proof.
  destruct st as [[[C G] front] pareto_sorted]. intros Hi (Hok & Hfront & Hsorted).
  unfold rank_first.
  destruct (for_each_seq_invariant
              (λ j (st : list Z * list (list nat)), rank_ok i j st.1 st.2)
              (rank_pair fitness isDominated individuals i) (i + 1) (N - (i + 1)) (C, G))
    as ([C1 G1] & -> & Hok1).
  { intros j [C0 G0] Hj Hok0. simpl in Hok0.
    destruct (rank_pair_ok i j C0 G0) as (C' & G' & -> & Hok'); [lia|done|].
    by eexists. }
  { simpl. by replace (i + 1) with (S i) by lia. }
  simpl in Hok1. replace (i + 1 + (N - (i + 1))) with N in Hok1 by lia.
  cbn [mbind option_bind].
  pose proof Hok1 as (HlC & _).
  destruct (lookup_lt_is_Some_2 C1 i) as [c Hc]; [lia|].
  rewrite Hc. cbn [mbind option_bind].
  pose proof (rank_ok_counter i C1 G1 c Hi Hok1 Hc) as ->.
  pose proof (rank_ok_next i C1 G1 Hi Hok1) as Hnext.
  assert (Hseq : filter (λ d, dominators d = 0) (seq 0 (S i))
                 = front ++ (if decide (dominators i = 0) then [i] else [])).
  { rewrite seq_S, filter_app, filter_cons, filter_nil, Hfront. simpl.
    by destruct (decide (dominators i = 0)). }
  destruct (Z.eqb_spec (Z.of_nat (dominators i)) 0) as [Hz|Hnz].
  - eexists. split; [done|]. split_and!; [done| |].
    + by rewrite Hseq, decide_True by lia.
    + rewrite length_app. simpl. lia.
  - eexists. split; [done|]. split_and!; [done| |done].
    by rewrite Hseq, decide_False, app_nil_r by lia.
Qed.

(** ** The ranking of the next fronts *)

(** The lists of dominated positions once the first front is ranked. *)
Definition graph_ok (G : list (list nat)) : Prop :=
  length G = N ∧
  ∀ p ds, G !! p = Some ds → NoDup ds ∧ ∀ d, d ∈ ds ↔ dominates p d = true.

(** How often [d] occurs in the lists of dominated positions of the
    positions [S]. *)
Definition released (G : list (list nat)) (S : list nat) (d : nat) : nat :=
  sum_list_with (λ p, count d (default [] (G !! p))) S.

Lemma released_app G S1 S2 d :
  released G (S1 ++ S2) d = released G S1 d + released G S2 d.
Proof. unfold released. by rewrite sum_list_with_app. Qed.

Lemma released_singleton G p ds d :
  G !! p = Some ds → released G [p] d = count d ds.
Proof. intros H. unfold released. simpl. rewrite H. simpl. lia. Qed.

Lemma released_char G S d :
  graph_ok G →
  released G S d = length (filter (λ p, dominates p d = true) S).
Proof.
  intros [HlG HG]. unfold released.
  induction S as [|p S IH]; [done|].
  cbn [sum_list_with]. rewrite filter_cons, IH.
  destruct (G !! p) as [ds|] eqn:Hp; simpl.
  - destruct (HG p ds Hp) as [Hnd Hin]. rewrite (count_NoDup d ds Hnd).
    destruct (decide (d ∈ ds)) as [Hd|Hd], (decide (dominates p d = true))
      as [Hd'|Hd']; simpl; try lia.
    + destruct Hd'. by apply Hin.
    + destruct Hd. by apply Hin.
  - unfold count. simpl. rewrite decide_False; [done|].
    intros Hd. apply dominates_lt in Hd as [Hp' _].
    apply lookup_ge_None in Hp. lia.
Qed.

(** The state of the loops over [indice_p] and [indice_d]: [Q] holds the
    positions ranked in the fronts before the one being built, [S] the
    positions whose lists are done, [D] the positions done in the current
    list. *)
Definition release_ok (G : list (list nat)) (Q S D : list nat)
    (st : list Z * list nat * Z) : Prop :=
  let '(C, front, pareto_sorted) := st in
  length C = N ∧
  NoDup (Q ++ front) ∧
  Forall (λ x, x < N) (Q ++ front) ∧
  pareto_sorted = Z.of_nat (length (Q ++ front)) ∧
  (∀ d c, C !! d = Some c → (d ∈ Q ++ front ↔ (c ≤ 0)%Z)) ∧
  (∀ d c, C !! d = Some c →
     c = (Z.of_nat (dominators d) - Z.of_nat (released G S d)
          - Z.of_nat (count d D))%Z).

Lemma release_step G Q S D st d0 :
  release_ok G Q S D st → d0 < N →
  ∃ st', release st d0 = Some st' ∧ release_ok G Q S (D ++ [d0]) st'.
Proof.
  destruct st as [[C front] pareto_sorted].
  intros (HlC & Hnd & Hlt & Hsorted & Hzero & Hform) Hd0.
  unfold release.
  destruct (py_update_Some C d0 Z.pred) as (c & Hc & ->); [lia|].
  cbn [mbind option_bind].
  rewrite list_lookup_insert_eq by lia. cbn [mbind option_bind].
  assert (Hform' : ∀ d c', <[d0 := Z.pred c]> C !! d = Some c' →
            c' = (Z.of_nat (dominators d) - Z.of_nat (released G S d)
                  - Z.of_nat (count d (D ++ [d0])))%Z).
  { intros d c' Hd. rewrite count_snoc.
    destruct (decide (d0 = d)) as [<-|Hne].
    - rewrite list_lookup_insert_eq in Hd by lia. injection Hd as <-.
      rewrite (Hform d0 c Hc). lia.
    - rewrite list_lookup_insert_ne in Hd by done.
      rewrite (Hform d c' Hd). lia. }
  destruct (Z.eqb_spec (Z.pred c) 0) as [Hz|Hnz].
  - assert (d0 ∉ Q ++ front) as Hfresh.
    { intros Hin. apply (Hzero d0 c Hc) in Hin. lia. }
    eexists. split; [done|]. split_and!.
    + by rewrite length_insert.
    + rewrite app_assoc. apply NoDup_app. split_and!; [done| |apply NoDup_singleton].
      intros x Hx ->%list_elem_of_singleton. done.
    + rewrite app_assoc. apply Forall_app. split; [done|]. by constructor.
    + rewrite !length_app in *. simpl. lia.
    + intros d c' Hd. rewrite app_assoc, elem_of_app, list_elem_of_singleton.
      destruct (decide (d0 = d)) as [<-|Hne].
      * rewrite list_lookup_insert_eq in Hd by lia. injection Hd as <-.
        split; [lia|]. by right.
      * rewrite list_lookup_insert_ne in Hd by done.
        rewrite <- (Hzero d c' Hd). split; [|by left].
        intros [?|?]; [done|congruence].
    + done.
  - eexists. split; [done|]. split_and!; [by rewrite length_insert|done..| |done].
    intros d c' Hd. destruct (decide (d0 = d)) as [<-|Hne].
    + rewrite list_lookup_insert_eq in Hd by lia. injection Hd as <-.
      rewrite (Hzero d0 c Hc). lia.
    + rewrite list_lookup_insert_ne in Hd by done. by apply Hzero.
Qed.

Lemma release_all_step G Q S st p :
  graph_ok G → release_ok G Q S [] st → p < N →
  ∃ st', release_all G st p = Some st' ∧ release_ok G Q (S ++ [p]) [] st'.
Proof.
  intros [HlG HG] Hok Hp. unfold release_all.
  destruct (lookup_lt_is_Some_2 G p) as [ds Hds]; [lia|].
  rewrite Hds. cbn [mbind option_bind].
  destruct (HG p ds Hds) as [_ Hin].
  destruct (for_each_prefix_invariant (λ D st, release_ok G Q S D st)
              release ds st) as (st' & Hst' & Hok').
  - intros D d0 st0 Hd0 Hok0. apply release_step; [done|].
    apply Hin in Hd0. by apply dominates_lt in Hd0 as [_ ?].
  - done.
  - exists st'. split; [done|].
    destruct st' as [[C front] pareto_sorted].
    destruct Hok' as (HlC & Hnd & Hlt & Hsorted & Hzero & Hform).
    split_and!; [done..|].
    intros d c Hd. rewrite (Hform d c Hd), released_app.
    rewrite (released_singleton G p ds d Hds). unfold count at 3. simpl. lia.
Qed.

(** The state of the [while] loop: the fronts are [init ++ [F]], the lists
    of the positions in [init] are done, and the fronts before the last one
    rank fewer positions than asked for. *)
Definition fronts_ok (G : list (list nat)) (Nmin : Z) (front0 : list nat)
    (C : list Z) (fronts : list (list nat)) (pareto_sorted : Z) : Prop :=
  ∃ init F, fronts = init ++ [F] ∧
    head fronts = Some front0 ∧
    release_ok G (concat fronts) (concat init) [] (C, [], pareto_sorted) ∧
    (init = [] ∨ (Z.of_nat (length (concat init)) < Nmin)%Z).

(** While a position is not ranked, one of the unranked positions has all its
    dominators ranked. *)
Lemma exists_free_position (Q : list nat) :
  NoDup Q → Forall (λ x, x < N) Q → length Q < N →
  ∃ d, d < N ∧ (d ∉ Q) ∧ ∀ p, dominates p d = true → p ∈ Q.
Proof.
  intros Hnd Hlt Hlen.
  destruct (exists_least dominators (filter (λ y, y ∉ Q) (seq 0 N)))
    as (d & Hd & Hmin).
  { intros Hnil.
    assert (seq 0 N ⊆+ Q) as Hsub.
    { apply NoDup_submseteq; [apply NoDup_seq|].
      intros x Hx. destruct (decide (x ∈ Q)) as [|Hn]; [done|].
      exfalso. by eapply (filter_nil_not_elem_of (λ y, y ∉ Q)). }
    apply submseteq_length in Hsub. rewrite length_seq in Hsub. lia. }
  apply list_elem_of_filter in Hd as [HdQ Hd]. apply elem_of_seq in Hd.
  exists d. split_and!; [lia|done|].
  intros p Hp. destruct (decide (p ∈ Q)) as [|Hn]; [done|].
  pose proof (dominators_lt p d Hp) as Hless.
  assert (dominators d ≤ dominators p); [|lia].
  apply Hmin. apply list_elem_of_filter. split; [done|].
  apply elem_of_seq. apply dominates_lt in Hp. lia.
Qed.

(** One round of the [while] loop ranks at least one more position. *)
Lemma round_ok G Nmin front0 C fronts pareto_sorted F :
  graph_ok G → (Nmin ≤ Z.of_nat N)%Z →
  fronts_ok G Nmin front0 C fronts pareto_sorted →
  last fronts = Some F → (pareto_sorted < Nmin)%Z →
  ∃ C' front' pareto_sorted',
    for_each F (release_all G) (C, [], pareto_sorted)
    = Some (C', front', pareto_sorted') ∧
    fronts_ok G Nmin front0 C' (fronts ++ [front']) pareto_sorted' ∧
    (pareto_sorted < pareto_sorted')%Z.
Proof.
  intros HG HNmin (init & F' & -> & Hhead & Hok & Hinit) HF Hlt.
  rewrite last_snoc in HF. injection HF as ->.
  assert (HQ : ∀ (X : list (list nat)) (Y : list nat),
            concat (X ++ [Y]) = concat X ++ Y).
  { intros X Y. rewrite concat_app. simpl. by rewrite app_nil_r. }
  rewrite HQ in Hok. set (Q := concat init ++ F) in *.
  pose proof Hok as (_ & HndQ & HltQ & Hsorted & _ & _).
  rewrite app_nil_r in HndQ, HltQ, Hsorted.
  destruct (for_each_prefix_invariant
              (λ pre st, release_ok G Q (concat init ++ pre) [] st)
              (release_all G) F (C, [], pareto_sorted))
    as ([[C' front'] pareto_sorted'] & Hrun & Hok').
  { intros pre p st Hp Hst. rewrite app_assoc.
    apply release_all_step; [done..|].
    rewrite Forall_forall in HltQ. apply HltQ. subst Q.
    apply elem_of_app. by right. }
  { cbv beta. rewrite app_nil_r. exact Hok. }
  fold Q in Hok'.
  destruct Hok' as (HlC & Hnd & Hlt' & Hsorted' & Hzero & Hform).
  exists C', front', pareto_sorted'. split; [done|].
  assert (front' ≠ []) as Hne.
  { destruct (exists_free_position Q HndQ HltQ) as (d & Hd & HdQ & Hdom); [lia|].
    destruct (lookup_lt_is_Some_2 C' d) as [c Hc]; [lia|].
    assert (d ∈ Q ++ front') as Hin.
    { apply (Hzero d c Hc). rewrite (Hform d c Hc).
      rewrite (released_char G Q d HG). unfold count. simpl.
      assert (length (filter (λ p, dominates p d = true) Q) = dominators d);
        [|lia].
      unfold dominators. apply Permutation_length.
      apply NoDup_Permutation.
      - by apply NoDup_filter.
      - apply NoDup_filter, NoDup_seq.
      - intros p. rewrite !list_elem_of_filter, elem_of_seq. split.
        + intros [Hp HpQ]. split; [done|].
          apply dominates_lt in Hp. lia.
        + intros [Hp _]. split; [done|]. by apply Hdom. }
    apply elem_of_app in Hin as [?|Hin]; [done|].
    intros ->. by apply elem_of_nil in Hin. }
  split.
  - exists (init ++ [F]), front'. split_and!; [done| | |].
    + by destruct init.
    + rewrite !HQ. fold Q.
      split_and!; try done.
      * by rewrite app_nil_r.
      * by rewrite app_nil_r.
      * by rewrite app_nil_r.
      * intros d c Hc. rewrite app_nil_r. by apply Hzero.
    + right. rewrite HQ. fold Q. lia.
  - rewrite Hsorted, Hsorted', length_app.
    destruct front'; [done|simpl; lia].
Qed.

(** The [while] loop ends, with enough positions ranked. *)
Lemma rank_next_ok G Nmin front0 fuel C fronts pareto_sorted :
  graph_ok G → (Nmin ≤ Z.of_nat N)%Z →
  fronts_ok G Nmin front0 C fronts pareto_sorted →
  (Z.of_nat N - pareto_sorted < Z.of_nat fuel)%Z →
  ∃ fronts' C' pareto_sorted',
    rank_next fuel G Nmin C fronts pareto_sorted = Some fronts' ∧
    fronts_ok G Nmin front0 C' fronts' pareto_sorted' ∧
    (Nmin ≤ pareto_sorted')%Z.
Proof.
  intros HG HNmin. revert C fronts pareto_sorted.
  induction fuel as [|fuel IH]; intros C fronts pareto_sorted Hok Hfuel.
  { destruct Hok as (init & F & -> & _ & Hok & _).
    destruct Hok as (_ & Hnd & Hlt & -> & _).
    pose proof (NoDup_below_length _ _ Hnd Hlt). lia. }
  cbn [rank_next].
  destruct (Z.ltb_spec pareto_sorted Nmin) as [Hlt|Hge].
  2:{ exists fronts, C, pareto_sorted. by split_and!. }
  pose proof Hok as (init & F & Hfronts & _).
  assert (last fronts = Some F) as HF by (by rewrite Hfronts, last_snoc).
  assert (py_get fronts (-1) = Some F) as ->.
  { unfold py_get. rewrite py_index_last by (rewrite Hfronts; by destruct init).
    cbn [mbind option_bind]. by rewrite <- last_lookup. }
  cbn [mbind option_bind].
  destruct (round_ok G Nmin front0 C fronts pareto_sorted F HG HNmin Hok HF Hlt)
    as (C' & front' & pareto_sorted' & -> & Hok' & Hmore).
  cbn [mbind option_bind]. apply (IH C'); [done|lia].
Qed.

(** The fronts of positions that [sortFastND] builds: the loops end without
    error, the first front holds the positions that nobody dominates, no
    position is ranked twice, at least [min(N, n)] positions are ranked, and
    fewer before the last front. *)
Lemma sortFastND_indices_ok (n : Z) :
  n ≠ 0%Z →
  ∃ fronts init F,
    sortFastND_indices fitness isDominated individuals n false = Some fronts ∧
    fronts = init ++ [F] ∧
    head fronts = Some (filter (λ d, dominators d = 0) (seq 0 N)) ∧
    NoDup (concat fronts) ∧
    Forall (λ x, x < N) (concat fronts) ∧
    (Z.min (Z.of_nat N) n ≤ Z.of_nat (length (concat fronts)))%Z ∧
    (init = [] ∨ (Z.of_nat (length (concat init)) < Z.min (Z.of_nat N) n)%Z).
Proof.
  intros Hn. unfold sortFastND_indices.
  destruct (Z.eqb_spec n 0) as [|_]; [done|].
  destruct (for_each_seq_invariant first_ok (rank_first fitness isDominated individuals) 0 N
              (replicate N 0%Z, replicate N [], [], 0%Z))
    as ([[[C G] front] pareto_sorted] & -> & Hok & Hfront & Hsorted).
  { intros i st Hi. apply rank_first_ok. lia. }
  { split_and!; [|done|done]. split_and!.
    - by rewrite length_replicate.
    - by rewrite length_replicate.
    - intros p ds Hp. apply lookup_replicate in Hp as [-> _].
      split; [constructor|]. intros d. split; [by intros ?%elem_of_nil|].
      intros [Hc _]. unfold compared in Hc. lia.
    - intros d c Hc. apply lookup_replicate in Hc as [-> _].
      assert (occurrences d (replicate N []) = 0) as ->; [|done].
      unfold occurrences. generalize N. intros m.
      induction m as [|m IHm]; [done|]. simpl. by rewrite IHm. }
  cbn [mbind option_bind negb]. simpl in Hfront, Hsorted.
  destruct Hok as (HlC & HlG & HG & HC).
  assert (HG' : graph_ok G).
  { split; [done|]. intros p ds Hp. destruct (HG p ds Hp) as [Hnd Hin].
    split; [done|]. intros d. rewrite Hin. split; [tauto|].
    intros Hd. split; [|done]. pose proof (dominates_lt _ _ Hd).
    assert (p ≠ d) by (intros ->; by rewrite dominates_irrefl in Hd).
    unfold compared. lia. }
  assert (HC' : ∀ d c, C !! d = Some c → c = Z.of_nat (dominators d)).
  { intros d c Hc. rewrite (HC d c Hc). f_equal. unfold dominators.
    pose proof (occurrences_char (λ p, dominates p d = true) d G) as Hocc.
    rewrite HlG in Hocc. apply Hocc.
    intros p ds Hp. destruct HG' as [_ HG']. destruct (HG' p ds Hp). split; auto. }
  destruct (rank_next_ok G (Z.min (Z.of_nat N) n) front (S N) C [front]
              pareto_sorted HG') as (fronts & C' & sorted' & -> & Hok' & Hmin).
  { lia. }
  { exists [], front. split_and!; [done|done| |by left].
    simpl. rewrite app_nil_r. split_and!.
    - done.
    - rewrite app_nil_r, Hfront. apply NoDup_filter, NoDup_seq.
    - rewrite app_nil_r, Hfront. apply Forall_forall.
      intros x [_ Hx%elem_of_seq]%list_elem_of_filter. lia.
    - by rewrite app_nil_r.
    - intros d c Hc. rewrite app_nil_r, Hfront, list_elem_of_filter, elem_of_seq.
      rewrite (HC' d c Hc). apply lookup_lt_Some in Hc. lia.
    - intros d c Hc. rewrite (HC' d c Hc). unfold released, count. simpl. lia. }
  { rewrite Hsorted. lia. }
  destruct Hok' as (init & F & -> & Hhead & Hrel & Hinit).
  destruct Hrel as (_ & Hnd & Hlt & Hs & _).
  rewrite app_nil_r in Hnd, Hlt, Hs.
  exists (init ++ [F]), init, F. split_and!; try done.
  - by rewrite Hhead, Hfront.
  - lia.
Qed.

Lemma dominators_zero (d : nat) (x : Ind) :
  individuals !! d = Some x →
  dominators d = 0 ↔
  ∀ y, y ∈ individuals → isDominated (fitness x) (fitness y) = false.
Proof.
  intros Hd. unfold dominators. rewrite filter_none. split.
  - intros H y Hy. apply list_elem_of_lookup in Hy as [p Hp].
    specialize (H p). rewrite elem_of_seq in H.
    apply not_true_is_false. intros Hdom. apply H.
    + apply lookup_lt_Some in Hp. lia.
    + unfold dominates. by rewrite Hp, Hd.
  - intros H p _ Hdom. unfold dominates in Hdom. rewrite Hd in Hdom.
    destruct (individuals !! p) as [y|] eqn:Hp; [|done].
    rewrite H in Hdom; [done|]. by eapply list_elem_of_lookup_2.
Qed.

(** C7: when dominance is a strict partial order on the fitnesses of the
    population, [sortFastND(individuals, len(individuals))] returns fronts
    whose concatenation holds every individual exactly once, and the first
    front holds exactly the individuals that no individual of the population
    dominates. *)
Theorem C7_sort_ranks_everyone_once :
  ∃ fronts,
    sortFastND fitness isDominated individuals (Z.of_nat N) false
    = Some fronts ∧
    concat fronts ≡ₚ individuals ∧
    ∀ x, (∃ F0, fronts !! 0 = Some F0 ∧ x ∈ F0) ↔
         (x ∈ individuals ∧
          ∀ y, y ∈ individuals → isDominated (fitness x) (fitness y) = false).
Proof.
  destruct (decide (N = 0)) as [Hz|Hnz].
  { apply nil_length_inv in Hz. exists []. unfold sortFastND. rewrite Hz.
    split_and!; [done|done|]. intros x. split.
    - by intros (F0 & ? & _).
    - by intros [?%elem_of_nil _]. }
  destruct (sortFastND_indices_ok (Z.of_nat N))
    as (idxss & init & F & Hrun & Hsplit & Hhead & Hnd & Hlt & Hlen & _); [lia|].
  destruct (mapM_mapM_lookup_below individuals idxss Hlt) as (fronts & Hmap & Hat).
  exists fronts. split_and!.
  - unfold sortFastND. rewrite Hrun. cbn [mbind option_bind]. exact Hmap.
  - apply (items_at_Permutation individuals (concat idxss)).
    + by apply items_at_concat.
    + apply NoDup_below_full; [done..|lia].
  - intros x. destruct idxss as [|front0 rest]; [done|].
    simpl in Hhead. injection Hhead as ->.
    apply Forall2_cons_inv_l in Hat as (F0 & fronts' & HF0 & _ & ->).
    simpl. split.
    + intros (F0' & [= <-] & Hx).
      apply (items_at_elem_of individuals _ _ x HF0) in Hx as (i & Hi & Hx).
      apply list_elem_of_filter in Hi as [Hi _].
      split; [by eapply list_elem_of_lookup_2|].
      by apply (dominators_zero i x Hx).
    + intros [Hx Hfree]. exists F0. split; [done|].
      apply (items_at_elem_of individuals _ _ x HF0).
      apply list_elem_of_lookup in Hx as [i Hi].
      exists i. split; [|done]. apply list_elem_of_filter. split.
      * by apply (dominators_zero i x Hi).
      * apply elem_of_seq. apply lookup_lt_Some in Hi. lia.
Qed.

End FastNDFacts.

Lemma C7_sort_ranks_everyone_once_witness :
  ∃ fronts,
    sortFastND id Fitness_isDominated layered_population
               (Z.of_nat (length layered_population)) false
    = Some fronts ∧
    concat fronts ≡ₚ layered_population ∧
    ∀ x, (∃ F0, fronts !! 0 = Some F0 ∧ x ∈ F0) ↔
         (x ∈ layered_population ∧
          ∀ y, y ∈ layered_population → Fitness_isDominated x y = false).
Proof.
  apply (C7_sort_ranks_everyone_once id Fitness_isDominated layered_population).
  - intros a _. apply Fitness_isDominated_irrefl.
  - intros a b c.
    apply (Fitness_isDominated_trans 2 layered_population).
    apply layered_population_arity.
Defined.

From Stdlib Require Import QArith.
From stdpp Require Import base option list numbers sorting.
Close Scope Q_scope.

(** * NSGA-II selection: properties *)

Section NSGA2Facts.

Context {Fit Ind : Type} (fitness : Ind → Fit) (values : Fit → list Q).
Context (isDominated : Fit → Fit → bool).
Variable individuals : list Ind.
Variable L : nat.

Hypothesis dom_irrefl :
  ∀ a, a ∈ individuals → isDominated (fitness a) (fitness a) = false.
Hypothesis dom_trans :
  ∀ a b c, a ∈ individuals → b ∈ individuals → c ∈ individuals →
    isDominated (fitness a) (fitness b) = true →
    isDominated (fitness b) (fitness c) = true →
    isDominated (fitness a) (fitness c) = true.
Hypothesis arity :
  ∀ ind, ind ∈ individuals → length (values (fitness ind)) = L.

(** With dominance a strict partial order and fitnesses of one arity,
    [selNSGA2] returns [min(n, len(individuals))] individuals, none more often
    than the population holds it. *)
Lemma selNSGA2_spec (n : Z) :
  (0 ≤ n)%Z →
  ∃ chosen, selNSGA2 fitness values isDominated individuals n = Some chosen ∧
    length chosen = Z.to_nat n `min` length individuals ∧
    chosen ⊆+ individuals.
Proof.
  intros Hn. unfold selNSGA2.
  destruct (decide (n = 0%Z)) as [->|Hnz].
  { exists []. split_and!; [done|done|apply submseteq_nil_l]. }
  destruct (sortFastND_indices_ok fitness isDominated individuals
              dom_irrefl dom_trans n Hnz)
    as (idxss & init & F & Hrun & -> & _ & Hnd & Hlt & Hlen & Hinit).
  destruct (mapM_mapM_lookup_below individuals _ Hlt) as (fronts & Hmap & Hat).
  unfold sortFastND. rewrite Hrun. cbn [mbind option_bind]. rewrite Hmap.
  cbn [mbind option_bind].
  apply Forall2_app_inv_l in Hat as (xinit & xlast & Hat1 & Hat2 & ->).
  apply Forall2_cons_inv_l in Hat2 as (XF & xnil & HatF & Hnil & ->).
  apply Forall2_nil_inv_l in Hnil as ->.
  assert (Htake : py_take (xinit ++ [XF]) (-1) = xinit).
  { unfold py_take. simpl. rewrite length_app. simpl.
    replace (Z.to_nat (Z.of_nat (length xinit + 1) + -1)) with (length xinit)
      by lia.
    by rewrite take_app_length. }
  rewrite Htake.
  assert (Hconcat : concat (init ++ [F]) = concat init ++ F).
  { rewrite concat_app. simpl. by rewrite app_nil_r. }
  rewrite Hconcat in Hnd, Hlt, Hlen.
  pose proof (items_at_concat individuals _ _ Hat1) as Hatc.
  pose proof (items_at_length _ _ _ Hatc) as Hlc.
  pose proof (items_at_length _ _ _ HatF) as HlF.
  pose proof (NoDup_below_length _ _ Hnd Hlt) as Htotal.
  rewrite length_app in Hlen, Htotal.
  assert (Hsub : concat xinit ++ XF ⊆+ individuals).
  { apply (items_at_submseteq individuals (concat init ++ F)).
    - by apply Forall2_app.
    - apply NoDup_submseteq; [done|]. intros i Hi. apply elem_of_seq.
      rewrite Forall_forall in Hlt. specialize (Hlt i Hi). lia. }
  assert (Hpos : (0 < n - Z.of_nat (length (concat xinit)))%Z).
  { rewrite Hlc. destruct Hinit as [->|Hinit]; simpl; lia. }
  destruct (Z.ltb_spec 0 (n - Z.of_nat (length (concat xinit)))) as [_|]; [|lia].
  assert (py_get (xinit ++ [XF]) (-1) = Some XF) as ->.
  { unfold py_get. rewrite py_index_last by (by destruct xinit).
    cbn [mbind option_bind]. rewrite length_app. simpl.
    replace (pred (length xinit + 1)) with (length xinit + 0) by lia.
    by rewrite lookup_app_r, Nat.add_0_r, Nat.sub_diag by lia. }
  cbn [mbind option_bind].
  destruct (decide (XF = [])) as [->|Hne].
  { unfold sortCrowdingDist. simpl. eexists. split; [done|].
    rewrite app_nil_r in Hsub |- *. simpl in HlF. split; [lia|done]. }
  destruct (sortCrowdingDist_spec fitness values XF L Hne)
    with (n := (n - Z.of_nat (length (concat xinit)))%Z)
    as (crowded & -> & Hcsub & Hclen).
  { intros ind Hind. apply arity.
    eapply elem_of_submseteq; [|exact Hsub]. apply elem_of_app. by right. }
  { lia. }
  cbn [mbind option_bind]. eexists. split; [done|]. split.
  - rewrite length_app, Hclen. lia.
  - etrans; [|exact Hsub]. by apply submseteq_app.
Qed.

End NSGA2Facts.

(** C3: on a population whose fitnesses all have [L] objectives and weights,
    [selNSGA2(individuals, n)] with [n >= 0] returns exactly
    [min(n, len(individuals))] individuals, and the returned list is a
    sub-multiset of the population: each individual comes from it and occurs
    no more often than there. *)
Theorem C3_selNSGA2_count {Ind : Type} (fitness : Ind → Fitness)
    (individuals : list Ind) (L : nat) (n : Z) :
  same_arity L (fitness <$> individuals) → (0 ≤ n)%Z →
  ∃ chosen,
    selNSGA2 fitness fvalues Fitness_isDominated individuals n = Some chosen ∧
    length chosen = Z.to_nat n `min` length individuals ∧
    chosen ⊆+ individuals.
Proof.
  intros Harity Hn.
  apply (selNSGA2_spec fitness fvalues Fitness_isDominated individuals L);
    [| | |done].
  - intros a _. apply Fitness_isDominated_irrefl.
  - intros a b c Ha Hb Hc.
    apply (Fitness_isDominated_trans L (fitness <$> individuals));
      [done|by apply list_elem_of_fmap_2..].
  - intros ind Hind. unfold same_arity in Harity.
    rewrite Forall_fmap, Forall_forall in Harity.
    by destruct (Harity ind Hind).
Qed.

Lemma C3_selNSGA2_count_witness :
  ∃ chosen,
    selNSGA2 id fvalues Fitness_isDominated layered_population 3 = Some chosen ∧
    length chosen = Z.to_nat 3 `min` length layered_population ∧
    chosen ⊆+ layered_population.
Proof.
  apply (C3_selNSGA2_count id layered_population 2 3).
  - rewrite list_fmap_id. apply layered_population_arity.
  - lia.
Defined.

From Stdlib Require Import QArith.
From stdpp Require Import base option list numbers sorting.
Close Scope Q_scope.

(** * SPEA-II selection: properties *)

(** ** Strength and raw fitness *)

Section StrengthFacts.

Context {Fit Ind : Type} (fitness : Ind → Fit).
Context (isDominated : Fit → Fit → bool).
Variable individuals : list Ind.

Local Abbreviation N := (length individuals).
Local Abbreviation dom := (dominates fitness isDominated individuals).

(** The number of individuals that the one at position [j] dominates. *)
Definition dominated (j : nat) : nat :=
  length (filter (λ i, dom j i = true) (seq 0 N)).

(** The sum of the strengths of the individuals that dominate the one at
    position [i]. *)
Definition dominators_strength (i : nat) : nat :=
  sum_list_with dominated (filter (λ k, dom k i = true) (seq 0 N)).

Hypothesis dom_irrefl :
  ∀ a, a ∈ individuals → isDominated (fitness a) (fitness a) = false.
Hypothesis dom_trans :
  ∀ a b c, a ∈ individuals → b ∈ individuals → c ∈ individuals →
    isDominated (fitness a) (fitness b) = true →
    isDominated (fitness b) (fitness c) = true →
    isDominated (fitness a) (fitness c) = true.

(** [selSPEA2] books a dominance the other way round than [sortFastND]:
    its loop over the pairs is the one of [sortFastND] for the converse
    relation. *)
Definition converse (a b : Fit) : bool := isDominated b a.

Lemma strength_pair_converse i st j :
  strength_pair fitness isDominated individuals i st j
  = rank_pair fitness converse individuals i st j.
Proof. by destruct st. Qed.

Lemma converse_irrefl a : a ∈ individuals → converse (fitness a) (fitness a) = false.
Proof. apply dom_irrefl. Qed.

Lemma converse_trans a b c :
  a ∈ individuals → b ∈ individuals → c ∈ individuals →
  converse (fitness a) (fitness b) = true →
  converse (fitness b) (fitness c) = true →
  converse (fitness a) (fitness c) = true.
Proof. unfold converse. intros Ha Hb Hc H1 H2. by apply (dom_trans c b a). Qed.

Lemma dominates_converse p d :
  dominates fitness converse individuals p d = dom d p.
Proof.
  unfold dominates, converse.
  by destruct (individuals !! p), (individuals !! d).
Qed.

Lemma strengths_spec :
  ∃ strength_fits dominating_inds,
    strengths fitness isDominated individuals
    = Some (strength_fits, dominating_inds) ∧
    length strength_fits = N ∧ length dominating_inds = N ∧
    (∀ i ks, dominating_inds !! i = Some ks →
       NoDup ks ∧ ∀ k, k ∈ ks ↔ dom k i = true) ∧
    (∀ j s, strength_fits !! j = Some s → s = Z.of_nat (dominated j)).
Proof.
  unfold strengths.
  destruct (for_each_seq_invariant
     (λ i (st : list Z * list (list nat)),
        rank_ok fitness converse individuals i (S i) st.1 st.2)
     (λ st i, for_each (seq (i + 1) (N - (i + 1)))
                (strength_pair fitness isDominated individuals i) st)
     0 N (replicate N 0%Z, replicate N []))
    as ([S D] & -> & Hok).
  { intros i [C G] Hi Hok. simpl in Hok.
    destruct (for_each_seq_invariant
       (λ j (st : list Z * list (list nat)),
          rank_ok fitness converse individuals i j st.1 st.2)
       (strength_pair fitness isDominated individuals i)
       (i + 1) (N - (i + 1)) (C, G)) as ([C1 G1] & -> & Hok1).
    - intros j [C0 G0] Hj Hok0. rewrite strength_pair_converse.
      destruct (rank_pair_ok fitness converse individuals
                  converse_irrefl converse_trans i j C0 G0)
        as (C' & G' & -> & Hok'); [lia|done|]. by eexists.
    - simpl. by replace (i + 1) with (S i) by lia.
    - eexists. split; [done|]. simpl in Hok1 |- *.
      replace (i + 1 + (N - (i + 1))) with N in Hok1 by lia.
      apply (rank_ok_next fitness converse individuals); [lia|done]. }
  { simpl. split_and!.
    - by rewrite length_replicate.
    - by rewrite length_replicate.
    - intros p ds Hp. apply lookup_replicate in Hp as [-> _].
      split; [constructor|]. intros d. split; [by intros ?%elem_of_nil|].
      intros [Hc _]. unfold compared in Hc. lia.
    - intros d c Hc. apply lookup_replicate in Hc as [-> _].
      assert (occurrences d (replicate N []) = 0) as ->; [|done].
      unfold occurrences. generalize N. intros m.
      induction m as [|m IHm]; [done|]. simpl. by rewrite IHm. }
  simpl in Hok. destruct Hok as (HlS & HlD & HD & HS).
  exists S, D. split_and!; [done..| |].
  - intros i ks Hi. destruct (HD i ks Hi) as [Hnd Hin]. split; [done|].
    intros k. rewrite Hin, dominates_converse. split; [tauto|].
    intros Hk. split; [|done].
    pose proof (dominates_lt _ _ _ _ _ Hk) as [? ?].
    assert (i ≠ k).
    { intros ->. by rewrite (dominates_irrefl fitness isDominated individuals
                               dom_irrefl) in Hk. }
    unfold compared. lia.
  - intros j s Hj. rewrite (HS j s Hj). f_equal. unfold dominated.
    pose proof (occurrences_char (λ i, dom j i = true) j D) as Hocc.
    rewrite HlD in Hocc. apply Hocc.
    intros i ks Hi. destruct (HD i ks Hi) as [Hnd Hin]. split; [done|].
    rewrite Hin, dominates_converse. split; [tauto|].
    intros Hk. split; [|done].
    pose proof (dominates_lt _ _ _ _ _ Hk) as [? ?].
    assert (i ≠ j).
    { intros ->. by rewrite (dominates_irrefl fitness isDominated individuals
                               dom_irrefl) in Hk. }
    unfold compared. lia.
Qed.

Lemma raw_fitness_spec strength_fits dominating_inds :
  length strength_fits = N → length dominating_inds = N →
  (∀ i ks, dominating_inds !! i = Some ks →
     NoDup ks ∧ ∀ k, k ∈ ks ↔ dom k i = true) →
  (∀ j s, strength_fits !! j = Some s → s = Z.of_nat (dominated j)) →
  ∃ fits, raw_fitness N strength_fits dominating_inds = Some fits ∧
    length fits = N ∧
    ∀ i, i < N → fits !! i = Some (Z.of_nat (dominators_strength i)).
Proof.
  intros HlS HlD HD HS. unfold raw_fitness.
  destruct (for_each_seq_invariant
     (λ i (fits : list Z),
        length fits = N ∧
        (∀ i', i' < i → fits !! i' = Some (Z.of_nat (dominators_strength i'))) ∧
        (∀ i', i ≤ i' < N → fits !! i' = Some 0%Z))
     (λ fits i,
        js ← dominating_inds !! i;
        for_each js
          (λ fits j, s ← strength_fits !! j; py_update fits i (λ f, f + s)%Z)
          fits)
     0 N (replicate N 0%Z)) as (fits & -> & Hlen & Hdone & _).
  - intros i fits Hi (Hlen & Hdone & Htodo).
    destruct (lookup_lt_is_Some_2 dominating_inds i) as [ks Hks]; [lia|].
    rewrite Hks. cbn [mbind option_bind].
    destruct (HD i ks Hks) as [Hnd Hin].
    destruct (for_each_prefix_invariant
       (λ pre (fits' : list Z),
          length fits' = N ∧
          fits' !! i = Some (Z.of_nat (sum_list_with dominated pre)) ∧
          ∀ i', i' ≠ i → fits' !! i' = fits !! i')
       (λ fits j, s ← strength_fits !! j; py_update fits i (λ f, f + s)%Z)
       ks fits) as (fits' & -> & Hlen' & Hsum & Hother).
    + intros pre j fits0 Hj (Hl0 & Hs0 & Ho0).
      apply Hin in Hj. apply dominates_lt in Hj as [Hj _].
      destruct (lookup_lt_is_Some_2 strength_fits j) as [s Hs]; [lia|].
      rewrite Hs. cbn [mbind option_bind]. rewrite (HS j s Hs).
      unfold py_update. rewrite Hs0. cbn [mbind option_bind].
      eexists. split; [done|]. split_and!.
      * by rewrite length_insert.
      * rewrite list_lookup_insert_eq by lia. rewrite sum_list_with_app.
        simpl. f_equal. lia.
      * intros i' Hi'. rewrite list_lookup_insert_ne by done. by apply Ho0.
    + split_and!; [done| |done]. simpl. apply Htodo. lia.
    + eexists. split; [done|]. split_and!; [done| |].
      * intros i' Hi'. destruct (decide (i' = i)) as [->|Hne].
        -- rewrite Hsum. do 2 f_equal. unfold dominators_strength.
           apply sum_list_with_Permutation_proper, NoDup_Permutation.
           ++ done.
           ++ apply NoDup_filter, NoDup_seq.
           ++ intros k. rewrite Hin, list_elem_of_filter, elem_of_seq.
              split; [|tauto]. intros Hk. split; [done|].
              apply dominates_lt in Hk. lia.
        -- rewrite Hother by done. apply Hdone. lia.
      * intros i' Hi'. rewrite Hother by lia. apply Htodo. lia.
  - split_and!; [by rewrite length_replicate|intros; lia|].
    intros i' Hi'. apply lookup_replicate. split; [done|lia].
  - exists fits. split_and!; [done..|]. intros i Hi. by apply Hdone.
Qed.

(** A raw fitness below one means that nobody dominates. *)
Lemma dominators_strength_zero i :
  (Z.of_nat (dominators_strength i) < 1)%Z ↔
  dominators fitness isDominated individuals i = 0.
Proof.
  unfold dominators_strength, dominators.
  set (ks := filter _ _).
  assert (Hks : ∀ k, k ∈ ks → 1 ≤ dominated k).
  { intros k [Hk _]%list_elem_of_filter. unfold dominated.
    assert (i ∈ filter (λ i', dom k i' = true) (seq 0 N)) as Hi.
    { apply list_elem_of_filter. split; [done|].
      apply elem_of_seq. apply dominates_lt in Hk. lia. }
    apply list_elem_of_lookup in Hi as [q Hq].
    apply lookup_lt_Some in Hq. lia. }
  destruct ks as [|k ks']; [simpl; lia|].
  specialize (Hks k (list_elem_of_here _ _)). simpl. lia.
Qed.

Lemma non_dominated_spec fits :
  length fits = N →
  (∀ i, i < N → fits !! i = Some (Z.of_nat (dominators_strength i))) →
  non_dominated N fits
  = Some (filter (λ i, dominators fitness isDominated individuals i = 0)
                 (seq 0 N)).
Proof.
  intros Hlen Hfits. unfold non_dominated.
  destruct (for_each_seq_invariant
     (λ i (chosen : list nat),
        chosen = filter (λ i, dominators fitness isDominated individuals i = 0)
                        (seq 0 i))
     (λ chosen i,
        f ← fits !! i; Some (if (f <? 1)%Z then chosen ++ [i] else chosen))
     0 N []) as (chosen & -> & ->); [|done|done].
  intros i chosen Hi ->. rewrite (Hfits i) by lia. cbn [mbind option_bind].
  eexists. split; [done|].
  rewrite seq_S, filter_app, filter_cons, filter_nil. simpl.
  destruct (Z.ltb_spec (Z.of_nat (dominators_strength i)) 1) as [Hlt|Hge].
  - apply dominators_strength_zero in Hlt. by rewrite decide_True.
  - rewrite decide_False, app_nil_r; [done|].
    intros Hz. apply dominators_strength_zero in Hz. lia.
Qed.

(** The first part of [selSPEA2] when dominance is a strict partial order:
    the strength of an individual counts the individuals it dominates, its
    raw fitness sums the strengths of the individuals that dominate it, and
    the positions chosen first are those that nobody dominates. *)
Lemma strength_fitness_spec :
  ∃ strength_fits fits chosen_indices,
    strength_fitness fitness isDominated individuals
    = Some (strength_fits, fits, chosen_indices) ∧
    (∀ j, j < N → strength_fits !! j = Some (Z.of_nat (dominated j))) ∧
    (∀ i, i < N → fits !! i = Some (Z.of_nat (dominators_strength i))) ∧
    (∀ i, i < N →
       (Z.of_nat (dominators_strength i) < 1)%Z ↔ ∀ k, dom k i = false) ∧
    NoDup chosen_indices ∧
    (∀ i, i ∈ chosen_indices ↔ i < N ∧ ∀ k, dom k i = false).
Proof.
  destruct strengths_spec as (S & D & HSD & HlS & HlD & HD & HS).
  destruct (raw_fitness_spec S D HlS HlD HD HS) as (fits & Hfits & Hlf & Hf).
  assert (Hfree : ∀ i, dominators fitness isDominated individuals i = 0 ↔
                       ∀ k, dom k i = false).
  { intros i. unfold dominators. rewrite filter_none. split.
    - intros H k. destruct (dom k i) eqn:E; [|done].
      destruct (H k); [|done]. apply elem_of_seq.
      apply dominates_lt in E. lia.
    - intros H k _. by rewrite H. }
  exists S, fits,
    (filter (λ i, dominators fitness isDominated individuals i = 0) (seq 0 N)).
  split_and!.
  - unfold strength_fitness. rewrite HSD. cbn [mbind option_bind].
    rewrite Hfits. cbn [mbind option_bind].
    by rewrite (non_dominated_spec fits Hlf Hf).
  - intros j Hj. destruct (lookup_lt_is_Some_2 S j) as [s Hs]; [lia|].
    by rewrite Hs, (HS j s Hs).
  - done.
  - intros i _. by rewrite dominators_strength_zero, Hfree.
  - apply NoDup_filter, NoDup_seq.
  - intros i. rewrite list_elem_of_filter, elem_of_seq, Hfree.
    split; intros [? ?]; (split; [lia || done|lia || done]).
Qed.

End StrengthFacts.

(** C1, as stated, fails: of two individuals the second of which dominates
    the first, the second has strength 1 although nobody dominates it, and
    the first has raw fitness 1 although it dominates nobody. *)
Lemma C1_strength_is_not_the_dominator_count :
  strength_fitness id Fitness_isDominated dominated_pair
  = Some ([0; 1]%Z, [1; 0]%Z, [1]) ∧
  dominators id Fitness_isDominated dominated_pair 1 = 0 ∧
  dominated id Fitness_isDominated dominated_pair 0 = 0.
Proof. by vm_compute. Qed.

(** C1, amended: on a population whose fitnesses all have [L] objectives and
    weights, [strength_fits[j]] is the number of individuals that [j]
    dominates, and [fits[i]] is the sum of [strength_fits[k]] over the
    individuals [k] that dominate [i]; the raw fitness of [i] is below 1
    exactly when nobody dominates [i], and the positions chosen first are
    exactly those. *)
Theorem C1_strength_and_raw_fitness {Ind : Type} (fitness : Ind → Fitness)
    (individuals : list Ind) (L : nat) :
  same_arity L (fitness <$> individuals) →
  ∃ strength_fits fits chosen_indices,
    strength_fitness fitness Fitness_isDominated individuals
    = Some (strength_fits, fits, chosen_indices) ∧
    (∀ j, j < length individuals →
       strength_fits !! j
       = Some (Z.of_nat (dominated fitness Fitness_isDominated individuals j))) ∧
    (∀ i, i < length individuals →
       fits !! i
       = Some (Z.of_nat (dominators_strength fitness Fitness_isDominated
                           individuals i))) ∧
    (∀ i, i < length individuals →
       (Z.of_nat (dominators_strength fitness Fitness_isDominated
                    individuals i) < 1)%Z ↔
       ∀ k, dominates fitness Fitness_isDominated individuals k i = false) ∧
    NoDup chosen_indices ∧
    (∀ i, i ∈ chosen_indices ↔
          i < length individuals ∧
          ∀ k, dominates fitness Fitness_isDominated individuals k i = false).
Proof.
  intros Harity.
  apply (strength_fitness_spec fitness Fitness_isDominated individuals).
  - intros a _. apply Fitness_isDominated_irrefl.
  - intros a b c Ha Hb Hc.
    apply (Fitness_isDominated_trans L (fitness <$> individuals));
      [done|by apply list_elem_of_fmap_2..].
Qed.

Lemma C1_strength_and_raw_fitness_witness :
  ∃ strength_fits fits chosen_indices,
    strength_fitness id Fitness_isDominated layered_population
    = Some (strength_fits, fits, chosen_indices) ∧
    (∀ j, j < length layered_population →
       strength_fits !! j
       = Some (Z.of_nat (dominated id Fitness_isDominated
                           layered_population j))) ∧
    (∀ i, i < length layered_population →
       fits !! i
       = Some (Z.of_nat (dominators_strength id Fitness_isDominated
                           layered_population i))) ∧
    (∀ i, i < length layered_population →
       (Z.of_nat (dominators_strength id Fitness_isDominated
                    layered_population i) < 1)%Z ↔
       ∀ k, dominates id Fitness_isDominated layered_population k i = false) ∧
    NoDup chosen_indices ∧
    (∀ i, i ∈ chosen_indices ↔
          i < length layered_population ∧
          ∀ k, dominates id Fitness_isDominated layered_population k i = false).
Proof.
  apply (C1_strength_and_raw_fitness id layered_population 2).
  rewrite list_fmap_id. apply layered_population_arity.
Defined.

From Stdlib Require Import QArith.
From stdpp Require Import base option list numbers sorting.
Close Scope Q_scope.

(** * Order-statistic selection always returns *)

Section PartitionFacts.

Implicit Types (array : list Q) (x : Q).

(** [py_get] inside the array reads the slot. *)
Lemma py_get_inside array (i : Z) :
  (0 ≤ i < Z.of_nat (length array))%Z → ∃ a, py_get array i = Some a.
Proof.
  intros Hi. rewrite py_get_front by done.
  apply lookup_lt_is_Some_2. lia.
Qed.

(** The scan for [j] stops at the latest on a slot that is not above [x]. *)
Lemma scan_down_ok array x fuel (j s : Z) :
  (0 ≤ s ≤ j)%Z → (j < Z.of_nat (length array))%Z →
  (∃ a, py_get array s = Some a ∧ Qltb x a = false) →
  (j - s < Z.of_nat fuel)%Z →
  ∃ j', scan_down fuel array x j = Some j' ∧ (s ≤ j' ≤ j)%Z ∧
    ∃ a, py_get array j' = Some a ∧ Qltb x a = false.
Proof.
  revert j. induction fuel as [|fuel IH]; intros j Hs Hj Hsent Hfuel; [lia|].
  simpl. destruct (py_get_inside array j) as [a Ha]; [lia|].
  rewrite Ha. cbn [mbind option_bind].
  destruct (Qltb x a) eqn:Hlt.
  - assert (s ≠ j) as Hne.
    { intros ->. destruct Hsent as (a' & Ha' & Hf). congruence. }
    destruct (IH (j - 1)%Z) as (j' & -> & Hj' & Hstop); [lia|lia|done|lia|].
    exists j'. split; [done|]. split; [lia|done].
  - exists j. split; [done|]. split; [lia|]. by exists a.
Qed.

(** The scan for [i] stops at the latest on a slot that is not below [x]. *)
Lemma scan_up_ok array x fuel (i s : Z) :
  (0 ≤ i ≤ s)%Z → (s < Z.of_nat (length array))%Z →
  (∃ a, py_get array s = Some a ∧ Qltb a x = false) →
  (s - i < Z.of_nat fuel)%Z →
  ∃ i', scan_up fuel array x i = Some i' ∧ (i ≤ i' ≤ s)%Z ∧
    ∃ a, py_get array i' = Some a ∧ Qltb a x = false.
Proof.
  revert i. induction fuel as [|fuel IH]; intros i Hs Hi Hsent Hfuel; [lia|].
  simpl. destruct (py_get_inside array i) as [a Ha]; [lia|].
  rewrite Ha. cbn [mbind option_bind].
  destruct (Qltb a x) eqn:Hlt.
  - assert (s ≠ i) as Hne.
    { intros ->. destruct Hsent as (a' & Ha' & Hf). congruence. }
    destruct (IH (i + 1)%Z) as (i' & -> & Hi' & Hstop); [lia|lia|done|lia|].
    exists i'. split; [done|]. split; [lia|done].
  - exists i. split; [done|]. split; [lia|]. by exists a.
Qed.

(** A swap inside the array succeeds and puts each value in the slot of the
    other. *)
Lemma py_swap_ok array (i j : Z) a b :
  py_get array i = Some a → py_get array j = Some b →
  (0 ≤ i < Z.of_nat (length array))%Z → (0 ≤ j < Z.of_nat (length array))%Z →
  ∃ array', py_swap array i j = Some array' ∧
    length array' = length array ∧
    py_get array' i = Some (if decide (i = j) then a else b) ∧
    py_get array' j = Some a ∧
    (∀ P : Q → Prop, Forall P array → Forall P array').
Proof.
  intros Ha Hb Hi Hj. unfold py_swap. rewrite Ha, Hb. cbn [mbind option_bind].
  rewrite py_set_front by done. cbn [mbind option_bind].
  rewrite py_set_front by (by rewrite length_insert).
  eexists. split; [done|].
  rewrite py_get_front in Ha, Hb by done.
  split_and!.
  - by rewrite !length_insert.
  - rewrite py_get_front by (by rewrite !length_insert).
    destruct (decide (i = j)) as [->|Hne].
    + rewrite list_lookup_insert_eq; [done|]. rewrite length_insert. lia.
    + rewrite list_lookup_insert_ne by lia.
      rewrite list_lookup_insert_eq; [done|lia].
  - rewrite py_get_front by (by rewrite !length_insert).
    rewrite list_lookup_insert_eq; [done|]. rewrite length_insert. lia.
  - intros P HP. rewrite Forall_lookup in HP.
    apply Forall_insert; [apply Forall_insert; [by apply Forall_lookup|]|];
      eauto.
Qed.

(** What holds at the start of every round of the [while True] loop: before
    the first round the pivot stands at [begin]; later [i] holds a value that
    is not above the pivot and [j] one that is not below it. *)
Definition partition_inv array x (begin end_ i j : Z) : Prop :=
  (0 ≤ begin ≤ end_)%Z ∧ (end_ < Z.of_nat (length array))%Z ∧
  ((i = begin - 1 ∧ j = end_ + 1 ∧ py_get array begin = Some x)%Z ∨
   ((begin ≤ i < j)%Z ∧ (j ≤ end_)%Z ∧
    (∃ a, py_get array i = Some a ∧ Qltb x a = false) ∧
    (∃ b, py_get array j = Some b ∧ Qltb b x = false))).

Lemma Qltb_irrefl x : Qltb x x = false.
Proof. apply Qltb_ge, Qle_refl. Qed.

Lemma partition_loop_ok array x (begin end_ i j : Z) fuel :
  partition_inv array x begin end_ i j →
  (j - i ≤ Z.of_nat fuel)%Z →
  ∃ array' q, partition_loop fuel array x i j = Some (array', q) ∧
    (begin ≤ q ≤ end_)%Z ∧ (begin < end_ → q < end_)%Z ∧
    length array' = length array ∧
    (∀ P : Q → Prop, Forall P array → Forall P array').
Proof.
  revert array i j.
  induction fuel as [|fuel IH]; intros array i j (Hb & He & Hinv) Hfuel.
  { destruct Hinv as [(-> & -> & _)|(? & ? & _)]; lia. }
  cbn [partition_loop]. cbv zeta.
  (* the two scans *)
  assert (Hdown : ∃ j1, scan_down (S (2 * length array)) array x (j - 1)
                        = Some j1 ∧
            (begin ≤ j1 ≤ j - 1)%Z ∧ (i ≤ j1)%Z ∧
            ∃ a, py_get array j1 = Some a ∧ Qltb x a = false).
  { destruct Hinv as [(-> & -> & Hx)|(Hij & Hje & Hi & Hj)].
    - destruct (scan_down_ok array x (S (2 * length array)) (end_ + 1 - 1) begin)
        as (j1 & Hj1 & Hr & Hs); [lia|lia| |lia|].
      + exists x. split; [done|apply Qltb_irrefl].
      + exists j1. split_and!; [done|lia|lia|lia|done].
    - destruct (scan_down_ok array x (S (2 * length array)) (j - 1) i)
        as (j1 & Hj1 & Hr & Hs); [lia|lia|done|lia|].
      exists j1. split_and!; [done|lia|lia|lia|done]. }
  destruct Hdown as (j1 & -> & Hj1 & Hij1 & (aj & Haj & Hajx)).
  cbn [mbind option_bind].
  assert (Hup : ∃ i1, scan_up (S (2 * length array)) array x (i + 1)
                      = Some i1 ∧
            (i + 1 ≤ i1)%Z ∧ (i1 ≤ end_)%Z ∧ (i1 ≤ j)%Z ∧
            (i = begin - 1 → i1 = begin)%Z ∧
            ∃ a, py_get array i1 = Some a ∧ Qltb a x = false).
  { destruct Hinv as [(-> & -> & Hx)|(Hij & Hje & Hi & Hj)].
    - destruct (scan_up_ok array x (S (2 * length array)) (begin - 1 + 1) begin)
        as (i1 & Hi1 & Hr & Hs); [lia|lia| |lia|].
      + exists x. split; [done|apply Qltb_irrefl].
      + exists i1. split_and!; [done|lia|lia|lia|lia|done].
    - destruct (scan_up_ok array x (S (2 * length array)) (i + 1) j)
        as (i1 & Hi1 & Hr & Hs); [lia|lia|done|lia|].
      exists i1. split_and!; [done|lia|lia|lia|lia|done]. }
  destruct Hup as (i1 & -> & Hi1 & Hi1e & Hi1j & Hfirst & (ai & Hai & Haix)).
  cbn [mbind option_bind].
  assert (begin ≤ i1)%Z as Hbi1.
  { destruct Hinv as [(-> & -> & _)|(? & ? & _)]; lia. }
  destruct (Z.ltb_spec i1 j1) as [Hlt|Hge].
  - destruct (py_swap_ok array i1 j1 ai aj Hai Haj) as
      (array1 & -> & Hlen1 & Hget1 & Hget2 & HP1); [lia|lia|].
    cbn [mbind option_bind].
    rewrite decide_False in Hget1 by lia.
    destruct (IH array1 i1 j1) as (array' & q & -> & Hq & Hq' & Hlen' & HP').
    + split_and!; [lia|lia|rewrite Hlen1; lia|].
      right. split_and!; [lia|lia|lia|by exists aj|by exists ai].
    + destruct Hinv as [(-> & -> & _)|(? & ? & _)]; lia.
    + exists array', q. split_and!; [done|lia|lia|done|congruence|auto].
  - exists array, j1. split_and!; [done|lia|lia| |done|done].
    destruct Hinv as [(-> & -> & _)|(? & ? & _)]; lia.
Qed.

Lemma partition_ok array (begin end_ : Z) :
  (0 ≤ begin ≤ end_)%Z → (end_ < Z.of_nat (length array))%Z →
  ∃ array' q, _partition array begin end_ = Some (array', q) ∧
    (begin ≤ q ≤ end_)%Z ∧ (begin < end_ → q < end_)%Z ∧
    length array' = length array ∧
    (∀ P : Q → Prop, Forall P array → Forall P array').
Proof.
  intros Hb He. unfold _partition.
  destruct (py_get_inside array begin) as [x Hx]; [lia|].
  rewrite Hx. cbn [mbind option_bind].
  apply (partition_loop_ok array x begin end_).
  - split_and!; [lia|lia|done|]. by left.
  - lia.
Qed.

Context {Rng : Type} (randint : Rng → Z → Z → Z * Rng).

Hypothesis randint_range :
  ∀ g a b, (a ≤ b)%Z → (a ≤ (randint g a b).1 ≤ b)%Z.

Lemma randomizedPartition_ok g array (begin end_ : Z) :
  (0 ≤ begin ≤ end_)%Z → (end_ < Z.of_nat (length array))%Z →
  ∃ array' q g', _randomizedPartition randint g array begin end_
                 = Some (array', q, g') ∧
    (begin ≤ q ≤ end_)%Z ∧ (begin < end_ → q < end_)%Z ∧
    length array' = length array ∧
    (∀ P : Q → Prop, Forall P array → Forall P array').
Proof.
  intros Hb He. unfold _randomizedPartition, py_randint.
  destruct (Z.ltb_spec end_ begin) as [|_]; [lia|].
  pose proof (randint_range g begin end_ (proj2 Hb)) as Hr.
  destruct (randint g begin end_) as [r g1]. simpl in Hr.
  cbn [mbind option_bind].
  destruct (py_get_inside array begin) as [a Ha]; [lia|].
  destruct (py_get_inside array r) as [b Hb']; [lia|].
  destruct (py_swap_ok array begin r a b Ha Hb') as
    (array1 & -> & Hlen1 & _ & _ & HP1); [lia|lia|].
  cbn [mbind option_bind].
  destruct (partition_ok array1 begin end_) as
    (array2 & q & -> & Hq & Hq' & Hlen2 & HP2); [lia|lia|].
  cbn [mbind option_bind].
  exists array2, q, g1. split_and!; [done|lia|lia|done|congruence|auto].
Qed.

(** [_randomizedSelect] on a non-empty range of the array returns, whatever
    the rank asked for, and the value returned has every property that all
    the values of the array have. *)
Lemma randomizedSelect_fuel_ok fuel g array (begin end_ : Z) (i : Q) :
  (0 ≤ begin ≤ end_)%Z → (end_ < Z.of_nat (length array))%Z →
  (end_ - begin < Z.of_nat fuel)%Z →
  ∃ v array' g',
    randomizedSelect_fuel randint fuel g array begin end_ i
    = Some (v, array', g') ∧
    length array' = length array ∧
    (∀ P : Q → Prop, Forall P array → P v).
Proof.
  revert g array begin end_ i.
  induction fuel as [|fuel IH]; intros g array begin end_ i Hb He Hfuel; [lia|].
  cbn [randomizedSelect_fuel].
  destruct (Z.eqb_spec begin end_) as [->|Hne].
  { destruct (py_get_inside array end_) as [a Ha]; [lia|].
    rewrite Ha. cbn [mbind option_bind]. exists a, array, g.
    split_and!; [done..|]. intros P HP. rewrite py_get_front in Ha by lia.
    rewrite Forall_lookup in HP. eauto. }
  destruct (randomizedPartition_ok g array begin end_) as
    (array1 & q & g1 & -> & Hq & Hq' & Hlen1 & HP1); [lia|lia|].
  cbn [mbind option_bind]. cbv zeta.
  destruct (Qltb i (inject_Z (q - begin + 1))).
  - destruct (IH g1 array1 begin q i) as (v & array' & g' & -> & Hlen' & HP');
      [lia|lia|lia|].
    exists v, array', g'. split_and!; [done|congruence|].
    intros P HP. by apply HP', HP1.
  - destruct (IH g1 array1 (q + 1)%Z end_ (i - inject_Z (q - begin + 1))%Q)
      as (v & array' & g' & -> & Hlen' & HP'); [lia|lia|lia|].
    exists v, array', g'. split_and!; [done|congruence|].
    intros P HP. by apply HP', HP1.
Qed.

Lemma randomizedSelect_ok g array (begin end_ : Z) (i : Q) :
  (0 ≤ begin ≤ end_)%Z → (end_ < Z.of_nat (length array))%Z →
  ∃ v array' g',
    _randomizedSelect randint g array begin end_ i = Some (v, array', g') ∧
    length array' = length array ∧
    (∀ P : Q → Prop, Forall P array → P v).
Proof.
  intros Hb He. unfold _randomizedSelect.
  apply randomizedSelect_fuel_ok; [done|done|lia].
Qed.

End PartitionFacts.

From Stdlib Require Import QArith.
From stdpp Require Import base option list numbers sorting.
Close Scope Q_scope.

(** * SPEA-II: filling an archive that is too small *)

Lemma Qsquare_nonneg (x : Q) : (0 <= x * x)%Q.
Proof. unfold Qle, Qmult. simpl. nia. Qed.

Section FillFacts.

Context {Fit Ind Rng : Type} (fitness : Ind → Fit) (values : Fit → list Q).
Context (randint : Rng → Z → Z → Z * Rng).
Variable individuals : list Ind.
Variable L : nat.

Local Abbreviation N := (length individuals).

Hypothesis randint_range :
  ∀ g a b, (a ≤ b)%Z → (a ≤ (randint g a b).1 ≤ b)%Z.
Hypothesis arity :
  ∀ ind, ind ∈ individuals → length (values (fitness ind)) = L.

(** The squared distance of two individuals of the population is defined
    and not negative. *)
Lemma sq_dist_ok (a b : Ind) :
  a ∈ individuals → b ∈ individuals →
  ∃ d, sq_dist fitness values L a b = Some d ∧ (0 <= d)%Q.
Proof.
  intros Ha Hb. unfold sq_dist.
  destruct (for_each_seq_invariant (λ _ (d : Q), (0 <= d)%Q)
    (λ dist k,
       va ← values (fitness a) !! k;
       vb ← values (fitness b) !! k;
       let val := (va - vb)%Q in
       Some (dist + val * val)%Q) 0 L 0%Q) as (d & Hd & Hpos).
  - intros k d Hk Hd.
    destruct (lookup_lt_is_Some_2 (values (fitness a)) k) as [va ->];
      [rewrite (arity a Ha); lia|].
    destruct (lookup_lt_is_Some_2 (values (fitness b)) k) as [vb ->];
      [rewrite (arity b Hb); lia|].
    cbn [mbind option_bind]. eexists. split; [done|].
    rewrite <- (Qplus_0_r 0). apply Qplus_le_compat; [done|].
    apply Qsquare_nonneg.
  - apply Qle_refl.
  - by exists d.
Qed.

Lemma add_density_ok (K : Q) (fits : list Q) (g : Rng) (i : nat) :
  i < N → length fits = N →
  ∃ fits' g', add_density fitness values randint individuals L K (fits, g) i
              = Some (fits', g') ∧ length fits' = N.
Proof.
  intros Hi Hlen. unfold add_density.
  destruct (lookup_lt_is_Some_2 individuals i Hi) as [ind_i Hind_i].
  destruct (for_each_seq_invariant
    (λ _ (distances : list Q),
       length distances = N ∧ Forall (λ d, (0 <= d)%Q) distances)
    (λ distances j,
       ind_i ← individuals !! i;
       ind_j ← individuals !! j;
       dist ← sq_dist fitness values L ind_i ind_j;
       py_update distances j (λ _, dist))
    (i + 1) (N - (i + 1)) (replicate N 0%Q))
    as (distances & -> & Hld & Hpos).
  - intros j distances Hj [Hld Hpos].
    destruct (lookup_lt_is_Some_2 individuals j) as [ind_j Hind_j]; [lia|].
    rewrite Hind_i, Hind_j. cbn [mbind option_bind].
    destruct (sq_dist_ok ind_i ind_j) as (d & -> & Hd);
      [by eapply list_elem_of_lookup_2..|].
    cbn [mbind option_bind].
    destruct (py_update_Some distances j (λ _, d)) as (d0 & _ & ->); [lia|].
    eexists. split; [done|]. split; [by rewrite length_insert|].
    by apply Forall_insert.
  - split; [by rewrite length_replicate|].
    apply Forall_replicate. apply Qle_refl.
  - cbn [mbind option_bind].
    destruct (randomizedSelect_ok randint randint_range g distances 0
                (Z.of_nat N - 1) K) as (v & array' & g' & -> & _ & Hv);
      [lia|lia|].
    cbn [mbind option_bind].
    specialize (Hv (λ d, (0 <= d)%Q) Hpos). simpl in Hv.
    destruct (Qeq_bool (v + 2) 0) eqn:Hz.
    { apply Qeq_bool_iff in Hz.
      assert (0 < v + 2)%Q as Hlt.
      { clear -Hv. unfold Qlt, Qle, Qplus in *. simpl in *. lia. }
      rewrite Hz in Hlt. by apply Qlt_irrefl in Hlt. }
    cbn [mbind option_bind].
    destruct (py_update_Some fits i (λ f, f + 1 / (v + 2))%Q) as (f0 & _ & ->);
      [lia|].
    cbn [mbind option_bind]. eexists _, _. split; [done|].
    by rewrite length_insert.
Qed.

(** The branch for an archive that is too small returns [n] different
    positions of the population. *)
Lemma fill_archive_ok (g : Rng) (K : Q) (n : Z) (fits : list Z)
    (chosen_indices : list nat) :
  length fits = N → NoDup chosen_indices →
  Forall (λ i, i < N) chosen_indices →
  (Z.of_nat (length chosen_indices) < n ≤ Z.of_nat N)%Z →
  ∃ chosen' g',
    fill_archive fitness values randint g individuals L K n fits chosen_indices
    = Some (chosen', g') ∧
    NoDup chosen' ∧ Forall (λ i, i < N) chosen' ∧
    length chosen' = Z.to_nat n.
Proof.
  intros Hlen Hnd Hlt Hn. unfold fill_archive.
  destruct (for_each_seq_invariant
    (λ _ (st : list Q * Rng), length st.1 = N)
    (add_density fitness values randint individuals L K) 0 N
    (inject_Z <$> fits, g)) as ([fits1 g1] & -> & Hlen1).
  { intros i [fits0 g0] Hi Hl. simpl in Hl.
    destruct (add_density_ok K fits0 g0 i) as (fits' & g' & -> & Hl');
      [lia|done|]. by eexists. }
  { simpl. by rewrite length_fmap. }
  simpl in Hlen1. cbn [mbind option_bind].
  destruct (for_each_seq_invariant
    (λ i (next : list (Q * nat)),
       next.*2 = filter (λ j, j ∉ chosen_indices) (seq 0 i))
    (λ next i,
       if bool_decide (i ∈ chosen_indices) then Some next
       else f ← fits1 !! i; Some (next ++ [(f, i)]))
    0 N []) as (next & -> & Hnext).
  { intros i next0 Hi Hn0.
    rewrite seq_S, filter_app, filter_cons, filter_nil. simpl.
    destruct (bool_decide_reflect (i ∈ chosen_indices)) as [Hin|Hout].
    - eexists. split; [done|].
      rewrite decide_False by (by intros ?). by rewrite app_nil_r.
    - destruct (lookup_lt_is_Some_2 fits1 i) as [f ->]; [lia|].
      cbn [mbind option_bind]. eexists. split; [done|].
      rewrite decide_True by done. by rewrite fmap_app, Hn0. }
  { done. }
  simpl in Hnext. cbn [mbind option_bind].
  eexists _, _. split; [done|].
  set (c := length chosen_indices) in *.
  rewrite py_take_front by lia.
  set (taken := take _ _).
  assert (Hsorted : (sort_by pair_ltb next).*2
                    ≡ₚ filter (λ j, j ∉ chosen_indices) (seq 0 N)).
  { by rewrite sort_by_perm, Hnext. }
  assert (Hsub : taken.*2 ⊆+ filter (λ j, j ∉ chosen_indices) (seq 0 N)).
  { rewrite <- Hsorted. subst taken. rewrite fmap_take.
    apply sublist_submseteq, sublist_take. }
  assert (Hrest : length (filter (λ j, j ∉ chosen_indices) (seq 0 N)) = N - c).
  { pose proof (filter_app_complement (λ j, j ∈ chosen_indices) (seq 0 N))
      as Hsplit.
    apply Permutation_length in Hsplit.
    rewrite length_app, length_seq in Hsplit.
    assert (length (filter (λ j, j ∈ chosen_indices) (seq 0 N)) = c) as Hc.
    { apply Permutation_length, NoDup_Permutation.
      - apply NoDup_filter, NoDup_seq.
      - done.
      - intros j. rewrite list_elem_of_filter, elem_of_seq. split; [tauto|].
        intros Hj. split; [done|]. rewrite Forall_forall in Hlt.
        specialize (Hlt j Hj). lia. }
    lia. }
  split_and!.
  - apply NoDup_app. split_and!; [done| |].
    + intros j Hj Hj'. eapply elem_of_submseteq in Hj'; [|exact Hsub].
      apply list_elem_of_filter in Hj' as [Hj' _]. done.
    + subst taken. rewrite fmap_take.
      eapply sublist_NoDup; [|apply sublist_take].
      rewrite Hsorted. apply NoDup_filter, NoDup_seq.
  - apply Forall_app. split; [done|]. apply Forall_forall. intros j Hj.
    eapply elem_of_submseteq in Hj; [|exact Hsub].
    apply list_elem_of_filter in Hj as [_ Hj]. apply elem_of_seq in Hj. lia.
  - rewrite length_app, length_fmap. subst taken. rewrite length_take.
    rewrite sort_by_length, <- (length_fmap snd), Hnext, Hrest. lia.
Qed.

End FillFacts.

From Stdlib Require Import QArith.
From stdpp Require Import base option list numbers sorting.
Close Scope Q_scope.

(** * SPEA-II: trimming an archive that is too large *)

(** ** Matrices as lists of rows *)

Section Matrix.

Context {A : Type}.
Implicit Types (m : list (list A)) (v : A).

(** [m] has [M] rows of [M] entries. *)
Definition square (M : nat) m : Prop :=
  length m = M ∧ Forall (λ row, length row = M) m.

Lemma square_replicate (M : nat) v : square M (replicate M (replicate M v)).
Proof.
  split; [by rewrite length_replicate|].
  apply Forall_replicate. by rewrite length_replicate.
Qed.

Lemma m_get_is_Some (M : nat) m i j :
  square M m → i < M → j < M → ∃ v, m_get m i j = Some v.
Proof.
  intros [Hl Hrows] Hi Hj. unfold m_get.
  destruct (lookup_lt_is_Some_2 m i) as [row Hrow]; [lia|].
  rewrite Hrow. cbn [mbind option_bind]. apply lookup_lt_is_Some_2.
  rewrite Forall_lookup in Hrows. by rewrite (Hrows i row Hrow).
Qed.

Lemma m_get_lt (M : nat) m i j v :
  square M m → m_get m i j = Some v → i < M ∧ j < M.
Proof.
  intros [Hl Hrows] H. unfold m_get in H.
  destruct (m !! i) as [row|] eqn:Hrow; [|done]. simpl in H.
  rewrite Forall_lookup in Hrows. split.
  - rewrite <- Hl. by eapply lookup_lt_Some.
  - rewrite <- (Hrows i row Hrow). by eapply lookup_lt_Some.
Qed.

(** A write inside the matrix succeeds and changes that entry only. *)
Lemma m_set_ok (M : nat) m i j v :
  square M m → i < M → j < M →
  ∃ m', m_set m i j v = Some m' ∧ square M m' ∧
    m_get m' i j = Some v ∧
    ∀ a b, (a ≠ i ∨ b ≠ j) → m_get m' a b = m_get m a b.
Proof.
  intros [Hl Hrows] Hi Hj. unfold m_set.
  destruct (lookup_lt_is_Some_2 m i) as [row Hrow]; [lia|].
  rewrite Hrow. cbn [mbind option_bind].
  assert (length row = M) as Hlr.
  { rewrite Forall_lookup in Hrows. by apply (Hrows i). }
  destruct (py_update_Some row j (λ _, v)) as (v0 & _ & ->); [lia|].
  cbn [mbind option_bind]. eexists. split; [done|]. split_and!.
  - split; [by rewrite length_insert|].
    apply Forall_insert; [done|]. by rewrite length_insert.
  - unfold m_get. rewrite list_lookup_insert_eq by lia.
    cbn [mbind option_bind]. apply list_lookup_insert_eq. lia.
  - intros a b Hab. unfold m_get.
    destruct (decide (a = i)) as [->|Hne].
    + rewrite list_lookup_insert_eq by lia. rewrite Hrow.
      cbn [mbind option_bind]. apply list_lookup_insert_ne.
      destruct Hab; [done|lia].
    + by rewrite list_lookup_insert_ne by done.
Qed.

End Matrix.

(** A distance that is not [float("inf")]. *)
Definition finite (d : Float) : Prop := ∃ q, d = Fin q.

Section TrimFacts.

Context {Fit Ind : Type} (fitness : Ind → Fit) (values : Fit → list Q).
Variable individuals : list Ind.
Variable L : nat.

Hypothesis arity :
  ∀ ind, ind ∈ individuals → length (values (fitness ind)) = L.

(** The positions chosen so far, all inside the population. *)
Variable chosen_indices : list nat.
Hypothesis chosen_lt :
  Forall (λ i, i < length individuals) chosen_indices.

Local Abbreviation M := (length chosen_indices).

(** The matrix of distances is square and holds no infinite distance. *)
Lemma distance_matrix_ok :
  ∃ distances,
    distance_matrix fitness values individuals L chosen_indices
    = Some distances ∧
    square M distances ∧
    ∀ i k d, m_get distances i k = Some d → finite d.
Proof.
  unfold distance_matrix.
  set (ok := λ distances : list (list Float),
         square M distances ∧
         ∀ i k d, m_get distances i k = Some d → finite d).
  assert (Hset : ∀ distances i j q, ok distances → i < M → j < M →
            ∃ distances', m_set distances i j (Fin q) = Some distances' ∧
                          ok distances').
  { intros distances i j q [Hsq Hfin] Hi Hj.
    destruct (m_set_ok M distances i j (Fin q) Hsq Hi Hj)
      as (distances' & -> & Hsq' & Hij & Hother).
    eexists. split; [done|]. split; [done|].
    intros a b d Hd. destruct (decide (a = i ∧ b = j)) as [[-> ->]|Hne].
    - rewrite Hij in Hd. injection Hd as <-. by eexists.
    - rewrite Hother in Hd by (clear -Hne; lia). by eapply Hfin. }
  destruct (for_each_seq_invariant (λ _, ok)
    (λ distances i,
       distances1 ←
         for_each (seq (i + 1) (M - (i + 1)))
           (λ distances j,
              ci ← chosen_indices !! i;
              cj ← chosen_indices !! j;
              ind_i ← individuals !! ci;
              ind_j ← individuals !! cj;
              dist ← sq_dist fitness values L ind_i ind_j;
              distances1 ← m_set distances i j (Fin dist);
              m_set distances1 j i (Fin dist))
           distances;
       m_set distances1 i i (Fin (-1)))
    0 M (replicate M (replicate M (Fin 0)))) as (distances & -> & Hok).
  - intros i distances Hi Hok.
    destruct (for_each_seq_invariant (λ _, ok)
      (λ distances j,
         ci ← chosen_indices !! i;
         cj ← chosen_indices !! j;
         ind_i ← individuals !! ci;
         ind_j ← individuals !! cj;
         dist ← sq_dist fitness values L ind_i ind_j;
         distances1 ← m_set distances i j (Fin dist);
         m_set distances1 j i (Fin dist))
      (i + 1) (M - (i + 1)) distances) as (distances1 & -> & Hok1).
    + intros j distances0 Hj Hok0.
      destruct (lookup_lt_is_Some_2 chosen_indices i) as [ci Hci]; [lia|].
      destruct (lookup_lt_is_Some_2 chosen_indices j) as [cj Hcj]; [lia|].
      rewrite Hci, Hcj. cbn [mbind option_bind].
      pose proof chosen_lt as Hlt. rewrite Forall_lookup in Hlt.
      destruct (lookup_lt_is_Some_2 individuals ci) as [ind_i Hi']; [by eauto|].
      destruct (lookup_lt_is_Some_2 individuals cj) as [ind_j Hj']; [by eauto|].
      rewrite Hi', Hj'. cbn [mbind option_bind].
      destruct (sq_dist_ok fitness values individuals L arity ind_i ind_j)
        as (d & -> & _); [by eapply list_elem_of_lookup_2..|].
      cbn [mbind option_bind].
      destruct (Hset distances0 i j d Hok0) as (d1 & -> & Hok1); [lia|lia|].
      cbn [mbind option_bind]. apply Hset; [done|lia|lia].
    + done.
    + cbn [mbind option_bind]. apply Hset; [done|lia|lia].
  - split; [apply square_replicate|].
    intros i k d Hd. unfold m_get in Hd.
    destruct (replicate M (replicate M (Fin 0)) !! i) as [row|] eqn:Hrow;
      [|done].
    apply lookup_replicate in Hrow as [-> _]. simpl in Hd.
    apply lookup_replicate in Hd as [-> _]. by eexists.
  - exists distances. by destruct Hok.
Qed.

End TrimFacts.

(** ** Sorting each row of positions by distance *)

(** The inner [while] of the insertion sort: the entries of [A] larger than
    the one of [j] move one place to the right, and the returned position is
    the free one. *)
Lemma shift_larger_ok (drow : list Float) (j : nat) (A : list nat) (h : nat)
    (B : list nat) :
  j < length drow → Forall (λ s, s < length drow) A →
  ∃ k0 h', shift_larger drow j (A ++ h :: B) (length A)
           = Some (take k0 A ++ h' :: drop k0 A ++ B, k0) ∧ k0 ≤ length A.
Proof.
  intros Hj. revert h B.
  induction A as [|s A' IH] using rev_ind; intros h B HA.
  { exists 0, h. by split. }
  apply Forall_app in HA as [HA' Hs]. rewrite Forall_singleton in Hs.
  rewrite length_app. cbn [length]. rewrite Nat.add_1_r. cbn [shift_larger].
  destruct (lookup_lt_is_Some_2 drow j Hj) as [dj ->].
  cbn [mbind option_bind].
  assert (((A' ++ [s]) ++ h :: B) !! length A' = Some s) as ->.
  { rewrite <- app_assoc. by apply list_lookup_middle. }
  cbn [mbind option_bind].
  destruct (lookup_lt_is_Some_2 drow s Hs) as [ds ->].
  cbn [mbind option_bind].
  destruct (Float_ltb dj ds).
  - destruct (py_update_Some ((A' ++ [s]) ++ h :: B) (S (length A'))
                (λ _, s)) as (x & _ & ->).
    { rewrite !length_app. simpl. lia. }
    cbn [mbind option_bind].
    assert (<[S (length A') := s]> ((A' ++ [s]) ++ h :: B)
            = A' ++ s :: s :: B) as ->.
    { rewrite insert_app_r_alt by (rewrite length_app; simpl; lia).
      rewrite length_app. simpl.
      replace (S (length A') - (length A' + 1)) with 0 by lia. simpl.
      by rewrite <- app_assoc. }
    destruct (IH s (s :: B) HA') as (k0 & h' & -> & Hk0).
    exists k0, h'. split; [|lia].
    rewrite take_app_le, drop_app_le by done.
    by rewrite <- app_assoc.
  - exists (S (length A')), h. split; [|lia].
    rewrite take_ge, drop_ge by (rewrite length_app; simpl; lia). done.
Qed.

(** The first [j] places of a row hold the positions [0 .. j-1]. *)
Definition sorted_prefix (M j : nat) (srow : list nat) : Prop :=
  length srow = M ∧ take j srow ≡ₚ seq 0 j.

Lemma insert_position_ok (M : nat) (drow : list Float) (srow : list nat)
    (j : nat) :
  length drow = M → 1 ≤ j < M → sorted_prefix M j srow →
  ∃ srow',
    ('(srow1, k) ← shift_larger drow j srow j; py_update srow1 k (λ _, j))
    = Some srow' ∧ sorted_prefix M (S j) srow'.
Proof.
  intros Hd Hj [Hlen Hperm].
  destruct (drop j srow) as [|h B] eqn:Hdrop.
  { apply (f_equal length) in Hdrop. rewrite length_drop in Hdrop.
    simpl in Hdrop. lia. }
  pose proof (take_drop j srow) as Hsplit. rewrite Hdrop in Hsplit.
  assert (length (take j srow) = j) as HlenA by (rewrite length_take; lia).
  set (A := take j srow) in *.
  assert (Forall (λ s, s < length drow) A) as HA.
  { apply Forall_forall. intros s Hs. rewrite Hperm in Hs.
    apply elem_of_seq in Hs. lia. }
  destruct (shift_larger_ok drow j A h B) as (k0 & h' & Hshift & Hk0);
    [lia|done|].
  rewrite HlenA, Hsplit in Hshift. rewrite Hshift.
  cbn [mbind option_bind].
  destruct (py_update_Some (take k0 A ++ h' :: drop k0 A ++ B) k0 (λ _, j))
    as (x & _ & ->).
  { rewrite length_app, length_take. simpl. lia. }
  eexists. split; [done|].
  assert (<[k0 := j]> (take k0 A ++ h' :: drop k0 A ++ B)
          = (take k0 A ++ j :: drop k0 A) ++ B) as ->.
  { rewrite insert_app_r_alt by (rewrite length_take; lia).
    rewrite length_take. replace (k0 - k0 `min` length A) with 0 by lia.
    simpl. by rewrite <- app_assoc. }
  assert (length (take k0 A ++ j :: drop k0 A) = S j) as Hlen'.
  { rewrite length_app, length_take. simpl. rewrite length_drop. lia. }
  split.
  - rewrite length_app, Hlen'. rewrite <- Hlen, <- Hsplit.
    rewrite length_app. simpl. lia.
  - rewrite take_app_length' by done.
    rewrite <- Permutation_middle, take_drop, Hperm.
    rewrite seq_S. simpl. by rewrite Permutation_cons_append.
Qed.

(** Every row of [sorted_indices] is a rearrangement of all positions. *)
Definition rows_ok (M : nat) (sorted_indices : list (list nat)) : Prop :=
  length sorted_indices = M ∧
  Forall (λ row, row ≡ₚ seq 0 M) sorted_indices.

Lemma sort_rows_ok (M : nat) (distances : list (list Float)) :
  square M distances →
  ∃ sorted_indices,
    sort_rows M distances = Some sorted_indices ∧ rows_ok M sorted_indices.
Proof.
  intros [Hl Hrows]. unfold sort_rows.
  destruct (for_each_seq_invariant
    (λ i (sorted_indices : list (list nat)),
       length sorted_indices = M ∧
       ∀ a row, sorted_indices !! a = Some row →
         if decide (a < i) then row ≡ₚ seq 0 M else row = replicate M 0)
    (λ sorted_indices i,
       drow ← distances !! i;
       srow ← sorted_indices !! i;
       srow1 ← for_each (seq 1 (M - 1))
                 (λ srow j,
                    '(srow1, k) ← shift_larger drow j srow j;
                    py_update srow1 k (λ _, j))
                 srow;
       Some (<[i := srow1]> sorted_indices))
    0 M (replicate M (replicate M 0))) as (sorted_indices & -> & Hlen & Hall).
  - intros i sorted_indices Hi [Hlen Hall].
    destruct (lookup_lt_is_Some_2 distances i) as [drow Hdrow]; [lia|].
    destruct (lookup_lt_is_Some_2 sorted_indices i) as [srow Hsrow]; [lia|].
    rewrite Hdrow, Hsrow. cbn [mbind option_bind].
    assert (length drow = M) as Hd.
    { rewrite Forall_lookup in Hrows. by apply (Hrows i). }
    assert (srow = replicate M 0) as ->.
    { specialize (Hall i _ Hsrow). by rewrite decide_False in Hall by lia. }
    destruct (for_each_seq_invariant (sorted_prefix M)
      (λ srow j,
         '(srow1, k) ← shift_larger drow j srow j; py_update srow1 k (λ _, j))
      1 (M - 1) (replicate M 0)) as (srow1 & -> & Hlen1 & Hperm1).
    + intros j srow Hj Hpre. apply insert_position_ok; [done|lia|done].
    + split; [by rewrite length_replicate|].
      destruct M as [|M']; [lia|]. done.
    + cbn [mbind option_bind]. eexists. split; [done|].
      split; [by rewrite length_insert|].
      intros a row Hrow. destruct (decide (a = i)) as [->|Hne].
      * rewrite list_lookup_insert_eq in Hrow by lia. injection Hrow as <-.
        rewrite decide_True by lia.
        replace (1 + (M - 1)) with M in Hperm1 by lia.
        by rewrite take_ge in Hperm1 by lia.
      * rewrite list_lookup_insert_ne in Hrow by done.
        specialize (Hall a row Hrow).
        destruct (decide (a < i)), (decide (a < S i)); try done; lia.
  - split; [by rewrite length_replicate|].
    intros a row Hrow. apply lookup_replicate in Hrow as [-> _].
    by rewrite decide_False by lia.
  - eexists. split; [done|]. split; [done|].
    apply Forall_lookup. intros a row Hrow.
    specialize (Hall a row Hrow). rewrite decide_True in Hall; [done|].
    apply lookup_lt_Some in Hrow. lia.
Qed.

(** ** The truncation loop *)

Lemma swap_adjacent_perm {A} (l : list A) (j : nat) (a b : A) :
  l !! j = Some a → l !! S j = Some b → <[S j := a]> (<[j := b]> l) ≡ₚ l.
Proof.
  revert j. induction l as [|x l IH]; intros [|j] Ha Hb; simpl in *; try done.
  - destruct l as [|y l]; simplify_eq/=. apply perm_swap.
  - f_equiv. by apply IH.
Qed.

(** One step of the loop that moves [min_pos] towards the end of a row. *)
Lemma bubble_ok (min_pos : nat) (srow : list nat) (j : nat) :
  NoDup srow → j + 1 < length srow →
  ∃ srow', bubble min_pos srow j = Some srow' ∧ srow' ≡ₚ srow ∧
    srow' !! j ≠ Some min_pos ∧
    (∀ p, p ≠ j → p ≠ j + 1 → srow' !! p = srow !! p) ∧
    (∀ p s, p = j ∨ p = j + 1 → srow' !! p = Some s →
       srow !! j = Some s ∨ srow !! (j + 1) = Some s).
Proof.
  intros Hnd Hj. unfold bubble.
  destruct (lookup_lt_is_Some_2 srow j) as [s Hs]; [lia|].
  destruct (lookup_lt_is_Some_2 srow (j + 1)) as [s1 Hs1]; [lia|].
  rewrite Hs. cbn [mbind option_bind].
  destruct (Nat.eqb_spec s min_pos) as [->|Hne].
  - rewrite Hs1. cbn [mbind option_bind].
    destruct (py_update_Some srow j (λ _, s1)) as (x & _ & ->); [lia|].
    cbn [mbind option_bind].
    destruct (py_update_Some (<[j := s1]> srow) (j + 1) (λ _, min_pos))
      as (y & _ & ->); [rewrite length_insert; lia|].
    eexists. split; [done|]. split_and!.
    + rewrite Nat.add_1_r in *. by apply swap_adjacent_perm.
    + rewrite list_lookup_insert_ne by lia.
      rewrite list_lookup_insert_eq by lia. intros [= ->].
      pose proof (NoDup_lookup _ _ _ _ Hnd Hs Hs1). lia.
    + intros p Hp1 Hp2. by rewrite !list_lookup_insert_ne by lia.
    + intros p s [->| ->] Hp.
      * rewrite list_lookup_insert_ne in Hp by lia.
        rewrite list_lookup_insert_eq in Hp by lia. right. congruence.
      * rewrite list_lookup_insert_eq in Hp by (rewrite length_insert; lia).
        left. congruence.
  - eexists. split; [done|]. split_and!; [done| |done|].
    + rewrite Hs. congruence.
    + intros p s' [->| ->] Hp; [left; congruence|by right].
Qed.

(** The whole loop over the first [size - 1] places of a row: [min_pos] leaves
    them, and nothing enters them from outside the first [size] places. *)
Lemma bubble_loop_ok (min_pos : nat) (srow : list nat) (sz : nat) :
  NoDup srow → sz ≤ length srow →
  ∃ srow', for_each (seq 1 (sz - 2)) (bubble min_pos) srow = Some srow' ∧
    srow' ≡ₚ srow ∧
    (∀ p, 1 ≤ p < sz - 1 → srow' !! p ≠ Some min_pos) ∧
    (∀ p s, 1 ≤ p < sz → srow' !! p = Some s →
       ∃ p', 1 ≤ p' < sz ∧ srow !! p' = Some s).
Proof.
  intros Hnd Hsz.
  destruct (for_each_seq_invariant
    (λ j srow', srow' ≡ₚ srow ∧
       (∀ p, 1 ≤ p < j → srow' !! p ≠ Some min_pos) ∧
       (∀ p s, 1 ≤ p < sz → srow' !! p = Some s →
          ∃ p', 1 ≤ p' < sz ∧ srow !! p' = Some s))
    (bubble min_pos) 1 (sz - 2) srow) as (srow' & Hrun & Hperm & Hm & Hfrom).
  - intros j srow1 Hj (Hperm & Hm & Hfrom).
    destruct (bubble_ok min_pos srow1 j)
      as (srow2 & -> & Hperm2 & Hj2 & Hsame & Hpair).
    { by rewrite Hperm. }
    { rewrite Hperm. lia. }
    eexists. split; [done|]. split_and!.
    + by rewrite Hperm2.
    + intros p Hp. destruct (decide (p = j)) as [->|Hne]; [done|].
      rewrite Hsame by lia. apply Hm. lia.
    + intros p s Hp Hs.
      destruct (decide (p = j ∨ p = j + 1)) as [Hpj|Hpj].
      * destruct (Hpair p s Hpj Hs) as [Hs'|Hs'];
          (eapply Hfrom; [|exact Hs']; lia).
      * rewrite Hsame in Hs by lia. by eapply Hfrom.
  - split_and!; [done|intros; lia|eauto].
  - exists srow'. split_and!; [done|done| |done].
    intros p Hp. apply Hm. lia.
Qed.

Section Truncate.

(** The number of rows, [N] in the source. *)
Variable M : nat.

(** What holds each time the [while] loop tests [size > n]: the rows and
    columns of removed positions hold [float("inf")], the other distances are
    finite, and the first [size] places of a row that is left name no removed
    position apart from the place 0. *)
Record trim_ok (size : Z) (R : list nat) (distances : list (list Float))
    (sorted_indices : list (list nat)) : Prop := {
  trim_square : square M distances;
  trim_rows : rows_ok M sorted_indices;
  trim_nodup : NoDup R;
  trim_lt : Forall (λ i, i < M) R;
  trim_size : size = (Z.of_nat M - Z.of_nat (length R))%Z;
  trim_removed : ∀ i k, i ∈ R → k < M → m_get distances i k = Some Inf;
  trim_kept : ∀ i k, i < M → k < M → i ∉ R → k ∉ R →
    ∃ q, m_get distances i k = Some (Fin q);
  trim_active : ∀ i j s, i < M → i ∉ R → 1 ≤ j → (Z.of_nat j < size)%Z →
    m_get sorted_indices i j = Some s → s ∉ R
}.

Lemma rows_ok_get (sorted_indices : list (list nat)) (i j : nat) :
  rows_ok M sorted_indices → i < M → j < M →
  ∃ s, m_get sorted_indices i j = Some s ∧ s < M.
Proof.
  intros [Hl Hrows] Hi Hj. unfold m_get.
  destruct (lookup_lt_is_Some_2 sorted_indices i) as [row Hrow]; [lia|].
  rewrite Hrow. cbn [mbind option_bind].
  rewrite Forall_lookup in Hrows. specialize (Hrows i row Hrow).
  destruct (lookup_lt_is_Some_2 row j) as [s Hs].
  { rewrite Hrows, length_seq. lia. }
  exists s. split; [done|].
  apply list_elem_of_lookup_2 in Hs. rewrite Hrows in Hs.
  apply elem_of_seq in Hs. lia.
Qed.

Lemma rows_ok_row (sorted_indices : list (list nat)) (i : nat) :
  rows_ok M sorted_indices → i < M →
  ∃ row, sorted_indices !! i = Some row ∧ row ≡ₚ seq 0 M.
Proof.
  intros [Hl Hrows] Hi.
  destruct (lookup_lt_is_Some_2 sorted_indices i) as [row Hrow]; [lia|].
  exists row. split; [done|]. rewrite Forall_lookup in Hrows. by eapply Hrows.
Qed.

Section Round.

Variables (size : Z) (R : list nat).
Variables (distances : list (list Float)) (sorted_indices : list (list nat)).
Hypothesis ok : trim_ok size R distances sorted_indices.
Hypothesis size_ge : (2 ≤ size)%Z.

Lemma size_le : 2 ≤ M.
Proof. pose proof (trim_size _ _ _ _ ok). lia. Qed.

(** The comparison of two rows always ends with one of the two. *)
Lemma closer_ok (i min_pos : nat) (js : list nat) :
  i < M → min_pos < M → Forall (λ j, j < M) js →
  ∃ r, closer distances sorted_indices i min_pos js = Some r ∧
       (r = i ∨ r = min_pos).
Proof.
  intros Hi Hm Hjs. induction js as [|j js IH]; [simpl; eauto|].
  apply Forall_cons in Hjs as [Hj Hjs]. cbn [closer].
  destruct (rows_ok_get sorted_indices i j) as (si & -> & Hsi);
    [apply ok|done..|].
  cbn [mbind option_bind].
  destruct (m_get_is_Some M distances i si) as [di ->]; [apply ok|done..|].
  cbn [mbind option_bind].
  destruct (rows_ok_get sorted_indices min_pos j) as (sm & -> & Hsm);
    [apply ok|done..|].
  cbn [mbind option_bind].
  destruct (m_get_is_Some M distances min_pos sm) as [dm ->];
    [apply ok|done..|].
  cbn [mbind option_bind].
  destruct (Float_ltb di dm); [eauto|].
  destruct (Float_ltb dm di); [eauto|]. by apply IH.
Qed.

(** The distance from a row to its nearest neighbour is infinite exactly when
    the row has been removed. *)
Lemma first_distance (i : nat) :
  i < M →
  ∃ si d, m_get sorted_indices i 1 = Some si ∧
    m_get distances i si = Some d ∧
    (i ∈ R → d = Inf) ∧ (i ∉ R → finite d).
Proof.
  intros Hi. pose proof size_le as HM.
  destruct (rows_ok_get sorted_indices i 1) as (si & Hsi & Hlt);
    [apply ok|done|lia|].
  exists si. destruct (decide (i ∈ R)) as [Hin|Hout].
  - exists Inf. split_and!; [done| |done|done].
    by apply (trim_removed _ _ _ _ ok).
  - assert (si ∉ R) as Hsi'.
    { eapply (trim_active _ _ _ _ ok i 1); [done|done|lia|lia|done]. }
    destruct (trim_kept _ _ _ _ ok i si) as [q Hq]; [done..|].
    exists (Fin q). split_and!; [done|done|done|]. intros _. by exists q.
Qed.

(** A removed row never wins the comparison against one that is left. *)
Lemma closer_kept (i min_pos : nat) (js : list nat) (r : nat) :
  i < M → min_pos < M →
  closer distances sorted_indices i min_pos (1 :: js) = Some r →
  r = i ∨ r = min_pos → i ∉ R ∨ min_pos ∉ R → r ∉ R.
Proof.
  intros Hi Hm Hr Hcases Hone.
  destruct (decide (i ∈ R)) as [Hi_in|Hi_out];
    destruct (decide (min_pos ∈ R)) as [Hm_in|Hm_out].
  - by destruct Hone.
  - destruct (first_distance i Hi) as (si & di & Hsi & Hdi & Hinf & _).
    destruct (first_distance min_pos Hm) as (sm & dm & Hsm & Hdm & _ & Hfin).
    cbn [closer] in Hr. rewrite Hsi, Hsm in Hr. cbn [mbind option_bind] in Hr.
    rewrite Hdi, Hdm in Hr. cbn [mbind option_bind] in Hr.
    rewrite (Hinf Hi_in) in Hr. destruct (Hfin Hm_out) as [q ->].
    simpl in Hr. by injection Hr as <-.
  - destruct (first_distance i Hi) as (si & di & Hsi & Hdi & _ & Hfin).
    destruct (first_distance min_pos Hm) as (sm & dm & Hsm & Hdm & Hinf & _).
    cbn [closer] in Hr. rewrite Hsi, Hsm in Hr. cbn [mbind option_bind] in Hr.
    rewrite Hdi, Hdm in Hr. cbn [mbind option_bind] in Hr.
    rewrite (Hinf Hm_in) in Hr. destruct (Hfin Hi_out) as [q ->].
    simpl in Hr. by injection Hr as <-.
  - by destruct Hcases as [-> | ->].
Qed.

(** The row chosen for removal has not been removed before. *)
Lemma find_min_ok :
  ∃ min_pos, find_min M size distances sorted_indices = Some min_pos ∧
    min_pos < M ∧ min_pos ∉ R.
Proof.
  pose proof size_le as HM. unfold find_min.
  destruct (for_each_seq_invariant
    (λ i min_pos, min_pos < M ∧ (min_pos ∉ R ∨ ∀ i', i' < i → i' ∈ R))
    (λ min_pos i,
       closer distances sorted_indices i min_pos (seq 1 (Z.to_nat size - 1)))
    1 (M - 1) 0) as (min_pos & -> & Hlt & Hout).
  - intros i min_pos Hi [Hlt Hout].
    destruct (closer_ok i min_pos (seq 1 (Z.to_nat size - 1)))
      as (r & Hr & Hcases); [lia|done| |].
    { apply Forall_forall. intros j Hj. apply elem_of_seq in Hj.
      pose proof (trim_size _ _ _ _ ok). lia. }
    exists r. split; [done|]. split; [destruct Hcases; lia|].
    assert (i ∉ R ∨ min_pos ∉ R → r ∉ R) as Hkept.
    { replace (Z.to_nat size - 1) with (S (Z.to_nat size - 2)) in Hr by lia.
      cbn [seq] in Hr. eapply closer_kept; [| |exact Hr|done]; [lia|done]. }
    destruct Hout as [Hout|Hall]; [by left; auto|].
    destruct (decide (i ∈ R)) as [Hin|Hni]; [|by left; auto].
    right. intros i' Hi'. destruct (decide (i' = i)) as [->|Hne]; [done|].
    apply Hall. lia.
  - split; [lia|]. destruct (decide (0 ∈ R)) as [Hin|Hni]; [|by left].
    right. intros i' Hi'. by replace i' with 0 by lia.
  - exists min_pos. split; [done|]. split; [done|].
    destruct Hout as [Hout|Hall]; [done|]. exfalso.
    assert (seq 0 M ⊆+ R) as Hsub.
    { apply NoDup_submseteq; [apply NoDup_seq|].
      intros x Hx. apply elem_of_seq in Hx. apply Hall. lia. }
    apply submseteq_length in Hsub. rewrite length_seq in Hsub.
    pose proof (trim_size _ _ _ _ ok). lia.
Qed.

End Round.

(** What holds before the step [i] of the loop that forgets [min_pos]: the
    rows before [i] have been updated, the others have not. *)
Record forgetting (size : Z) (R : list nat) (min_pos i : nat)
    (st : list (list Float) * list (list nat)) : Prop := {
  fg_square : square M st.1;
  fg_rows : rows_ok M st.2;
  fg_removed : ∀ a k, a ∈ R → k < M → m_get st.1 a k = Some Inf;
  fg_kept : ∀ a k, a < M → k < M → a ∉ R → k ∉ R →
    a ≠ min_pos → k ≠ min_pos → ∃ q, m_get st.1 a k = Some (Fin q);
  fg_row : ∀ k, k < i → m_get st.1 min_pos k = Some Inf;
  fg_done : ∀ a j s, a < i → a ∉ R → a ≠ min_pos →
    1 ≤ j → (Z.of_nat j < size - 1)%Z →
    m_get st.2 a j = Some s → (s ∉ R) ∧ s ≠ min_pos;
  fg_todo : ∀ a j s, i ≤ a → a < M → a ∉ R →
    1 ≤ j → (Z.of_nat j < size)%Z →
    m_get st.2 a j = Some s → s ∉ R
}.

Lemma forget_ok (size : Z) (R : list nat) (min_pos i : nat)
    (st : list (list Float) * list (list nat)) :
  forgetting size R min_pos i st →
  i < M → min_pos < M → (2 ≤ size ≤ Z.of_nat M)%Z →
  ∃ st', forget size min_pos st i = Some st' ∧
         forgetting size R min_pos (S i) st'.
Proof.
  destruct st as [distances sorted_indices].
  intros [Hsq Hrows Hrem Hkept Hrow Hdone Htodo] Hi Hm Hsize.
  cbn [fst snd] in *. unfold forget.
  destruct (m_set_ok M distances i min_pos Inf Hsq Hi Hm)
    as (distances1 & -> & Hsq1 & Hget1 & Hother1).
  cbn [mbind option_bind].
  destruct (m_set_ok M distances1 min_pos i Inf Hsq1 Hm Hi)
    as (distances2 & -> & Hsq2 & Hget2 & Hother2).
  cbn [mbind option_bind].
  destruct (rows_ok_row sorted_indices i Hrows Hi) as (srow & Hsrow & Hperm).
  rewrite Hsrow. cbn [mbind option_bind].
  destruct (bubble_loop_ok min_pos srow (Z.to_nat size))
    as (srow1 & -> & Hperm1 & Hgone & Hfrom).
  { rewrite Hperm. apply NoDup_seq. }
  { rewrite Hperm, length_seq. lia. }
  cbn [mbind option_bind]. eexists. split; [done|].
  assert (Hinf : ∀ a k, m_get distances a k = Some Inf →
                        m_get distances2 a k = Some Inf).
  { intros a k Hak.
    destruct (decide (a = min_pos ∧ k = i)) as [[-> ->]|Hne2]; [done|].
    rewrite Hother2 by (clear -Hne2; lia).
    destruct (decide (a = i ∧ k = min_pos)) as [[-> ->]|Hne1]; [done|].
    by rewrite Hother1 by (clear -Hne1; lia). }
  assert (Hrow_i : ∀ j, m_get (<[i := srow1]> sorted_indices) i j
                        = srow1 !! j).
  { intros j. unfold m_get. destruct Hrows as [Hl _].
    by rewrite list_lookup_insert_eq by lia. }
  assert (Hrow_other : ∀ a j, a ≠ i →
            m_get (<[i := srow1]> sorted_indices) a j
            = m_get sorted_indices a j).
  { intros a j Hne. unfold m_get. by rewrite list_lookup_insert_ne by done. }
  constructor; cbn [fst snd].
  - done.
  - destruct Hrows as [Hl Hall]. split; [by rewrite length_insert|].
    apply Forall_insert; [done|]. by rewrite Hperm1.
  - intros a k Ha Hk. apply Hinf. by apply Hrem.
  - intros a k Ha Hk HaR HkR Ham Hkm.
    rewrite Hother2, Hother1 by (clear -Ham Hkm; lia). by apply Hkept.
  - intros k Hk. destruct (decide (k = i)) as [->|Hne]; [done|].
    apply Hinf, Hrow. lia.
  - intros a j s Ha HaR Ham Hj1 Hj2 Hs.
    destruct (decide (a = i)) as [->|Hne].
    + rewrite Hrow_i in Hs. split.
      * destruct (Hfrom j s) as (p' & Hp' & Hsp'); [lia|done|].
        apply (Htodo i p' s); [lia|done|done|lia|lia|].
        unfold m_get. by rewrite Hsrow.
      * intros ->. apply (Hgone j); [lia|done].
    + rewrite Hrow_other in Hs by done. apply (Hdone a j s); [lia|done..].
  - intros a j s Ha1 Ha2 HaR Hj1 Hj2 Hs.
    rewrite Hrow_other in Hs by lia. apply (Htodo a j s); [lia|done..].
Qed.

(** After the loop, [min_pos] is one more removed position. *)
Lemma forget_loop_ok (size : Z) (R : list nat) (min_pos : nat)
    (distances : list (list Float)) (sorted_indices : list (list nat)) :
  trim_ok size R distances sorted_indices →
  min_pos < M → min_pos ∉ R → (2 ≤ size)%Z →
  ∃ distances' sorted_indices',
    for_each (seq 0 M) (forget size min_pos) (distances, sorted_indices)
    = Some (distances', sorted_indices') ∧
    trim_ok (size - 1) (R ++ [min_pos]) distances' sorted_indices'.
Proof.
  intros Hok Hm HmR Hsize. pose proof (trim_size _ _ _ _ Hok) as HsizeM.
  destruct (for_each_seq_invariant (forgetting size R min_pos)
    (forget size min_pos) 0 M (distances, sorted_indices))
    as ([distances' sorted_indices'] & Hrun & Hfg).
  - intros i st Hi Hst. apply forget_ok; [done|lia|done|lia].
  - constructor; cbn [fst snd].
    + apply Hok.
    + apply Hok.
    + apply (trim_removed _ _ _ _ Hok).
    + intros a k ? ? ? ? _ _. by apply (trim_kept _ _ _ _ Hok).
    + intros; lia.
    + intros; lia.
    + intros a j s _ ? ? ? ? ?. by apply (trim_active _ _ _ _ Hok a j s).
  - exists distances', sorted_indices'. split; [done|].
    destruct Hfg as [Hsq Hrows Hrem Hkept Hrow Hdone Htodo].
    cbn [fst snd] in *.
    pose proof (trim_nodup _ _ _ _ Hok) as Hnd.
    pose proof (trim_lt _ _ _ _ Hok) as HltR.
    constructor.
    + done.
    + done.
    + apply NoDup_app. split_and!; [done| |apply NoDup_singleton].
      intros x Hx ->%list_elem_of_singleton. done.
    + apply Forall_app. split; [done|]. by apply Forall_singleton.
    + rewrite length_app. simpl. lia.
    + intros a k [Ha| ->%list_elem_of_singleton]%elem_of_app Hk.
      * by apply Hrem.
      * apply Hrow. lia.
    + intros a k Ha Hk HaR HkR. rewrite not_elem_of_app in HaR, HkR.
      rewrite !list_elem_of_singleton in HaR, HkR.
      apply Hkept; tauto.
    + intros a j s Ha HaR Hj1 Hj2 Hs. rewrite not_elem_of_app in HaR.
      rewrite list_elem_of_singleton in HaR.
      destruct (Hdone a j s) as [HsR Hsm]; [lia|tauto|tauto|done..|].
      rewrite not_elem_of_app, list_elem_of_singleton. tauto.
Qed.

(** The loop removes [N - n] different positions and stops. *)
Lemma truncate_ok (fuel : nat) (n size : Z) (R : list nat)
    (distances : list (list Float)) (sorted_indices : list (list nat)) :
  trim_ok size R distances sorted_indices →
  (1 ≤ n ≤ size)%Z → (size - n ≤ Z.of_nat fuel)%Z →
  ∃ to_remove,
    truncate fuel M n distances sorted_indices size R = Some to_remove ∧
    NoDup to_remove ∧ Forall (λ i, i < M) to_remove ∧
    Z.of_nat (length to_remove) = (Z.of_nat M - n)%Z.
Proof.
  revert size R distances sorted_indices.
  induction fuel as [|fuel IH]; intros size R distances sorted_indices
    Hok Hn Hfuel.
  - simpl. destruct (Z.ltb_spec n size) as [|_]; [lia|].
    exists R. destruct Hok. split_and!; [done..|lia].
  - simpl. destruct (Z.ltb_spec n size) as [Hlt|Hge].
    + destruct (find_min_ok size R distances sorted_indices Hok)
        as (min_pos & -> & Hm & HmR); [lia|].
      cbn [mbind option_bind].
      destruct (forget_loop_ok size R min_pos distances sorted_indices)
        as (distances' & sorted_indices' & -> & Hok'); [done..|lia|].
      cbn [mbind option_bind]. apply IH; [done|lia|lia].
    + exists R. destruct Hok. split_and!; [done..|lia].
Qed.

End Truncate.

(** ** Deleting the removed positions *)

Lemma increasing_of_sorted (r : list nat) :
  StronglySorted (not_after Nat.ltb) r → NoDup r → StronglySorted lt r.
Proof.
  induction 1 as [|x r Hr IH Hx]; intros Hnd; [constructor|].
  apply NoDup_cons in Hnd as [Hxr Hnd]. constructor; [by apply IH|].
  apply Forall_forall. intros y Hy. rewrite Forall_forall in Hx.
  specialize (Hx y Hy). unfold not_after in Hx.
  apply Nat.ltb_ge in Hx. assert (x ≠ y) by (by intros ->). lia.
Qed.

Lemma increasing_NoDup (r : list nat) : StronglySorted lt r → NoDup r.
Proof.
  induction 1 as [|x r Hr IH Hx]; constructor; [|done].
  intros Hin. rewrite Forall_forall in Hx. specialize (Hx x Hin). lia.
Qed.

(** Deleting increasing positions from the last to the first succeeds and
    shortens the list by their number. *)
Lemma delete_increasing {A} (r : list nat) (l : list A) :
  StronglySorted lt r → Forall (λ i, i < length l) r →
  ∃ l', for_each (reverse r)
          (λ chosen index, py_del chosen (Z.of_nat index)) l = Some l' ∧
    length l' = length l - length r ∧ sublist l' l.
Proof.
  revert l. induction r as [|m r IH] using rev_ind; intros l Hs Hb.
  { exists l. split_and!; [done|simpl; lia|done]. }
  rewrite reverse_app. simpl.
  apply StronglySorted_app in Hs as (Hlt & Hs & _).
  apply Forall_app in Hb as [Hb Hm]. rewrite Forall_singleton in Hm.
  rewrite py_del_nat by done. simpl.
  assert (Forall (λ i, i < m) r) as Hrm.
  { apply Forall_forall. intros i Hi. apply Hlt; [done|left]. }
  destruct (IH (delete m l)) as (l' & -> & Hlen & Hsub); [done| |].
  { rewrite length_delete by (by apply lookup_lt_is_Some_2).
    eapply Forall_impl; [exact Hrm|]. simpl. lia. }
  exists l'. split; [done|]. split.
  - rewrite Hlen, length_delete by (by apply lookup_lt_is_Some_2).
    rewrite length_app. simpl.
    assert (length r ≤ m); [|lia].
    apply NoDup_below_length; [|done].
    by apply increasing_NoDup.
  - etrans; [exact Hsub|]. apply sublist_delete.
Qed.

Section TrimArchive.

Context {Fit Ind : Type} (fitness : Ind → Fit) (values : Fit → list Q).
Variable individuals : list Ind.
Variable L : nat.

Hypothesis arity :
  ∀ ind, ind ∈ individuals → length (values (fitness ind)) = L.

(** The branch for an archive that is too large returns [n] of its
    positions. *)
Lemma trim_archive_ok (n : Z) (chosen_indices : list nat) :
  NoDup chosen_indices →
  Forall (λ i, i < length individuals) chosen_indices →
  (1 ≤ n < Z.of_nat (length chosen_indices))%Z →
  ∃ chosen',
    trim_archive fitness values individuals L n chosen_indices
    = Some chosen' ∧
    NoDup chosen' ∧ Forall (λ i, i < length individuals) chosen' ∧
    length chosen' = Z.to_nat n.
Proof.
  intros Hnd Hlt Hn. unfold trim_archive.
  set (M := length chosen_indices) in *.
  destruct (distance_matrix_ok fitness values individuals L arity
              chosen_indices Hlt) as (distances & -> & Hsq & Hfin).
  cbn [mbind option_bind].
  destruct (sort_rows_ok M distances Hsq) as (sorted_indices & -> & Hrows).
  cbn [mbind option_bind].
  destruct (truncate_ok M (Z.to_nat (Z.of_nat M - n)) n (Z.of_nat M) []
              distances sorted_indices)
    as (to_remove & -> & Hnd' & Hlt' & Hlen'); [|lia|lia|].
  { constructor.
    - done.
    - done.
    - constructor.
    - constructor.
    - simpl. lia.
    - intros i k Hi. by apply elem_of_nil in Hi.
    - intros i k Hi Hk _ _.
      destruct (m_get_is_Some M distances i k Hsq Hi Hk) as [d Hd].
      destruct (Hfin i k d Hd) as [q ->]. by exists q.
    - intros. apply not_elem_of_nil. }
  cbn [mbind option_bind].
  destruct (delete_increasing (sort_by Nat.ltb to_remove) chosen_indices)
    as (chosen' & -> & Hlen & Hsub).
  - apply increasing_of_sorted.
    + apply sort_by_sorted.
      * intros x y Hxy. apply Nat.ltb_lt in Hxy. apply Nat.ltb_ge. lia.
      * intros x y z Hxy Hyz. apply Nat.ltb_ge in Hxy, Hyz.
        apply Nat.ltb_ge. lia.
    + by rewrite sort_by_perm.
  - rewrite sort_by_perm. done.
  - exists chosen'. split; [done|]. split_and!.
    + exact (sublist_NoDup _ _ Hnd Hsub).
    + rewrite Forall_forall in Hlt. apply Forall_forall. intros i Hi.
      apply Hlt. by apply (sublist_subseteq _ _ Hsub).
    + rewrite Hlen, sort_by_length. fold M. lia.
Qed.

End TrimArchive.

From Stdlib Require Import QArith.
From stdpp Require Import base option list numbers sorting.
Close Scope Q_scope.

(** * SPEA-II: the number of individuals selected *)

Section CountFacts.

Context {Fit Ind Rng : Type} (fitness : Ind → Fit) (values : Fit → list Q).
Context (isDominated : Fit → Fit → bool).
Context (randint : Rng → Z → Z → Z * Rng) (sqrt : nat → Q).
Variable individuals : list Ind.

Local Abbreviation N := (length individuals).

(** The two lists of the first loop have one entry for each individual, and
    [dominating_inds] names positions of the population only. *)
Definition shaped (st : list Z * list (list nat)) : Prop :=
  length st.1 = N ∧ length st.2 = N ∧
  Forall (Forall (λ k, k < N)) st.2.

Lemma strength_pair_ok (i : nat) (st : list Z * list (list nat)) (j : nat) :
  i < N → j < N → shaped st →
  ∃ st', strength_pair fitness isDominated individuals i st j = Some st' ∧
         shaped st'.
Proof.
  destruct st as [strength_fits dominating_inds].
  intros Hi Hj (HlS & HlD & HD). cbn [fst snd] in *. unfold strength_pair.
  destruct (lookup_lt_is_Some_2 individuals i Hi) as [ind_i ->].
  destruct (lookup_lt_is_Some_2 individuals j Hj) as [ind_j ->].
  cbn [mbind option_bind].
  assert (Hput : ∀ a b, a < N → b < N →
    ∃ st', (strength_fits1 ← py_update strength_fits b Z.succ;
            dominating_inds1 ← py_update dominating_inds a (λ l, l ++ [b]);
            Some (strength_fits1, dominating_inds1)) = Some st' ∧
           shaped st').
  { intros a b Ha Hb.
    destruct (py_update_Some strength_fits b Z.succ) as (s & _ & ->); [lia|].
    cbn [mbind option_bind].
    destruct (py_update_Some dominating_inds a (λ l, l ++ [b]))
      as (ks & Hks & ->); [lia|].
    cbn [mbind option_bind]. eexists. split; [done|].
    split_and!; cbn [fst snd]; [by rewrite length_insert..|].
    apply Forall_insert; [done|]. apply Forall_app. split.
    - rewrite Forall_lookup in HD. by apply (HD a).
    - by apply Forall_singleton. }
  destruct (isDominated (fitness ind_i) (fitness ind_j)); [by apply Hput|].
  destruct (isDominated (fitness ind_j) (fitness ind_i)); [by apply Hput|].
  eexists. split; [done|]. by split_and!.
Qed.

Lemma strengths_total :
  ∃ st, strengths fitness isDominated individuals = Some st ∧ shaped st.
Proof.
  unfold strengths.
  destruct (for_each_seq_invariant (λ _, shaped)
    (λ st i,
       for_each (seq (i + 1) (N - (i + 1)))
         (strength_pair fitness isDominated individuals i) st)
    0 N (replicate N 0%Z, replicate N [])) as (st & Hst & Hshaped).
  - intros i st Hi Hshaped.
    destruct (for_each_seq_invariant (λ _, shaped)
      (strength_pair fitness isDominated individuals i)
      (i + 1) (N - (i + 1)) st) as (st' & Hst' & Hshaped'); [|done|eauto].
    intros j st0 Hj Hst0. apply strength_pair_ok; [lia|lia|done].
  - split_and!; cbn [fst snd]; [by rewrite length_replicate..|].
    apply Forall_replicate. constructor.
  - eauto.
Qed.

Lemma raw_fitness_total (st : list Z * list (list nat)) :
  shaped st →
  ∃ fits, raw_fitness N st.1 st.2 = Some fits ∧ length fits = N.
Proof.
  destruct st as [strength_fits dominating_inds].
  intros (HlS & HlD & HD). cbn [fst snd] in *. unfold raw_fitness.
  destruct (for_each_seq_invariant (λ _ (fits : list Z), length fits = N)
    (λ fits i,
       js ← dominating_inds !! i;
       for_each js
         (λ fits j, s ← strength_fits !! j; py_update fits i (λ f, f + s)%Z)
         fits)
    0 N (replicate N 0%Z)) as (fits & Hfits & Hlen).
  - intros i fits Hi Hlen.
    destruct (lookup_lt_is_Some_2 dominating_inds i) as [js Hjs]; [lia|].
    rewrite Hjs. cbn [mbind option_bind].
    apply (for_each_invariant (λ fits : list Z, length fits = N)); [|done].
    intros fits0 j Hj Hlen0.
    rewrite Forall_lookup in HD. specialize (HD i js Hjs).
    rewrite Forall_forall in HD.
    destruct (lookup_lt_is_Some_2 strength_fits j) as [s ->];
      [rewrite HlS; by apply HD|].
    cbn [mbind option_bind].
    destruct (py_update_Some fits0 i (λ f, f + s)%Z) as (f & _ & ->); [lia|].
    eexists. split; [done|]. by rewrite length_insert.
  - by rewrite length_replicate.
  - eauto.
Qed.

Lemma non_dominated_total (fits : list Z) :
  length fits = N →
  ∃ chosen_indices, non_dominated N fits = Some chosen_indices ∧
    NoDup chosen_indices ∧ Forall (λ i, i < N) chosen_indices.
Proof.
  intros Hlen. unfold non_dominated.
  destruct (for_each_seq_invariant
    (λ i (chosen : list nat), NoDup chosen ∧ Forall (λ k, k < i) chosen)
    (λ chosen i,
       f ← fits !! i; Some (if (f <? 1)%Z then chosen ++ [i] else chosen))
    0 N []) as (chosen & Hchosen & Hnd & Hlt).
  - intros i chosen Hi [Hnd Hlt].
    destruct (lookup_lt_is_Some_2 fits i) as [f ->]; [lia|].
    cbn [mbind option_bind]. eexists. split; [done|].
    destruct (f <? 1)%Z.
    + split.
      * apply NoDup_app. split_and!; [done| |apply NoDup_singleton].
        intros x Hx ->%list_elem_of_singleton.
        rewrite Forall_forall in Hlt. specialize (Hlt i Hx). lia.
      * apply Forall_app. split; [|apply Forall_singleton; lia].
        eapply Forall_impl; [exact Hlt|]. simpl. lia.
    + split; [done|]. eapply Forall_impl; [exact Hlt|]. simpl. lia.
  - split; constructor.
  - eauto.
Qed.

(** The first part of [selSPEA2] never fails: the archive it builds names
    different positions of the population. *)
Lemma strength_fitness_total :
  ∃ strength_fits fits chosen_indices,
    strength_fitness fitness isDominated individuals
    = Some (strength_fits, fits, chosen_indices) ∧
    length fits = N ∧ NoDup chosen_indices ∧
    Forall (λ i, i < N) chosen_indices.
Proof.
  unfold strength_fitness.
  destruct strengths_total as ([strength_fits dominating_inds] & -> & Hst).
  cbn [mbind option_bind].
  destruct (raw_fitness_total _ Hst) as (fits & Hfits & Hlen).
  cbn [fst snd] in Hfits. rewrite Hfits. cbn [mbind option_bind].
  destruct (non_dominated_total fits Hlen) as (chosen & -> & Hnd & Hlt).
  cbn [mbind option_bind]. by exists strength_fits, fits, chosen.
Qed.

Variable L : nat.

Hypothesis randint_range :
  ∀ g a b, (a ≤ b)%Z → (a ≤ (randint g a b).1 ≤ b)%Z.
Hypothesis arity :
  ∀ ind, ind ∈ individuals → length (values (fitness ind)) = L.

(** [selSPEA2] returns [n] individuals taken at different positions of the
    population. *)
Lemma selSPEA2_ok (g : Rng) (n : Z) :
  (1 ≤ n ≤ Z.of_nat N)%Z →
  ∃ chosen g',
    selSPEA2 fitness values isDominated randint sqrt g individuals n
    = Some (chosen, g') ∧
    length chosen = Z.to_nat n ∧ chosen ⊆+ individuals.
Proof.
  intros Hn. unfold selSPEA2.
  destruct (lookup_lt_is_Some_2 individuals 0) as [first Hfirst]; [lia|].
  rewrite Hfirst. cbn [mbind option_bind].
  rewrite (arity first) by (by eapply list_elem_of_lookup_2).
  destruct strength_fitness_total
    as (strength_fits & fits & chosen_indices & -> & Hlen & Hnd & Hlt).
  cbn [mbind option_bind].
  assert (∃ chosen_indices1 g1,
    (if (Z.of_nat (length chosen_indices) <? n)%Z
     then fill_archive fitness values randint g individuals L (sqrt N) n
            fits chosen_indices
     else if (n <? Z.of_nat (length chosen_indices))%Z
     then chosen_indices1 ←
            trim_archive fitness values individuals L n chosen_indices;
          Some (chosen_indices1, g)
     else Some (chosen_indices, g)) = Some (chosen_indices1, g1) ∧
    NoDup chosen_indices1 ∧ Forall (λ i, i < N) chosen_indices1 ∧
    length chosen_indices1 = Z.to_nat n)
    as (chosen_indices1 & g1 & -> & Hnd1 & Hlt1 & Hlen1).
  { destruct (Z.ltb_spec (Z.of_nat (length chosen_indices)) n) as [Hfew|Hnotfew].
    - apply fill_archive_ok; [done..|lia].
    - destruct (Z.ltb_spec n (Z.of_nat (length chosen_indices)))
        as [Hmany|Hexact].
      + destruct (trim_archive_ok fitness values individuals L arity n
                    chosen_indices) as (chosen' & -> & ? & ? & ?);
          [done|done|lia|].
        cbn [mbind option_bind]. by exists chosen', g.
      + exists chosen_indices, g. split_and!; [done..|lia]. }
  cbn [mbind option_bind].
  destruct (mapM_lookup_below individuals chosen_indices1 Hlt1)
    as (chosen & -> & Hat).
  cbn [mbind option_bind]. exists chosen, g1. split_and!.
  - done.
  - by rewrite (items_at_length individuals chosen_indices1 chosen Hat).
  - apply (items_at_submseteq individuals chosen_indices1); [done|].
    apply NoDup_submseteq; [done|].
    intros i Hi. rewrite Forall_forall in Hlt1. apply elem_of_seq.
    specialize (Hlt1 i Hi). lia.
Qed.

End CountFacts.

(** The three branches of [selSPEA2] on a population whose archive holds
    five positions: trimmed to three, kept at five, filled up to six. *)
Example selSPEA2_trims :
  (λ r : list Fitness * unit, fvalues <$> r.1) <$>
    selSPEA2 id fvalues Fitness_isDominated lowest_pivot floor_sqrt tt
      crowded_population 3
  = Some [[1; 9]; [5; 5]; [9; 1]]%Q.
Proof. vm_compute. reflexivity. Qed.

Example selSPEA2_keeps :
  (λ r : list Fitness * unit, fvalues <$> r.1) <$>
    selSPEA2 id fvalues Fitness_isDominated lowest_pivot floor_sqrt tt
      crowded_population 5
  = Some [[1; 9]; [2; 8]; [5; 5]; [8; 2]; [9; 1]]%Q.
Proof. vm_compute. reflexivity. Qed.

Example selSPEA2_fills :
  (λ r : list Fitness * unit, fvalues <$> r.1) <$>
    selSPEA2 id fvalues Fitness_isDominated lowest_pivot floor_sqrt tt
      crowded_population 6
  = Some [[1; 9]; [2; 8]; [5; 5]; [8; 2]; [9; 1]; [0; 0]]%Q.
Proof. vm_compute. reflexivity. Qed.

(** C2: on a population whose fitnesses all have [L] objective values, with
    a [random.randint] that answers inside the bounds it is given, and with
    [1 <= n <= len(individuals)], [selSPEA2(individuals, n)] returns a list
    of exactly [n] individuals, whichever of its three branches is taken
    (archive smaller than [n], larger than [n], or of size [n]); each of them
    is an element of the population, and none is returned more often than it
    occurs there. *)
Theorem C2_selSPEA2_count {Fit Ind Rng : Type} (fitness : Ind → Fit)
    (values : Fit → list Q) (isDominated : Fit → Fit → bool)
    (randint : Rng → Z → Z → Z * Rng) (sqrt : nat → Q)
    (individuals : list Ind) (L : nat) (g : Rng) (n : Z) :
  (∀ g a b, (a ≤ b)%Z → (a ≤ (randint g a b).1 ≤ b)%Z) →
  (∀ ind, ind ∈ individuals → length (values (fitness ind)) = L) →
  (1 ≤ n ≤ Z.of_nat (length individuals))%Z →
  ∃ chosen g',
    selSPEA2 fitness values isDominated randint sqrt g individuals n
    = Some (chosen, g') ∧
    Z.of_nat (length chosen) = n ∧
    Forall (λ ind, ind ∈ individuals) chosen ∧
    chosen ⊆+ individuals.
Proof.
  intros Hrange Harity Hn.
  destruct (selSPEA2_ok fitness values isDominated randint sqrt individuals
              L Hrange Harity g n Hn) as (chosen & g' & Hrun & Hlen & Hsub).
  exists chosen, g'. split_and!; [done|lia| |done].
  apply Forall_forall. intros ind Hind. by eapply elem_of_submseteq.
Qed.

Lemma C2_selSPEA2_count_witness :
  ∃ chosen g',
    selSPEA2 id fvalues Fitness_isDominated lowest_pivot floor_sqrt tt
      crowded_population 3
    = Some (chosen, g') ∧
    Z.of_nat (length chosen) = 3%Z ∧
    Forall (λ ind, ind ∈ crowded_population) chosen ∧
    chosen ⊆+ crowded_population.
Proof.
  apply (C2_selSPEA2_count id fvalues Fitness_isDominated lowest_pivot
           floor_sqrt crowded_population 2 tt 3).
  - intros g a b Hab. simpl. lia.
  - intros ind Hind.
    assert (Forall (λ ind, length (fvalues ind) = 2) crowded_population)
      as Hall by (repeat constructor).
    rewrite Forall_forall in Hall. by apply Hall.
  - simpl. lia.
Defined.

From Stdlib Require Import QArith Lqa.
From stdpp Require Import base option list numbers sorting.
Close Scope Q_scope.

(** * Order-statistic selection: what the partition and the selection compute *)

Lemma insert_cons_perm {A} (l : list A) (j : nat) (a b : A) :
  l !! j = Some b → b :: <[j := a]> l ≡ₚ a :: l.
Proof.
  revert j. induction l as [|x l IH]; intros [|j] Hj; simplify_eq/=.
  - apply perm_swap.
  - rewrite perm_swap, (IH j Hj). apply perm_swap.
Qed.

(** Exchanging the values of two slots rearranges the list. *)
Lemma insert_swap_perm {A} (l : list A) (i j : nat) (a b : A) :
  l !! i = Some a → l !! j = Some b → <[j := a]> (<[i := b]> l) ≡ₚ l.
Proof.
  revert i j. induction l as [|x l IH]; intros [|i] [|j] Hi Hj; simplify_eq/=.
  - done.
  - by apply insert_cons_perm.
  - by apply insert_cons_perm.
  - f_equiv. by apply IH.
Qed.

(** [array[begin : end + 1]] *)
Definition segment (array : list Q) (begin end_ : Z) : list Q :=
  take (Z.to_nat (end_ - begin + 1)) (drop (Z.to_nat begin) array).

(** [array'] holds the values of [array], those outside [begin .. end] in
    their slots. *)
Definition rearranged (begin end_ : Z) (array array' : list Q) : Prop :=
  array' ≡ₚ array ∧
  ∀ k : nat, (Z.of_nat k < begin ∨ end_ < Z.of_nat k)%Z →
    array' !! k = array !! k.

Lemma rearranged_refl begin end_ array : rearranged begin end_ array array.
Proof. by split. Qed.

Lemma rearranged_trans begin end_ a1 a2 a3 :
  rearranged begin end_ a1 a2 → rearranged begin end_ a2 a3 →
  rearranged begin end_ a1 a3.
Proof.
  intros [Hp1 Ho1] [Hp2 Ho2]. split; [by rewrite Hp2|].
  intros k Hk. by rewrite Ho2, Ho1.
Qed.

Lemma rearranged_widen (b e b' e' : Z) array array' :
  (b ≤ b')%Z → (e' ≤ e)%Z →
  rearranged b' e' array array' → rearranged b e array array'.
Proof.
  intros Hb He [Hp Ho]. split; [done|]. intros k Hk. apply Ho. lia.
Qed.

Lemma segment_parts (array : list Q) (begin end_ : Z) :
  array = take (Z.to_nat begin) array ++ segment array begin end_
          ++ drop (Z.to_nat begin + Z.to_nat (end_ - begin + 1)) array.
Proof.
  unfold segment. rewrite <- drop_drop.
  by rewrite (take_drop _ (drop _ array)), take_drop.
Qed.

(** The values of the range are rearranged among themselves. *)
Lemma rearranged_segment (begin end_ : Z) array array' :
  (0 ≤ begin)%Z → rearranged begin end_ array array' →
  segment array' begin end_ ≡ₚ segment array begin end_.
Proof.
  intros Hb [Hperm Hout].
  assert (take (Z.to_nat begin) array' = take (Z.to_nat begin) array) as Hpre.
  { apply list_eq. intros k. destruct (decide (k < Z.to_nat begin)).
    - rewrite !lookup_take_lt by done. apply Hout. lia.
    - by rewrite !lookup_take_ge by lia. }
  assert (drop (Z.to_nat begin + Z.to_nat (end_ - begin + 1)) array'
          = drop (Z.to_nat begin + Z.to_nat (end_ - begin + 1)) array)
    as Hpost.
  { apply list_eq. intros k. rewrite !lookup_drop. apply Hout. lia. }
  rewrite (segment_parts array begin end_) in Hperm.
  rewrite (segment_parts array' begin end_) in Hperm at 1.
  rewrite Hpre, Hpost in Hperm.
  apply Permutation_app_inv_l in Hperm.
  by apply Permutation_app_inv_r in Hperm.
Qed.

Lemma segment_split (array : list Q) (b q e : Z) :
  (0 ≤ b ≤ q + 1)%Z → (q ≤ e)%Z →
  segment array b e = segment array b q ++ segment array (q + 1) e.
Proof.
  intros Hb Hq. unfold segment.
  replace (Z.to_nat (e - b + 1))
    with (Z.to_nat (q - b + 1) + Z.to_nat (e - (q + 1) + 1)) by lia.
  rewrite <- take_take_drop, drop_drop. do 3 f_equal. lia.
Qed.

Lemma segment_lookup (array : list Q) (b e : Z) (m : nat) (a : Q) :
  (0 ≤ b)%Z → segment array b e !! m = Some a →
  (b ≤ b + Z.of_nat m ≤ e)%Z ∧ array !! Z.to_nat (b + Z.of_nat m) = Some a.
Proof.
  intros Hb Hm. unfold segment in Hm.
  apply lookup_take_Some in Hm as [Hm Hlt]. rewrite lookup_drop in Hm.
  split; [lia|]. by replace (Z.to_nat (b + Z.of_nat m)) with (Z.to_nat b + m)
    by lia.
Qed.

Lemma segment_Forall (P : Q → Prop) (array : list Q) (b e : Z) :
  (0 ≤ b)%Z → (e < Z.of_nat (length array))%Z →
  (∀ k : Z, (b ≤ k ≤ e)%Z → ∃ a, py_get array k = Some a ∧ P a) →
  Forall P (segment array b e).
Proof.
  intros Hb He Hall. apply Forall_lookup. intros m a Hm.
  apply segment_lookup in Hm as [Hr Hm]; [|done].
  destruct (Hall (b + Z.of_nat m)%Z Hr) as (a' & Ha' & HP).
  rewrite py_get_front in Ha' by lia. congruence.
Qed.

Lemma segment_single (array : list Q) (b : Z) (a : Q) :
  (0 ≤ b)%Z → array !! Z.to_nat b = Some a → segment array b b = [a].
Proof.
  intros Hb Ha. unfold segment. replace (Z.to_nat (b - b + 1)) with 1 by lia.
  by rewrite (drop_S _ a _ Ha).
Qed.

Lemma segment_length (array : list Q) (b e : Z) :
  (0 ≤ b)%Z → (b ≤ e + 1)%Z → (e < Z.of_nat (length array))%Z →
  length (segment array b e) = Z.to_nat (e - b + 1).
Proof.
  intros Hb Hbe He. unfold segment. rewrite length_take, length_drop. lia.
Qed.

Section SelectFacts.

Implicit Types (array : list Q) (x : Q).

(** The slots the scan for [j] passes hold values above [x]. *)
Lemma scan_down_passed array x fuel (j j' : Z) :
  scan_down fuel array x j = Some j' →
  (j' ≤ j)%Z ∧
  ∀ k, (j' < k ≤ j)%Z → ∃ a, py_get array k = Some a ∧ Qltb x a = true.
Proof.
  revert j. induction fuel as [|fuel IH]; intros j H; [done|].
  simpl in H. destruct (py_get array j) as [a|] eqn:Ha; [|done].
  simpl in H. destruct (Qltb x a) eqn:Hlt.
  - apply IH in H as [Hle Hall]. split; [lia|]. intros k Hk.
    destruct (decide (k = j)) as [->|Hne]; [eauto|]. apply Hall. lia.
  - injection H as <-. split; [lia|]. intros; lia.
Qed.

(** The slots the scan for [i] passes hold values below [x]. *)
Lemma scan_up_passed array x fuel (i i' : Z) :
  scan_up fuel array x i = Some i' →
  (i ≤ i')%Z ∧
  ∀ k, (i ≤ k < i')%Z → ∃ a, py_get array k = Some a ∧ Qltb a x = true.
Proof.
  revert i. induction fuel as [|fuel IH]; intros i H; [done|].
  simpl in H. destruct (py_get array i) as [a|] eqn:Ha; [|done].
  simpl in H. destruct (Qltb a x) eqn:Hlt.
  - apply IH in H as [Hle Hall]. split; [lia|]. intros k Hk.
    destruct (decide (k = i)) as [->|Hne]; [eauto|]. apply Hall. lia.
  - injection H as <-. split; [lia|]. intros; lia.
Qed.

(** A swap rearranges the array and leaves the other slots alone. *)
Lemma py_swap_rearranged array (i j : Z) array' :
  py_swap array i j = Some array' →
  (0 ≤ i < Z.of_nat (length array))%Z → (0 ≤ j < Z.of_nat (length array))%Z →
  array' ≡ₚ array ∧
  (∀ k : nat, k ≠ Z.to_nat i → k ≠ Z.to_nat j → array' !! k = array !! k) ∧
  (∀ k : Z, (0 ≤ k < Z.of_nat (length array))%Z → k ≠ i → k ≠ j →
     py_get array' k = py_get array k).
Proof.
  intros H Hi Hj. unfold py_swap in H. rewrite !py_get_front in H by done.
  destruct (array !! Z.to_nat i) as [ai|] eqn:Hai; [|done].
  destruct (array !! Z.to_nat j) as [aj|] eqn:Haj; [|done].
  cbn [mbind option_bind] in H. rewrite py_set_front in H by done.
  cbn [mbind option_bind] in H.
  rewrite py_set_front in H by (by rewrite length_insert).
  injection H as <-.
  assert (Hother : ∀ k : nat, k ≠ Z.to_nat i → k ≠ Z.to_nat j →
            <[Z.to_nat j := ai]> (<[Z.to_nat i := aj]> array) !! k
            = array !! k).
  { intros k Hki Hkj. by rewrite !list_lookup_insert_ne by done. }
  split_and!; [by apply insert_swap_perm|done|].
  intros k Hk Hki Hkj.
  rewrite !py_get_front by (by rewrite ?length_insert).
  apply Hother; lia.
Qed.

(** The slots [begin .. i] hold values that are not above [x]. *)
Definition low_side array x (begin i : Z) : Prop :=
  ∀ k, (begin ≤ k ≤ i)%Z → ∃ a, py_get array k = Some a ∧ Qltb x a = false.

(** The slots [j .. end] hold values that are not below [x]. *)
Definition high_side array x (j end_ : Z) : Prop :=
  ∀ k, (j ≤ k ≤ end_)%Z → ∃ a, py_get array k = Some a ∧ Qltb a x = false.

Lemma partition_loop_sorts array x (begin end_ i j : Z) fuel :
  partition_inv array x begin end_ i j →
  low_side array x begin i → high_side array x j end_ →
  (j - i ≤ Z.of_nat fuel)%Z →
  ∃ array' q, partition_loop fuel array x i j = Some (array', q) ∧
    (begin ≤ q ≤ end_)%Z ∧ (begin < end_ → q < end_)%Z ∧
    rearranged begin end_ array array' ∧
    low_side array' x begin q ∧ high_side array' x (q + 1) end_.
Proof.
  revert array i j.
  induction fuel as [|fuel IH];
    intros array i j (Hb & He & Hinv) Hlow Hhigh Hfuel.
  { destruct Hinv as [(-> & -> & _)|(? & ? & _)]; lia. }
  cbn [partition_loop]. cbv zeta.
  assert (Hdown : ∃ j1, scan_down (S (2 * length array)) array x (j - 1)
                        = Some j1 ∧
            (begin ≤ j1 ≤ j - 1)%Z ∧ (i ≤ j1)%Z ∧
            ∃ a, py_get array j1 = Some a ∧ Qltb x a = false).
  { destruct Hinv as [(-> & -> & Hx)|(Hij & Hje & Hi & Hj)].
    - destruct (scan_down_ok array x (S (2 * length array)) (end_ + 1 - 1)
                  begin) as (j1 & Hj1 & Hr & Hs); [lia|lia| |lia|].
      + exists x. split; [done|apply Qltb_irrefl].
      + exists j1. split_and!; [done|lia|lia|lia|done].
    - destruct (scan_down_ok array x (S (2 * length array)) (j - 1) i)
        as (j1 & Hj1 & Hr & Hs); [lia|lia|done|lia|].
      exists j1. split_and!; [done|lia|lia|lia|done]. }
  destruct Hdown as (j1 & Hscan_j & Hj1 & Hij1 & (aj & Haj & Hajx)).
  destruct (scan_down_passed _ _ _ _ _ Hscan_j) as [_ Hpassed_j].
  rewrite Hscan_j. cbn [mbind option_bind].
  assert (Hup : ∃ i1, scan_up (S (2 * length array)) array x (i + 1)
                      = Some i1 ∧
            (i + 1 ≤ i1)%Z ∧ (i1 ≤ end_)%Z ∧ (i1 ≤ j)%Z ∧
            (i = begin - 1 → i1 = begin)%Z ∧
            ∃ a, py_get array i1 = Some a ∧ Qltb a x = false).
  { destruct Hinv as [(-> & -> & Hx)|(Hij & Hje & Hi & Hj)].
    - destruct (scan_up_ok array x (S (2 * length array)) (begin - 1 + 1)
                  begin) as (i1 & Hi1 & Hr & Hs); [lia|lia| |lia|].
      + exists x. split; [done|apply Qltb_irrefl].
      + exists i1. split_and!; [done|lia|lia|lia|lia|done].
    - destruct (scan_up_ok array x (S (2 * length array)) (i + 1) j)
        as (i1 & Hi1 & Hr & Hs); [lia|lia|done|lia|].
      exists i1. split_and!; [done|lia|lia|lia|lia|done]. }
  destruct Hup
    as (i1 & Hscan_i & Hi1 & Hi1e & Hi1j & Hfirst & (ai & Hai & Haix)).
  destruct (scan_up_passed _ _ _ _ _ Hscan_i) as [_ Hpassed_i].
  rewrite Hscan_i. cbn [mbind option_bind].
  assert (begin ≤ i1)%Z as Hbi1.
  { destruct Hinv as [(-> & -> & _)|(? & ? & _)]; lia. }
  assert (begin - 1 ≤ i)%Z as Hbi.
  { destruct Hinv as [(-> & -> & _)|(? & ? & _)]; lia. }
  assert (j ≤ end_ + 1)%Z as Hje.
  { destruct Hinv as [(-> & -> & _)|(? & ? & _)]; lia. }
  (* what is known of the slots before [i1] and after [j1] *)
  assert (Hbelow : ∀ k, (begin ≤ k < i1)%Z →
            ∃ a, py_get array k = Some a ∧ Qltb x a = false).
  { intros k Hk. destruct (decide (k ≤ i)%Z); [apply Hlow; lia|].
    destruct (Hpassed_i k) as (a & Ha & Hlt); [lia|].
    exists a. split; [done|]. by apply Qltb_asym. }
  assert (Habove : ∀ k, (j1 < k ≤ end_)%Z →
            ∃ a, py_get array k = Some a ∧ Qltb a x = false).
  { intros k Hk. destruct (decide (j ≤ k)%Z); [apply Hhigh; lia|].
    destruct (Hpassed_j k) as (a & Ha & Hlt); [lia|].
    exists a. split; [done|]. by apply Qltb_asym. }
  destruct (Z.ltb_spec i1 j1) as [Hlt|Hge].
  - destruct (py_swap_ok array i1 j1 ai aj Hai Haj) as
      (array1 & Hswap & Hlen1 & Hget1 & Hget2 & _); [lia|lia|].
    destruct (py_swap_rearranged array i1 j1 array1 Hswap)
      as (Hperm1 & Hnat1 & Hother1); [lia|lia|].
    rewrite Hswap. cbn [mbind option_bind].
    rewrite decide_False in Hget1 by lia.
    destruct (IH array1 i1 j1)
      as (array' & q & -> & Hq & Hq' & Hre & Hlow' & Hhigh').
    + split_and!; [lia|lia|rewrite Hlen1; lia|].
      right. split_and!; [lia|lia|lia|by exists aj|by exists ai].
    + intros k Hk. destruct (decide (k = i1)) as [->|Hne]; [by exists aj|].
      rewrite Hother1 by lia. apply Hbelow. lia.
    + intros k Hk. destruct (decide (k = j1)) as [->|Hne]; [by exists ai|].
      rewrite Hother1 by lia. apply Habove. lia.
    + lia.
    + exists array', q. split_and!; [done|lia|lia|lia| |done|done].
      eapply rearranged_trans; [|exact Hre]. split; [done|].
      intros k Hk. apply Hnat1; lia.
  - exists array, j1. split_and!; [done|lia|lia| |apply rearranged_refl| |].
    + destruct Hinv as [(-> & -> & _)|(? & ? & _)]; lia.
    + intros k Hk. destruct (decide (k = j1)) as [->|Hne]; [by exists aj|].
      apply Hbelow. lia.
    + intros k Hk. apply Habove. lia.
Qed.

Lemma partition_sorts array (begin end_ : Z) :
  (0 ≤ begin ≤ end_)%Z → (end_ < Z.of_nat (length array))%Z →
  ∃ array' q x, _partition array begin end_ = Some (array', q) ∧
    py_get array begin = Some x ∧
    (begin ≤ q ≤ end_)%Z ∧ (begin < end_ → q < end_)%Z ∧
    rearranged begin end_ array array' ∧
    low_side array' x begin q ∧ high_side array' x (q + 1) end_.
Proof.
  intros Hb He. unfold _partition.
  destruct (py_get_inside array begin) as [x Hx]; [lia|].
  rewrite Hx. cbn [mbind option_bind].
  destruct (partition_loop_sorts array x begin end_ (begin - 1) (end_ + 1)
              (S (length array)))
    as (array' & q & -> & Hq & Hq' & Hre & Hlow & Hhigh).
  - split_and!; [lia|lia|done|]. by left.
  - intros k Hk. lia.
  - intros k Hk. lia.
  - lia.
  - by exists array', q, x.
Qed.

Context {Rng : Type} (randint : Rng → Z → Z → Z * Rng).

Hypothesis randint_range :
  ∀ g a b, (a ≤ b)%Z → (a ≤ (randint g a b).1 ≤ b)%Z.

Lemma randomizedPartition_sorts g array (begin end_ : Z) :
  (0 ≤ begin ≤ end_)%Z → (end_ < Z.of_nat (length array))%Z →
  ∃ array' q g' x,
    _randomizedPartition randint g array begin end_ = Some (array', q, g') ∧
    (begin ≤ q ≤ end_)%Z ∧ (begin < end_ → q < end_)%Z ∧
    rearranged begin end_ array array' ∧
    low_side array' x begin q ∧ high_side array' x (q + 1) end_.
Proof.
  intros Hb He. unfold _randomizedPartition, py_randint.
  destruct (Z.ltb_spec end_ begin) as [|_]; [lia|].
  pose proof (randint_range g begin end_ (proj2 Hb)) as Hr.
  destruct (randint g begin end_) as [r g1]. simpl in Hr.
  cbn [mbind option_bind].
  destruct (py_get_inside array begin) as [a Ha]; [lia|].
  destruct (py_get_inside array r) as [b Hb']; [lia|].
  destruct (py_swap_ok array begin r a b Ha Hb') as
    (array1 & Hswap & Hlen1 & _ & _ & _); [lia|lia|].
  destruct (py_swap_rearranged array begin r array1 Hswap)
    as (Hperm1 & Hnat1 & _); [lia|lia|].
  rewrite Hswap. cbn [mbind option_bind].
  destruct (partition_sorts array1 begin end_) as
    (array2 & q & x & -> & _ & Hq & Hq' & Hre & Hlow & Hhigh); [lia|lia|].
  cbn [mbind option_bind].
  exists array2, q, g1, x. split_and!; [done|lia|lia|done| |done|done].
  eapply rearranged_trans; [|exact Hre]. split; [done|].
  intros k Hk. apply Hnat1; lia.
Qed.

End SelectFacts.

(** ** The rank of the value selected *)

(** How many values of [l] are smaller than [v]. *)
Definition below (v : Q) (l : list Q) : nat :=
  length (filter (λ a, Qltb a v = true) l).

(** How many values of [l] are not greater than [v]. *)
Definition not_above (v : Q) (l : list Q) : nat :=
  length (filter (λ a, Qltb v a = false) l).

Lemma below_app v l1 l2 : below v (l1 ++ l2) = below v l1 + below v l2.
Proof. unfold below. by rewrite filter_app, length_app. Qed.

Lemma not_above_app v l1 l2 :
  not_above v (l1 ++ l2) = not_above v l1 + not_above v l2.
Proof. unfold not_above. by rewrite filter_app, length_app. Qed.

Lemma below_perm v l1 l2 : l1 ≡ₚ l2 → below v l1 = below v l2.
Proof. intros H. unfold below. by rewrite H. Qed.

Lemma not_above_perm v l1 l2 : l1 ≡ₚ l2 → not_above v l1 = not_above v l2.
Proof. intros H. unfold not_above. by rewrite H. Qed.

Lemma below_le_length v l : below v l ≤ length l.
Proof. apply length_filter. Qed.

Lemma below_none v l : Forall (λ a, Qltb a v = false) l → below v l = 0.
Proof.
  intros H. unfold below. induction H as [|a l Ha H IH]; [done|].
  rewrite filter_cons, decide_False by congruence. done.
Qed.

Lemma not_above_all v l :
  Forall (λ a, Qltb v a = false) l → not_above v l = length l.
Proof.
  intros H. unfold not_above. induction H as [|a l Ha H IH]; [done|].
  rewrite filter_cons, decide_True by done. simpl. by rewrite IH.
Qed.

Section RankFacts.

Context {Rng : Type} (randint : Rng → Z → Z → Z * Rng).

Hypothesis randint_range :
  ∀ g a b, (a ≤ b)%Z → (a ≤ (randint g a b).1 ≤ b)%Z.

Lemma randomizedSelect_fuel_rank fuel g (array : list Q) (begin end_ : Z)
    (i : Q) :
  (0 ≤ begin ≤ end_)%Z → (end_ < Z.of_nat (length array))%Z →
  (end_ - begin < Z.of_nat fuel)%Z →
  (0 <= i)%Q → (i < inject_Z (end_ - begin + 1))%Q →
  ∃ v array' g',
    randomizedSelect_fuel randint fuel g array begin end_ i
    = Some (v, array', g') ∧
    rearranged begin end_ array array' ∧
    v ∈ segment array begin end_ ∧
    (inject_Z (Z.of_nat (below v (segment array begin end_))) <= i)%Q ∧
    (i < inject_Z (Z.of_nat (not_above v (segment array begin end_))))%Q.
Proof.
  revert g array begin end_ i.
  induction fuel as [|fuel IH];
    intros g array begin end_ i Hb He Hfuel Hi0 Hi1; [lia|].
  cbn [randomizedSelect_fuel].
  destruct (Z.eqb_spec begin end_) as [->|Hne].
  { destruct (py_get_inside array end_) as [a Ha]; [lia|].
    rewrite Ha. cbn [mbind option_bind]. exists a, array, g.
    rewrite py_get_front in Ha by lia.
    rewrite (segment_single array end_ a) by (done || lia).
    split_and!; [done|apply rearranged_refl|by left| |].
    - unfold below. rewrite filter_cons, decide_False
        by (rewrite Qltb_irrefl; congruence). done.
    - unfold not_above. rewrite filter_cons, decide_True
        by apply Qltb_irrefl. simpl.
      by replace (end_ - end_ + 1)%Z with 1%Z in Hi1 by lia. }
  destruct (randomizedPartition_sorts randint randint_range g array begin end_)
    as (array1 & q & g1 & x & -> & Hq & Hq' & Hre & Hlow & Hhigh);
    [lia|lia|].
  cbn [mbind option_bind]. cbv zeta.
  pose proof (Permutation_length (proj1 Hre)) as Hlen1.
  pose proof (rearranged_segment begin end_ array array1 (proj1 Hb) Hre)
    as Hseg.
  rewrite (segment_split array1 begin q end_) in Hseg by lia.
  set (left := segment array1 begin q) in *.
  set (right := segment array1 (q + 1) end_) in *.
  assert (Forall (λ a, Qltb x a = false) left) as Hleft.
  { apply segment_Forall; [lia|lia|done]. }
  assert (Forall (λ a, Qltb a x = false) right) as Hright.
  { apply segment_Forall; [lia|lia|done]. }
  assert (length left = Z.to_nat (q - begin + 1)) as Hlenl.
  { apply segment_length; lia. }
  destruct (Qltb i (inject_Z (q - begin + 1))) eqn:Hik.
  - apply Qltb_lt in Hik.
    destruct (IH g1 array1 begin q i)
      as (v & array' & g' & -> & Hre' & Hv & Hlo & Hhi); [lia..|done|done|].
    fold left in Hv, Hlo, Hhi.
    exists v, array', g'. split_and!.
    + done.
    + eapply rearranged_trans; [exact Hre|].
      eapply rearranged_widen; [| |exact Hre']; lia.
    + rewrite <- Hseg. apply elem_of_app. by left.
    + rewrite <- (below_perm v _ _ Hseg), below_app.
      rewrite (below_none v right), Nat.add_0_r; [done|].
      rewrite Forall_forall in Hleft, Hright. apply Forall_forall.
      intros a Ha. apply (Qltb_negtrans a x v); [by apply Hright|].
      by apply Hleft.
    + rewrite <- (not_above_perm v _ _ Hseg), not_above_app.
      rewrite Nat2Z.inj_add, inject_Z_plus.
      assert (0 <= inject_Z (Z.of_nat (not_above v right)))%Q.
      { change 0%Q with (inject_Z 0). rewrite <- Zle_Qle. lia. }
      lra.
  - apply Qltb_ge in Hik.
    assert (inject_Z (end_ - (q + 1) + 1)
            == inject_Z (end_ - begin + 1) - inject_Z (q - begin + 1))%Q
      as Hrest.
    { unfold Qeq, Qminus, Qplus, Qopp, inject_Z. simpl. lia. }
    destruct (IH g1 array1 (q + 1)%Z end_ (i - inject_Z (q - begin + 1))%Q)
      as (v & array' & g' & -> & Hre' & Hv & Hlo & Hhi);
      [lia|lia|lia|lra|rewrite Hrest; lra|].
    fold right in Hv, Hlo, Hhi.
    assert (inject_Z (Z.of_nat (length left)) == inject_Z (q - begin + 1))%Q
      as Hk.
    { rewrite Hlenl. by rewrite Z2Nat.id by lia. }
    exists v, array', g'. split_and!.
    + done.
    + eapply rearranged_trans; [exact Hre|].
      eapply rearranged_widen; [| |exact Hre']; lia.
    + rewrite <- Hseg. apply elem_of_app. by right.
    + rewrite <- (below_perm v _ _ Hseg), below_app.
      rewrite Nat2Z.inj_add, inject_Z_plus.
      assert (inject_Z (Z.of_nat (below v left))
              <= inject_Z (Z.of_nat (length left)))%Q.
      { rewrite <- Zle_Qle. pose proof (below_le_length v left). lia. }
      lra.
    + rewrite <- (not_above_perm v _ _ Hseg), not_above_app.
      rewrite (not_above_all v left).
      * rewrite Nat2Z.inj_add, inject_Z_plus. lra.
      * rewrite Forall_forall in Hleft, Hright. apply Forall_forall.
        intros a Ha. apply (Qltb_negtrans v x a); [by apply Hright|].
        by apply Hleft.
Qed.

End RankFacts.

(** X1: [_partition(array, begin, end)] on a range inside the array returns
    a position [q] of the range, below [end] when the range has two slots or
    more.  It only rearranges the values of the range, and afterwards every
    slot of [begin .. q] holds a value that is not above the pivot
    [array[begin]] and every slot of [q+1 .. end] a value that is not below
    it. *)
Theorem X1_partition_splits_range (array : list Q) (begin end_ : Z) :
  (0 ≤ begin ≤ end_)%Z → (end_ < Z.of_nat (length array))%Z →
  ∃ array' q x,
    _partition array begin end_ = Some (array', q) ∧
    py_get array begin = Some x ∧
    (begin ≤ q ≤ end_)%Z ∧ (begin < end_ → q < end_)%Z ∧
    array' ≡ₚ array ∧
    (∀ k : nat, (Z.of_nat k < begin ∨ end_ < Z.of_nat k)%Z →
       array' !! k = array !! k) ∧
    (∀ k, (begin ≤ k ≤ q)%Z → ∃ a, py_get array' k = Some a ∧ (a <= x)%Q) ∧
    (∀ k, (q < k ≤ end_)%Z → ∃ a, py_get array' k = Some a ∧ (x <= a)%Q).
Proof.
  intros Hb He.
  destruct (partition_sorts array begin end_ Hb He)
    as (array' & q & x & Hrun & Hx & Hq & Hq' & [Hperm Hout] & Hlow & Hhigh).
  exists array', q, x. split_and!; [done|done|lia|lia|done|done|done| |].
  - intros k Hk. destruct (Hlow k Hk) as (a & Ha & Hle).
    exists a. split; [done|]. by apply Qltb_ge.
  - intros k Hk. destruct (Hhigh k) as (a & Ha & Hle); [lia|].
    exists a. split; [done|]. by apply Qltb_ge.
Qed.

Lemma X1_partition_splits_range_witness :
  ∃ array' q x,
    _partition sample_array 0 4 = Some (array', q) ∧
    py_get sample_array 0 = Some x ∧
    (0 ≤ q ≤ 4)%Z ∧ (0 < 4 → q < 4)%Z ∧
    array' ≡ₚ sample_array ∧
    (∀ k : nat, (Z.of_nat k < 0 ∨ 4 < Z.of_nat k)%Z →
       array' !! k = sample_array !! k) ∧
    (∀ k, (0 ≤ k ≤ q)%Z → ∃ a, py_get array' k = Some a ∧ (a <= x)%Q) ∧
    (∀ k, (q < k ≤ 4)%Z → ∃ a, py_get array' k = Some a ∧ (x <= a)%Q).
Proof.
  apply (X1_partition_splits_range sample_array 0 4).
  - lia.
  - simpl. lia.
Defined.

(** X2: with a [random.randint] that answers inside its bounds,
    [_randomizedSelect(array, begin, end, i)] on a range inside the array
    and a rank [0 <= i < end - begin + 1] returns a value [v] of the range
    such that at most [i] values of the range are smaller than [v] and more
    than [i] are not greater: [v] is the value of rank [i], counted from 0, of
    the sorted range.  The array is only rearranged inside the range. *)
Theorem X2_randomizedSelect_rank {Rng : Type}
    (randint : Rng → Z → Z → Z * Rng) (g : Rng) (array : list Q)
    (begin end_ : Z) (i : Q) :
  (∀ g a b, (a ≤ b)%Z → (a ≤ (randint g a b).1 ≤ b)%Z) →
  (0 ≤ begin ≤ end_)%Z → (end_ < Z.of_nat (length array))%Z →
  (0 <= i)%Q → (i < inject_Z (end_ - begin + 1))%Q →
  ∃ v array' g',
    _randomizedSelect randint g array begin end_ i = Some (v, array', g') ∧
    v ∈ segment array begin end_ ∧
    (inject_Z (Z.of_nat (below v (segment array begin end_))) <= i)%Q ∧
    (i < inject_Z (Z.of_nat (not_above v (segment array begin end_))))%Q ∧
    array' ≡ₚ array ∧
    (∀ k : nat, (Z.of_nat k < begin ∨ end_ < Z.of_nat k)%Z →
       array' !! k = array !! k).
Proof.
  intros Hrange Hb He Hi0 Hi1. unfold _randomizedSelect.
  destruct (randomizedSelect_fuel_rank randint Hrange
              (S (Z.to_nat (end_ - begin))) g array begin end_ i)
    as (v & array' & g' & Hrun & [Hperm Hout] & Hv & Hlo & Hhi);
    [done|done|lia|done|done|].
  by exists v, array', g'.
Qed.

Lemma X2_randomizedSelect_rank_witness :
  ∃ v array' g',
    _randomizedSelect lowest_pivot tt sample_array 0 4 3
    = Some (v, array', g') ∧
    v ∈ segment sample_array 0 4 ∧
    (inject_Z (Z.of_nat (below v (segment sample_array 0 4))) <= 3)%Q ∧
    (3 < inject_Z (Z.of_nat (not_above v (segment sample_array 0 4))))%Q ∧
    array' ≡ₚ sample_array ∧
    (∀ k : nat, (Z.of_nat k < 0 ∨ 4 < Z.of_nat k)%Z →
       array' !! k = sample_array !! k).
Proof.
  apply (X2_randomizedSelect_rank lowest_pivot tt sample_array 0 4 3).
  - intros g a b Hab. simpl. lia.
  - lia.
  - simpl. lia.
  - unfold Qle. simpl. lia.
  - unfold Qlt. simpl. lia.
Defined.

From Stdlib Require Import QArith.
From stdpp Require Import base option list numbers sorting.
Close Scope Q_scope.

(** * The hall of fame: what it holds *)

Section HallContents.

Context {Fit Ind : Type} (fitness : Ind → Fit) (fit_lt : Fit → Fit → bool).

Hypothesis fit_lt_irrefl : ∀ x, fit_lt x x = false.
Hypothesis fit_lt_trans :
  ∀ x y z, fit_lt x y = true → fit_lt y z = true → fit_lt x z = true.
Hypothesis fit_lt_negtrans :
  ∀ x y z, fit_lt x y = false → fit_lt y z = false → fit_lt x z = false.

Local Abbreviation hof := (@HallOfFame.t Fit Ind).
Local Abbreviation ge := (ge_fit fitness fit_lt).
Local Abbreviation ordered := (in_order fitness fit_lt).

(** X3: in a hall that is in order, removing the position at which [insert]
    has just put an item gives the hall back, keys and items. *)
Theorem X3_insert_then_remove (h : hof) (item : Ind) :
  ordered h →
  HallOfFame.remove (HallOfFame.insert fitness fit_lt h item)
    (HallOfFame.len h
     - Z.of_nat (bisect_right fit_lt (HallOfFame.keys h) (fitness item)))
  = Some h.
Proof.
  intros Hh.
  pose proof (in_order_keys_sorted fitness fit_lt h Hh) as Hks.
  destruct (bisect_right_spec fit_lt fit_lt_irrefl fit_lt_negtrans
              (HallOfFame.keys h) (fitness item) Hks) as (Hr & _ & _).
  destruct Hh as [_ Hk].
  assert (Hlen : length (HallOfFame.keys h) = length (HallOfFame.items h)).
  { by rewrite Hk, length_fmap, length_reverse. }
  destruct h as [m ks its]. cbn [HallOfFame.keys HallOfFame.items] in *.
  unfold HallOfFame.remove, HallOfFame.insert, HallOfFame.len.
  cbn [HallOfFame.keys HallOfFame.items HallOfFame.maxsize].
  set (r := bisect_right fit_lt ks (fitness item)) in *.
  set (n := length its) in *.
  rewrite !py_insert_front by lia.
  replace (Z.of_nat n - Z.of_nat r)%Z with (Z.of_nat (n - r)) by lia.
  rewrite !Nat2Z.id.
  assert (length (take (n - r) its ++ item :: drop (n - r) its) = S n)
    as Hlen'.
  { rewrite length_app, length_take. cbn [length]. rewrite length_drop.
    fold n. lia. }
  rewrite Hlen'.
  destruct (Z.eqb_spec (Z.of_nat (S n)) 0) as [|_]; [lia|].
  rewrite Z.mod_small by lia.
  replace (Z.of_nat (S n) - (Z.of_nat (n - r) + 1))%Z
    with (Z.of_nat r) by lia.
  assert (∀ {A} (l : list A) (p : nat) (x : A), p ≤ length l →
            py_del (take p l ++ x :: drop p l) (Z.of_nat p) = Some l) as Hdel.
  { intros A l p x Hp. rewrite py_del_nat.
    - rewrite <- (length_take_le l p Hp) at 1.
      by rewrite delete_middle, take_drop.
    - rewrite length_app, length_take. cbn [length]. lia. }
  rewrite !Hdel by lia. done.
Qed.

(** The hall holds the best individuals of [seen]: as many as fit, each of
    them seen, and nothing left out is better than an item of the hall. *)
Definition holds_best (M : Z) (seen : list Ind) (h : hof) : Prop :=
  hall_ok fitness fit_lt M h ∧
  length (HallOfFame.items h) = Z.to_nat M `min` length seen ∧
  HallOfFame.items h ⊆+ seen ∧
  ∀ s, s ∈ seen →
    s ∈ HallOfFame.items h ∨ ∀ x, x ∈ HallOfFame.items h → ge x s.

Lemma ge_refl (a : Ind) : ge a a.
Proof. apply fit_lt_irrefl. Qed.

(** One individual offered to a full hall. *)
Lemma update_one_holds_best (M : Z) (seen : list Ind) (h : hof) (ind : Ind) :
  (1 ≤ M)%Z → holds_best M seen h →
  length (HallOfFame.items h) = Z.to_nat M →
  ∃ h', HallOfFame.update_one fitness fit_lt h ind = Some h' ∧
    holds_best M (seen ++ [ind]) h' ∧
    length (HallOfFame.items h') = Z.to_nat M.
Proof.
  intros HM ((Hm & Ho & Hl) & Hlen & Hsub & Hbest) Hfull.
  set (n := length (HallOfFame.items h)) in *.
  assert (HallOfFame.items h ≠ []) as Hne.
  { intros E. subst n. rewrite E in Hfull. simpl in Hfull. lia. }
  destruct (lookup_lt_is_Some_2 (HallOfFame.items h) (pred n))
    as [worst Hworst]; [lia|].
  assert (HallOfFame.items h = take (pred n) (HallOfFame.items h) ++ [worst])
    as Hsplit.
  { rewrite <- (take_drop (pred n) (HallOfFame.items h)) at 1. f_equal.
    rewrite (drop_S _ worst _ Hworst), drop_ge by lia. done. }
  set (items1 := take (pred n) (HallOfFame.items h)) in *.
  assert (∀ x, x ∈ items1 → ge x worst) as Hlast.
  { destruct Ho as [Hs _]. rewrite Hsplit in Hs.
    apply StronglySorted_app in Hs as (Hcross & _ & _).
    intros x Hx. apply Hcross; [done|left]. }
  unfold HallOfFame.update_one, py_get.
  rewrite py_index_last by done. cbn [mbind option_bind]. fold n.
  rewrite Hworst. cbn [mbind option_bind].
  destruct (fit_lt (fitness worst) (fitness ind)) eqn:Hcmp.
  - pose proof Ho as [_ Hk].
    assert (Hklen : length (HallOfFame.keys h) = length (HallOfFame.items h))
      by (by rewrite Hk, length_fmap, length_reverse).
    pose proof (remove_last h Hne Hklen) as Hrem.
    destruct (remove_last_in_order fitness fit_lt h _ Hne Ho Hrem)
      as (Ho1 & Hl1 & Hm1).
    rewrite Hrem. cbn [mbind option_bind]. fold n. fold items1.
    set (h1 := {| HallOfFame.maxsize := HallOfFame.maxsize h;
                  HallOfFame.keys := drop 1 (HallOfFame.keys h);
                  HallOfFame.items := items1 |}) in *.
    destruct (insert_items_split fitness fit_lt h1 ind) as (p & Hp & Hitems).
    cbn [HallOfFame.items] in Hitems, Hp, Hl1.
    assert (HallOfFame.items (HallOfFame.insert fitness fit_lt h1 ind)
            ≡ₚ ind :: items1) as Hperm.
    { rewrite Hitems, <- Permutation_middle. by rewrite take_drop. }
    assert (length (HallOfFame.items (HallOfFame.insert fitness fit_lt h1 ind))
            = Z.to_nat M) as Hlen'.
    { rewrite Hperm. simpl. unfold items1. rewrite length_take. lia. }
    eexists. split; [done|]. split; [|done]. split_and!.
    + split_and!; [exact Hm| |].
      * apply (insert_in_order fitness fit_lt fit_lt_irrefl fit_lt_trans
                 fit_lt_negtrans). exact Ho1.
      * unfold HallOfFame.len. lia.
    + rewrite Hlen', length_app. simpl. lia.
    + rewrite Hperm, (Permutation_app_comm seen [ind]). simpl.
      apply submseteq_skip. etrans; [|exact Hsub].
      rewrite Hsplit. by apply submseteq_inserts_r.
    + assert (∀ x, x ∈ ind :: items1 → ge x worst) as Hnew.
      { intros x [->|Hx]%elem_of_cons; [|by apply Hlast].
        by apply (fit_lt_asym fit_lt fit_lt_irrefl fit_lt_trans). }
      intros s [Hs| ->%list_elem_of_singleton]%elem_of_app.
      * destruct (Hbest s Hs) as [Hin|Hall].
        -- rewrite Hsplit in Hin.
           apply elem_of_app in Hin as [Hin| ->%list_elem_of_singleton].
           ++ left. rewrite Hperm. by right.
           ++ right. intros x Hx. rewrite Hperm in Hx. by apply Hnew.
        -- right. intros x Hx. rewrite Hperm in Hx.
           apply elem_of_cons in Hx as [->|Hx].
           ++ unfold ge_fit.
              destruct (fit_lt (fitness ind) (fitness s)) eqn:Hlt; [|done].
              assert (ge worst s) as Hws.
              { apply Hall. rewrite Hsplit. apply elem_of_app. right. left. }
              unfold ge_fit in Hws.
              by rewrite (fit_lt_trans _ _ _ Hcmp Hlt) in Hws.
           ++ apply Hall. rewrite Hsplit. apply elem_of_app. by left.
      * left. rewrite Hperm. left.
  - exists h. split; [done|]. split; [|done]. split_and!.
    + done.
    + subst n. rewrite length_app. simpl. lia.
    + by apply submseteq_inserts_r.
    + intros s [Hs| ->%list_elem_of_singleton]%elem_of_app; [by apply Hbest|].
      right. intros x Hx. rewrite Hsplit in Hx.
      apply elem_of_app in Hx as [Hx| ->%list_elem_of_singleton]; [|done].
      by apply (fit_lt_negtrans _ (fitness worst)); [apply Hlast|].
Qed.

Lemma update_holds_best (M : Z) (seen : list Ind) (h : hof)
    (population : list Ind) :
  (1 ≤ M)%Z → holds_best M seen h →
  ∃ h', HallOfFame.update fitness fit_lt h population = Some h' ∧
        holds_best M (seen ++ population) h'.
Proof.
  intros HM Hh. pose proof Hh as ((Hm & Ho & Hl) & Hlen & Hsub & Hbest).
  unfold HallOfFame.update, HallOfFame.has_room. rewrite Hm.
  change (default 0%Z (Some M)) with M.
  destruct (Z.ltb_spec (HallOfFame.len h) M) as [Hlt|Hge].
  - rewrite py_take_front by lia.
    set (best_first := HallOfFame.sorted_best_first fitness fit_lt
                         (HallOfFame.items h ++ population)).
    assert (best_first ≡ₚ HallOfFame.items h ++ population) as HS
      by apply sort_by_perm.
    assert (StronglySorted ge best_first) as Hsorted.
    { apply (sort_by_sorted (λ a b, fit_lt (fitness b) (fitness a))).
      - intros x y. apply (fit_lt_asym fit_lt fit_lt_irrefl fit_lt_trans).
      - intros x y z Hxy Hyz. by apply fit_lt_negtrans with (fitness y). }
    assert (HallOfFame.items h ≡ₚ seen) as Hall.
    { apply submseteq_length_Permutation; [done|].
      unfold HallOfFame.len in Hlt. lia. }
    eexists. split; [done|]. split_and!.
    + split_and!; [done|split|].
      * cbn [HallOfFame.items]. by apply StronglySorted_take.
      * done.
      * unfold HallOfFame.len. cbn [HallOfFame.items].
        rewrite length_take. lia.
    + cbn [HallOfFame.items]. rewrite length_take, HS, <- Hall. done.
    + cbn [HallOfFame.items]. etrans; [apply sublist_submseteq, sublist_take|].
      by rewrite HS, Hall.
    + cbn [HallOfFame.items]. intros s Hs.
      rewrite <- Hall, <- HS in Hs.
      rewrite <- (take_drop (Z.to_nat M) best_first) in Hs, Hsorted.
      apply StronglySorted_app in Hsorted as (Hcross & _ & _).
      apply elem_of_app in Hs as [Hs|Hs]; [by left|].
      right. intros x Hx. by apply Hcross.
  - assert (Hfull : length (HallOfFame.items h) = Z.to_nat M)
      by (unfold HallOfFame.len in *; lia).
    destruct (for_each_prefix_invariant
                (λ pre (h0 : hof), holds_best M (seen ++ pre) h0 ∧
                   length (HallOfFame.items h0) = Z.to_nat M)
                (HallOfFame.update_one fitness fit_lt) population h)
      as (h' & Hrun & Hh' & _).
    + intros pre ind h0 _ [Hh0 Hfull0]. rewrite app_assoc.
      by apply update_one_holds_best.
    + by rewrite app_nil_r.
    + by exists h'.
Qed.

(** X4: starting from an empty hall of capacity [M >= 1], after any sequence
    of [update] calls the hall holds as many items as its capacity and the
    number of individuals offered allow; the items are individuals that were
    offered, none more often than it was offered; and every individual that
    was offered is in the hall or is not better than any item of the hall. *)
Theorem X4_hall_holds_the_best (M : Z) (populations : list (list Ind)) :
  (1 ≤ M)%Z →
  ∃ h, for_each populations (HallOfFame.update fitness fit_lt)
         (HallOfFame.init (Some M)) = Some h ∧
    length (HallOfFame.items h)
    = Z.to_nat M `min` length (concat populations) ∧
    HallOfFame.items h ⊆+ concat populations ∧
    ∀ s, s ∈ concat populations →
      s ∈ HallOfFame.items h ∨
      ∀ x, x ∈ HallOfFame.items h → fit_lt (fitness x) (fitness s) = false.
Proof.
  intros HM.
  destruct (for_each_prefix_invariant
              (λ pre (h : hof), holds_best M (concat pre) h)
              (HallOfFame.update fitness fit_lt) populations
              (HallOfFame.init (Some M))) as (h & Hrun & _ & Hlen & Hsub & Hb).
  - intros pre population h _ Hh. rewrite concat_app. simpl.
    rewrite app_nil_r. by apply update_holds_best.
  - split_and!.
    + split_and!; [done|split; [constructor|done]|].
      unfold HallOfFame.len. simpl. lia.
    + simpl. lia.
    + done.
    + intros s Hs. by apply elem_of_nil in Hs.
  - by exists h.
Qed.

End HallContents.

Lemma X3_insert_then_remove_witness :
  HallOfFame.remove (HallOfFame.insert id Z.ltb sample_hall 4%Z)
    (HallOfFame.len sample_hall
     - Z.of_nat (bisect_right Z.ltb (HallOfFame.keys sample_hall) (id 4%Z)))
  = Some sample_hall.
Proof.
  apply (X3_insert_then_remove id Z.ltb
           Z_ltb_irrefl Z_ltb_negtrans sample_hall 4%Z).
  split; [|reflexivity]. simpl.
  repeat (constructor; [|repeat constructor]).
  constructor.
Defined.

Lemma X4_hall_holds_the_best_witness :
  ∃ h, for_each [[5; 3]; [4; 6]]%Z (HallOfFame.update id Z.ltb)
         (HallOfFame.init (Some 2%Z)) = Some h ∧
    length (HallOfFame.items h)
    = Z.to_nat 2 `min` length (concat [[5; 3]; [4; 6]]%Z) ∧
    HallOfFame.items h ⊆+ concat [[5; 3]; [4; 6]]%Z ∧
    ∀ s, s ∈ concat [[5; 3]; [4; 6]]%Z →
      s ∈ HallOfFame.items h ∨
      ∀ x, x ∈ HallOfFame.items h → (id x <? id s)%Z = false.
Proof.
  apply (X4_hall_holds_the_best id Z.ltb
           Z_ltb_irrefl Z_ltb_trans Z_ltb_negtrans 2 [[5; 3]; [4; 6]]%Z).
  lia.
Defined.

(** X5: a hall of fame without items whose capacity is zero or negative has
    no room, so [update] with a population that is not empty reads
    [self[-1]] in the empty list of items and raises. *)
Theorem X5_update_of_hall_without_capacity {Fit Ind : Type}
    (fitness : Ind → Fit) (fit_lt : Fit → Fit → bool)
    (h : @HallOfFame.t Fit Ind) (M : Z) (population : list Ind) :
  HallOfFame.items h = [] → HallOfFame.maxsize h = Some M → (M ≤ 0)%Z →
  population ≠ [] →
  HallOfFame.update fitness fit_lt h population = None.
Proof.
  intros Hitems Hm HM Hne.
  unfold HallOfFame.update, HallOfFame.has_room, HallOfFame.len.
  rewrite Hm, Hitems. cbn [length].
  destruct (Z.ltb_spec (Z.of_nat 0) M) as [|_]; [lia|].
  destruct population as [|ind population]; [done|].
  cbn [for_each]. unfold HallOfFame.update_one. rewrite Hitems. reflexivity.
Qed.

Lemma X5_update_of_hall_without_capacity_witness :
  HallOfFame.update id Z.ltb (HallOfFame.init (Some 0%Z)) [1%Z] = None.
Proof.
  apply (X5_update_of_hall_without_capacity id Z.ltb
           (HallOfFame.init (Some 0%Z)) 0 [1%Z]).
  - reflexivity.
  - reflexivity.
  - lia.
  - discriminate.
Defined.

From Stdlib Require Import QArith.
From stdpp Require Import base option list numbers sorting.
Close Scope Q_scope.

(** * The Pareto front: what it holds *)

Section ParetoContents.

Context {Fit Ind : Type} (fitness : Ind → Fit) (fit_lt : Fit → Fit → bool).
Context (fit_eqb : Fit → Fit → bool) (isDominated : Fit → Fit → bool).
Context (similar : Ind → Ind → bool).

Local Abbreviation hof := (@HallOfFame.t Fit Ind).

(** Dominance is a strict order, and fitnesses that are equal dominate and
    are dominated alike. *)
Hypothesis dom_irrefl : ∀ a, isDominated a a = false.
Hypothesis dom_trans :
  ∀ a b c, isDominated a b = true → isDominated b c = true →
           isDominated a c = true.
Hypothesis eq_dominated :
  ∀ a b c, fit_eqb a b = true → isDominated b c = true →
           isDominated a c = true.
Hypothesis eq_dominating :
  ∀ a b c, fit_eqb b c = true → isDominated a b = true →
           isDominated a c = true.

(** Why the scan of the hall stopped, and what it marked for removal. *)
Lemma scan_causes (ind : Ind) (l : list Ind) (k : nat) (acc : list nat) d t r :
  ParetoFront.scan fitness fit_eqb isDominated similar ind
    (enumerate_from k l) acc = (d, t, r) →
  (d = true → ∃ y, y ∈ l ∧ isDominated (fitness ind) (fitness y) = true) ∧
  (t = true → ∃ y, y ∈ l ∧
     fit_eqb (fitness ind) (fitness y) && similar ind y = true) ∧
  (∀ i, i ∈ r → i ∈ acc ∨
     ∃ x, l !! (i - k) = Some x ∧ k ≤ i ∧
          isDominated (fitness x) (fitness ind) = true).
Proof.
  revert k acc. induction l as [|x l IH]; intros k acc Hscan; simpl in Hscan.
  { injection Hscan as <- <- <-. split_and!; [done|done|auto]. }
  destruct (isDominated (fitness ind) (fitness x)) eqn:Hix.
  { injection Hscan as <- <- <-. split_and!; [|done|auto].
    intros _. exists x. split; [left|done]. }
  destruct (isDominated (fitness x) (fitness ind)) eqn:Hxi.
  { apply IH in Hscan as (Hd & Ht & Hr). split_and!.
    - intros E. destruct (Hd E) as (y & Hy & Hdom). exists y.
      split; [by right|done].
    - intros E. destruct (Ht E) as (y & Hy & Htwin). exists y.
      split; [by right|done].
    - intros i Hi. destruct (Hr i Hi) as [Hacc|(y & Hy & Hk & Hdom)].
      + apply elem_of_app in Hacc as [Hacc| ->%list_elem_of_singleton];
          [by left|].
        right. exists x. rewrite Nat.sub_diag. by split_and!.
      + right. exists y. split_and!; [|lia|done].
        by replace (i - k) with (S (i - S k)) by lia. }
  destruct (fit_eqb (fitness ind) (fitness x) && similar ind x) eqn:Htw.
  { injection Hscan as <- <- <-. split_and!; [done| |auto].
    intros _. exists x. split; [left|done]. }
  apply IH in Hscan as (Hd & Ht & Hr). split_and!.
  - intros E. destruct (Hd E) as (y & Hy & Hdom). exists y.
    split; [by right|done].
  - intros E. destruct (Ht E) as (y & Hy & Htwin). exists y.
    split; [by right|done].
  - intros i Hi. destruct (Hr i Hi) as [Hacc|(y & Hy & Hk & Hdom)];
      [by left|].
    right. exists y. split_and!; [|lia|done].
    by replace (i - k) with (S (i - S k)) by lia.
Qed.

(** The items left by the removal of increasing positions are exactly those
    at the other positions. *)
Lemma remove_all_exact (r : list nat) (h : hof) :
  StronglySorted lt r →
  Forall (λ i, i < length (HallOfFame.items h)) r →
  length (HallOfFame.keys h) = length (HallOfFame.items h) →
  ∃ h1, for_each (reverse r) (λ h i, HallOfFame.remove h (Z.of_nat i)) h
        = Some h1 ∧
    ∀ x, x ∈ HallOfFame.items h1 ↔
         ∃ q, HallOfFame.items h !! q = Some x ∧ q ∉ r.
Proof.
  revert h. induction r as [|m r IH] using rev_ind; intros h Hs Hb Hlen.
  { exists h. split; [reflexivity|]. intros x.
    rewrite list_elem_of_lookup. split.
    - intros [q Hq]. exists q. split; [done|]. apply not_elem_of_nil.
    - intros (q & Hq & _). by exists q. }
  rewrite reverse_app. simpl.
  apply StronglySorted_app in Hs as (Hlt & Hs & _).
  apply Forall_app in Hb as [Hb Hm]. rewrite Forall_singleton in Hm.
  rewrite (remove_at h m Hm Hlen). simpl.
  destruct (IH {| HallOfFame.maxsize := HallOfFame.maxsize h;
                  HallOfFame.keys :=
                    delete (length (HallOfFame.items h) - S m)
                           (HallOfFame.keys h);
                  HallOfFame.items := delete m (HallOfFame.items h) |})
    as (h1 & Hh1 & Hin); cbn [HallOfFame.items HallOfFame.keys].
  - done.
  - apply Forall_forall. intros i Hi.
    rewrite length_delete by (by apply lookup_lt_is_Some_2).
    assert (i < m) by (apply Hlt; [done|left]). lia.
  - rewrite !length_delete; [lia|apply lookup_lt_is_Some_2; lia..].
  - exists h1. split; [done|]. intros x. rewrite Hin.
    cbn [HallOfFame.items]. split.
    + intros (q & Hq & Hnq). destruct (decide (q < m)) as [Hqm|Hqm].
      * rewrite list_lookup_delete_lt in Hq by done.
        exists q. split; [done|]. rewrite elem_of_app, list_elem_of_singleton.
        intros [?|?]; [done|lia].
      * rewrite list_lookup_delete_ge in Hq by lia.
        exists (S q). split; [done|].
        rewrite elem_of_app, list_elem_of_singleton.
        intros [Hq'|?]; [|lia].
        assert (S q < m) by (apply Hlt; [done|left]). lia.
    + intros (q & Hq & Hnq). rewrite elem_of_app, list_elem_of_singleton in Hnq.
      destruct (decide (q < m)) as [Hqm|Hqm].
      * exists q. rewrite list_lookup_delete_lt by done. tauto.
      * exists (pred q). rewrite list_lookup_delete_ge by lia.
        replace (S (pred q)) with q by lia. split; [done|].
        intros Hq'. assert (pred q < m) by (apply Hlt; [done|left]). lia.
Qed.

(** [x] stands for [s] in the front: it is [s], or it dominates [s], or it
    has the fitness of [s] and is similar to it. *)
Definition covered_by (s x : Ind) : Prop :=
  x = s ∨ isDominated (fitness s) (fitness x) = true ∨
  fit_eqb (fitness s) (fitness x) && similar s x = true.

(** The front holds individuals of [seen] only, and one that stands for each
    of them. *)
Definition covers (seen : list Ind) (h : hof) : Prop :=
  front_ok fitness isDominated h ∧
  (∀ x, x ∈ HallOfFame.items h → x ∈ seen) ∧
  ∀ s, s ∈ seen → ∃ x, x ∈ HallOfFame.items h ∧ covered_by s x.

Lemma front_nondominated (h : hof) (x y : Ind) :
  front_ok fitness isDominated h →
  x ∈ HallOfFame.items h → y ∈ HallOfFame.items h →
  isDominated (fitness x) (fitness y) = false.
Proof.
  intros [_ Hs] [i Hi]%list_elem_of_lookup [j Hj]%list_elem_of_lookup.
  destruct (lt_eq_lt_dec i j) as [[Hlt| ->]|Hlt].
  - by destruct (StronglySorted_lookup _ _ i j x y Hs Hlt Hi Hj).
  - assert (x = y) as -> by congruence. apply dom_irrefl.
  - by destruct (StronglySorted_lookup _ _ j i y x Hs Hlt Hj Hi).
Qed.

Lemma update_one_covers (seen : list Ind) (h : hof) (ind : Ind) :
  covers seen h →
  ∃ h', ParetoFront.update_one fitness fit_lt fit_eqb isDominated similar
          h ind = Some h' ∧
        covers (seen ++ [ind]) h'.
Proof.
  intros (Hfront & Hprov & Hcov).
  destruct (update_one_front_ok fitness fit_lt fit_eqb isDominated similar
              h ind Hfront) as (h' & Hrun & Hfront').
  exists h'. split; [done|]. split; [done|].
  unfold ParetoFront.update_one, enumerate in Hrun.
  destruct (ParetoFront.scan fitness fit_eqb isDominated similar ind
              (enumerate_from 0 (HallOfFame.items h)) [])
    as [[d t] r] eqn:Hscan.
  pose proof (scan_causes _ _ _ _ _ _ _ Hscan) as (Hd & Ht & Hmarked).
  apply scan_spec in Hscan as (r' & Hr & Hs & Hb & _).
  simpl in Hr. subst r'.
  assert (∀ i, i ∈ r → ∃ x, HallOfFame.items h !! i = Some x ∧
            isDominated (fitness x) (fitness ind) = true) as Hdominated.
  { intros i Hi. destruct (Hmarked i Hi) as [Hnil|(x & Hx & _ & Hdom)].
    - by apply elem_of_nil in Hnil.
    - rewrite Nat.sub_0_r in Hx. by exists x. }
  destruct (remove_all_exact r h) as (h1 & Hrem & Hitems1); [done| |apply Hfront|].
  { eapply Forall_impl; [exact Hb|]. simpl. lia. }
  rewrite Hrem in Hrun. cbn [mbind option_bind] in Hrun.
  assert (∀ x, x ∈ HallOfFame.items h1 → x ∈ HallOfFame.items h) as Hfrom.
  { intros x Hx. apply Hitems1 in Hx as (q & Hq & _).
    by eapply list_elem_of_lookup_2. }
  assert (∀ s x, x ∈ HallOfFame.items h → covered_by s x →
            x ∈ HallOfFame.items h1 ∨
            isDominated (fitness s) (fitness ind) = true) as Hmoves.
  { intros s x [q Hq]%list_elem_of_lookup Hsx.
    destruct (decide (q ∈ r)) as [Hin|Hout].
    - right. destruct (Hdominated q Hin) as (x' & Hx' & Hdom).
      assert (x' = x) as -> by congruence.
      destruct Hsx as [->|[Hsx|Hsx]]; [done|by eapply dom_trans|].
      apply andb_true_iff in Hsx as [Heq _]. by eapply eq_dominated.
    - left. apply Hitems1. by exists q. }
  destruct (negb d && negb t) eqn:Hflags.
  - injection Hrun as <-.
    destruct (insert_items_split fitness fit_lt h1 ind) as (p & Hp & Hitems).
    assert (∀ x, x ∈ HallOfFame.items (HallOfFame.insert fitness fit_lt h1 ind)
              ↔ x = ind ∨ x ∈ HallOfFame.items h1) as Hmem.
    { intros x. rewrite Hitems, elem_of_app, elem_of_cons.
      rewrite <- (take_drop p (HallOfFame.items h1)) at 3.
      rewrite elem_of_app. tauto. }
    split.
    + intros x [->|Hx]%Hmem; apply elem_of_app; [right; left|left].
      by apply Hprov, Hfrom.
    + intros s [Hs'| ->%list_elem_of_singleton]%elem_of_app.
      * destruct (Hcov s Hs') as (x & Hx & Hsx).
        destruct (Hmoves s x Hx Hsx) as [Hkept|Hdom].
        -- exists x. split; [apply Hmem; by right|done].
        -- exists ind. split; [apply Hmem; by left|]. right. by left.
      * exists ind. split; [apply Hmem; by left|by left].
  - injection Hrun as <-.
    assert (∃ y, y ∈ HallOfFame.items h ∧ covered_by ind y ∧
              ∀ x, isDominated (fitness x) (fitness ind) = true →
                   isDominated (fitness x) (fitness y) = true)
      as (y & Hy & Hindy & Hup).
    { destruct d.
      - destruct (Hd eq_refl) as (y & Hy & Hdom). exists y.
        split_and!; [done|right; by left|].
        intros x Hx. by eapply dom_trans.
      - destruct t; [|done].
        destruct (Ht eq_refl) as (y & Hy & Htwin). exists y.
        split_and!; [done|right; by right|].
        apply andb_true_iff in Htwin as [Heq _].
        intros x Hx. by eapply eq_dominating. }
    assert (∀ x, x ∈ HallOfFame.items h → x ∈ HallOfFame.items h1) as Hkeep.
    { intros x [q Hq]%list_elem_of_lookup. apply Hitems1. exists q.
      split; [done|]. intros Hin.
      destruct (Hdominated q Hin) as (x' & Hx' & Hdom).
      assert (x' = x) as -> by congruence.
      pose proof (Hup x Hdom) as Hxy.
      rewrite (front_nondominated h x y Hfront) in Hxy;
        [done|by eapply list_elem_of_lookup_2|done]. }
    split.
    + intros x Hx. apply elem_of_app. left. by apply Hprov, Hfrom.
    + intros s [Hs'| ->%list_elem_of_singleton]%elem_of_app.
      * destruct (Hcov s Hs') as (x & Hx & Hsx). exists x. auto.
      * exists y. auto.
Qed.

(** X6: starting from an empty Pareto front, after any sequence of [update]
    calls every item of the front is an individual that was offered, and for
    every individual that was offered the front holds that individual, or one
    that dominates it, or one of equal fitness that is similar to it. *)
Theorem X6_pareto_front_covers (populations : list (list Ind)) :
  ∃ h, for_each populations
         (ParetoFront.update fitness fit_lt fit_eqb isDominated similar)
         ParetoFront.init = Some h ∧
    (∀ x, x ∈ HallOfFame.items h → x ∈ concat populations) ∧
    ∀ s, s ∈ concat populations →
      ∃ x, x ∈ HallOfFame.items h ∧
        (x = s ∨ isDominated (fitness s) (fitness x) = true ∨
         fit_eqb (fitness s) (fitness x) && similar s x = true).
Proof.
  destruct (for_each_prefix_invariant
              (λ pre (h : hof), covers (concat pre) h)
              (ParetoFront.update fitness fit_lt fit_eqb isDominated similar)
              populations ParetoFront.init) as (h & Hrun & _ & Hprov & Hcov).
  - intros pre population h _ Hh. rewrite concat_app. simpl.
    rewrite app_nil_r. unfold ParetoFront.update.
    apply (for_each_prefix_invariant
             (λ done (h0 : hof), covers (concat pre ++ done) h0)).
    + intros done ind h0 _ Hh0. rewrite app_assoc.
      by apply update_one_covers.
    + by rewrite app_nil_r.
  - split_and!.
    + split; [done|constructor].
    + intros x Hx. by apply elem_of_nil in Hx.
    + intros s Hs. by apply elem_of_nil in Hs.
  - by exists h.
Qed.

End ParetoContents.

Lemma X6_pareto_front_covers_witness :
  ∃ h, for_each [[5; 3]; [4; 6]]%Z
         (ParetoFront.update id Z.ltb Z.eqb Z.ltb (λ _ _, true))
         ParetoFront.init = Some h ∧
    (∀ x, x ∈ HallOfFame.items h → x ∈ concat [[5; 3]; [4; 6]]%Z) ∧
    ∀ s, s ∈ concat [[5; 3]; [4; 6]]%Z →
      ∃ x, x ∈ HallOfFame.items h ∧
        (x = s ∨ (id s <? id x)%Z = true ∨
         (id s =? id x)%Z && true = true).
Proof.
  apply (X6_pareto_front_covers id Z.ltb Z.eqb Z.ltb (λ _ _, true)).
  - intros a. apply Z.ltb_irrefl.
  - intros a b c. rewrite !Z.ltb_lt. lia.
  - intros a b c. rewrite Z.eqb_eq, !Z.ltb_lt. lia.
  - intros a b c. rewrite Z.eqb_eq, !Z.ltb_lt. lia.
Defined.

From Stdlib Require Import QArith.
From stdpp Require Import base option list numbers sorting.
Close Scope Q_scope.

(** * Non-dominated sorting: the fronts are layers *)

Section FrontLayers.

Context {Fit Ind : Type} (fitness : Ind → Fit).
Context (isDominated : Fit → Fit → bool).
Variable individuals : list Ind.

Local Abbreviation N := (length individuals).
Local Abbreviation dom := (dominates fitness isDominated individuals).
Local Abbreviation doms := (dominators fitness isDominated individuals).
Local Abbreviation graph := (graph_ok fitness isDominated individuals).
Local Abbreviation ranked := (fronts_ok fitness isDominated individuals).

Hypothesis dom_irrefl :
  ∀ a, a ∈ individuals → isDominated (fitness a) (fitness a) = false.
Hypothesis dom_trans :
  ∀ a b c, a ∈ individuals → b ∈ individuals → c ∈ individuals →
    isDominated (fitness a) (fitness b) = true →
    isDominated (fitness b) (fitness c) = true →
    isDominated (fitness a) (fitness c) = true.

(** The loop that ranks the first front: the counters hold the numbers of
    dominators, the lists the dominated positions, and the front the
    positions that nobody dominates. *)
Lemma first_loop_ok :
  ∃ C G front pareto_sorted,
    for_each (seq 0 N) (rank_first fitness isDominated individuals)
      (replicate N 0%Z, replicate N [], [], 0%Z)
    = Some (C, G, front, pareto_sorted) ∧
    length C = N ∧ graph G ∧
    (∀ d c, C !! d = Some c → c = Z.of_nat (doms d)) ∧
    front = filter (λ d, doms d = 0) (seq 0 N) ∧
    pareto_sorted = Z.of_nat (length front).
Proof.
  destruct (for_each_seq_invariant
              (first_ok fitness isDominated individuals)
              (rank_first fitness isDominated individuals) 0 N
              (replicate N 0%Z, replicate N [], [], 0%Z))
    as ([[[C G] front] pareto_sorted] & Hrun & Hok & Hfront & Hsorted).
  { intros i st Hi. apply rank_first_ok; [done|done|lia]. }
  { split_and!; [|done|done]. split_and!.
    - by rewrite length_replicate.
    - by rewrite length_replicate.
    - intros p ds Hp. apply lookup_replicate in Hp as [-> _].
      split; [constructor|]. intros d. split; [by intros ?%elem_of_nil|].
      intros [Hc _]. unfold compared in Hc. lia.
    - intros d c Hc. apply lookup_replicate in Hc as [-> _].
      assert (occurrences d (replicate N []) = 0) as ->; [|done].
      unfold occurrences. generalize N. intros m.
      induction m as [|m IHm]; [done|]. simpl. by rewrite IHm. }
  simpl in Hfront, Hsorted.
  destruct Hok as (HlC & HlG & HG & HC).
  assert (HG' : graph G).
  { split; [done|]. intros p ds Hp. destruct (HG p ds Hp) as [Hnd Hin].
    split; [done|]. intros d. rewrite Hin. split; [tauto|].
    intros Hd. split; [|done]. pose proof (dominates_lt _ _ _ _ _ Hd).
    assert (p ≠ d).
    { intros ->.
      by rewrite (dominates_irrefl fitness isDominated individuals dom_irrefl)
        in Hd. }
    unfold compared. lia. }
  exists C, G, front, pareto_sorted. split_and!; [done..| |done|done].
  intros d c Hc. rewrite (HC d c Hc). f_equal. unfold dominators.
  pose proof (occurrences_char (λ p, dom p d = true) d G) as Hocc.
  rewrite HlG in Hocc. apply Hocc.
  intros p ds Hp. destruct HG' as [_ HG']. destruct (HG' p ds Hp). split; auto.
Qed.

(** Every dominator of a member of a front is a member of an earlier
    front. *)
Definition layered (fronts : list (list nat)) : Prop :=
  ∀ init F rest, fronts = init ++ F :: rest →
    ∀ d p, d ∈ F → dom p d = true → p ∈ concat init.

Lemma ranked_last G Nmin front0 C fronts pareto_sorted init F :
  graph G → ranked G Nmin front0 C fronts pareto_sorted →
  fronts = init ++ [F] →
  ∀ d p, d ∈ concat fronts → dom p d = true → p ∈ concat init.
Proof.
  intros HG (init' & F' & -> & _ & Hok & _) Heq d p Hd Hp.
  apply app_inj_tail in Heq as [-> ->].
  destruct Hok as (HlC & Hnd & Hlt & _ & Hzero & Hform).
  rewrite app_nil_r in Hnd, Hlt.
  assert (d < N) as HdN.
  { rewrite Forall_forall in Hlt. by apply Hlt. }
  destruct (lookup_lt_is_Some_2 C d) as [c Hc]; [lia|].
  assert (c ≤ 0)%Z as Hc0.
  { apply (Hzero d c Hc). by rewrite app_nil_r. }
  rewrite (Hform d c Hc) in Hc0.
  rewrite (released_char fitness isDominated individuals G _ d HG) in Hc0.
  unfold count in Hc0. simpl in Hc0.
  assert (NoDup (concat init)) as Hndi.
  { rewrite concat_app in Hnd. by apply NoDup_app in Hnd as [? _]. }
  assert (filter (λ q, dom q d = true) (concat init)
          ≡ₚ filter (λ q, dom q d = true) (seq 0 N)) as Hperm.
  { apply submseteq_length_Permutation.
    - apply NoDup_submseteq; [by apply NoDup_filter|].
      intros q [Hq _]%list_elem_of_filter.
      apply list_elem_of_filter. split; [done|].
      apply dominates_lt in Hq. apply elem_of_seq. lia.
    - unfold dominators in Hc0. lia. }
  assert (p ∈ filter (λ q, dom q d = true) (concat init)) as Hin.
  { rewrite Hperm. apply list_elem_of_filter. split; [done|].
    apply dominates_lt in Hp. apply elem_of_seq. lia. }
  by apply list_elem_of_filter in Hin as [_ ?].
Qed.

Lemma layered_snoc (fronts : list (list nat)) (front' : list nat) :
  layered fronts →
  (∀ d p, d ∈ front' → dom p d = true → p ∈ concat fronts) →
  layered (fronts ++ [front']).
Proof.
  intros Hold Hnew init F rest Heq d p Hd Hp.
  destruct rest as [|z rest _] using rev_ind.
  - apply app_inj_tail in Heq as [-> ->]. by apply (Hnew d).
  - change (init ++ F :: rest ++ [z]) with (init ++ (F :: rest) ++ [z]) in Heq.
    rewrite app_assoc in Heq. apply app_inj_tail in Heq as [-> _].
    by apply (Hold init F rest eq_refl d).
Qed.

(** The [while] loop ends and keeps the fronts layered. *)
Lemma rank_next_layered G Nmin front0 fuel C fronts pareto_sorted :
  graph G → (Nmin ≤ Z.of_nat N)%Z →
  ranked G Nmin front0 C fronts pareto_sorted → layered fronts →
  (Z.of_nat N - pareto_sorted < Z.of_nat fuel)%Z →
  ∃ fronts' C' pareto_sorted',
    rank_next fuel G Nmin C fronts pareto_sorted = Some fronts' ∧
    ranked G Nmin front0 C' fronts' pareto_sorted' ∧
    (Nmin ≤ pareto_sorted')%Z ∧ layered fronts'.
Proof.
  intros HG HNmin. revert C fronts pareto_sorted.
  induction fuel as [|fuel IH]; intros C fronts pareto_sorted Hok Hlay Hfuel.
  { destruct Hok as (init & F & -> & _ & Hok & _).
    destruct Hok as (_ & Hnd & Hlt & -> & _).
    pose proof (NoDup_below_length _ _ Hnd Hlt). lia. }
  cbn [rank_next].
  destruct (Z.ltb_spec pareto_sorted Nmin) as [Hlt|Hge].
  2:{ exists fronts, C, pareto_sorted. by split_and!. }
  pose proof Hok as (init & F & Hfronts & _).
  assert (last fronts = Some F) as HF by (by rewrite Hfronts, last_snoc).
  assert (py_get fronts (-1) = Some F) as ->.
  { unfold py_get. rewrite py_index_last by (rewrite Hfronts; by destruct init).
    cbn [mbind option_bind]. by rewrite <- last_lookup. }
  cbn [mbind option_bind].
  destruct (round_ok fitness isDominated individuals dom_irrefl dom_trans
              G Nmin front0 C fronts pareto_sorted F HG HNmin Hok HF Hlt)
    as (C' & front' & pareto_sorted' & -> & Hok' & Hmore).
  cbn [mbind option_bind]. apply (IH C'); [done| |lia].
  apply layered_snoc; [done|]. intros d p Hd Hp.
  apply (ranked_last G Nmin front0 C' (fronts ++ [front']) pareto_sorted'
           fronts front' HG Hok' eq_refl d p); [|done].
  rewrite concat_app. apply elem_of_app. right. simpl. by rewrite app_nil_r.
Qed.

(** The fronts of positions are layered, rank no position twice and hold
    positions of the population only. *)
Lemma sortFastND_indices_layered (n : Z) :
  n ≠ 0%Z →
  ∃ fronts,
    sortFastND_indices fitness isDominated individuals n false = Some fronts ∧
    layered fronts ∧ NoDup (concat fronts) ∧
    Forall (λ x, x < N) (concat fronts).
Proof.
  intros Hn. unfold sortFastND_indices.
  destruct (Z.eqb_spec n 0) as [|_]; [done|].
  destruct first_loop_ok
    as (C & G & front & pareto_sorted & -> & HlC & HG & HC & Hfront & Hsorted).
  cbn [mbind option_bind negb].
  assert (ranked G (Z.min (Z.of_nat N) n) front C [front] pareto_sorted)
    as Hok.
  { exists [], front. split_and!; [done|done| |by left].
    simpl. rewrite app_nil_r. split_and!.
    - done.
    - rewrite app_nil_r, Hfront. apply NoDup_filter, NoDup_seq.
    - rewrite app_nil_r, Hfront. apply Forall_forall.
      intros x [_ Hx%elem_of_seq]%list_elem_of_filter. lia.
    - by rewrite app_nil_r.
    - intros d c Hc. rewrite app_nil_r, Hfront, list_elem_of_filter,
        elem_of_seq.
      rewrite (HC d c Hc). apply lookup_lt_Some in Hc. lia.
    - intros d c Hc. rewrite (HC d c Hc). unfold released, count. simpl.
      lia. }
  destruct (rank_next_layered G (Z.min (Z.of_nat N) n) front (S N) C [front]
              pareto_sorted HG) as (fronts & C' & sorted' & -> & Hok' & _ & Hlay).
  - lia.
  - done.
  - apply (layered_snoc [] front).
    + intros init F rest Heq. by destruct init.
    + intros d p Hd Hp.
      apply (ranked_last G _ front C [front] pareto_sorted [] front HG Hok
               eq_refl d p); [|done].
      simpl. by rewrite app_nil_r.
  - lia.
  - exists fronts. split; [done|]. split; [done|].
    destruct Hok' as (init & F & -> & _ & Hrel & _).
    destruct Hrel as (_ & Hnd & Hlt & _).
    rewrite app_nil_r in Hnd, Hlt. by split.
Qed.

(** The fronts of individuals are layered. *)
Lemma sortFastND_layered (n : Z) :
  n ≠ 0%Z →
  ∃ fronts,
    sortFastND fitness isDominated individuals n false = Some fronts ∧
    ∀ init F rest, fronts = init ++ F :: rest →
      ∀ x, x ∈ F →
        (∀ y, y ∈ individuals →
           isDominated (fitness x) (fitness y) = true → y ∈ concat init) ∧
        (∀ y, y ∈ concat (F :: rest) →
           isDominated (fitness x) (fitness y) = false).
Proof.
  intros Hn.
  destruct (sortFastND_indices_layered n Hn)
    as (idxss & Hrun & Hlay & Hnd & Hlt).
  destruct (mapM_mapM_lookup_below individuals idxss Hlt)
    as (fronts & Hmap & Hat).
  exists fronts. split.
  { unfold sortFastND. rewrite Hrun. cbn [mbind option_bind]. exact Hmap. }
  intros init F rest -> x Hx.
  apply Forall2_app_inv_r in Hat as (iinit & itail & Hinit & Htail & ->).
  apply Forall2_cons_inv_r in Htail as (iF & irest & HF & Hrest & ->).
  apply (items_at_elem_of individuals _ _ x HF) in Hx as (d & Hd & Hxd).
  assert (∀ y p, individuals !! p = Some y →
            isDominated (fitness x) (fitness y) = true →
            p ∈ concat iinit) as Hearlier.
  { intros y p Hp Hdom. apply (Hlay iinit iF irest eq_refl d p Hd).
    unfold dominates. by rewrite Hp, Hxd. }
  split.
  - intros y [p Hp]%list_elem_of_lookup Hdom.
    apply (items_at_elem_of individuals (concat iinit) (concat init) y).
    + by apply items_at_concat.
    + exists p. split; [by apply (Hearlier y)|done].
  - intros y Hy.
    apply (items_at_elem_of individuals (concat (iF :: irest)) _ y) in Hy
      as (q & Hq & Hyq); [|apply items_at_concat; by constructor].
    apply not_true_is_false. intros Hdom.
    pose proof (Hearlier y q Hyq Hdom) as Hq'.
    rewrite concat_app in Hnd. apply NoDup_app in Hnd as (_ & Hdisj & _).
    by apply (Hdisj q).
Qed.

(** X7: when dominance is a strict partial order on the fitnesses of the
    population and [n] is not 0, [sortFastND(individuals, n)] returns fronts
    that are layers: every individual of the population that dominates a
    member of a front is a member of an earlier front, and no member of a
    front is dominated by a member of the same front or of a later one. *)
Theorem X7_sortFastND_layers (n : Z) :
  n ≠ 0%Z →
  ∃ fronts,
    sortFastND fitness isDominated individuals n false = Some fronts ∧
    ∀ init F rest, fronts = init ++ F :: rest →
      ∀ x, x ∈ F →
        (∀ y, y ∈ individuals →
           isDominated (fitness x) (fitness y) = true → y ∈ concat init) ∧
        (∀ y, y ∈ concat (F :: rest) →
           isDominated (fitness x) (fitness y) = false).
Proof. apply sortFastND_layered. Qed.

(** X8: with [first_front_only], and [n] not 0, [sortFastND] returns one
    front: the individuals that no individual of the population dominates,
    in the order of the population. *)
Theorem X8_sortFastND_first_front_only (n : Z) :
  n ≠ 0%Z →
  ∃ F0,
    sortFastND fitness isDominated individuals n true = Some [F0] ∧
    F0 `sublist_of` individuals ∧
    ∀ x, x ∈ F0 ↔
         (x ∈ individuals ∧
          ∀ y, y ∈ individuals → isDominated (fitness x) (fitness y) = false).
Proof.
  intros Hn. unfold sortFastND, sortFastND_indices.
  destruct (Z.eqb_spec n 0) as [|_]; [done|].
  destruct first_loop_ok
    as (C & G & front & pareto_sorted & -> & _ & _ & _ & Hfront & _).
  cbn [mbind option_bind negb].
  destruct (mapM_lookup_below individuals front) as (F0 & HF0 & Hat).
  { rewrite Hfront. apply Forall_forall.
    intros x [_ Hx%elem_of_seq]%list_elem_of_filter. lia. }
  exists F0. split_and!.
  - cbn [mapM]. rewrite HF0. reflexivity.
  - destruct individuals as [|x0 rest] eqn:Hpop.
    { rewrite Hfront in Hat. simpl in Hat.
      apply Forall2_nil_inv_l in Hat as ->. done. }
    rewrite <- Hpop in *.
    rewrite (items_at_fmap individuals x0 front F0 Hat).
    assert (front `sublist_of` seq 0 N) as Hsub
      by (rewrite Hfront; apply sublist_filter).
    apply (fmap_sublist (λ i, default x0 (individuals !! i))) in Hsub.
    by rewrite fmap_lookup_seq in Hsub.
  - intros x. rewrite (items_at_elem_of individuals _ _ x Hat). split.
    + intros (i & Hi & Hx). rewrite Hfront in Hi.
      apply list_elem_of_filter in Hi as [Hi _].
      split; [by eapply list_elem_of_lookup_2|].
      by apply (dominators_zero fitness isDominated individuals i x Hx).
    + intros [[i Hi]%list_elem_of_lookup Hfree]. exists i. split; [|done].
      rewrite Hfront. apply list_elem_of_filter. split.
      * by apply (dominators_zero fitness isDominated individuals i x Hi).
      * apply elem_of_seq. apply lookup_lt_Some in Hi. lia.
Qed.

(** X9: a negative [n] makes [sortFastND] stop after the first front, as
    [first_front_only] does. *)
Theorem X9_sortFastND_negative_n (n : Z) :
  (n < 0)%Z →
  sortFastND fitness isDominated individuals n false
  = sortFastND fitness isDominated individuals n true.
Proof.
  intros Hn. unfold sortFastND, sortFastND_indices.
  destruct (Z.eqb_spec n 0) as [|_]; [lia|].
  destruct first_loop_ok
    as (C & G & front & pareto_sorted & -> & _ & _ & _ & _ & Hsorted).
  cbn [mbind option_bind negb rank_next].
  destruct (Z.ltb_spec pareto_sorted (Z.min (Z.of_nat N) n)) as [|_]; [lia|].
  done.
Qed.

End FrontLayers.

Lemma X7_sortFastND_layers_witness :
  ∃ fronts,
    sortFastND id Fitness_isDominated layered_population 5 false
    = Some fronts ∧
    ∀ init F rest, fronts = init ++ F :: rest →
      ∀ x, x ∈ F →
        (∀ y, y ∈ layered_population →
           Fitness_isDominated (id x) (id y) = true → y ∈ concat init) ∧
        (∀ y, y ∈ concat (F :: rest) →
           Fitness_isDominated (id x) (id y) = false).
Proof.
  apply (X7_sortFastND_layers id Fitness_isDominated layered_population).
  - intros a _. apply Fitness_isDominated_irrefl.
  - intros a b c.
    apply (Fitness_isDominated_trans 2 layered_population).
    apply layered_population_arity.
  - lia.
Defined.

Lemma X8_sortFastND_first_front_only_witness :
  ∃ F0,
    sortFastND id Fitness_isDominated layered_population 5 true = Some [F0] ∧
    F0 `sublist_of` layered_population ∧
    ∀ x, x ∈ F0 ↔
         (x ∈ layered_population ∧
          ∀ y, y ∈ layered_population →
               Fitness_isDominated (id x) (id y) = false).
Proof.
  apply (X8_sortFastND_first_front_only id Fitness_isDominated
           layered_population).
  - intros a _. apply Fitness_isDominated_irrefl.
  - intros a b c.
    apply (Fitness_isDominated_trans 2 layered_population).
    apply layered_population_arity.
  - lia.
Defined.

Lemma X9_sortFastND_negative_n_witness :
  sortFastND id Fitness_isDominated layered_population (-1) false
  = sortFastND id Fitness_isDominated layered_population (-1) true.
Proof.
  apply (X9_sortFastND_negative_n id Fitness_isDominated layered_population).
  - intros a _. apply Fitness_isDominated_irrefl.
  - intros a b c.
    apply (Fitness_isDominated_trans 2 layered_population).
    apply layered_population_arity.
  - lia.
Defined.

From Stdlib Require Import QArith.
From stdpp Require Import base option list numbers sorting.
Close Scope Q_scope.

(** * Crowding distance and NSGA-II: order and elitism *)

Lemma Float_ltb_asym (x y : Float) :
  Float_ltb x y = true → Float_ltb y x = false.
Proof. destruct x, y; simpl; try done. apply Qltb_asym. Qed.

Lemma Float_ltb_negtrans (x y z : Float) :
  Float_ltb x y = false → Float_ltb y z = false → Float_ltb x z = false.
Proof. destruct x, y, z; simpl; try done. apply Qltb_negtrans. Qed.

Section CrowdingOrder.

Context {Fit Ind : Type} (fitness : Ind → Fit) (values : Fit → list Q).
Variable individuals : list Ind.
Variable L : nat.
Hypothesis nonempty : individuals ≠ [].
Hypothesis arity :
  ∀ ind, ind ∈ individuals → length (values (fitness ind)) = L.

(** X10: on a non-empty front whose fitnesses all have [L] objectives, and
    for [n >= 0], [sortCrowdingDist(individuals, n)] yields the individuals
    at [min(n, len(individuals))] different positions of the front, in an
    order in which the crowding distance never increases, and no position
    left out has a greater distance than a position that is yielded. *)
Theorem X10_sortCrowdingDist_order (n : Z) :
  (0 ≤ n)%Z →
  ∃ distances positions chosen,
    crowding_distances fitness values individuals = Some distances ∧
    sortCrowdingDist fitness values individuals n = Some chosen ∧
    Forall2 (λ p x, individuals !! p = Some x) positions chosen ∧
    NoDup positions ∧
    length positions = Z.to_nat n `min` length individuals ∧
    (∀ i j p q dp dq, i < j →
       positions !! i = Some p → positions !! j = Some q →
       distances !! p = Some dp → distances !! q = Some dq →
       Float_ltb dp dq = false) ∧
    (∀ p q dp dq, p ∈ positions → q ∉ positions →
       distances !! p = Some dp → distances !! q = Some dq →
       Float_ltb dp dq = false).
Proof.
  intros Hn. unfold sortCrowdingDist.
  destruct (Nat.eqb_spec (length individuals) 0) as [Hz|_].
  { apply nil_length_inv in Hz. by destruct nonempty. }
  destruct (crowding_distances_spec fitness values individuals L nonempty arity)
    as (distances & Hdist & Hlen & _).
  rewrite Hdist. cbn [mbind option_bind]. rewrite py_take_front by done.
  set (pairs := (λ p : nat * Float, (p.2, p.1)) <$> enumerate distances).
  set (sorted_dist := sort_by (λ a b : Float * nat, Float_ltb b.1 a.1) pairs).
  assert (Hperm : sorted_dist ≡ₚ pairs) by apply sort_by_perm.
  assert (Hpairs : ∀ d i, (d, i) ∈ sorted_dist ↔ distances !! i = Some d).
  { intros d i. rewrite Hperm. unfold pairs.
    rewrite list_elem_of_fmap, <- elem_of_enumerate. split.
    - intros ([k x] & [= -> ->] & Hin). done.
    - intros Hin. by exists (i, d). }
  assert (Hsorted : StronglySorted (λ x y : Float * nat,
                      Float_ltb x.1 y.1 = false) sorted_dist).
  { apply (sort_by_sorted (λ a b : Float * nat, Float_ltb b.1 a.1)).
    - intros x y. apply Float_ltb_asym.
    - intros x y z Hxy Hyz. by apply Float_ltb_negtrans with y.1. }
  assert (Hsnd : sorted_dist.*2 ≡ₚ seq 0 (length individuals)).
  { rewrite Hperm. unfold pairs. rewrite <- list_fmap_compose.
    unfold enumerate. rewrite <- Hlen, <- (enumerate_from_fst distances 0).
    done. }
  assert (Hnd : NoDup sorted_dist.*2).
  { rewrite Hsnd. apply NoDup_seq. }
  set (positions := (take (Z.to_nat n) sorted_dist).*2).
  destruct (mapM_lookup_below individuals positions) as (chosen & Hchosen & Hat).
  { apply Forall_forall. intros i Hi. unfold positions in Hi.
    rewrite fmap_take in Hi. apply elem_of_take in Hi as (k & Hk & _).
    apply list_elem_of_lookup_2 in Hk. rewrite Hsnd in Hk.
    apply elem_of_seq in Hk. lia. }
  assert (Hlook : ∀ i p dp, positions !! i = Some p →
            distances !! p = Some dp →
            take (Z.to_nat n) sorted_dist !! i = Some (dp, p)).
  { intros i p dp Hi Hp. unfold positions in Hi.
    rewrite list_lookup_fmap in Hi.
    destruct (take (Z.to_nat n) sorted_dist !! i) as [[d p']|] eqn:Hx;
      [|done].
    simpl in Hi. injection Hi as ->.
    assert ((d, p) ∈ sorted_dist) as Hin.
    { eapply elem_of_take_1, list_elem_of_lookup_2, Hx. }
    apply Hpairs in Hin. congruence. }
  exists distances, positions, chosen. split_and!.
  - done.
  - rewrite <- Hchosen. unfold positions. by rewrite mapM_fmap.
  - exact Hat.
  - unfold positions. rewrite fmap_take.
    eapply sublist_NoDup; [exact Hnd|apply sublist_take].
  - unfold positions. rewrite length_fmap, length_take.
    assert (length sorted_dist = length individuals) as ->; [|done].
    by rewrite <- (length_fmap snd), Hsnd, length_seq.
  - intros i j p q dp dq Hij Hi Hj Hp Hq.
    pose proof (Hlook i p dp Hi Hp) as Hi'.
    pose proof (Hlook j q dq Hj Hq) as Hj'.
    apply (StronglySorted_lookup _ _ i j (dp, p) (dq, q)
             (StronglySorted_take _ _ (Z.to_nat n) Hsorted) Hij Hi' Hj').
  - intros p q dp dq Hp Hq Hdp Hdq.
    apply list_elem_of_lookup in Hp as [i Hi].
    pose proof (Hlook i p dp Hi Hdp) as Hi'.
    assert ((dq, q) ∈ drop (Z.to_nat n) sorted_dist) as Hout.
    { assert ((dq, q) ∈ sorted_dist) as Hin by (by apply Hpairs).
      rewrite <- (take_drop (Z.to_nat n) sorted_dist) in Hin.
      apply elem_of_app in Hin as [Hin|Hin]; [|done].
      destruct Hq. unfold positions.
      by apply (list_elem_of_fmap_2 snd _ (dq, q)). }
    rewrite <- (take_drop (Z.to_nat n) sorted_dist) in Hsorted.
    apply StronglySorted_app in Hsorted as (Hcross & _ & _).
    apply (Hcross (dp, p) (dq, q)); [|done].
    by eapply list_elem_of_lookup_2.
Qed.

End CrowdingOrder.

Lemma elem_of_concat {A} (x : A) (ls : list (list A)) :
  x ∈ concat ls ↔ ∃ l, x ∈ l ∧ l ∈ ls.
Proof.
  induction ls as [|l ls IH]; simpl.
  - split; [by intros ?%elem_of_nil|]. by intros (l & _ & ?%elem_of_nil).
  - rewrite elem_of_app, IH. split.
    + intros [Hx|(l' & Hx & Hl')]; [exists l; split; [done|left]|].
      exists l'. split; [done|by right].
    + intros (l' & Hx & [->|Hl']%elem_of_cons); [by left|].
      right. by exists l'.
Qed.

(** Whatever [sortCrowdingDist] yields comes from the front. *)
Lemma sortCrowdingDist_elem_of {Fit Ind : Type} (fitness : Ind → Fit)
    (values : Fit → list Q) (front : list Ind) (n : Z) (chosen : list Ind)
    (x : Ind) :
  sortCrowdingDist fitness values front n = Some chosen →
  x ∈ chosen → x ∈ front.
Proof.
  unfold sortCrowdingDist. destruct (length front =? 0).
  { intros [= <-] Hx. by apply elem_of_nil in Hx. }
  destruct (crowding_distances fitness values front) as [distances|];
    [|done].
  cbn [mbind option_bind]. intros Hmap [i Hi]%list_elem_of_lookup.
  apply mapM_Some_1 in Hmap.
  destruct (Forall2_lookup_r _ _ _ _ _ Hmap Hi) as (p & _ & Hp).
  by eapply list_elem_of_lookup_2.
Qed.

Section NSGA2Elitism.

Context {Fit Ind : Type} (fitness : Ind → Fit) (values : Fit → list Q).
Context (isDominated : Fit → Fit → bool).
Variable individuals : list Ind.
Variable L : nat.

Hypothesis dom_irrefl :
  ∀ a, a ∈ individuals → isDominated (fitness a) (fitness a) = false.
Hypothesis dom_trans :
  ∀ a b c, a ∈ individuals → b ∈ individuals → c ∈ individuals →
    isDominated (fitness a) (fitness b) = true →
    isDominated (fitness b) (fitness c) = true →
    isDominated (fitness a) (fitness c) = true.
Hypothesis arity :
  ∀ ind, ind ∈ individuals → length (values (fitness ind)) = L.

(** X11: when [n] is the size of the population or more, [selNSGA2] returns
    the population rearranged. *)
Theorem X11_selNSGA2_whole_population (n : Z) :
  (Z.of_nat (length individuals) ≤ n)%Z →
  ∃ chosen,
    selNSGA2 fitness values isDominated individuals n = Some chosen ∧
    chosen ≡ₚ individuals.
Proof.
  intros Hn.
  destruct (selNSGA2_spec fitness values isDominated individuals L
              dom_irrefl dom_trans arity n) as (chosen & Hrun & Hlen & Hsub);
    [lia|].
  exists chosen. split; [done|].
  apply submseteq_length_Permutation; [done|lia].
Qed.

(** X12: the selection of [selNSGA2] is closed under dominance: with an
    individual it returns every individual of the population that dominates
    it. *)
Theorem X12_selNSGA2_keeps_dominators (n : Z) :
  (0 ≤ n)%Z →
  ∃ chosen,
    selNSGA2 fitness values isDominated individuals n = Some chosen ∧
    ∀ x y, x ∈ chosen → y ∈ individuals →
      isDominated (fitness x) (fitness y) = true → y ∈ chosen.
Proof.
  intros Hn.
  destruct (selNSGA2_spec fitness values isDominated individuals L
              dom_irrefl dom_trans arity n Hn) as (chosen & Hrun & _ & _).
  exists chosen. split; [done|]. intros x y Hx Hy Hdom.
  destruct (decide (n = 0%Z)) as [->|Hnz].
  { unfold selNSGA2, sortFastND, sortFastND_indices in Hrun.
    simpl in Hrun. injection Hrun as <-. by apply elem_of_nil in Hx. }
  destruct (sortFastND_layered fitness isDominated individuals
              dom_irrefl dom_trans n Hnz) as (fronts & Hfronts & Hlayer).
  unfold selNSGA2 in Hrun. rewrite Hfronts in Hrun.
  cbn [mbind option_bind] in Hrun.
  destruct fronts as [|last_front xinit _] using rev_ind.
  { unfold py_take, py_get in Hrun. simpl in Hrun.
    destruct (0 <? n - Z.of_nat 0)%Z; [done|].
    injection Hrun as <-. by apply elem_of_nil in Hx. }
  assert (py_take (xinit ++ [last_front]) (-1) = xinit) as Htake.
  { unfold py_take. simpl. rewrite length_app. simpl.
    replace (Z.to_nat (Z.of_nat (length xinit + 1) + -1)) with (length xinit)
      by lia.
    by rewrite take_app_length. }
  assert (py_get (xinit ++ [last_front]) (-1) = Some last_front) as Hget.
  { unfold py_get. rewrite py_index_last by (by destruct xinit).
    cbn [mbind option_bind]. rewrite length_app. simpl.
    replace (pred (length xinit + 1)) with (length xinit + 0) by lia.
    by rewrite lookup_app_r, Nat.add_0_r, Nat.sub_diag by lia. }
  rewrite Htake, Hget in Hrun. cbn [mbind option_bind] in Hrun.
  assert (∀ x', x' ∈ concat xinit →
            isDominated (fitness x') (fitness y) = true →
            y ∈ concat xinit) as Hclosed.
  { intros x' Hx' Hdom'.
    apply elem_of_concat in Hx' as (F & Hx' & HF).
    apply list_elem_of_split in HF as (i1 & r1 & ->).
    destruct (Hlayer i1 F (r1 ++ [last_front])) with (x := x') as [Hup _].
    - by rewrite <- app_assoc.
    - done.
    - rewrite concat_app. apply elem_of_app. left. by apply Hup. }
  assert (∀ x', x' ∈ last_front →
            isDominated (fitness x') (fitness y) = true →
            y ∈ concat xinit) as Hlast.
  { intros x' Hx' Hdom'.
    destruct (Hlayer xinit last_front [] eq_refl x' Hx') as [Hup _].
    by apply Hup. }
  destruct (0 <? n - Z.of_nat (length (concat xinit)))%Z.
  - destruct (sortCrowdingDist fitness values last_front
                (n - Z.of_nat (length (concat xinit)))) as [crowded|] eqn:Hcrowd;
      [|done].
    cbn [mbind option_bind] in Hrun. injection Hrun as <-.
    apply elem_of_app. left.
    apply elem_of_app in Hx as [Hx|Hx]; [by apply (Hclosed x)|].
    apply (Hlast x); [|done].
    by eapply sortCrowdingDist_elem_of.
  - injection Hrun as <-. by apply (Hclosed x).
Qed.

End NSGA2Elitism.

Lemma X10_sortCrowdingDist_order_witness :
  ∃ distances positions chosen,
    crowding_distances id fvalues sample_population = Some distances ∧
    sortCrowdingDist id fvalues sample_population 2 = Some chosen ∧
    Forall2 (λ p x, sample_population !! p = Some x) positions chosen ∧
    NoDup positions ∧
    length positions = Z.to_nat 2 `min` length sample_population ∧
    (∀ i j p q dp dq, i < j →
       positions !! i = Some p → positions !! j = Some q →
       distances !! p = Some dp → distances !! q = Some dq →
       Float_ltb dp dq = false) ∧
    (∀ p q dp dq, p ∈ positions → q ∉ positions →
       distances !! p = Some dp → distances !! q = Some dq →
       Float_ltb dp dq = false).
Proof.
  apply (X10_sortCrowdingDist_order id fvalues sample_population 2).
  - discriminate.
  - apply Forall_forall. repeat constructor.
  - lia.
Defined.

Lemma X11_selNSGA2_whole_population_witness :
  ∃ chosen,
    selNSGA2 id fvalues Fitness_isDominated layered_population 5
    = Some chosen ∧
    chosen ≡ₚ layered_population.
Proof.
  apply (X11_selNSGA2_whole_population id fvalues Fitness_isDominated
           layered_population 2).
  - intros a _. apply Fitness_isDominated_irrefl.
  - intros a b c.
    apply (Fitness_isDominated_trans 2 layered_population).
    apply layered_population_arity.
  - apply Forall_forall. repeat constructor.
  - simpl. lia.
Defined.

Lemma X12_selNSGA2_keeps_dominators_witness :
  ∃ chosen,
    selNSGA2 id fvalues Fitness_isDominated layered_population 3
    = Some chosen ∧
    ∀ x y, x ∈ chosen → y ∈ layered_population →
      Fitness_isDominated (id x) (id y) = true → y ∈ chosen.
Proof.
  apply (X12_selNSGA2_keeps_dominators id fvalues Fitness_isDominated
           layered_population 2).
  - intros a _. apply Fitness_isDominated_irrefl.
  - intros a b c.
    apply (Fitness_isDominated_trans 2 layered_population).
    apply layered_population_arity.
  - apply Forall_forall. repeat constructor.
  - lia.
Defined.

From Stdlib Require Import QArith.
From stdpp Require Import base option list numbers sorting.
Close Scope Q_scope.

(** * SPEA-II selection: elitism *)

(** Deleting positions one after the other leaves a sub-list. *)
Lemma deletions_sublist {A} (idxs : list nat) (l l' : list A) :
  for_each idxs (λ chosen index, py_del chosen (Z.of_nat index)) l = Some l' →
  l' `sublist_of` l.
Proof.
  revert l. induction idxs as [|i idxs IH]; intros l H; simpl in H.
  { by injection H as <-. }
  inv_bind H as Hdel. unfold py_del in Hdel.
  destruct (py_index l (Z.of_nat i)) as [k|]; [|done].
  injection Hdel as <-. etrans; [by apply IH|]. apply sublist_delete.
Qed.

Section SPEA2Elitism.

Context {Fit Ind Rng : Type} (fitness : Ind → Fit) (values : Fit → list Q).
Context (isDominated : Fit → Fit → bool).
Context (randint : Rng → Z → Z → Z * Rng) (sqrt : nat → Q).
Variable individuals : list Ind.
Variable L : nat.

Local Abbreviation N := (length individuals).

Hypothesis dom_irrefl :
  ∀ a, a ∈ individuals → isDominated (fitness a) (fitness a) = false.
Hypothesis dom_trans :
  ∀ a b c, a ∈ individuals → b ∈ individuals → c ∈ individuals →
    isDominated (fitness a) (fitness b) = true →
    isDominated (fitness b) (fitness c) = true →
    isDominated (fitness a) (fitness c) = true.
Hypothesis randint_range :
  ∀ g a b, (a ≤ b)%Z → (a ≤ (randint g a b).1 ≤ b)%Z.
Hypothesis arity :
  ∀ ind, ind ∈ individuals → length (values (fitness ind)) = L.

(** The positions of the individuals that nobody dominates. *)
Definition nondominated_positions : list nat :=
  filter (λ i, dominators fitness isDominated individuals i = 0) (seq 0 N).

(** The archive trimmed is a part of the archive. *)
Lemma trim_archive_sublist (n : Z) (chosen_indices chosen' : list nat) :
  trim_archive fitness values individuals L n chosen_indices = Some chosen' →
  chosen' `sublist_of` chosen_indices.
Proof.
  unfold trim_archive. intros H.
  inv_bind H as Hd. inv_bind H as Hs. inv_bind H as Ht.
  by eapply deletions_sublist.
Qed.

(** The archive filled up starts with the archive. *)
Lemma fill_archive_prefix (g g' : Rng) (K : Q) (n : Z) (fits : list Z)
    (chosen_indices chosen' : list nat) :
  fill_archive fitness values randint g individuals L K n fits chosen_indices
  = Some (chosen', g') →
  chosen_indices `prefix_of` chosen'.
Proof.
  unfold fill_archive. intros H.
  inv_bind H as Hd. destruct p as [fits1 g1]. inv_bind H as Hn.
  injection H as <- <-. by eexists.
Qed.

(** X13: when dominance is a strict partial order, the fitnesses have one
    arity and [1 <= n <= len(individuals)], [selSPEA2] is elitist.  If at
    least [n] individuals are non-dominated, only non-dominated individuals
    are returned; if at most [n] are, every non-dominated individual is
    returned. *)
Theorem X13_selSPEA2_elitism (g : Rng) (n : Z) :
  (1 ≤ n ≤ Z.of_nat N)%Z →
  ∃ chosen g',
    selSPEA2 fitness values isDominated randint sqrt g individuals n
    = Some (chosen, g') ∧
    ((n ≤ Z.of_nat (length nondominated_positions))%Z →
     ∀ x y, x ∈ chosen → y ∈ individuals →
       isDominated (fitness x) (fitness y) = false) ∧
    ((Z.of_nat (length nondominated_positions) ≤ n)%Z →
     ∀ x, x ∈ individuals →
       (∀ y, y ∈ individuals → isDominated (fitness x) (fitness y) = false) →
       x ∈ chosen).
Proof.
  intros Hn.
  destruct (selSPEA2_ok fitness values isDominated randint sqrt individuals L
              randint_range arity g n Hn) as (chosen & g' & Hrun & _ & _).
  exists chosen, g'. split; [done|].
  unfold selSPEA2 in Hrun.
  destruct (individuals !! 0) as [first|] eqn:Hfirst; [|done].
  cbn [mbind option_bind] in Hrun.
  rewrite (arity first) in Hrun by (by eapply list_elem_of_lookup_2).
  destruct (strength_fitness_spec fitness isDominated individuals
              dom_irrefl dom_trans)
    as (strength_fits & fits & archive & Hsf & _ & _ & _ & Hnd & Harchive).
  rewrite Hsf in Hrun. cbn [mbind option_bind] in Hrun.
  assert (length archive = length nondominated_positions) as Hcount.
  { apply Permutation_length, NoDup_Permutation;
      [done|apply NoDup_filter, NoDup_seq|].
    intros i. rewrite Harchive. unfold nondominated_positions.
    rewrite list_elem_of_filter, elem_of_seq.
    unfold dominators. rewrite filter_none. split.
    - intros [Hi Hfree]. split; [|lia]. intros k _. by rewrite Hfree.
    - intros [Hfree Hi]. split; [lia|]. intros k.
      destruct (dominates fitness isDominated individuals k i) eqn:E; [|done].
      destruct (Hfree k); [|done]. apply elem_of_seq.
      apply dominates_lt in E. lia. }
  rewrite <- Hcount.
  (* non-dominated individuals and positions of the archive *)
  assert (∀ p x, individuals !! p = Some x → p ∈ archive →
            ∀ y, y ∈ individuals →
              isDominated (fitness x) (fitness y) = false) as Hfree_at.
  { intros p x Hp [_ Hfree]%Harchive y [k Hk]%list_elem_of_lookup.
    specialize (Hfree k). unfold dominates in Hfree.
    by rewrite Hk, Hp in Hfree. }
  assert (∀ p x, individuals !! p = Some x →
            (∀ y, y ∈ individuals →
               isDominated (fitness x) (fitness y) = false) →
            p ∈ archive) as Hin_archive.
  { intros p x Hp Hfree. apply Harchive.
    split; [by eapply lookup_lt_Some|]. intros k. unfold dominates.
    rewrite Hp. destruct (individuals !! k) as [y|] eqn:Hk; [|done].
    apply Hfree. by eapply list_elem_of_lookup_2. }
  match type of Hrun with
  | mbind _ ?branch = Some _ => destruct branch as [[archive1 g1]|] eqn:Hbranch
  end; [|done].
  cbn [mbind option_bind] in Hrun.
  inv_bind Hrun as Hmap. injection Hrun as <- <-.
  apply mapM_Some_1 in Hmap.
  destruct (Z.ltb_spec (Z.of_nat (length archive)) n) as [Hfew|Hnotfew].
  - apply fill_archive_prefix in Hbranch as [extra ->].
    split; [lia|]. intros _ x [p Hp]%list_elem_of_lookup Hfree.
    pose proof (Hin_archive p x Hp Hfree) as [i Hi]%list_elem_of_lookup.
    destruct (Forall2_lookup_l _ _ _ i p Hmap) as (x' & Hx' & Hpx').
    { by apply lookup_app_l_Some. }
    assert (x' = x) as -> by congruence.
    by eapply list_elem_of_lookup_2.
  - destruct (Z.ltb_spec n (Z.of_nat (length archive))) as [Hmany|Hexact].
    + inv_bind Hbranch as Htrim. injection Hbranch as <- <-.
      apply trim_archive_sublist in Htrim.
      split; [|lia]. intros _ x y [i Hi]%list_elem_of_lookup Hy.
      destruct (Forall2_lookup_r _ _ _ i x Hmap Hi) as (p & Hp & Hpx).
      apply (Hfree_at p x Hpx); [|done].
      apply (sublist_subseteq _ _ Htrim). by eapply list_elem_of_lookup_2.
    + injection Hbranch as <- <-. split.
      * intros _ x y [i Hi]%list_elem_of_lookup Hy.
        destruct (Forall2_lookup_r _ _ _ i x Hmap Hi) as (p & Hp & Hpx).
        apply (Hfree_at p x Hpx); [|done]. by eapply list_elem_of_lookup_2.
      * intros _ x [p Hp]%list_elem_of_lookup Hfree.
        pose proof (Hin_archive p x Hp Hfree) as [i Hi]%list_elem_of_lookup.
        destruct (Forall2_lookup_l _ _ _ i p Hmap Hi) as (x' & Hx' & Hpx').
        assert (x' = x) as -> by congruence.
        by eapply list_elem_of_lookup_2.
Qed.

End SPEA2Elitism.

Lemma X13_selSPEA2_elitism_witness :
  ∃ chosen g',
    selSPEA2 id fvalues Fitness_isDominated lowest_pivot floor_sqrt tt
      crowded_population 3
    = Some (chosen, g') ∧
    ((3 ≤ Z.of_nat (length (nondominated_positions id Fitness_isDominated
                              crowded_population)))%Z →
     ∀ x y, x ∈ chosen → y ∈ crowded_population →
       Fitness_isDominated (id x) (id y) = false) ∧
    ((Z.of_nat (length (nondominated_positions id Fitness_isDominated
                          crowded_population)) ≤ 3)%Z →
     ∀ x, x ∈ crowded_population →
       (∀ y, y ∈ crowded_population →
             Fitness_isDominated (id x) (id y) = false) →
       x ∈ chosen).
Proof.
  apply (X13_selSPEA2_elitism id fvalues Fitness_isDominated lowest_pivot
           floor_sqrt crowded_population 2).
  - intros a _. apply Fitness_isDominated_irrefl.
  - intros a b c.
    apply (Fitness_isDominated_trans 2 crowded_population).
    repeat constructor.
  - intros g a b Hab. simpl. lia.
  - apply Forall_forall. repeat constructor.
  - simpl. lia.
Defined.

From Stdlib Require Import QArith.
From stdpp Require Import base option list numbers sorting.
Close Scope Q_scope.

(** * The selection operators *)

Section SelectBest.

Context {Fit Ind : Type}.
Variable fitness : Ind → Fit.
Variable fit_lt : Fit → Fit → bool.

Hypothesis fit_lt_asym : ∀ a b, fit_lt a b = true → fit_lt b a = false.
Hypothesis fit_lt_negtrans :
  ∀ a b c, fit_lt a b = false → fit_lt b c = false → fit_lt a c = false.

(** The first [n] of a sorted list, and what is left behind. *)
Lemma take_of_sorted (lt : Ind → Ind → bool) (individuals : list Ind) (n : Z) :
  (∀ x y, lt x y = true → lt y x = false) →
  (∀ x y z, lt x y = false → lt y z = false → lt x z = false) →
  (0 ≤ n)%Z →
  let chosen := py_take (sort_by lt individuals) n in
  ∃ rest,
    chosen ++ rest ≡ₚ individuals ∧
    length chosen = Z.to_nat n `min` length individuals ∧
    StronglySorted (λ x y, lt y x = false) chosen ∧
    ∀ x y, x ∈ chosen → y ∈ rest → lt y x = false.
Proof.
  intros Hasym Hneg Hn chosen. subst chosen.
  rewrite py_take_front by done.
  exists (drop (Z.to_nat n) (sort_by lt individuals)).
  pose proof (sort_by_sorted lt Hasym Hneg individuals) as Hsorted.
  split_and!.
  - by rewrite take_drop, sort_by_perm.
  - by rewrite length_take, sort_by_length.
  - by apply StronglySorted_take.
  - intros x y Hx Hy.
    rewrite <- (take_drop (Z.to_nat n) (sort_by lt individuals)) in Hsorted.
    change (not_after lt x y).
    eapply StronglySorted_app_1_elem_of; [exact Hsorted|done|done].
Qed.

(** X14: for [n >= 0], [selBest] returns [min(n, len(individuals))] of the
    individuals, best first, and no individual left behind has a greater
    fitness than a selected one. *)
Theorem X14_selBest_takes_the_best (individuals : list Ind) (n : Z) :
  (0 ≤ n)%Z →
  ∃ rest,
    selBest fitness fit_lt individuals n ++ rest ≡ₚ individuals ∧
    length (selBest fitness fit_lt individuals n)
      = Z.to_nat n `min` length individuals ∧
    StronglySorted (λ x y, fit_lt (fitness x) (fitness y) = false)
      (selBest fitness fit_lt individuals n) ∧
    ∀ x y, x ∈ selBest fitness fit_lt individuals n → y ∈ rest →
      fit_lt (fitness x) (fitness y) = false.
Proof.
  intros Hn.
  apply (take_of_sorted (λ a b, fit_lt (fitness b) (fitness a)));
    [by auto|by eauto|done].
Qed.

(** X15: for [n >= 0], [selWorst] returns [min(n, len(individuals))] of the
    individuals, worst first, and no individual left behind has a smaller
    fitness than a selected one. *)
Theorem X15_selWorst_takes_the_worst (individuals : list Ind) (n : Z) :
  (0 ≤ n)%Z →
  ∃ rest,
    selWorst fitness fit_lt individuals n ++ rest ≡ₚ individuals ∧
    length (selWorst fitness fit_lt individuals n)
      = Z.to_nat n `min` length individuals ∧
    StronglySorted (λ x y, fit_lt (fitness y) (fitness x) = false)
      (selWorst fitness fit_lt individuals n) ∧
    ∀ x y, x ∈ selWorst fitness fit_lt individuals n → y ∈ rest →
      fit_lt (fitness y) (fitness x) = false.
Proof.
  intros Hn.
  apply (take_of_sorted (λ a b, fit_lt (fitness a) (fitness b)));
    [by auto|by eauto|done].
Qed.

End SelectBest.

Section Draws.

Context {Rng Ind : Type}.
Variable randbelow : Rng → nat → nat * Rng.
Variable individuals : list Ind.

Hypothesis randbelow_range : ∀ g n, 0 < n → (randbelow g n).1 < n.

Lemma py_choice_ok (g : Rng) :
  individuals ≠ [] →
  ∃ x g', py_choice randbelow g individuals = Some (x, g') ∧ x ∈ individuals.
Proof using randbelow_range.
  intros Hne. unfold py_choice.
  destruct individuals as [|x0 l0] eqn:El; [done|]. rewrite <- El.
  pose proof (randbelow_range g (length individuals)) as Hk.
  destruct (randbelow g (length individuals)) as [k g1]. simpl in Hk.
  destruct (lookup_lt_is_Some_2 individuals k) as [x Hx].
  { apply Hk. rewrite El. simpl. lia. }
  rewrite Hx. simpl. exists x, g1. split; [done|].
  by eapply list_elem_of_lookup_2.
Qed.

Lemma py_choice_empty (g : Rng) (l : list Ind) :
  l = [] → py_choice randbelow g l = None.
Proof. by intros ->. Qed.

(** [k] successive choices. *)
Fixpoint draws (k : nat) (g : Rng) : option (list Ind * Rng) :=
  match k with
  | O => Some ([], g)
  | S k' =>
      '(x, g1) ← py_choice randbelow g individuals;
      '(xs, g2) ← draws k' g1;
      Some (x :: xs, g2)
  end.

Lemma selRandom_loop_draws (a k : nat) (acc : list Ind) (g : Rng) :
  for_each (seq a k)
    (λ '(chosen, g) _,
       '(x, g1) ← py_choice randbelow g individuals; Some (chosen ++ [x], g1))
    (acc, g)
  = '(xs, g') ← draws k g; Some (acc ++ xs, g').
Proof.
  revert a acc g. induction k as [|k IH]; intros a acc g; simpl.
  - by rewrite app_nil_r.
  - destruct (py_choice randbelow g individuals) as [[x g1]|]; simpl; [|done].
    rewrite IH. destruct (draws k g1) as [[xs g2]|]; simpl; [|done].
    by rewrite <- app_assoc.
Qed.

Lemma selRandom_draws (g : Rng) (n : Z) :
  selRandom randbelow g individuals n = draws (Z.to_nat n) g.
Proof.
  unfold selRandom. rewrite selRandom_loop_draws.
  by destruct (draws (Z.to_nat n) g) as [[xs g']|].
Qed.

Lemma draws_app (a b : nat) (g : Rng) :
  draws (a + b) g
  = '(xs, g1) ← draws a g; '(ys, g2) ← draws b g1; Some (xs ++ ys, g2).
Proof.
  revert g. induction a as [|a IH]; intros g; simpl.
  - by destruct (draws b g) as [[ys g2]|].
  - destruct (py_choice randbelow g individuals) as [[x g1]|]; simpl; [|done].
    rewrite IH. destruct (draws a g1) as [[xs g2]|]; simpl; [|done].
    by destruct (draws b g2) as [[ys g3]|].
Qed.

Lemma draws_ok (k : nat) (g : Rng) :
  individuals ≠ [] →
  ∃ xs g', draws k g = Some (xs, g') ∧ length xs = k ∧
    Forall (λ x, x ∈ individuals) xs.
Proof using randbelow_range.
  intros Hne. revert g. induction k as [|k IH]; intros g; simpl.
  - by exists [], g.
  - destruct (py_choice_ok g Hne) as (x & g1 & -> & Hx). simpl.
    destruct (IH g1) as (xs & g2 & -> & Hlen & Hxs). simpl.
    exists (x :: xs), g2. split_and!; [done|simpl; lia|by constructor].
Qed.

(** X16: [selRandom] raises on an empty population when [n > 0];
    otherwise it returns [n] individuals (none for [n <= 0]), each of them a
    member of the population. *)
Theorem X16_selRandom_members (g : Rng) (n : Z) :
  (individuals = [] → (0 < n)%Z →
     selRandom randbelow g individuals n = None) ∧
  (individuals ≠ [] ∨ (n ≤ 0)%Z →
     ∃ chosen g', selRandom randbelow g individuals n = Some (chosen, g') ∧
       length chosen = Z.to_nat n ∧
       Forall (λ x, x ∈ individuals) chosen).
Proof using randbelow_range.
  rewrite selRandom_draws. split.
  - intros Hnil Hn. destruct (Z.to_nat n) as [|k] eqn:E; [lia|]. simpl.
    by rewrite py_choice_empty.
  - intros [Hne|Hn].
    + by apply draws_ok.
    + replace (Z.to_nat n) with 0 by lia. simpl. by exists [], g.
Qed.

Section Tournament.

Context {Fit : Type}.
Variable fitness : Ind → Fit.
Variable fit_lt : Fit → Fit → bool.

Hypothesis fit_lt_irrefl : ∀ a, fit_lt a a = false.
Hypothesis fit_lt_trans :
  ∀ a b c, fit_lt a b = true → fit_lt b c = true → fit_lt a c = true.

(** [w] is an aspirant of the round that no aspirant of the round beats. *)
Definition wins (w : Ind) (round : list Ind) : Prop :=
  w ∈ round ∧ ∀ a, a ∈ round → fit_lt (fitness w) (fitness a) = false.

Lemma tournament_loop_ok (a k : nat) (seen : list Ind) (best : Ind) (g : Rng) :
  individuals ≠ [] →
  wins best seen →
  ∃ w g' round,
    for_each (seq a k)
      (λ '(best, g) _,
         '(aspirant, g1) ← py_choice randbelow g individuals;
         Some (if fit_lt (fitness best) (fitness aspirant) then aspirant
               else best, g1))
      (best, g) = Some (w, g') ∧
    draws k g = Some (round, g') ∧
    wins w (seen ++ round).
Proof using randbelow_range fit_lt_irrefl fit_lt_trans.
  intros Hne. revert a seen best g.
  induction k as [|k IH]; intros a seen best g Hbest; simpl.
  - exists best, g, []. by rewrite app_nil_r.
  - destruct (py_choice_ok g Hne) as (x & g1 & -> & Hx). simpl.
    set (best1 := if fit_lt (fitness best) (fitness x) then x else best).
    destruct (IH (S a) (seen ++ [x]) best1 g1) as (w & g2 & round & -> & -> & Hw).
    { destruct Hbest as [Hin Hmax]. subst best1.
      destruct (fit_lt (fitness best) (fitness x)) eqn:E.
      - split; [apply elem_of_app; right; by apply list_elem_of_singleton|].
        intros b Hb.
        apply elem_of_app in Hb as [Hb|Hb].
        + destruct (fit_lt (fitness x) (fitness b)) eqn:E2; [|done].
          rewrite <- (Hmax b Hb). symmetry. by eapply fit_lt_trans.
        + apply list_elem_of_singleton in Hb as ->. apply fit_lt_irrefl.
      - split; [apply elem_of_app; by left|]. intros b Hb.
        apply elem_of_app in Hb as [Hb|Hb]; [by apply Hmax|].
        by apply list_elem_of_singleton in Hb as ->. }
    simpl. exists w, g2, (x :: round). split_and!; [done..|].
    by rewrite <- app_assoc in Hw.
Qed.

Lemma tournament_ok (tournsize : Z) (g : Rng) :
  individuals ≠ [] →
  ∃ w g' round,
    tournament randbelow fitness fit_lt individuals tournsize g = Some (w, g') ∧
    draws (Z.to_nat (Z.max 1 tournsize)) g = Some (round, g') ∧
    wins w round.
Proof using randbelow_range fit_lt_irrefl fit_lt_trans.
  intros Hne. unfold tournament.
  replace (Z.to_nat (Z.max 1 tournsize))
    with (S (Z.to_nat (tournsize - 1))) by lia.
  simpl. destruct (py_choice_ok g Hne) as (x & g1 & -> & Hx). simpl.
  destruct (tournament_loop_ok 0 (Z.to_nat (tournsize - 1)) [x] x g1 Hne)
    as (w & g2 & round & -> & -> & Hw).
  { split; [by apply list_elem_of_singleton|]. intros b Hb.
    apply list_elem_of_singleton in Hb as ->. apply fit_lt_irrefl. }
  simpl. by exists w, g2, (x :: round).
Qed.

Lemma selTournament_loop_ok (tournsize : Z) (a k : nat) (acc : list Ind)
    (g : Rng) :
  individuals ≠ [] →
  ∃ winners g' rounds,
    for_each (seq a k)
      (λ '(chosen, g) _,
         '(winner, g1) ← tournament randbelow fitness fit_lt individuals
                           tournsize g;
         Some (chosen ++ [winner], g1))
      (acc, g) = Some (acc ++ winners, g') ∧
    draws (k * Z.to_nat (Z.max 1 tournsize)) g = Some (concat rounds, g') ∧
    Forall2 wins winners rounds ∧
    Forall (λ round, length round = Z.to_nat (Z.max 1 tournsize)) rounds ∧
    length winners = k.
Proof using randbelow_range fit_lt_irrefl fit_lt_trans.
  intros Hne. revert a acc g.
  induction k as [|k IH]; intros a acc g.
  - exists [], g, []. simpl. rewrite app_nil_r. by split_and!.
  - cbn [seq for_each].
    destruct (tournament_ok tournsize g Hne) as (w & g1 & round & -> & Hd & Hw).
    cbn [mbind option_bind].
    destruct (IH (S a) (acc ++ [w]) g1)
      as (winners & g2 & rounds & -> & Hds & Hall & Hlens & Hlen).
    exists (w :: winners), g2, (round :: rounds).
    split_and!.
    + by rewrite <- app_assoc.
    + replace (S k * Z.to_nat (Z.max 1 tournsize))
        with (Z.to_nat (Z.max 1 tournsize) + k * Z.to_nat (Z.max 1 tournsize))
        by lia.
      rewrite draws_app, Hd. simpl. by rewrite Hds.
    + by constructor.
    + constructor; [|done].
      destruct (draws_ok (Z.to_nat (Z.max 1 tournsize)) g Hne)
        as (xs & g' & Hxs & Hl & _).
      by simplify_eq.
    + simpl. lia.
Qed.

(** X17: on a population that is not empty [selTournament] returns [n]
    winners and leaves the generator as [n * max(1, tournsize)] random
    choices do; cut into rounds of [max(1, tournsize)], these choices are the
    aspirants: each winner is an aspirant of its round, and no aspirant of
    the round has a greater fitness. *)
Theorem X17_selTournament_winners (g : Rng) (n tournsize : Z) :
  individuals ≠ [] →
  ∃ chosen g' rounds,
    selTournament randbelow fitness fit_lt g individuals n tournsize
      = Some (chosen, g') ∧
    selRandom randbelow g individuals (n * Z.max 1 tournsize)
      = Some (concat rounds, g') ∧
    length chosen = Z.to_nat n ∧
    Forall (λ round, Z.of_nat (length round) = Z.max 1 tournsize) rounds ∧
    Forall2
      (λ w round, w ∈ round ∧
         ∀ a, a ∈ round → fit_lt (fitness w) (fitness a) = false)
      chosen rounds.
Proof using randbelow_range fit_lt_irrefl fit_lt_trans.
  intros Hne. unfold selTournament.
  destruct (selTournament_loop_ok tournsize 0 (Z.to_nat n) [] g Hne)
    as (winners & g' & rounds & Hrun & Hd & Hall & Hlens & Hlen).
  exists winners, g', rounds. split_and!; [done| |done| |done].
  - rewrite selRandom_draws, <- Hd. f_equal.
    destruct (Z.le_gt_cases 0 n); [|nia].
    rewrite Z2Nat.inj_mul; lia.
  - eapply Forall_impl; [exact Hlens|]. simpl. intros round Hr. lia.
Qed.

End Tournament.

End Draws.

Lemma Z_ltb_asym (a b : Z) : (a <? b)%Z = true → (b <? a)%Z = false.
Proof. intros H. apply Z.ltb_lt in H. apply Z.ltb_ge. lia. Qed.

Lemma cycling_range (g n : nat) : 0 < n → (cycling g n).1 < n.
Proof. intros Hn. simpl. apply Nat.mod_upper_bound. lia. Qed.

Lemma X14_selBest_takes_the_best_witness :
  ∃ rest,
    selBest id Z.ltb sample_scores 2 ++ rest ≡ₚ sample_scores ∧
    length (selBest id Z.ltb sample_scores 2)
      = Z.to_nat 2 `min` length sample_scores ∧
    StronglySorted (λ x y, (id x <? id y)%Z = false)
      (selBest id Z.ltb sample_scores 2) ∧
    ∀ x y, x ∈ selBest id Z.ltb sample_scores 2 → y ∈ rest →
      (id x <? id y)%Z = false.
Proof.
  apply (X14_selBest_takes_the_best id Z.ltb Z_ltb_asym Z_ltb_negtrans
           sample_scores 2).
  lia.
Defined.

Lemma X15_selWorst_takes_the_worst_witness :
  ∃ rest,
    selWorst id Z.ltb sample_scores 2 ++ rest ≡ₚ sample_scores ∧
    length (selWorst id Z.ltb sample_scores 2)
      = Z.to_nat 2 `min` length sample_scores ∧
    StronglySorted (λ x y, (id y <? id x)%Z = false)
      (selWorst id Z.ltb sample_scores 2) ∧
    ∀ x y, x ∈ selWorst id Z.ltb sample_scores 2 → y ∈ rest →
      (id y <? id x)%Z = false.
Proof.
  apply (X15_selWorst_takes_the_worst id Z.ltb Z_ltb_asym Z_ltb_negtrans
           sample_scores 2).
  lia.
Defined.

Lemma X16_selRandom_members_witness :
  (sample_scores = [] → (0 < 3)%Z →
     selRandom cycling 1 sample_scores 3 = None) ∧
  (sample_scores ≠ [] ∨ (3 ≤ 0)%Z →
     ∃ chosen g', selRandom cycling 1 sample_scores 3 = Some (chosen, g') ∧
       length chosen = Z.to_nat 3 ∧
       Forall (λ x, x ∈ sample_scores) chosen).
Proof.
  apply (X16_selRandom_members cycling sample_scores cycling_range 1 3).
Defined.

Lemma X17_selTournament_winners_witness :
  ∃ chosen g' rounds,
    selTournament cycling id Z.ltb 1 sample_scores 2 3 = Some (chosen, g') ∧
    selRandom cycling 1 sample_scores (2 * Z.max 1 3)
      = Some (concat rounds, g') ∧
    length chosen = Z.to_nat 2 ∧
    Forall (λ round, Z.of_nat (length round) = Z.max 1 3) rounds ∧
    Forall2
      (λ w round, w ∈ round ∧ ∀ a, a ∈ round → (id w <? id a)%Z = false)
      chosen rounds.
Proof.
  apply (X17_selTournament_winners cycling sample_scores cycling_range
           id Z.ltb Z.ltb_irrefl Z_ltb_trans 1 2 3).
  done.
Defined.

From Stdlib Require Import QArith.
From stdpp Require Import base option list numbers sorting.
Close Scope Q_scope.

(** * The crossovers on lists of genes *)

Section Slices.

Context {A : Type}.
Implicit Types l t : list A.

Lemma py_drop_front l n :
  (0 ≤ n)%Z → py_drop l n = drop (Z.to_nat n) l.
Proof.
  intros H. unfold py_drop.
  destruct (n <? 0)%Z eqn:E; [apply Z.ltb_lt in E; lia|done].
Qed.

Lemma py_slice_front l a b :
  (0 ≤ a)%Z → (0 ≤ b)%Z →
  py_slice l a b = drop (Z.to_nat a) (take (Z.to_nat b) l).
Proof.
  intros Ha Hb. unfold py_slice.
  destruct (a <? 0)%Z eqn:E; [apply Z.ltb_lt in E; lia|].
  by rewrite py_drop_front, py_take_front.
Qed.

Lemma py_slice_set_inside l a b t :
  (0 ≤ a ≤ b)%Z → (b ≤ Z.of_nat (length l))%Z →
  py_slice_set l a b t = take (Z.to_nat a) l ++ t ++ drop (Z.to_nat b) l.
Proof.
  intros Ha Hb. unfold py_slice_set.
  destruct (a <? 0)%Z eqn:E1; [apply Z.ltb_lt in E1; lia|].
  destruct (b <? 0)%Z eqn:E2; [apply Z.ltb_lt in E2; lia|].
  by rewrite !Z.min_l, Z.max_r by lia.
Qed.

(** Exchanging the tails of two lists keeps every gene. *)
Lemma exchanged_tails_perm l1 l2 c1 c2 :
  (take c1 l1 ++ drop c2 l2) ++ (take c2 l2 ++ drop c1 l1) ≡ₚ l1 ++ l2.
Proof.
  rewrite <- (take_drop c1 l1) at 3. rewrite <- (take_drop c2 l2) at 3.
  rewrite <- !app_assoc. f_equiv.
  rewrite (Permutation_app_comm (drop c2 l2) (take c2 l2 ++ drop c1 l1)).
  rewrite (Permutation_app_comm (take c2 l2) (drop c1 l1)).
  by rewrite <- app_assoc.
Qed.

End Slices.

Section CrossoverFacts.

Context {Rng A : Type}.
Variable randint : Rng → Z → Z → Z * Rng.

Hypothesis randint_range :
  ∀ g a b, (a ≤ b)%Z → (a ≤ (randint g a b).1 ≤ b)%Z.

Lemma py_randint_ok (g : Rng) (a b : Z) :
  (a ≤ b)%Z →
  ∃ r g', py_randint randint g a b = Some (r, g') ∧ (a ≤ r ≤ b)%Z.
Proof using randint_range.
  intros Hab. unfold py_randint.
  destruct (b <? a)%Z eqn:E; [apply Z.ltb_lt in E; lia|].
  pose proof (randint_range g a b Hab) as Hr.
  destruct (randint g a b) as [r g']. by exists r, g'.
Qed.

(** X18: when both individuals have at least two genes, [cxOnePoint] cuts
    both at one point [c] with [1 <= c < min(len(ind1), len(ind2))] and
    exchanges the tails, so the two children have exchanged the lengths of
    the parents and together hold the genes of the parents. *)
Theorem X18_cxOnePoint_exchanges_tails (g : Rng) (ind1 ind2 : list A) :
  2 ≤ length ind1 `min` length ind2 →
  ∃ child1 child2 g' c,
    cxOnePoint randint g ind1 ind2 = Some (child1, child2, g') ∧
    1 ≤ c < length ind1 `min` length ind2 ∧
    child1 = take c ind1 ++ drop c ind2 ∧
    child2 = take c ind2 ++ drop c ind1 ∧
    length child1 = length ind2 ∧
    length child2 = length ind1 ∧
    child1 ++ child2 ≡ₚ ind1 ++ ind2.
Proof using randint_range.
  intros Hsize. unfold cxOnePoint.
  destruct (py_randint_ok g 1
              (Z.min (Z.of_nat (length ind1)) (Z.of_nat (length ind2)) - 1))
    as (r & g' & -> & Hr); [lia|].
  cbn [mbind option_bind].
  rewrite !py_drop_front, !py_slice_set_inside by lia.
  rewrite !Nat2Z.id, !drop_all, !app_nil_r.
  exists (take (Z.to_nat r) ind1 ++ drop (Z.to_nat r) ind2),
         (take (Z.to_nat r) ind2 ++ drop (Z.to_nat r) ind1), g', (Z.to_nat r).
  split_and!; try done; try lia.
  - rewrite length_app, length_take, length_drop. lia.
  - rewrite length_app, length_take, length_drop. lia.
  - apply exchanged_tails_perm.
Qed.

(** X19: when both individuals have at least two genes, [cxTwoPoints]
    exchanges the genes at the loci [c1 .. c2 - 1] for two points with
    [1 <= c1 < c2 <= min(len(ind1), len(ind2))]: the first gene is never
    exchanged, at least one gene is, and both lengths are kept. *)
Theorem X19_cxTwoPoints_exchanges_a_segment (g : Rng) (ind1 ind2 : list A) :
  2 ≤ length ind1 `min` length ind2 →
  ∃ child1 child2 g' c1 c2,
    cxTwoPoints randint g ind1 ind2 = Some (child1, child2, g') ∧
    1 ≤ c1 < c2 ∧ c2 ≤ length ind1 `min` length ind2 ∧
    length child1 = length ind1 ∧
    length child2 = length ind2 ∧
    ∀ k,
      (c1 ≤ k < c2 → child1 !! k = ind2 !! k ∧ child2 !! k = ind1 !! k) ∧
      (k < c1 ∨ c2 ≤ k → child1 !! k = ind1 !! k ∧ child2 !! k = ind2 !! k).
Proof using randint_range.
  intros Hsize. unfold cxTwoPoints.
  set (size := Z.min (Z.of_nat (length ind1)) (Z.of_nat (length ind2))).
  destruct (py_randint_ok g 1 size) as (r1 & g1 & -> & Hr1); [lia|].
  cbn [mbind option_bind].
  destruct (py_randint_ok g1 1 (size - 1)) as (r2 & g2 & -> & Hr2); [lia|].
  cbn [mbind option_bind].
  assert (Hseg : ∀ c1 c2 : Z, (1 ≤ c1 < c2)%Z → (c2 ≤ size)%Z →
    ∃ child1 child2 g' n1 n2,
      Some (py_slice_set ind1 c1 c2 (py_slice ind2 c1 c2),
            py_slice_set ind2 c1 c2 (py_slice ind1 c1 c2), g2)
      = Some (child1, child2, g') ∧
      1 ≤ n1 < n2 ∧ n2 ≤ length ind1 `min` length ind2 ∧
      length child1 = length ind1 ∧ length child2 = length ind2 ∧
      ∀ k,
        (n1 ≤ k < n2 → child1 !! k = ind2 !! k ∧ child2 !! k = ind1 !! k) ∧
        (k < n1 ∨ n2 ≤ k → child1 !! k = ind1 !! k ∧ child2 !! k = ind2 !! k)).
  { intros c1 c2 Hc1 Hc2.
    rewrite !py_slice_front, !py_slice_set_inside by lia.
    eexists _, _, g2, (Z.to_nat c1), (Z.to_nat c2).
    split; [done|].
    assert (Hlen : ∀ l t : list A, Z.to_nat c2 ≤ length l →
              Z.to_nat c2 ≤ length t →
              length (take (Z.to_nat c1) l
                        ++ drop (Z.to_nat c1) (take (Z.to_nat c2) t)
                        ++ drop (Z.to_nat c2) l) = length l).
    { intros l t Hl Ht.
      rewrite !length_app, length_take, !length_drop, length_take. lia. }
    assert (Hlook : ∀ (l t : list A) k, Z.to_nat c2 ≤ length l →
              Z.to_nat c2 ≤ length t →
              (take (Z.to_nat c1) l
                 ++ drop (Z.to_nat c1) (take (Z.to_nat c2) t)
                 ++ drop (Z.to_nat c2) l) !! k
              = if decide (Z.to_nat c1 ≤ k < Z.to_nat c2) then t !! k
                else l !! k).
    { intros l t k Hl Ht.
      destruct (decide (k < Z.to_nat c1)) as [Hk|Hk].
      - rewrite lookup_app_l by (rewrite length_take; lia).
        rewrite lookup_take_lt by lia. by rewrite decide_False by lia.
      - rewrite lookup_app_r by (rewrite length_take; lia).
        rewrite length_take, Nat.min_l by lia.
        destruct (decide (k < Z.to_nat c2)) as [Hk2|Hk2].
        + rewrite lookup_app_l
            by (rewrite length_drop, length_take; lia).
          rewrite lookup_drop, lookup_take_lt by lia.
          rewrite decide_True by lia. f_equal. lia.
        + rewrite lookup_app_r
            by (rewrite length_drop, length_take; lia).
          rewrite length_drop, length_take, lookup_drop.
          rewrite decide_False by lia. f_equal. lia. }
    split_and!; try lia.
    - apply Hlen; lia.
    - apply Hlen; lia.
    - intros k. rewrite !Hlook by lia. split; intros Hk.
      + case_decide; [done|lia].
      + case_decide; [lia|done]. }
  destruct (r1 <=? r2)%Z eqn:E.
  - apply Z.leb_le in E. apply Hseg; lia.
  - apply Z.leb_gt in E. apply Hseg; lia.
Qed.

(** X20: [cxMessyOnePoint] cuts each individual at a point of its own and
    exchanges the tails; it never fails, and the children together hold the
    genes of the parents, so their lengths add up to the same sum. *)
Theorem X20_cxMessyOnePoint_keeps_the_genes (g : Rng) (ind1 ind2 : list A) :
  ∃ child1 child2 g' c1 c2,
    cxMessyOnePoint randint g ind1 ind2 = Some (child1, child2, g') ∧
    c1 ≤ length ind1 ∧ c2 ≤ length ind2 ∧
    child1 = take c1 ind1 ++ drop c2 ind2 ∧
    child2 = take c2 ind2 ++ drop c1 ind1 ∧
    child1 ++ child2 ≡ₚ ind1 ++ ind2 ∧
    length child1 + length child2 = length ind1 + length ind2.
Proof using randint_range.
  unfold cxMessyOnePoint.
  destruct (py_randint_ok g 0 (Z.of_nat (length ind1)))
    as (r1 & g1 & -> & Hr1); [lia|].
  cbn [mbind option_bind].
  destruct (py_randint_ok g1 0 (Z.of_nat (length ind2)))
    as (r2 & g2 & -> & Hr2); [lia|].
  cbn [mbind option_bind].
  rewrite !py_drop_front, !py_slice_set_inside by lia.
  rewrite !Nat2Z.id, !drop_all, !app_nil_r.
  eexists _, _, g2, (Z.to_nat r1), (Z.to_nat r2).
  split; [done|].
  split_and!; try done; try lia.
  - apply exchanged_tails_perm.
  - rewrite <- !length_app. apply Permutation_length, exchanged_tails_perm.
Qed.

End CrossoverFacts.

(** X21: [cxOnePoint] and [cxTwoPoints] raise when the shorter individual
    has fewer than two genes, whatever the generator draws. *)
Theorem X21_crossover_of_short_individuals {Rng A}
    (randint : Rng → Z → Z → Z * Rng) (g : Rng) (ind1 ind2 : list A) :
  length ind1 `min` length ind2 < 2 →
  cxOnePoint randint g ind1 ind2 = None ∧
  cxTwoPoints randint g ind1 ind2 = None.
Proof.
  intros Hsize. unfold cxOnePoint, cxTwoPoints, py_randint.
  set (size := Z.min (Z.of_nat (length ind1)) (Z.of_nat (length ind2))).
  assert (E : (size - 1 <? 1)%Z = true) by (apply Z.ltb_lt; lia).
  rewrite E. split; [done|].
  destruct (Z.ltb size 1); [done|].
  by destruct (randint g 1%Z size).
Qed.

Section UniformFacts.

Context {Rng A : Type}.
Variable random : Rng → Q * Rng.

(** The state of the loop of [cxUniform] before locus [i]: the loci from
    [i] on are untouched, and each locus before [i] holds the two genes it
    held, exchanged where [swapped] says so. *)
Definition uniform_inv (ind1 ind2 : list A) (swapped : nat → bool) (i : nat)
    (st : list A * list A * Rng) : Prop :=
  let '(c1, c2, _) := st in
  length c1 = length ind1 ∧ length c2 = length ind2 ∧
  ∀ k,
    if bool_decide (k < i) && swapped k
    then c1 !! k = ind2 !! k ∧ c2 !! k = ind1 !! k
    else c1 !! k = ind1 !! k ∧ c2 !! k = ind2 !! k.

Lemma cxUniform_loop (g : Rng) (ind1 ind2 : list A) (indpb : Q)
    (ok : Q → Prop) :
  (∀ g, ok (random g).1) →
  ∃ child1 child2 g' swapped,
    cxUniform random g ind1 ind2 indpb = Some (child1, child2, g') ∧
    uniform_inv ind1 ind2 swapped (length ind1 `min` length ind2)
      (child1, child2, g') ∧
    ∀ k, k < length ind1 `min` length ind2 →
      ∃ u, ok u ∧ swapped k = Qltb u indpb.
Proof.
  intros Hok. unfold cxUniform.
  set (size := length ind1 `min` length ind2).
  set (body := λ '(ind1, ind2, g) i, _).
  assert (Hloop : ∀ n, n ≤ size →
    ∃ st swapped, for_each (seq 0 n) body (ind1, ind2, g) = Some st ∧
      uniform_inv ind1 ind2 swapped n st ∧
      ∀ k, k < n → ∃ u, ok u ∧ swapped k = Qltb u indpb).
  { induction n as [|n IH]; intros Hn.
    - exists (ind1, ind2, g), (λ _, false). split; [done|].
      split; [|intros k Hk; lia].
      split_and!; [done..|]. intros k. by rewrite andb_false_r.
    - destruct IH as ([[c1 c2] g1] & swapped & Hrun & Hinv & Hsw); [lia|].
      rewrite seq_S, for_each_app, Hrun. cbn [mbind option_bind for_each].
      destruct Hinv as (Hl1 & Hl2 & Hk).
      unfold body at 1. cbn [plus].
      pose proof (Hok g1) as Hu.
      destruct (random g1) as [u g2]. simpl in Hu.
      pose proof (Hk n) as Hn'.
      rewrite bool_decide_eq_false_2 in Hn' by lia. simpl in Hn'.
      destruct Hn' as [H1 H2].
      destruct (lookup_lt_is_Some_2 ind1 n) as [x1 Hx1]; [lia|].
      destruct (lookup_lt_is_Some_2 ind2 n) as [x2 Hx2]; [lia|].
      destruct (Qltb u indpb) eqn:E.
      + rewrite !py_get_nat by lia. rewrite H1, H2, Hx1, Hx2.
        cbn [mbind option_bind]. unfold py_set.
        rewrite !py_index_nat by lia. cbn [mbind option_bind].
        exists (<[n:=x2]> c1, <[n:=x1]> c2, g2),
               (λ k, if decide (k = n) then true else swapped k).
        split; [done|]. split.
        * split_and!; [by rewrite length_insert..|].
          intros k. destruct (decide (k = n)) as [->|Hne].
          -- rewrite bool_decide_eq_true_2 by lia. simpl.
             rewrite !list_lookup_insert_eq by lia. done.
          -- rewrite !list_lookup_insert_ne by done.
             specialize (Hk k).
             destruct (decide (k < n)).
             ++ by rewrite bool_decide_eq_true_2 in * by lia.
             ++ rewrite bool_decide_eq_false_2 in * by lia. done.
        * intros k Hlt. destruct (decide (k = n)) as [->|Hne].
          -- by exists u.
          -- apply Hsw. lia.
      + exists (c1, c2, g2),
               (λ k, if decide (k = n) then false else swapped k).
        split; [done|]. split.
        * split_and!; [done..|].
          intros k. destruct (decide (k = n)) as [->|Hne].
          -- rewrite andb_false_r. done.
          -- specialize (Hk k).
             destruct (decide (k < n)).
             ++ by rewrite bool_decide_eq_true_2 in * by lia.
             ++ rewrite bool_decide_eq_false_2 in * by lia. done.
        * intros k Hlt. destruct (decide (k = n)) as [->|Hne].
          -- by exists u.
          -- apply Hsw. lia. }
  destruct (Hloop size) as ([[c1 c2] g1] & swapped & Hrun & Hinv & Hsw); [lia|].
  by exists c1, c2, g1, swapped.
Qed.

(** X22: [cxUniform] never fails and never moves a gene to another locus:
    both lengths are kept, and each locus holds in the two children the two
    genes it held in the parents, either as they were or exchanged, the
    latter only below [min(len(ind1), len(ind2))]. *)
Theorem X22_cxUniform_keeps_the_loci (g : Rng) (ind1 ind2 : list A)
    (indpb : Q) :
  ∃ child1 child2 g',
    cxUniform random g ind1 ind2 indpb = Some (child1, child2, g') ∧
    length child1 = length ind1 ∧
    length child2 = length ind2 ∧
    ∀ k,
      (child1 !! k = ind1 !! k ∧ child2 !! k = ind2 !! k) ∨
      (k < length ind1 `min` length ind2 ∧
       child1 !! k = ind2 !! k ∧ child2 !! k = ind1 !! k).
Proof.
  destruct (cxUniform_loop g ind1 ind2 indpb (λ _, True))
    as (c1 & c2 & g' & swapped & Hrun & (Hl1 & Hl2 & Hk) & _); [done|].
  exists c1, c2, g'. split_and!; [done..|].
  intros k. specialize (Hk k).
  case_bool_decide as Hlt; [|by left].
  destruct (swapped k); simpl in Hk; [right|left]; [by split|done].
Qed.

Hypothesis random_range : ∀ g, (0 <= (random g).1)%Q ∧ ((random g).1 < 1)%Q.

(** X23: with [random.random()] in [[0, 1)], [cxUniform] leaves both
    individuals as they are when [indpb <= 0], and exchanges all of their
    first [min(len(ind1), len(ind2))] genes when [indpb >= 1]. *)
Theorem X23_cxUniform_extremes (g : Rng) (ind1 ind2 : list A) (indpb : Q) :
  let size := length ind1 `min` length ind2 in
  ((indpb <= 0)%Q →
     ∃ g', cxUniform random g ind1 ind2 indpb = Some (ind1, ind2, g')) ∧
  ((1 <= indpb)%Q →
     ∃ g', cxUniform random g ind1 ind2 indpb
           = Some (take size ind2 ++ drop size ind1,
                   take size ind1 ++ drop size ind2, g')).
Proof using random_range.
  intros size.
  destruct (cxUniform_loop g ind1 ind2 indpb
              (λ u, (0 <= u)%Q ∧ (u < 1)%Q))
    as (c1 & c2 & g' & swapped & Hrun & (Hl1 & Hl2 & Hk) & Hsw); [done|].
  fold size in Hk, Hsw.
  assert (Hmix : ∀ (l t : list A) k, size ≤ length l → size ≤ length t →
            (take size t ++ drop size l) !! k
            = if bool_decide (k < size) then t !! k else l !! k).
  { intros l t k Hl Ht. case_bool_decide.
    - rewrite lookup_app_l by (rewrite length_take; lia).
      by rewrite lookup_take_lt.
    - rewrite lookup_app_r by (rewrite length_take; lia).
      rewrite length_take, lookup_drop. f_equal. lia. }
  split; intros Hpb; exists g'; rewrite Hrun; do 2 f_equal.
  - assert (c1 = ind1 ∧ c2 = ind2) as [-> ->]; [|done].
    split; apply list_eq; intros k; specialize (Hk k);
      (case_bool_decide as Hlt;
       [destruct (Hsw k Hlt) as (u & [Hu0 Hu1] & Hs); rewrite Hs in Hk;
        assert (Qltb u indpb = false) as E
          by (apply Qltb_ge; by apply Qle_trans with 0%Q);
        rewrite E in Hk|]; simpl in Hk; apply Hk).
  - f_equal; apply list_eq; intros k; specialize (Hk k);
      (rewrite Hmix by (subst size; lia));
      (case_bool_decide as Hlt;
       [destruct (Hsw k Hlt) as (u & [Hu0 Hu1] & Hs); rewrite Hs in Hk;
        assert (Qltb u indpb = true) as E
          by (apply Qltb_lt; eapply Qlt_le_trans; eauto);
        rewrite E in Hk|]; simpl in Hk; apply Hk).
Qed.

End UniformFacts.

Lemma lowest_pivot_range (g : unit) (a b : Z) :
  (a ≤ b)%Z → (a ≤ (lowest_pivot g a b).1 ≤ b)%Z.
Proof. intros Hab. simpl. lia. Qed.

Lemma steady_range (g : unit) : (0 <= (steady g).1)%Q ∧ ((steady g).1 < 1)%Q.
Proof. by split. Qed.

Lemma X18_cxOnePoint_exchanges_tails_witness :
  ∃ child1 child2 g' c,
    cxOnePoint lowest_pivot tt sample_genes sample_scores
      = Some (child1, child2, g') ∧
    1 ≤ c < length sample_genes `min` length sample_scores ∧
    child1 = take c sample_genes ++ drop c sample_scores ∧
    child2 = take c sample_scores ++ drop c sample_genes ∧
    length child1 = length sample_scores ∧
    length child2 = length sample_genes ∧
    child1 ++ child2 ≡ₚ sample_genes ++ sample_scores.
Proof.
  apply (X18_cxOnePoint_exchanges_tails lowest_pivot lowest_pivot_range tt
           sample_genes sample_scores).
  simpl. lia.
Defined.

Lemma X19_cxTwoPoints_exchanges_a_segment_witness :
  ∃ child1 child2 g' c1 c2,
    cxTwoPoints lowest_pivot tt sample_genes sample_scores
      = Some (child1, child2, g') ∧
    1 ≤ c1 < c2 ∧ c2 ≤ length sample_genes `min` length sample_scores ∧
    length child1 = length sample_genes ∧
    length child2 = length sample_scores ∧
    ∀ k,
      (c1 ≤ k < c2 →
         child1 !! k = sample_scores !! k ∧ child2 !! k = sample_genes !! k) ∧
      (k < c1 ∨ c2 ≤ k →
         child1 !! k = sample_genes !! k ∧ child2 !! k = sample_scores !! k).
Proof.
  apply (X19_cxTwoPoints_exchanges_a_segment lowest_pivot lowest_pivot_range
           tt sample_genes sample_scores).
  simpl. lia.
Defined.

Lemma X20_cxMessyOnePoint_keeps_the_genes_witness :
  ∃ child1 child2 g' c1 c2,
    cxMessyOnePoint lowest_pivot tt sample_genes sample_scores
      = Some (child1, child2, g') ∧
    c1 ≤ length sample_genes ∧ c2 ≤ length sample_scores ∧
    child1 = take c1 sample_genes ++ drop c2 sample_scores ∧
    child2 = take c2 sample_scores ++ drop c1 sample_genes ∧
    child1 ++ child2 ≡ₚ sample_genes ++ sample_scores ∧
    length child1 + length child2
      = length sample_genes + length sample_scores.
Proof.
  apply (X20_cxMessyOnePoint_keeps_the_genes lowest_pivot lowest_pivot_range
           tt sample_genes sample_scores).
Defined.

Lemma X21_crossover_of_short_individuals_witness :
  cxOnePoint lowest_pivot tt [7%Z] sample_scores = None ∧
  cxTwoPoints lowest_pivot tt [7%Z] sample_scores = None.
Proof.
  apply (X21_crossover_of_short_individuals lowest_pivot tt [7%Z]
           sample_scores).
  simpl. lia.
Defined.

Lemma X23_cxUniform_extremes_witness :
  let size := length sample_genes `min` length sample_scores in
  ((1 <= 0)%Q →
     ∃ g', cxUniform steady tt sample_genes sample_scores 1
           = Some (sample_genes, sample_scores, g')) ∧
  ((1 <= 1)%Q →
     ∃ g', cxUniform steady tt sample_genes sample_scores 1
           = Some (take size sample_scores ++ drop size sample_genes,
                   take size sample_genes ++ drop size sample_scores, g')).
Proof.
  apply (X23_cxUniform_extremes steady steady_range tt sample_genes
           sample_scores 1).
Defined.

From Stdlib Require Import QArith.
From stdpp Require Import base option list numbers sorting.
Close Scope Q_scope.

(** * The partially matched crossover *)

(** [ind] holds each of the indices [0 .. size - 1] once, and [p] gives the
    locus of each index in [ind]. *)
Definition tracked (size : nat) (ind p : list Z) : Prop :=
  ind ≡ₚ seqZ 0 (Z.of_nat size) ∧
  length p = size ∧
  ∀ k v, ind !! k = Some v → p !! Z.to_nat v = Some (Z.of_nat k).

Lemma indices_length (size : nat) (ind : list Z) :
  ind ≡ₚ seqZ 0 (Z.of_nat size) → length ind = size.
Proof. intros ->. rewrite length_seqZ. lia. Qed.

Lemma indices_range (size : nat) (ind : list Z) (v : Z) :
  ind ≡ₚ seqZ 0 (Z.of_nat size) → v ∈ ind → (0 ≤ v < Z.of_nat size)%Z.
Proof. intros -> Hv. apply elem_of_seqZ in Hv. lia. Qed.

Lemma indices_NoDup (size : nat) (ind : list Z) :
  ind ≡ₚ seqZ 0 (Z.of_nat size) → NoDup ind.
Proof. intros ->. apply NoDup_seqZ. Qed.

Lemma indices_elem_of (size : nat) (ind : list Z) (v : Z) :
  ind ≡ₚ seqZ 0 (Z.of_nat size) → (0 ≤ v < Z.of_nat size)%Z → v ∈ ind.
Proof. intros -> Hv. apply elem_of_seqZ. lia. Qed.

(** Recording the loci of the indices of one individual. *)
Lemma positions_ok (size : nat) (ind p : list Z) (i : nat) (v : Z) :
  ind ≡ₚ seqZ 0 (Z.of_nat size) →
  length p = size →
  (∀ k w, k < i → ind !! k = Some w → p !! Z.to_nat w = Some (Z.of_nat k)) →
  ind !! i = Some v →
  py_set p v (Z.of_nat i) = Some (<[Z.to_nat v := Z.of_nat i]> p) ∧
  ∀ k w, k < S i → ind !! k = Some w →
    <[Z.to_nat v := Z.of_nat i]> p !! Z.to_nat w = Some (Z.of_nat k).
Proof.
  intros Hind Hp Hbefore Hv.
  assert (Hr : (0 ≤ v < Z.of_nat size)%Z).
  { eapply indices_range; [done|]. by eapply list_elem_of_lookup_2. }
  split.
  - unfold py_set. by rewrite py_index_front by lia.
  - intros k w Hk Hw.
    destruct (decide (k = i)) as [->|Hne].
    + simplify_eq. apply list_lookup_insert_eq. lia.
    + assert (Hrw : (0 ≤ w < Z.of_nat size)%Z).
      { eapply indices_range; [done|]. by eapply list_elem_of_lookup_2. }
      rewrite list_lookup_insert_ne.
      * apply Hbefore; [lia|done].
      * intros Heq. assert (v = w) as -> by lia.
        apply Hne. eapply NoDup_lookup; [by eapply indices_NoDup|done..].
Qed.

Lemma pmx_positions_ok (size : nat) (ind1 ind2 : list Z) :
  ind1 ≡ₚ seqZ 0 (Z.of_nat size) →
  ind2 ≡ₚ seqZ 0 (Z.of_nat size) →
  ∃ p1 p2, pmx_positions size ind1 ind2 = Some (p1, p2) ∧
    tracked size ind1 p1 ∧ tracked size ind2 p2.
Proof.
  intros H1 H2. unfold pmx_positions.
  pose proof (indices_length _ _ H1) as Hl1.
  pose proof (indices_length _ _ H2) as Hl2.
  destruct (for_each_seq_invariant
    (λ i (st : list Z * list Z),
       length st.1 = size ∧ length st.2 = size ∧
       (∀ k w, k < i → ind1 !! k = Some w →
          st.1 !! Z.to_nat w = Some (Z.of_nat k)) ∧
       (∀ k w, k < i → ind2 !! k = Some w →
          st.2 !! Z.to_nat w = Some (Z.of_nat k)))
    (λ '(p1, p2) i,
       v1 ← py_get ind1 (Z.of_nat i);
       p1' ← py_set p1 v1 (Z.of_nat i);
       v2 ← py_get ind2 (Z.of_nat i);
       p2' ← py_set p2 v2 (Z.of_nat i);
       Some (p1', p2'))
    0 size (replicate size 0%Z, replicate size 0%Z))
    as ([p1 p2] & Hrun & Hp1 & Hp2 & Hi1 & Hi2).
  - intros i [p1 p2] Hi (Hp1 & Hp2 & Hi1 & Hi2). simpl in *.
    destruct (lookup_lt_is_Some_2 ind1 i) as [v1 Hv1]; [lia|].
    destruct (lookup_lt_is_Some_2 ind2 i) as [v2 Hv2]; [lia|].
    destruct (positions_ok size ind1 p1 i v1 H1 Hp1 Hi1 Hv1) as [Hs1 Hn1].
    destruct (positions_ok size ind2 p2 i v2 H2 Hp2 Hi2 Hv2) as [Hs2 Hn2].
    rewrite (py_get_nat ind1 i), Hv1 by lia. cbn [mbind option_bind].
    rewrite Hs1. cbn [mbind option_bind].
    rewrite (py_get_nat ind2 i), Hv2 by lia. cbn [mbind option_bind].
    rewrite Hs2. cbn [mbind option_bind].
    eexists. split; [done|]. simpl.
    by rewrite !length_insert.
  - simpl. rewrite !length_replicate. split_and!; [done..| |]; intros; lia.
  - exists p1, p2. simpl in *. split; [done|].
    split; (split; [done|split; [done|]]); intros k w Hw.
    + apply Hi1; [|done]. apply lookup_lt_Some in Hw. lia.
    + apply Hi2; [|done]. apply lookup_lt_Some in Hw. lia.
Qed.

(** One individual's share of a matching step: the index [o] comes to locus
    [i] and the index [t] that was there goes where [o] was. *)
Lemma match_half (size : nat) (ind p : list Z) (i : nat) (t o : Z) :
  tracked size ind p →
  ind !! i = Some t →
  (0 ≤ o < Z.of_nat size)%Z →
  ∃ j : nat,
    p !! Z.to_nat o = Some (Z.of_nat j) ∧
    p !! Z.to_nat t = Some (Z.of_nat i) ∧
    j < size ∧ i < size ∧ (0 ≤ t < Z.of_nat size)%Z ∧
    tracked size (<[j := t]> (<[i := o]> ind))
      (<[Z.to_nat o := Z.of_nat i]> (<[Z.to_nat t := Z.of_nat j]> p)) ∧
    tracked size (<[j := t]> (<[i := o]> ind))
      (<[Z.to_nat t := Z.of_nat j]> (<[Z.to_nat o := Z.of_nat i]> p)).
Proof.
  intros (Hind & Hp & Hinv) Ht Ho.
  pose proof (indices_length _ _ Hind) as Hlen.
  pose proof (indices_NoDup _ _ Hind) as Hnd.
  assert (Hrange : ∀ k w, ind !! k = Some w → (0 ≤ w < Z.of_nat size)%Z).
  { intros k w Hw. eapply indices_range; [done|].
    by eapply list_elem_of_lookup_2. }
  pose proof (indices_elem_of _ _ o Hind Ho) as Hin.
  apply list_elem_of_lookup_1 in Hin as [j Hj].
  pose proof (lookup_lt_Some _ _ _ Ht) as Hi.
  pose proof (lookup_lt_Some _ _ _ Hj) as Hjlt.
  pose proof (Hrange _ _ Ht) as Htr.
  exists j. do 2 (split; [by apply Hinv|]). do 3 (split; [lia|]). split.
  - destruct (decide (i = j)) as [->|Hij].
    + assert (t = o) as <- by congruence.
      rewrite (list_insert_id ind j t), (list_insert_id ind j t) by done.
      rewrite (list_insert_id p), (list_insert_id p) by (by apply Hinv).
      by split_and!.
    + assert (Hto : Z.to_nat t ≠ Z.to_nat o).
      { intros Heq. assert (t = o) as -> by lia.
        apply Hij. by eapply NoDup_lookup. }
      split_and!.
      * by rewrite insert_swap_perm.
      * by rewrite !length_insert.
      * intros k v Hk.
        destruct (decide (k = j)) as [->|Hkj].
        { rewrite list_lookup_insert_eq in Hk
            by (rewrite length_insert; lia).
          simplify_eq. rewrite list_lookup_insert_ne by done.
          apply list_lookup_insert_eq. lia. }
        rewrite list_lookup_insert_ne in Hk by done.
        destruct (decide (k = i)) as [->|Hki].
        { rewrite list_lookup_insert_eq in Hk by lia. simplify_eq.
          apply list_lookup_insert_eq. rewrite length_insert. lia. }
        rewrite list_lookup_insert_ne in Hk by done.
        pose proof (Hrange _ _ Hk) as Hv.
        rewrite !list_lookup_insert_ne; [by apply Hinv| |].
        -- intros Heq. assert (t = v) as -> by lia.
           apply Hki. by eapply NoDup_lookup.
        -- intros Heq. assert (o = v) as -> by lia.
           apply Hkj. by eapply NoDup_lookup.
  - destruct (decide (i = j)) as [->|Hij].
    + assert (t = o) as <- by congruence.
      rewrite (list_insert_id ind j t), (list_insert_id ind j t) by done.
      rewrite (list_insert_id p), (list_insert_id p) by (by apply Hinv).
      by split_and!.
    + assert (Hto : Z.to_nat t ≠ Z.to_nat o).
      { intros Heq. assert (t = o) as -> by lia.
        apply Hij. by eapply NoDup_lookup. }
      split_and!.
      * by rewrite insert_swap_perm.
      * by rewrite !length_insert.
      * intros k v Hk.
        destruct (decide (k = j)) as [->|Hkj].
        { rewrite list_lookup_insert_eq in Hk
            by (rewrite length_insert; lia).
          simplify_eq. apply list_lookup_insert_eq.
          rewrite length_insert. lia. }
        rewrite list_lookup_insert_ne in Hk by done.
        destruct (decide (k = i)) as [->|Hki].
        { rewrite list_lookup_insert_eq in Hk by lia. simplify_eq.
          rewrite list_lookup_insert_ne by done.
          apply list_lookup_insert_eq. lia. }
        rewrite list_lookup_insert_ne in Hk by done.
        pose proof (Hrange _ _ Hk) as Hv.
        rewrite !list_lookup_insert_ne; [by apply Hinv| |].
        -- intros Heq. assert (o = v) as -> by lia.
           apply Hkj. by eapply NoDup_lookup.
        -- intros Heq. assert (t = v) as -> by lia.
           apply Hki. by eapply NoDup_lookup.
Qed.

Lemma pmx_match_ok (size : nat) (ind1 ind2 p1 p2 : list Z) (i : Z) :
  tracked size ind1 p1 →
  tracked size ind2 p2 →
  (0 ≤ i < Z.of_nat size)%Z →
  ∃ ind1' ind2' p1' p2',
    pmx_match (ind1, ind2, p1, p2) i = Some (ind1', ind2', p1', p2') ∧
    tracked size ind1' p1' ∧ tracked size ind2' p2'.
Proof.
  intros H1 H2 Hi.
  pose proof (indices_length _ _ (proj1 H1)) as Hl1.
  pose proof (indices_length _ _ (proj1 H2)) as Hl2.
  pose proof (proj1 (proj2 H1)) as Hp1.
  pose proof (proj1 (proj2 H2)) as Hp2.
  destruct (lookup_lt_is_Some_2 ind1 (Z.to_nat i)) as [t1 Ht1]; [lia|].
  destruct (lookup_lt_is_Some_2 ind2 (Z.to_nat i)) as [t2 Ht2]; [lia|].
  assert (Hr1 : (0 ≤ t1 < Z.of_nat size)%Z).
  { eapply indices_range; [exact (proj1 H1)|].
    by eapply list_elem_of_lookup_2. }
  assert (Hr2 : (0 ≤ t2 < Z.of_nat size)%Z).
  { eapply indices_range; [exact (proj1 H2)|].
    by eapply list_elem_of_lookup_2. }
  destruct (match_half size ind1 p1 (Z.to_nat i) t1 t2 H1 Ht1 Hr2)
    as (j1 & Hj1 & Hn1 & Hj1lt & _ & _ & Hnew1 & _).
  destruct (match_half size ind2 p2 (Z.to_nat i) t2 t1 H2 Ht2 Hr1)
    as (j2 & Hj2 & Hn2 & Hj2lt & _ & _ & _ & Hnew2).
  unfold pmx_match.
  rewrite (py_get_front ind1 i), Ht1 by lia. cbn [mbind option_bind].
  rewrite (py_get_front ind2 i), Ht2 by lia. cbn [mbind option_bind].
  rewrite (py_set_front ind1 i) by lia. cbn [mbind option_bind].
  rewrite (py_get_front p1 t2), Hj1 by lia. cbn [mbind option_bind].
  rewrite (py_set_front _ (Z.of_nat j1)) by (rewrite length_insert; lia).
  cbn [mbind option_bind].
  rewrite (py_set_front ind2 i) by lia. cbn [mbind option_bind].
  rewrite (py_get_front p2 t1), Hj2 by lia. cbn [mbind option_bind].
  rewrite (py_set_front _ (Z.of_nat j2)) by (rewrite length_insert; lia).
  cbn [mbind option_bind].
  rewrite (py_get_front p1 t1), Hn1 by lia. cbn [mbind option_bind].
  rewrite (py_set_front p1 t1) by lia. cbn [mbind option_bind].
  rewrite (py_set_front _ t2) by (rewrite length_insert; lia).
  cbn [mbind option_bind].
  rewrite (py_get_front p2 t2), Hn2 by lia. cbn [mbind option_bind].
  rewrite (py_set_front p2 t1) by lia. cbn [mbind option_bind].
  rewrite (py_set_front _ t2) by (rewrite length_insert; lia).
  cbn [mbind option_bind].
  rewrite !Nat2Z.id.
  eexists _, _, _, _. split; [done|]. by split.
Qed.

Section MatchedFacts.

Context {Rng : Type}.
Variable randint : Rng → Z → Z → Z * Rng.

Hypothesis randint_range :
  ∀ g a b, (a ≤ b)%Z → (a ≤ (randint g a b).1 ≤ b)%Z.

(** X27: when both individuals hold each of the indices
    [0 .. size - 1] once, [cxPartialyMatched] raises for [size = 0] and
    otherwise returns two children that again hold each index once. *)
Theorem X27_cxPartialyMatched_keeps_permutations (g : Rng)
    (ind1 ind2 : list Z) (size : nat) :
  ind1 ≡ₚ seqZ 0 (Z.of_nat size) →
  ind2 ≡ₚ seqZ 0 (Z.of_nat size) →
  (size = 0 → cxPartialyMatched randint g ind1 ind2 = None) ∧
  (size ≠ 0 →
     ∃ child1 child2 g',
       cxPartialyMatched randint g ind1 ind2 = Some (child1, child2, g') ∧
       child1 ≡ₚ seqZ 0 (Z.of_nat size) ∧
       child2 ≡ₚ seqZ 0 (Z.of_nat size)).
Proof using randint_range.
  intros H1 H2.
  pose proof (indices_length _ _ H1) as Hl1.
  pose proof (indices_length _ _ H2) as Hl2.
  unfold cxPartialyMatched. rewrite Hl1, Hl2, Nat.min_id.
  destruct (pmx_positions_ok size ind1 ind2 H1 H2)
    as (p1 & p2 & -> & Ht1 & Ht2).
  cbn [mbind option_bind].
  destruct (py_randint_ok randint randint_range g 0 (Z.of_nat size))
    as (r1 & g1 & -> & Hr1); [lia|].
  cbn [mbind option_bind].
  split.
  - intros ->. unfold py_randint. simpl. done.
  - intros Hsize.
    destruct (py_randint_ok randint randint_range g1 0 (Z.of_nat size - 1))
      as (r2 & g2 & -> & Hr2); [lia|].
    cbn [mbind option_bind].
    assert (Hloop : ∀ c1 c2 : Z, (0 ≤ c1)%Z → (c2 ≤ Z.of_nat size)%Z →
      ∃ child1 child2 g',
        ('(ind1, ind2, _, _) ←
           for_each (seqZ c1 (c2 - c1)) pmx_match (ind1, ind2, p1, p2);
         Some (ind1, ind2, g2)) = Some (child1, child2, g') ∧
        child1 ≡ₚ seqZ 0 (Z.of_nat size) ∧
        child2 ≡ₚ seqZ 0 (Z.of_nat size)).
    { intros c1 c2 Hc1 Hc2.
      destruct (for_each_invariant
        (λ '(a1, a2, q1, q2), tracked size a1 q1 ∧ tracked size a2 q2)
        pmx_match (seqZ c1 (c2 - c1)) (ind1, ind2, p1, p2))
        as ([[[c1' c2'] q1] q2] & -> & [Hq1 Hq2]).
      - intros [[[a1 a2] q1] q2] i Hi [Hq1 Hq2].
        apply elem_of_seqZ in Hi.
        destruct (pmx_match_ok size a1 a2 q1 q2 i Hq1 Hq2)
          as (b1 & b2 & s1 & s2 & -> & Hs1 & Hs2); [lia|].
        by eexists (_, _, _, _).
      - done.
      - exists c1', c2', g2. split; [done|].
        split; [apply Hq1|apply Hq2]. }
    destruct (r1 <=? r2)%Z; apply Hloop; lia.
Qed.

End MatchedFacts.

Lemma X27_cxPartialyMatched_keeps_permutations_witness :
  ([0; 1; 2; 3; 4]%Z ≡ₚ seqZ 0 (Z.of_nat 5)) ∧
  (5 = 0 →
     cxPartialyMatched lowest_pivot tt [0; 1; 2; 3; 4]%Z [1; 2; 3; 4; 0]%Z
     = None) ∧
  (5 ≠ 0 →
     ∃ child1 child2 g',
       cxPartialyMatched lowest_pivot tt [0; 1; 2; 3; 4]%Z [1; 2; 3; 4; 0]%Z
       = Some (child1, child2, g') ∧
       child1 ≡ₚ seqZ 0 (Z.of_nat 5) ∧
       child2 ≡ₚ seqZ 0 (Z.of_nat 5)).
Proof.
  split; [done|].
  apply (X27_cxPartialyMatched_keeps_permutations lowest_pivot
           lowest_pivot_range tt [0; 1; 2; 3; 4]%Z [1; 2; 3; 4; 0]%Z 5).
  - done.
  - symmetry. apply (Permutation_cons_append [1; 2; 3; 4]%Z 0%Z).
Defined.

From Stdlib Require Import QArith.
From stdpp Require Import base option list numbers sorting.
Close Scope Q_scope.

(** * The mutations on lists of genes *)

Section ShuffleFacts.

Context {Rng A : Type}.
Variable random : Rng → Q * Rng.
Variable randint : Rng → Z → Z → Z * Rng.

Hypothesis randint_range :
  ∀ g a b, (a ≤ b)%Z → (a ≤ (randint g a b).1 ≤ b)%Z.

Lemma mutShuffleIndexes_ok (g : Rng) (individual : list A) (indpb : Q) :
  length individual ≠ 1 →
  ∃ mutant g',
    mutShuffleIndexes random randint g individual indpb = Some (mutant, g') ∧
    mutant ≡ₚ individual.
Proof using randint_range.
  intros Hsize. unfold mutShuffleIndexes.
  set (size := length individual).
  destruct (for_each_invariant
              (λ st : list A * Rng, st.1 ≡ₚ individual)
              (λ '(individual, g) i,
                 let '(u, g1) := random g in
                 if Qltb u indpb then
                   '(swap_indx, g2) ←
                     py_randint randint g1 0 (Z.of_nat size - 2);
                   let swap_indx :=
                     if (Z.of_nat i <=? swap_indx)%Z then (swap_indx + 1)%Z
                     else swap_indx in
                   y ← py_get individual swap_indx;
                   x ← py_get individual (Z.of_nat i);
                   individual ← py_set individual (Z.of_nat i) y;
                   individual ← py_set individual swap_indx x;
                   Some (individual, g2)
                 else Some (individual, g1))
              (seq 0 size) (individual, g))
    as ([mutant g'] & Hrun & Hperm); [|done|by exists mutant, g'].
  intros [l g0] i Hi Hl. simpl in Hl.
  apply elem_of_seq in Hi.
  assert (Hlen : length l = size) by (by rewrite Hl).
  destruct (random g0) as [u g1].
  destruct (Qltb u indpb); [|by exists (l, g1)].
  destruct (py_randint_ok randint randint_range g1 0 (Z.of_nat size - 2))
    as (r & g2 & -> & Hr); [lia|].
  cbn [mbind option_bind].
  set (s := if (Z.of_nat i <=? r)%Z then (r + 1)%Z else r).
  assert (Hs : (0 ≤ s < Z.of_nat size)%Z).
  { subst s. destruct (Z.of_nat i <=? r)%Z; lia. }
  destruct (lookup_lt_is_Some_2 l (Z.to_nat s)) as [y Hy]; [lia|].
  destruct (lookup_lt_is_Some_2 l i) as [x Hx]; [lia|].
  rewrite (py_get_front l s), Hy by lia. cbn [mbind option_bind].
  rewrite (py_get_nat l i), Hx by lia. cbn [mbind option_bind].
  unfold py_set. rewrite (py_index_nat l i) by lia. cbn [mbind option_bind].
  rewrite (py_index_front _ s) by (rewrite length_insert; lia).
  cbn [mbind option_bind].
  eexists. split; [done|]. simpl.
  by rewrite insert_swap_perm.
Qed.

(** X24: on an individual that has not exactly one gene,
    [mutShuffleIndexes] never fails and returns the same genes in some
    order. *)
Theorem X24_mutShuffleIndexes_rearranges (g : Rng) (individual : list A)
    (indpb : Q) :
  length individual ≠ 1 →
  ∃ mutant g',
    mutShuffleIndexes random randint g individual indpb = Some (mutant, g') ∧
    mutant ≡ₚ individual.
Proof using randint_range. apply mutShuffleIndexes_ok. Qed.

(** X25: [mutShuffleIndexes] raises exactly when the individual has a
    single gene and this gene is picked for a move: there is then no other
    locus to draw. *)
Theorem X25_mutShuffleIndexes_single_gene (g : Rng) (individual : list A)
    (indpb : Q) :
  mutShuffleIndexes random randint g individual indpb = None
  ↔ length individual = 1 ∧ Qltb (random g).1 indpb = true.
Proof using randint_range.
  split.
  - intros Hnone.
    destruct (decide (length individual = 1)) as [Hone|Hsize].
    + split; [done|].
      destruct individual as [|x [|y l]]; simplify_eq/=.
      unfold mutShuffleIndexes in Hnone. simpl in Hnone.
      destruct (random g) as [u g1]. simpl.
      by destruct (Qltb u indpb).
    + destruct (mutShuffleIndexes_ok g individual indpb Hsize)
        as (mutant & g' & Hrun & _).
      congruence.
  - intros [Hone Hpick].
    destruct individual as [|x [|y l]]; simplify_eq/=.
    unfold mutShuffleIndexes. simpl.
    destruct (random g) as [u g1]. simpl in Hpick. by rewrite Hpick.
Qed.

End ShuffleFacts.

Section FlipFacts.

Context {Rng : Type}.
Variable random : Rng → Q * Rng.
Variable indpb : Q.






End FlipFacts.

Lemma X24_mutShuffleIndexes_rearranges_witness :
  ∃ mutant g',
    mutShuffleIndexes steady lowest_pivot tt sample_genes 1
      = Some (mutant, g') ∧
    mutant ≡ₚ sample_genes.
Proof.
  apply (X24_mutShuffleIndexes_rearranges steady lowest_pivot
           lowest_pivot_range tt sample_genes 1).
  simpl. lia.
Defined.

Lemma X25_mutShuffleIndexes_single_gene_witness :
  mutShuffleIndexes steady lowest_pivot tt [7%Z] 1 = None
  ↔ length [7%Z] = 1 ∧ Qltb (steady tt).1 1 = true.
Proof.
  apply (X25_mutShuffleIndexes_single_gene steady lowest_pivot
           lowest_pivot_range tt [7%Z] 1).
Defined.

From Stdlib Require Import QArith.
From stdpp Require Import base option list numbers sorting gmap.
Close Scope Q_scope.

(** * The genealogy kept by [History] *)

Section HistoryFacts.

Context {A : Type}.
Import History.

Abbreviation individual := (History.individual A).
Abbreviation history := (History.t A).

(** The indices handed out so far are [1 .. genealogy_index]; both
    dictionaries have exactly these keys, the copy kept under an index
    carries this index, and every parent is older than its child. *)
Definition well_formed (h : history) : Prop :=
  (0 ≤ genealogy_index h)%Z ∧
  (∀ i, is_Some (genealogy_history h !! i) ↔ (1 ≤ i ≤ genealogy_index h)%Z) ∧
  (∀ i, is_Some (genealogy_tree h !! i) ↔ (1 ≤ i ≤ genealogy_index h)%Z) ∧
  (∀ i ind, genealogy_history h !! i = Some ind → history_index ind = Some i) ∧
  (∀ i ps p, genealogy_tree h !! i = Some ps → p ∈ ps → (1 ≤ p < i)%Z).

(** The individual is known to the history. *)
Definition known (h : history) (ind : individual) : Prop :=
  ∃ p, history_index ind = Some p ∧ (1 ≤ p ≤ genealogy_index h)%Z.

(** The loop of [populate] and [update], for any list of parents. *)
Definition record_all (parents : list Z) (st : history * list individual)
    (individuals : list individual) : history * list individual :=
  foldl
    (λ '(h, marked) ind,
       let index := (genealogy_index h + 1)%Z in
       let ind := Individual (genome ind) (Some index) in
       (Make index
          (<[index := ind]> (genealogy_history h))
          (<[index := parents]> (genealogy_tree h)),
        marked ++ [ind]))
    st individuals.

(** The individuals with the indices that follow [index]. *)
Definition numbered (index : Z) (individuals : list individual)
  : list individual :=
  imap (λ k ind, Individual (genome ind) (Some (index + 1 + Z.of_nat k))%Z)
    individuals.

Lemma numbered_cons (index : Z) (ind : individual) (l : list individual) :
  numbered index (ind :: l)
  = Individual (genome ind) (Some (index + 1)%Z) :: numbered (index + 1) l.
Proof.
  unfold numbered. cbn [imap]. f_equal.
  - do 2 f_equal. lia.
  - apply imap_ext. intros k x _. simpl. do 2 f_equal. lia.
Qed.

Lemma numbered_length (index : Z) (l : list individual) :
  length (numbered index l) = length l.
Proof. apply length_imap. Qed.

Lemma numbered_lookup (index : Z) (l : list individual) (k : nat)
    (ind : individual) :
  numbered index l !! k = Some ind →
  history_index ind = Some (index + 1 + Z.of_nat k)%Z ∧
  ∃ old, l !! k = Some old ∧ genome ind = genome old.
Proof.
  unfold numbered. rewrite list_lookup_imap.
  destruct (l !! k) as [old|] eqn:E; [|done]. simpl.
  intros [= <-]. split; [done|]. by exists old.
Qed.

Lemma record_all_spec (parents : list Z) (individuals : list individual)
    (h : history) (marked : list individual) :
  ∃ h',
    record_all parents (h, marked) individuals
    = (h', marked ++ numbered (genealogy_index h) individuals) ∧
    genealogy_index h'
    = (genealogy_index h + Z.of_nat (length individuals))%Z ∧
    (∀ i, (i ≤ genealogy_index h)%Z →
       genealogy_history h' !! i = genealogy_history h !! i ∧
       genealogy_tree h' !! i = genealogy_tree h !! i) ∧
    (∀ i, (genealogy_index h' < i)%Z →
       genealogy_history h' !! i = genealogy_history h !! i ∧
       genealogy_tree h' !! i = genealogy_tree h !! i) ∧
    (∀ k : nat, k < length individuals →
       genealogy_history h' !! (genealogy_index h + 1 + Z.of_nat k)%Z
       = numbered (genealogy_index h) individuals !! k ∧
       genealogy_tree h' !! (genealogy_index h + 1 + Z.of_nat k)%Z
       = Some parents).
Proof.
  revert h marked. induction individuals as [|ind l IH]; intros h marked.
  - exists h. simpl. rewrite app_nil_r.
    split_and!; [done|lia|done|done|intros k Hk; lia].
  - cbn [record_all foldl].
    set (index := (genealogy_index h + 1)%Z).
    set (ind' := Individual (genome ind) (Some index)).
    set (h1 := Make index (<[index := ind']> (genealogy_history h))
                 (<[index := parents]> (genealogy_tree h))).
    destruct (IH h1 (marked ++ [ind']))
      as (h' & Hrun & Hindex & Hold & Hnew & Hrec).
    exists h'. cbn [genealogy_index h1] in *.
    unfold record_all in Hrun.
    split_and!.
    + rewrite Hrun, numbered_cons, <- app_assoc. done.
    + rewrite Hindex. cbn [length]. subst index. simpl. lia.
    + intros i Hi. destruct (Hold i) as [E1 E2]; [subst index; simpl; lia|].
      rewrite E1, E2. subst h1. cbn.
      rewrite !lookup_insert_ne by (subst index; lia). done.
    + intros i Hi. destruct (Hnew i Hi) as [E1 E2].
      rewrite E1, E2. subst h1. cbn.
      rewrite Hindex in Hi. cbn in Hi.
      rewrite !lookup_insert_ne by (subst index; lia). done.
    + intros k Hk. rewrite numbered_cons. destruct k as [|k].
      * destruct (Hold index) as [E1 E2]; [simpl; lia|].
        replace (index + Z.of_nat 0)%Z with index by lia.
        rewrite E1, E2. subst h1. cbn. by rewrite !lookup_insert_eq.
      * cbn [length] in Hk. destruct (Hrec k) as [E1 E2]; [lia|].
        cbn [genealogy_index] in E1, E2.
        replace (index + Z.of_nat (S k))%Z
          with (index + 1 + Z.of_nat k)%Z by lia.
        by rewrite E1, E2.
Qed.

(** What recording a list of individuals under parents that are known does
    to a history that is well formed. *)
Lemma record_all_ok (parents : list Z) (individuals : list individual)
    (h : history) :
  well_formed h →
  Forall (λ p, 1 ≤ p ≤ genealogy_index h)%Z parents →
  ∃ h',
    record_all parents (h, []) individuals
    = (h', numbered (genealogy_index h) individuals) ∧
    well_formed h' ∧
    genealogy_index h'
    = (genealogy_index h + Z.of_nat (length individuals))%Z ∧
    Forall (known h') (numbered (genealogy_index h) individuals) ∧
    (∀ i, (i ≤ genealogy_index h)%Z →
       genealogy_history h' !! i = genealogy_history h !! i ∧
       genealogy_tree h' !! i = genealogy_tree h !! i) ∧
    (∀ k ind, numbered (genealogy_index h) individuals !! k = Some ind →
       genealogy_history h' !! (genealogy_index h + 1 + Z.of_nat k)%Z
       = Some ind ∧
       genealogy_tree h' !! (genealogy_index h + 1 + Z.of_nat k)%Z
       = Some parents).
Proof.
  intros (Hpos & Hkeys & Htree & Hcopy & Hacyc) Hparents.
  destruct (record_all_spec parents individuals h [])
    as (h' & Hrun & Hindex & Hold & Hnew & Hrec).
  exists h'. split; [done|].
  assert (Hcase : ∀ i, (i ≤ genealogy_index h)%Z ∨
            (genealogy_index h' < i)%Z ∨
            ∃ k : nat, k < length individuals ∧
              i = (genealogy_index h + 1 + Z.of_nat k)%Z).
  { intros i.
    destruct (decide (i ≤ genealogy_index h)%Z); [by left|].
    destruct (decide (genealogy_index h' < i)%Z); [by right; left|].
    right; right. exists (Z.to_nat (i - genealogy_index h - 1)).
    split; lia. }
  split_and!.
  - split_and!.
    + lia.
    + intros i. destruct (Hcase i) as [Hi|[Hi|(k & Hk & ->)]].
      * rewrite (proj1 (Hold i Hi)), Hkeys. lia.
      * rewrite (proj1 (Hnew i Hi)), Hkeys. lia.
      * rewrite (proj1 (Hrec k Hk)). split; [lia|]. intros _.
        apply lookup_lt_is_Some_2. by rewrite numbered_length.
    + intros i. destruct (Hcase i) as [Hi|[Hi|(k & Hk & ->)]].
      * rewrite (proj2 (Hold i Hi)), Htree. lia.
      * rewrite (proj2 (Hnew i Hi)), Htree. lia.
      * rewrite (proj2 (Hrec k Hk)). split; [lia|]. by eexists.
    + intros i ind. destruct (Hcase i) as [Hi|[Hi|(k & Hk & ->)]].
      * rewrite (proj1 (Hold i Hi)). apply Hcopy.
      * rewrite (proj1 (Hnew i Hi)). apply Hcopy.
      * rewrite (proj1 (Hrec k Hk)). intros Hind.
        by apply numbered_lookup in Hind as [-> _].
    + intros i ps p. destruct (Hcase i) as [Hi|[Hi|(k & Hk & ->)]].
      * rewrite (proj2 (Hold i Hi)). apply Hacyc.
      * rewrite (proj2 (Hnew i Hi)). apply Hacyc.
      * rewrite (proj2 (Hrec k Hk)). intros [= <-] Hp.
        rewrite Forall_forall in Hparents. specialize (Hparents p Hp). lia.
  - done.
  - apply Forall_lookup. intros k ind Hind.
    pose proof (lookup_lt_Some _ _ _ Hind) as Hk.
    rewrite numbered_length in Hk.
    apply numbered_lookup in Hind as [Hidx _].
    eexists. split; [done|]. lia.
  - done.
  - intros k ind Hind.
    pose proof (lookup_lt_Some _ _ _ Hind) as Hk.
    rewrite numbered_length in Hk.
    destruct (Hrec k Hk) as [E1 E2]. by rewrite E1, E2.
Qed.

Lemma init_well_formed : well_formed init.
Proof.
  split_and!; simpl.
  - done.
  - intros i. rewrite lookup_empty. split; [by intros []|lia].
  - intros i. rewrite lookup_empty. split; [by intros []|lia].
  - intros i ind. by rewrite lookup_empty.
  - intros i ps p. by rewrite lookup_empty.
Qed.

Lemma populate_well_formed (h : history) (individuals : list individual) :
  well_formed h →
  well_formed (populate h individuals).1 ∧
  Forall (known (populate h individuals).1) (populate h individuals).2.
Proof.
  intros Hh.
  destruct (record_all_ok [] individuals h Hh)
    as (h' & Hrun & Hwf & _ & Hknown & _); [done|].
  unfold populate. unfold record_all in Hrun. by rewrite Hrun.
Qed.

(** X28: [populate] on a well-formed history (a new one, for instance)
    gives the individuals the next indices in their order, records each one
    under its index with no parent, leaves the older entries alone, and the
    history is well formed again: its keys are [1 .. genealogy_index], each
    copy carries its own index and every parent is older than its child. *)
Theorem X28_History_populate (h : history) (individuals : list individual) :
  well_formed h →
  ∃ h' marked,
    populate h individuals = (h', marked) ∧
    well_formed h' ∧
    genealogy_index h'
    = (genealogy_index h + Z.of_nat (length individuals))%Z ∧
    length marked = length individuals ∧
    (∀ k ind, marked !! k = Some ind →
       history_index ind = Some (genealogy_index h + 1 + Z.of_nat k)%Z ∧
       (∃ old, individuals !! k = Some old ∧ genome ind = genome old) ∧
       genealogy_history h' !! (genealogy_index h + 1 + Z.of_nat k)%Z
       = Some ind ∧
       genealogy_tree h' !! (genealogy_index h + 1 + Z.of_nat k)%Z
       = Some []) ∧
    (∀ i, (i ≤ genealogy_index h)%Z →
       genealogy_history h' !! i = genealogy_history h !! i ∧
       genealogy_tree h' !! i = genealogy_tree h !! i).
Proof.
  intros Hh.
  destruct (record_all_ok [] individuals h Hh)
    as (h' & Hrun & Hwf & Hindex & _ & Hold & Hrec); [done|].
  exists h', (numbered (genealogy_index h) individuals).
  split_and!; [exact Hrun|done|done|apply numbered_length| |done].
  intros k ind Hind.
  destruct (numbered_lookup _ _ _ _ Hind) as [Hidx Hold'].
  destruct (Hrec k ind Hind) as [E1 E2]. by split_and!.
Qed.

(** X29: [update] raises when one of the individuals has no
    [history_index]. When all of them are known to a well-formed history, it
    gives them the next indices in their order, records each one under its
    index with the former indices of all of them as parents, leaves the
    older entries alone, and the history is well formed again; the
    individuals it returns are known to the new history. *)
Theorem X29_History_update (h : history) (individuals : list individual) :
  well_formed h →
  (Exists (λ ind, history_index ind = None) individuals →
     update h individuals = None) ∧
  (Forall (known h) individuals →
     ∃ h' marked parents,
       update h individuals = Some (h', marked) ∧
       well_formed h' ∧
       genealogy_index h'
       = (genealogy_index h + Z.of_nat (length individuals))%Z ∧
       Some <$> parents = history_index <$> individuals ∧
       length marked = length individuals ∧
       Forall (known h') marked ∧
       (∀ k ind, marked !! k = Some ind →
          history_index ind = Some (genealogy_index h + 1 + Z.of_nat k)%Z ∧
          (∃ old, individuals !! k = Some old ∧ genome ind = genome old) ∧
          genealogy_history h' !! (genealogy_index h + 1 + Z.of_nat k)%Z
          = Some ind ∧
          genealogy_tree h' !! (genealogy_index h + 1 + Z.of_nat k)%Z
          = Some parents) ∧
       (∀ i, (i ≤ genealogy_index h)%Z →
          genealogy_history h' !! i = genealogy_history h !! i ∧
          genealogy_tree h' !! i = genealogy_tree h !! i)).
Proof.
  intros Hh. split.
  - intros Hmissing. unfold update.
    destruct (mapM history_index individuals) as [parents|] eqn:E; [|done].
    apply mapM_Some in E. exfalso.
    apply Exists_exists in Hmissing as (ind & Hin & Hnone).
    apply list_elem_of_lookup_1 in Hin as [k Hk].
    destruct (Forall2_lookup_l _ _ _ _ _ E Hk) as (p & _ & Hp).
    congruence.
  - intros Hknown. unfold update.
    assert (Hparents : ∃ parents,
              mapM history_index individuals = Some parents ∧
              Forall (λ p, 1 ≤ p ≤ genealogy_index h)%Z parents).
    { clear Hh. induction Hknown as [|ind l (p & Hp & Hr) _ IH].
      - by exists [].
      - destruct IH as (ps & Hps & Hall). exists (p :: ps).
        split; [|by constructor].
        simpl. rewrite Hp. simpl. by rewrite Hps. }
    destruct Hparents as (parents & Hmap & Hall).
    rewrite Hmap. cbn [mbind option_bind].
    destruct (record_all_ok parents individuals h Hh Hall)
      as (h' & Hrun & Hwf & Hindex & Hk' & Hold & Hrec).
    exists h', (numbered (genealogy_index h) individuals), parents.
    split_and!; [by f_equal|done|done| |apply numbered_length|done| |done].
    + apply mapM_Some in Hmap. clear -Hmap.
      induction Hmap as [|ind p l ps Hp _ IH]; [done|].
      cbn [fmap list_fmap]. by rewrite Hp, <- IH.
    + intros k ind Hind.
      destruct (numbered_lookup _ _ _ _ Hind) as [Hidx Hold'].
      destruct (Hrec k ind Hind) as [E1 E2]. by split_and!.
Qed.

End HistoryFacts.

Lemma X28_History_populate_witness :
  ∃ h' marked,
    History.populate History.init sample_founders = (h', marked) ∧
    well_formed h' ∧
    History.genealogy_index h' = 2%Z ∧
    length marked = 2 ∧
    (∀ k ind, marked !! k = Some ind →
       History.history_index ind = Some (0 + 1 + Z.of_nat k)%Z ∧
       (∃ old, sample_founders !! k = Some old ∧
          History.genome ind = History.genome old) ∧
       History.genealogy_history h' !! (0 + 1 + Z.of_nat k)%Z = Some ind ∧
       History.genealogy_tree h' !! (0 + 1 + Z.of_nat k)%Z = Some []) ∧
    (∀ i, (i ≤ 0)%Z →
       History.genealogy_history h' !! i = (∅ : gmap Z _) !! i ∧
       History.genealogy_tree h' !! i = (∅ : gmap Z _) !! i).
Proof.
  apply (X28_History_populate History.init sample_founders).
  apply init_well_formed.
Defined.

Lemma X29_History_update_witness :
  let h := (History.populate History.init sample_founders).1 in
  let individuals := (History.populate History.init sample_founders).2 in
  (Exists (λ ind, History.history_index ind = None) individuals →
     History.update h individuals = None) ∧
  (Forall (known h) individuals →
     ∃ h' marked parents,
       History.update h individuals = Some (h', marked) ∧
       well_formed h' ∧
       History.genealogy_index h'
       = (History.genealogy_index h + Z.of_nat (length individuals))%Z ∧
       Some <$> parents = History.history_index <$> individuals ∧
       length marked = length individuals ∧
       Forall (known h') marked ∧
       (∀ k ind, marked !! k = Some ind →
          History.history_index ind
          = Some (History.genealogy_index h + 1 + Z.of_nat k)%Z ∧
          (∃ old, individuals !! k = Some old ∧
             History.genome ind = History.genome old) ∧
          History.genealogy_history h'
            !! (History.genealogy_index h + 1 + Z.of_nat k)%Z = Some ind ∧
          History.genealogy_tree h'
            !! (History.genealogy_index h + 1 + Z.of_nat k)%Z
          = Some parents) ∧
       (∀ i, (i ≤ History.genealogy_index h)%Z →
          History.genealogy_history h' !! i
          = History.genealogy_history h !! i ∧
          History.genealogy_tree h' !! i = History.genealogy_tree h !! i)).
Proof.
  intros h individuals.
  apply (X29_History_update h individuals).
  apply populate_well_formed, init_well_formed.
Defined.

From Stdlib Require Import QArith.
From stdpp Require Import base option list numbers sorting.
Close Scope Q_scope.

(** * Migration between the demes *)

Section MigrationFacts.

Context {Ind : Type}.
Variable eqb : Ind → Ind → bool.
Variable selection : list Ind → Z → option (list Ind).

(** Individuals are equal only to themselves. *)
Hypothesis eqb_eq : ∀ a b, eqb a b = true ↔ a = b.

Lemma py_list_index_ok (l : list Ind) (x : Ind) :
  x ∈ l → ∃ j, py_list_index eqb l x = Some j ∧ l !! j = Some x.
Proof using eqb_eq.
  induction l as [|y l IH]; intros Hx; [by apply elem_of_nil in Hx|].
  simpl. destruct (eqb y x) eqn:E.
  - apply eqb_eq in E as ->. by exists 0.
  - apply elem_of_cons in Hx as [->|Hx].
    + assert (eqb y y = true) by (by apply eqb_eq). congruence.
    + destruct (IH Hx) as (j & -> & Hj). by exists (S j).
Qed.

(** The individuals of [rest] give their places in the deme [t] to the
    emigrants that arrive. *)
Lemma replace_loop_ok (t : nat) (arriving : list Ind) (rest : list Ind) :
  ∀ (i : nat) (populations : list (list Ind)) (deme others : list Ind),
    populations !! t = Some deme →
    deme ≡ₚ rest ++ others →
    i + length rest ≤ length arriving →
    ∃ deme',
      for_each (enumerate_from i rest)
        (λ populations '(i, immigrant),
           deme ← py_get populations (Z.of_nat t);
           indx ← py_list_index eqb deme immigrant;
           emigrant ← arriving !! i;
           py_set populations (Z.of_nat t) (<[indx := emigrant]> deme))
        populations
      = Some (<[t := deme']> populations) ∧
      deme' ≡ₚ take (length rest) (drop i arriving) ++ others.
Proof.
  induction rest as [|x rest IH]; intros i populations deme others Ht Hd Hi.
  - exists deme. simpl. by rewrite list_insert_id.
  - pose proof (lookup_lt_Some _ _ _ Ht) as Hlt.
    cbn [enumerate_from for_each].
    rewrite (py_get_nat populations t), Ht by done.
    cbn [mbind option_bind].
    destruct (py_list_index_ok deme x) as (j & -> & Hj).
    { rewrite Hd. by left. }
    cbn [mbind option_bind].
    destruct (lookup_lt_is_Some_2 arriving i) as [e He];
      [cbn [length] in Hi; lia|].
    rewrite He. cbn [mbind option_bind].
    unfold py_set. rewrite py_index_nat by done. cbn [mbind option_bind].
    destruct (IH (S i) (<[t := <[j := e]> deme]> populations)
                (<[j := e]> deme) (e :: others)) as (deme' & Hrun & Hperm).
    + apply list_lookup_insert_eq. done.
    + apply (Permutation_cons_inv (a := x)).
      rewrite (insert_cons_perm deme j e x Hj), Hd. simpl.
      rewrite perm_swap. f_equiv. apply Permutation_middle.
    + cbn [length] in Hi. lia.
    + exists deme'. split.
      * etrans; [exact Hrun|]. by rewrite list_insert_insert_eq.
      * rewrite Hperm. cbn [length].
        rewrite (drop_S arriving e i He). cbn [take app].
        symmetry. apply Permutation_middle.
Qed.

Lemma replace_immigrants_ok (t : nat) (populations : list (list Ind))
    (deme leaving stay arriving : list Ind) :
  populations !! t = Some deme →
  deme ≡ₚ leaving ++ stay →
  length leaving = length arriving →
  ∃ deme',
    replace_immigrants eqb populations (Z.of_nat t) leaving arriving
    = Some (<[t := deme']> populations) ∧
    deme' ≡ₚ arriving ++ stay.
Proof.
  intros Ht Hd Hlen.
  destruct (replace_loop_ok t arriving leaving 0 populations deme stay Ht Hd)
    as (deme' & Hrun & Hperm); [lia|].
  exists deme'. split; [exact Hrun|].
  by rewrite Hperm, drop_0, Hlen, firstn_all.
Qed.

Variable populations : list (list Ind).
Variable n : Z.
Variable migarray : option (list Z).
Variable chosen : list (list Ind).
Variable m : nat.

Let ring := migration_array populations migarray.
Let N := length populations.

Hypothesis ring_perm : ring ≡ₚ seqZ 0 (Z.of_nat N).
Hypothesis selection_ok :
  Forall2
    (λ deme emigrants,
       selection deme n = Some emigrants ∧ emigrants ⊆+ deme ∧
       length emigrants = m)
    populations chosen.

(** The first loop collects what the selection gives for each deme. *)
Lemma emigrants_loop_ok :
  for_each (seq 0 (length ring))
    (λ '(immigrants, emigrants) from_deme,
       deme ← populations !! from_deme;
       chosen ← selection deme n;
       Some (<[from_deme := chosen]> immigrants,
             <[from_deme := chosen]> emigrants))
    (replicate (length ring) ([] : list Ind),
     replicate (length ring) ([] : list Ind))
  = Some (chosen, chosen).
Proof using eqb_eq ring_perm selection_ok.
  assert (Hring : length ring = N).
  { rewrite ring_perm, length_seqZ. lia. }
  pose proof (Forall2_length _ _ _ selection_ok) as Hlen. fold N in Hlen.
  rewrite Hring.
  destruct (for_each_seq_invariant
    (λ i (st : list (list Ind) * list (list Ind)),
       st.1 = st.2 ∧ length st.2 = N ∧ take i st.2 = take i chosen)
    (λ '(immigrants, emigrants) from_deme,
       deme ← populations !! from_deme;
       chosen ← selection deme n;
       Some (<[from_deme := chosen]> immigrants,
             <[from_deme := chosen]> emigrants))
    0 N (replicate N ([] : list Ind), replicate N ([] : list Ind)))
    as ([imm em] & Hrun & Heq & Hl & Htake).
  - intros i [imm em] Hi (Heq & Hl & Htake). simpl in *. subst imm.
    destruct (lookup_lt_is_Some_2 populations i) as [deme Hdeme];
      [fold N; lia|].
    destruct (Forall2_lookup_l _ _ _ _ _ selection_ok Hdeme)
      as (c & Hc & Hsel & _).
    rewrite Hdeme. cbn [mbind option_bind].
    rewrite Hsel. cbn [mbind option_bind].
    eexists. split; [done|]. simpl.
    split_and!; [done|by rewrite length_insert|].
    rewrite (take_S_r chosen i c Hc).
    rewrite (take_S_r (<[i:=c]> em) i c)
      by (apply list_lookup_insert_eq; lia).
    by rewrite take_insert_ge, Htake by lia.
  - simpl. by rewrite length_replicate.
  - simpl in *. subst imm. rewrite Hrun. do 2 f_equal.
    + rewrite <- (firstn_all em), <- (firstn_all chosen).
      by rewrite Hl, <- Hlen.
    + rewrite <- (firstn_all em), <- (firstn_all chosen).
      by rewrite Hl, <- Hlen.
Qed.

(** The deme [t] has got the emigrants of the deme before it in the ring
    for its own. *)
Definition moved (t : nat) (deme' : list Ind) : Prop :=
  ∃ f arriving deme leaving stay,
    ring !! f = Some (Z.of_nat t) ∧
    chosen !! f = Some arriving ∧
    populations !! t = Some deme ∧
    chosen !! t = Some leaving ∧
    deme ≡ₚ leaving ++ stay ∧
    deme' ≡ₚ arriving ++ stay.

(** The demes after the migrations towards the demes of [visited]. *)
Definition migrated (visited : list Z) (current : list (list Ind)) : Prop :=
  length current = N ∧
  ∀ t deme', current !! t = Some deme' →
    (Z.of_nat t ∈ visited → moved t deme') ∧
    (Z.of_nat t ∉ visited → populations !! t = Some deme').

Lemma migrate_step_ok (visited : list Z) (current : list (list Ind))
    (f : nat) (to : Z) :
  migrated visited current →
  ring !! f = Some to →
  to ∉ visited →
  ∃ current',
    (newcomers ← py_get chosen to;
     arriving ← chosen !! f;
     replace_immigrants eqb current to newcomers arriving) = Some current' ∧
    migrated (visited ++ [to]) current'.
Proof using eqb_eq ring_perm selection_ok.
  intros [Hlen Hcur] Hf Hto.
  assert (Hring : length ring = N).
  { rewrite ring_perm, length_seqZ. lia. }
  pose proof (Forall2_length _ _ _ selection_ok) as Hchosen. fold N in Hchosen.
  assert (Hrange : (0 ≤ to < Z.of_nat N)%Z).
  { assert (Hin : to ∈ ring) by (by eapply list_elem_of_lookup_2).
    rewrite ring_perm in Hin. apply elem_of_seqZ in Hin. lia. }
  pose proof (lookup_lt_Some _ _ _ Hf) as Hflt.
  set (t := Z.to_nat to).
  assert (Et : to = Z.of_nat t) by (subst t; lia).
  destruct (lookup_lt_is_Some_2 current t) as [deme Hdeme]; [lia|].
  destruct (Hcur t deme Hdeme) as [_ Hfresh].
  specialize (Hfresh ltac:(by rewrite <- Et)).
  destruct (Forall2_lookup_l _ _ _ _ _ selection_ok Hfresh)
    as (leaving & Hleaving & _ & Hsub & Hm1).
  destruct (lookup_lt_is_Some_2 chosen f) as [arriving Harr]; [lia|].
  destruct (lookup_lt_is_Some_2 populations f) as [source Hsource];
    [fold N; lia|].
  destruct (Forall2_lookup_l _ _ _ _ _ selection_ok Hsource)
    as (arriving' & Harr' & _ & _ & Hm2).
  assert (arriving' = arriving) as -> by congruence.
  apply submseteq_Permutation in Hsub as [stay Hstay].
  rewrite (py_get_front chosen to) by lia. fold t. rewrite Hleaving.
  cbn [mbind option_bind]. rewrite Harr. cbn [mbind option_bind].
  destruct (replace_immigrants_ok t current deme leaving stay arriving
              Hdeme Hstay) as (deme' & Hrun & Hperm); [lia|].
  rewrite Et, Hrun. eexists. split; [done|].
  split; [by rewrite length_insert|].
  intros t' d Hd. destruct (decide (t' = t)) as [->|Hne].
  - rewrite list_lookup_insert_eq in Hd by lia. injection Hd as <-. split.
    + intros _. exists f, arriving, deme, leaving, stay.
      by rewrite <- Et.
    + intros Hnot. exfalso. apply Hnot, elem_of_app. right.
      by apply list_elem_of_singleton.
  - rewrite list_lookup_insert_ne in Hd by done.
    destruct (Hcur t' d Hd) as [Hv Hn]. split.
    + intros Hin. apply Hv. apply elem_of_app in Hin as [Hin|Hin]; [done|].
      apply list_elem_of_singleton in Hin. lia.
    + intros Hnot. apply Hn. intros Hin. apply Hnot, elem_of_app. by left.
Qed.

Lemma ring_loop_ok (rest : list Z) :
  ∀ (k : nat) (visited : list Z) (current : list (list Ind)),
    migrated visited current →
    (∀ j to, rest !! j = Some to → ring !! S (k + j) = Some to) →
    NoDup (visited ++ rest) →
    ∃ current',
      for_each (enumerate_from k rest)
        (λ populations '(from_deme, to_deme),
           newcomers ← py_get chosen to_deme;
           arriving ← chosen !! S from_deme;
           replace_immigrants eqb populations to_deme newcomers arriving)
        current = Some current' ∧
      migrated (visited ++ rest) current'.
Proof using eqb_eq ring_perm selection_ok.
  induction rest as [|to rest IH]; intros k visited current Hcur Hring Hnd.
  - exists current. simpl. by rewrite app_nil_r.
  - cbn [enumerate_from for_each].
    destruct (migrate_step_ok visited current (S k) to Hcur)
      as (current1 & Hrun & Hcur1).
    { rewrite <- (Nat.add_0_r k). by apply Hring. }
    { apply NoDup_app in Hnd as (_ & Hdis & _).
      intros Hin. apply (Hdis to Hin). by left. }
    rewrite Hrun. cbn [mbind option_bind].
    destruct (IH (S k) (visited ++ [to]) current1 Hcur1)
      as (current' & Hrun' & Hcur').
    + intros j to' Hj. replace (S k + j) with (k + S j) by lia.
      by apply Hring.
    + by rewrite <- app_assoc.
    + exists current'. split; [done|]. by rewrite <- app_assoc in Hcur'.
Qed.

(** X30: when individuals are equal only to themselves, the migration array
    holds each index of the demes once (the default ring does), no
    replacement operator is given, and the selection returns for every deme
    the same number of its individuals, [migRing]
    succeeds and keeps the number of demes; the deme that follows position
    [f] in the array loses its own emigrants and gets those selected in
    deme [f], the other individuals staying. *)
Theorem X30_migRing_moves_the_emigrants :
  populations ≠ [] →
  ∃ populations',
    migRing eqb selection populations n None migarray = Some populations' ∧
    length populations' = length populations ∧
    ∀ from_deme to_deme arriving,
      ring !! from_deme = Some to_deme →
      chosen !! from_deme = Some arriving →
      ∃ deme leaving stay deme',
        populations !! Z.to_nat to_deme = Some deme ∧
        chosen !! Z.to_nat to_deme = Some leaving ∧
        deme ≡ₚ leaving ++ stay ∧
        populations' !! Z.to_nat to_deme = Some deme' ∧
        deme' ≡ₚ arriving ++ stay.
Proof using eqb_eq ring_perm selection_ok.
  intros Hne.
  assert (HN : 0 < N) by (subst N; destruct populations; simpl; [done|lia]).
  assert (Hring : length ring = N).
  { rewrite ring_perm, length_seqZ. lia. }
  pose proof (Forall2_length _ _ _ selection_ok) as Hchosen. fold N in Hchosen.
  assert (Hnd : NoDup ring) by (rewrite ring_perm; apply NoDup_seqZ).
  unfold migRing. fold ring.
  rewrite emigrants_loop_ok. cbn [mbind option_bind].
  destruct (lookup_lt_is_Some_2 chosen 0) as [mig_buf Hbuf]; [lia|].
  rewrite Hbuf. cbn [mbind option_bind].
  destruct (lookup_lt_is_Some_2 ring 0) as [to0 Hto0]; [lia|].
  assert (Hsplit : ring = to0 :: drop 1 ring).
  { destruct ring as [|r0 r]; simplify_eq/=. by rewrite drop_0. }
  destruct (ring_loop_ok (drop 1 ring) 0 [] populations)
    as (current & Hrun & Hcur).
  { split; [done|]. intros t d Hd. split; [|done].
    intros Hin. by apply elem_of_nil in Hin. }
  { intros j to Hj. rewrite lookup_drop in Hj. exact Hj. }
  { simpl. rewrite Hsplit in Hnd. by apply NoDup_cons in Hnd as [_ Hnd]. }
  unfold enumerate. rewrite Hrun. cbn [mbind option_bind app].
  rewrite Hto0. cbn [mbind option_bind].
  destruct (migrate_step_ok (drop 1 ring) current 0 to0 Hcur Hto0)
    as (final & Hfinal & Hmig).
  { rewrite Hsplit in Hnd. by apply NoDup_cons in Hnd as [Hnot _]. }
  rewrite Hbuf in Hfinal. cbn [mbind option_bind] in Hfinal.
  exists final. destruct Hmig as [Hlen Hall].
  split_and!; [exact Hfinal|done|].
  intros from_deme to_deme arriving Hfrom Harr.
  assert (Hin : to_deme ∈ ring) by (by eapply list_elem_of_lookup_2).
  assert (Hrange : (0 ≤ to_deme < Z.of_nat N)%Z).
  { rewrite ring_perm in Hin. apply elem_of_seqZ in Hin. lia. }
  destruct (lookup_lt_is_Some_2 final (Z.to_nat to_deme)) as [deme' Hdeme'];
    [lia|].
  destruct (Hall _ _ Hdeme') as [Hmoved _].
  destruct Hmoved as (f & arr & deme & leaving & stay &
                      Hf & Hc & Hp & Hl & Hperm & Hperm').
  { rewrite Z2Nat.id by lia. rewrite Hsplit in Hin.
    apply elem_of_cons in Hin as [->|Hin].
    - apply elem_of_app. right. by apply list_elem_of_singleton.
    - apply elem_of_app. by left. }
  rewrite Z2Nat.id in Hf by lia.
  assert (f = from_deme) as -> by (by eapply NoDup_lookup).
  assert (arr = arriving) as -> by congruence.
  by exists deme, leaving, stay, deme'.
Qed.

End MigrationFacts.

Lemma X30_migRing_moves_the_emigrants_witness :
  ∃ populations',
    migRing Z.eqb first_n sample_demes 2 None None = Some populations' ∧
    length populations' = length sample_demes ∧
    ∀ from_deme to_deme arriving,
      migration_array sample_demes None !! from_deme = Some to_deme →
      [[1; 2]; [4; 5]; [7; 8]]%Z !! from_deme = Some arriving →
      ∃ deme leaving stay deme',
        sample_demes !! Z.to_nat to_deme = Some deme ∧
        [[1; 2]; [4; 5]; [7; 8]]%Z !! Z.to_nat to_deme = Some leaving ∧
        deme ≡ₚ leaving ++ stay ∧
        populations' !! Z.to_nat to_deme = Some deme' ∧
        deme' ≡ₚ arriving ++ stay.
Proof.
  apply (X30_migRing_moves_the_emigrants Z.eqb first_n Z.eqb_eq
           sample_demes 2 None
           [[1; 2]; [4; 5]; [7; 8]]%Z 2).
  - symmetry. apply (Permutation_cons_append [1; 2]%Z 0%Z).
  - repeat (apply Forall2_cons; split;
              [split; [reflexivity|split; [|reflexivity]];
               do 2 apply submseteq_skip; apply submseteq_cons;
               apply submseteq_nil|]).
    apply Forall2_nil_2.
  - done.
Defined.

